(** * The LLM request orchestration core of ai-notepad-app

    A shallow embedding of [src/main/llm-service.ts] (token-bucket rate
    limiter, response cache, provider adapters with fallback, error
    classification) and of [src/src/services/LLMProcessor.ts] (debouncer,
    offline spell check), followed by the properties established about
    them.  Beside them stand the renderer's IPC bridge with the preload
    script, the file handler with its backups, the selection handler, the
    window states and the undo history of the editor.

    Conventions.
    - A JavaScript string is a [string]: a sequence of code units below 256.
    - A JavaScript number inside a payload is an exact decimal
      [mant * 10^expo]; the numbers of the rate limiter are doubles.
    - Time is an integer number of milliseconds, as [Date.now()] returns it.
    - Platform services ([JSON.parse], [axios.post], [setTimeout]) are the
      fields of an environment record; [Json.parse] is a reference
      implementation used to evaluate the model on concrete payloads. *)

From Stdlib Require Import ZArith String Ascii List Bool Lia.
From Stdlib Require Import DecimalString Permutation Sorted Uint63 Floats.
Import ListNotations.
Local Open Scope string_scope.
Local Open Scope Z_scope.
Set Warnings "-register-all".

(* ================================================================== *)
(** ** JavaScript values *)
(* ================================================================== *)

Module Js.

(** A number of a payload: [mant * 10^expo]. *)
Record number := Num { mant : Z; expo : Z }.

Inductive jsval :=
| VUndefined
| VNull
| VBool (b : bool)
| VNum (n : number)
| VStr (s : string)
| VArr (l : list jsval)
| VObj (fields : list (string * jsval))
| VFunction (name : string)      (* a built-in function object *)
| VObjectProto.                  (* Object.prototype itself *)

(** What [throw] can carry in this code base. *)
Record AxiosResponse := { status : Z; data : jsval; statusText : string }.

Inductive jserror :=
| AxiosError (response : option AxiosResponse) (request : bool)
| JsError (message : string)     (* instanceof Error: Error, TypeError, SyntaxError *)
| Thrown (v : jsval).            (* any other thrown value *)

Definition number_is_zero (n : number) : bool := mant n =? 0.

(** ToBoolean. *)
Definition truthy (v : jsval) : bool :=
  match v with
  | VUndefined | VNull => false
  | VBool b => b
  | VNum n => negb (number_is_zero n)
  | VStr s => negb (s =? "")%string
  | VArr _ | VObj _ | VFunction _ | VObjectProto => true
  end.

(** [a || b] *)
Definition or_else (a b : jsval) : jsval := if truthy a then a else b.

(** *** Strings *)

Definition code (c : ascii) : Z := Z.of_N (N_of_ascii c).

(** [s.includes(sub)] *)
Fixpoint includes (s sub : string) : bool :=
  String.prefix sub s ||
  match s with
  | EmptyString => false
  | String _ r => includes r sub
  end.

(** [String.prototype.toLowerCase] on code units below 256. *)
Definition lower_char (c : ascii) : ascii :=
  let n := code c in
  if ((65 <=? n) && (n <=? 90)) || ((192 <=? n) && (n <=? 222) && negb (n =? 215))
  then ascii_of_N (Z.to_N (n + 32)) else c.

Fixpoint toLowerCase (s : string) : string :=
  match s with
  | EmptyString => EmptyString
  | String c r => String (lower_char c) (toLowerCase r)
  end.

(** The class [\s] on code units below 256: TAB, LF, VT, FF, CR, SPACE, NBSP. *)
Definition is_space (c : ascii) : bool :=
  let n := code c in ((9 <=? n) && (n <=? 13)) || (n =? 32) || (n =? 160).

Definition starts_with_space (s : string) : bool :=
  match s with
  | String c _ => is_space c
  | EmptyString => false
  end.

(** [s.split(/\s+/)]: the fields between maximal runs of white space; a
    leading or trailing run leaves an empty field, and the empty string
    splits into one empty field. *)
Fixpoint split_ws (s : string) : list string :=
  match s with
  | EmptyString => [""]
  | String c r =>
      let rest := split_ws r in
      if is_space c then
        if starts_with_space r then rest else "" :: rest
      else
        match rest with
        | w :: ws => String c w :: ws
        | [] => [String c ""]
        end
  end.

(** Payload literals are written with apostrophes where the payload has
    double quotes; [dq] puts the double quotes back. *)
Fixpoint dq (s : string) : string :=
  match s with
  | EmptyString => EmptyString
  | String c r => String (if (c =? "'")%char then "034"%char else c) (dq r)
  end.

(** Whether the code unit [c] occurs in [s]. *)
Fixpoint has_char (c : ascii) (s : string) : bool :=
  match s with
  | EmptyString => false
  | String c' r => (c' =? c)%char || has_char c r
  end.

(** *** Regular expression [/\[.*\]/s] *)

(** The suffix of [s] that starts at its first ["["]. *)
Fixpoint from_first_open (s : string) : option string :=
  match s with
  | EmptyString => None
  | String c r => if (c =? "[")%char then Some s else from_first_open r
  end.

(** The prefix of [s] that ends at its last ["]"]. *)
Fixpoint upto_last_close (s : string) : option string :=
  match s with
  | EmptyString => None
  | String c r =>
      match upto_last_close r with
      | Some p => Some (String c p)
      | None => if (c =? "]")%char then Some (String c "") else None
      end
  end.

(** [s.match(/\[.*\]/s)]: with the [s] flag the dot crosses line ends and
    the star is greedy, so the match runs from the first ["["] to the last
    ["]"] after it; [None] is JavaScript's [null]. *)
Definition match_brackets (s : string) : option string :=
  match from_first_open s with
  | Some (String _ r) =>
      match upto_last_close r with
      | Some p => Some (String "[" p)
      | None => None
      end
  | _ => None
  end.

(** [s] holds a ["["] and, somewhere after it, a ["]"]. *)
Definition has_span (s : string) : Prop :=
  exists pre mid post, s = pre ++ String "[" (mid ++ String "]" post).

(** *** Property access *)

(** The properties every plain object inherits from [Object.prototype]. *)
Definition object_prototype (k : string) : jsval :=
  if (k =? "constructor")%string then VFunction "Object"
  else if (k =? "__proto__")%string then VObjectProto
  else if (k =? "toString")%string || (k =? "toLocaleString")%string || (k =? "valueOf")%string
       || (k =? "hasOwnProperty")%string || (k =? "isPrototypeOf")%string
       || (k =? "propertyIsEnumerable")%string || (k =? "__defineGetter__")%string
       || (k =? "__defineSetter__")%string || (k =? "__lookupGetter__")%string
       || (k =? "__lookupSetter__")%string
  then VFunction k
  else VUndefined.

(** Own property of an object literal or of a parsed object: a later field
    of the same name wins. *)
Fixpoint own_property (fields : list (string * jsval)) (k : string) : option jsval :=
  match fields with
  | [] => None
  | (k', v) :: rest =>
      match own_property rest k with
      | Some v' => Some v'
      | None => if (k' =? k)%string then Some v else None
      end
  end.

(** [o[k]] on a plain object. *)
Definition obj_get (fields : list (string * jsval)) (k : string) : jsval :=
  match own_property fields k with
  | Some v => v
  | None => object_prototype k
  end.

Definition type_error_read (what k : string) : jserror :=
  JsError ("Cannot read properties of " ++ what ++ " (reading '" ++ k ++ "')").

(** [v.k] for the property names this code reads from payloads ([choices],
    [message], [content], [candidates], [parts], [text], [confidence],
    [type], [error]): none of them is a built-in of arrays, strings,
    numbers or booleans. *)
Definition get_prop (v : jsval) (k : string) : jserror + jsval :=
  match v with
  | VUndefined => inl (type_error_read "undefined" k)
  | VNull => inl (type_error_read "null" k)
  | VObj fields => inr (obj_get fields k)
  | _ => inr VUndefined
  end.

(** [v[0]] *)
Definition get_index0 (v : jsval) : jserror + jsval :=
  match v with
  | VUndefined => inl (type_error_read "undefined" "0")
  | VNull => inl (type_error_read "null" "0")
  | VArr l => inr (hd VUndefined l)
  | VObj fields => inr (obj_get fields "0")
  | VStr (String c _) => inr (VStr (String c ""))
  | _ => inr VUndefined
  end.

(** [v?.k] *)
Definition get_prop_opt (v : jsval) (k : string) : jsval :=
  match get_prop v k with
  | inr x => x
  | inl _ => VUndefined
  end.

(** *** ToString *)

Definition digits_of (z : Z) : string := NilZero.string_of_uint (N.to_uint (Z.to_N z)).

Fixpoint zeros (n : nat) : string :=
  match n with
  | O => ""
  | S k => String "0" (zeros k)
  end.

(** Drop the trailing zeros of the mantissa; [fuel] bounds the number of
    digits. *)
Fixpoint normalize (fuel : nat) (m e : Z) : Z * Z :=
  match fuel with
  | O => (m, e)
  | S f => if (m =? 0) then (0, 0)
           else if (m mod 10 =? 0) then normalize f (m / 10) (e + 1) else (m, e)
  end.

(** Number::toString for a decimal: plain notation when the decimal point
    falls within 21 digits, exponent notation otherwise. *)
Definition number_to_string (x : number) : string :=
  let '(m, e) := normalize (Z.to_nat (Z.log2 (Z.abs (mant x))) + 1) (Z.abs (mant x)) (expo x) in
  if m =? 0 then "0" else
  let sign := if mant x <? 0 then "-" else "" in
  let ds := digits_of m in
  let k := Z.of_nat (String.length ds) in
  let n := k + e in
  sign ++
  (if (k <=? n) && (n <=? 21) then ds ++ zeros (Z.to_nat (n - k))
   else if (0 <? n) && (n <=? 21) then
     substring 0 (Z.to_nat n) ds ++ "." ++ substring (Z.to_nat n) (Z.to_nat (k - n)) ds
   else if (-6 <? n) && (n <=? 0) then "0." ++ zeros (Z.to_nat (- n)) ++ ds
   else
     let ex := n - 1 in
     let es := (if ex <? 0 then "-" else "+") ++ digits_of (Z.abs ex) in
     if k =? 1 then ds ++ "e" ++ es
     else substring 0 1 ds ++ "." ++ substring 1 (Z.to_nat (k - 1)) ds ++ "e" ++ es).

Definition int_to_string (z : Z) : string :=
  (if z <? 0 then "-" else "") ++ digits_of (Z.abs z).

Fixpoint join_comma (l : list string) : string :=
  match l with
  | [] => ""
  | [x] => x
  | x :: rest => x ++ "," ++ join_comma rest
  end.

(** The TypeError of a conversion that finds no primitive. *)
Definition cannot_convert : jserror :=
  JsError "Cannot convert object to primitive value".

(** ToString, as a template literal applies it.  An array joins the
    strings of its elements.  A plain object is converted by the
    [toString] it finds, then by [valueOf]: the inherited [toString] gives
    ["[object Object]"]; an own property of that name hides it, and since
    the objects of a payload hold no function it cannot be called, nor can
    an own [valueOf], and the inherited [valueOf] returns the object: the
    conversion throws. *)
Fixpoint to_string (v : jsval) : jserror + string :=
  match v with
  | VUndefined => inr "undefined"
  | VNull => inr "null"
  | VBool true => inr "true"
  | VBool false => inr "false"
  | VNum n => inr (number_to_string n)
  | VStr s => inr s
  | VArr l =>
      (fix join (l : list jsval) : jserror + string :=
         match l with
         | [] => inr ""
         | x :: rest =>
             match (match x with
                    | VUndefined | VNull => inr ""
                    | _ => to_string x
                    end) with
             | inl e => inl e
             | inr s =>
                 match rest with
                 | [] => inr s
                 | _ => match join rest with
                        | inl e => inl e
                        | inr t => inr (s ++ "," ++ t)
                        end
                 end
             end
         end) l
  | VObj fields =>
      match own_property fields "toString" with
      | Some _ => inl cannot_convert
      | None => inr "[object Object]"
      end
  | VObjectProto => inr "[object Object]"
  | VFunction name => inr ("function " ++ name ++ "() { [native code] }")
  end.

(** *** Induction on a value and, inside it, on its elements and fields *)

Section ValueInduction.
Variable P : jsval -> Prop.
Hypothesis Hundefined : P VUndefined.
Hypothesis Hnull : P VNull.
Hypothesis Hbool : forall b, P (VBool b).
Hypothesis Hnum : forall n, P (VNum n).
Hypothesis Hstr : forall s, P (VStr s).
Hypothesis Harr : forall l, Forall P l -> P (VArr l).
Hypothesis Hobj : forall fields, Forall (fun kv => P (snd kv)) fields -> P (VObj fields).
Hypothesis Hfunction : forall name, P (VFunction name).
Hypothesis Hproto : P VObjectProto.

Fixpoint value_ind (v : jsval) : P v :=
  match v with
  | VUndefined => Hundefined
  | VNull => Hnull
  | VBool b => Hbool b
  | VNum n => Hnum n
  | VStr s => Hstr s
  | VArr l =>
      Harr l ((fix each (l : list jsval) : Forall P l :=
                 match l with
                 | [] => Forall_nil P
                 | x :: rest => Forall_cons x (value_ind x) (each rest)
                 end) l)
  | VObj fields =>
      Hobj fields
        ((fix each (l : list (string * jsval)) : Forall (fun kv => P (snd kv)) l :=
            match l with
            | [] => Forall_nil _
            | kv :: rest => Forall_cons kv (value_ind (snd kv)) (each rest)
            end) fields)
  | VFunction name => Hfunction name
  | VObjectProto => Hproto
  end.
End ValueInduction.

End Js.

(* ================================================================== *)
(** ** A reference [JSON.parse] *)
(* ================================================================== *)

(** [JSON.parse] belongs to the platform; the service model takes it from
    its environment.  This recursive-descent parser of the JSON grammar is
    the instance used to run the model on concrete payloads.  A [\u] escape
    denoting a code unit above 255 has no image in [string] and is
    refused. *)
Module Json.
Import Js.

Definition is_ws (c : ascii) : bool :=
  let n := code c in (n =? 32) || (n =? 9) || (n =? 10) || (n =? 13).

Fixpoint skip_ws (s : string) : string :=
  match s with
  | String c r => if is_ws c then skip_ws r else s
  | EmptyString => s
  end.

Definition digit (c : ascii) : option Z :=
  let n := code c in
  if (48 <=? n) && (n <=? 57) then Some (n - 48) else None.

Definition hex_digit (c : ascii) : option Z :=
  let n := code c in
  if (48 <=? n) && (n <=? 57) then Some (n - 48)
  else if (65 <=? n) && (n <=? 70) then Some (n - 55)
  else if (97 <=? n) && (n <=? 102) then Some (n - 87)
  else None.

(** Reads a possibly empty run of digits: accumulated value, number of
    digits read, rest of the input. *)
Fixpoint read_digits (s : string) (acc count : Z) : Z * Z * string :=
  match s with
  | String c r =>
      match digit c with
      | Some d => read_digits r (10 * acc + d) (count + 1)
      | None => (acc, count, s)
      end
  | EmptyString => (acc, count, s)
  end.

(** The integer part: a single [0], or a digit run that does not start
    with [0]. *)
Definition read_int (s : string) : option (Z * string) :=
  match s with
  | String c r =>
      match digit c with
      | Some 0 => Some (0, r)
      | Some _ => let '(v, _, rest) := read_digits s 0 0 in Some (v, rest)
      | None => None
      end
  | EmptyString => None
  end.

Definition read_frac (s : string) (int_part : Z) : option (Z * Z * string) :=
  match s with
  | String "." r =>
      let '(v, n, rest) := read_digits r int_part 0 in
      if n =? 0 then None else Some (v, n, rest)
  | _ => Some (int_part, 0, s)
  end.

Definition read_exp (s : string) : option (Z * string) :=
  match s with
  | String c r =>
      if (c =? "e")%char || (c =? "E")%char then
        let '(sign, r') :=
          match r with
          | String "-" t => (-1, t)
          | String "+" t => (1, t)
          | _ => (1, r)
          end in
        let '(v, n, rest) := read_digits r' 0 0 in
        if n =? 0 then None else Some (sign * v, rest)
      else Some (0, s)
  | EmptyString => Some (0, s)
  end.

Definition parse_number (s : string) : option (number * string) :=
  let '(sign, s1) := match s with String "-" t => (-1, t) | _ => (1, s) end in
  match read_int s1 with
  | None => None
  | Some (i, s2) =>
      match read_frac s2 i with
      | None => None
      | Some (m, nfrac, s3) =>
          match read_exp s3 with
          | None => None
          | Some (e, s4) => Some (Num (sign * m) (e - nfrac), s4)
          end
      end
  end.

Definition char_of_code (n : Z) : ascii := ascii_of_N (Z.to_N n).

Definition read_hex4 (s : string) : option (Z * string) :=
  match s with
  | String a (String b (String c (String d r))) =>
      match hex_digit a, hex_digit b, hex_digit c, hex_digit d with
      | Some x, Some y, Some z, Some w => Some (((x * 16 + y) * 16 + z) * 16 + w, r)
      | _, _, _, _ => None
      end
  | _ => None
  end.

(** The characters of a string literal after its opening quote. *)
Fixpoint parse_string_body (fuel : nat) (s : string) : option (string * string) :=
  match fuel with
  | O => None
  | S fuel' =>
      match s with
      | EmptyString => None
      | String c r =>
          if (c =? "034")%char then Some ("", r)
          else if (c =? "\")%char then
            match r with
            | String e r' =>
                let simple (x : Z) :=
                  match parse_string_body fuel' r' with
                  | Some (t, rest) => Some (String (char_of_code x) t, rest)
                  | None => None
                  end in
                if (e =? "034")%char then simple 34
                else if (e =? "\")%char then simple 92
                else if (e =? "/")%char then simple 47
                else if (e =? "b")%char then simple 8
                else if (e =? "f")%char then simple 12
                else if (e =? "n")%char then simple 10
                else if (e =? "r")%char then simple 13
                else if (e =? "t")%char then simple 9
                else if (e =? "u")%char then
                  match read_hex4 r' with
                  | Some (x, r'') =>
                      if x <? 256 then
                        match parse_string_body fuel' r'' with
                        | Some (t, rest) => Some (String (char_of_code x) t, rest)
                        | None => None
                        end
                      else None
                  | None => None
                  end
                else None
            | EmptyString => None
            end
          else if code c <? 32 then None
          else
            match parse_string_body fuel' r with
            | Some (t, rest) => Some (String c t, rest)
            | None => None
            end
      end
  end.

Definition parse_string (s : string) : option (string * string) :=
  parse_string_body (S (String.length s)) s.

Definition expect (lit : string) (v : jsval) (s : string) : option (jsval * string) :=
  if String.prefix lit s
  then Some (v, substring (String.length lit) (String.length s - String.length lit) s)
  else None.

(** One JSON value, then the rest of the input.  [parse_elements] reads the
    elements of an array after its ["["] and [parse_members] the members
    of an object after its ["{"]; both accumulate in reverse. *)
Fixpoint parse_value (fuel : nat) (s : string) : option (jsval * string) :=
  match fuel with
  | O => None
  | S fuel' =>
      match skip_ws s with
      | EmptyString => None
      | String c r as s' =>
          if (c =? "[")%char then
            match skip_ws r with
            | String "]" r' => Some (VArr [], r')
            | _ =>
                match parse_elements fuel' r [] with
                | Some (l, rest) => Some (VArr l, rest)
                | None => None
                end
            end
          else if (c =? "{")%char then
            match skip_ws r with
            | String "}" r' => Some (VObj [], r')
            | _ =>
                match parse_members fuel' r [] with
                | Some (l, rest) => Some (VObj l, rest)
                | None => None
                end
            end
          else if (c =? "034")%char then
            match parse_string r with
            | Some (t, rest) => Some (VStr t, rest)
            | None => None
            end
          else if (c =? "t")%char then expect "true" (VBool true) s'
          else if (c =? "f")%char then expect "false" (VBool false) s'
          else if (c =? "n")%char then expect "null" VNull s'
          else
            match parse_number s' with
            | Some (n, rest) => Some (VNum n, rest)
            | None => None
            end
      end
  end
with parse_elements (fuel : nat) (s : string) (acc : list jsval)
  : option (list jsval * string) :=
  match fuel with
  | O => None
  | S fuel' =>
      match parse_value fuel' s with
      | None => None
      | Some (v, r) =>
          match skip_ws r with
          | String "," r' => parse_elements fuel' r' (v :: acc)
          | String "]" r' => Some (rev (v :: acc), r')
          | _ => None
          end
      end
  end
with parse_members (fuel : nat) (s : string) (acc : list (string * jsval))
  : option (list (string * jsval) * string) :=
  match fuel with
  | O => None
  | S fuel' =>
      match skip_ws s with
      | String "034" r =>
          match parse_string r with
          | None => None
          | Some (k, r1) =>
              match skip_ws r1 with
              | String ":" r2 =>
                  match parse_value fuel' r2 with
                  | None => None
                  | Some (v, r3) =>
                      match skip_ws r3 with
                      | String "," r4 => parse_members fuel' r4 ((k, v) :: acc)
                      | String "}" r4 => Some (rev ((k, v) :: acc), r4)
                      | _ => None
                      end
                  end
              | _ => None
              end
          end
      | _ => None
      end
  end.

(** [JSON.parse(s)]: a value followed by nothing but white space, or a
    [SyntaxError]. *)
Definition parse (s : string) : jserror + jsval :=
  match parse_value (2 * String.length s + 2) s with
  | Some (v, rest) =>
      match skip_ws rest with
      | EmptyString => inr v
      | _ => inl (JsError "Unexpected non-whitespace character after JSON")
      end
  | None => inl (JsError "Unexpected token in JSON")
  end.

End Json.

(* ================================================================== *)
(** ** Token-bucket rate limiter ([class RateLimiter]) *)
(* ================================================================== *)

Module RateLimiter.

(** A whole number of milliseconds as the double that holds it; clock
    readings and their differences stay below 2^53, where every whole
    number is a double. *)
Definition of_Z (z : Z) : float :=
  match z with
  | Z0 => 0%float
  | Zpos _ => PrimFloat.of_uint63 (Uint63.of_Z z)
  | Zneg p => (- PrimFloat.of_uint63 (Uint63.of_Z (Zpos p)))%float
  end.

(** [Math.min(a, b)]: NaN when either is, and [-0] below [+0]. *)
Definition math_min (a b : float) : float :=
  if PrimFloat.is_nan a || PrimFloat.is_nan b then PrimFloat.nan
  else if (a <? b)%float then a
  else if (b <? a)%float then b
  else if PrimFloat.get_sign a then a else b.

Record t := {
  tokens : float;
  maxTokens : float;
  refillRate : float;           (* tokens per second *)
  lastRefillTimestamp : Z
}.

(** [new RateLimiter(maxTokens, refillRate)] at time [now]. *)
Definition create (maxTokens refillRate : float) (now : Z) : t :=
  {| tokens := maxTokens; maxTokens := maxTokens;
     refillRate := refillRate; lastRefillTimestamp := now |}.

(** [refill()] when [Date.now()] reads [now]. *)
Definition refill (now : Z) (rl : t) : t :=
  let elapsedSeconds := (of_Z (now - lastRefillTimestamp rl) / 1000)%float in
  let tokensToAdd := (elapsedSeconds * refillRate rl)%float in
  {| tokens := math_min (maxTokens rl) (tokens rl + tokensToAdd)%float;
     maxTokens := maxTokens rl;
     refillRate := refillRate rl;
     lastRefillTimestamp := now |}.

(** [this.tokens -= cost] *)
Definition debit (cost : float) (rl : t) : t :=
  {| tokens := (tokens rl - cost)%float;
     maxTokens := maxTokens rl;
     refillRate := refillRate rl;
     lastRefillTimestamp := lastRefillTimestamp rl |}.

(** [consume] runs in two pieces separated by its [await]: other code of
    the process may run between them. *)
Inductive progress :=
| Granted (rl : t)                       (* returned true without waiting *)
| Waiting (waitTime : float) (rl : t).   (* suspended on setTimeout(resolve, waitTime) *)

(** [consume(cost)] up to its [await]. *)
Definition consume_begin (cost : float) (now : Z) (rl : t) : progress :=
  let rl1 := refill now rl in
  if (cost <=? tokens rl1)%float then Granted (debit cost rl1)
  else Waiting ((cost - tokens rl1) * (1000 / refillRate rl1))%float rl1.

(** [consume(cost)] after its [await], on the limiter as it is by then:
    it refills and debits, without looking at the budget again. *)
Definition consume_resume (cost : float) (now : Z) (rl : t) : t :=
  debit cost (refill now rl).

(** A whole [consume(cost)] with nothing running during its wait;
    [sleep ms] is the time that has passed when the timer resolves.
    Returns the limiter and the time at which the call returns. *)
Definition consume (sleep : float -> Z) (cost : float) (now : Z) (rl : t) : t * Z :=
  match consume_begin cost now rl with
  | Granted rl' => (rl', now)
  | Waiting waitTime rl' =>
      let now' := now + sleep waitTime in
      (consume_resume cost now' rl', now')
  end.

(** [consume(cost)] called at each of [times] in turn, each call
    returning before the next is made. *)
Definition consume_each (sleep : float -> Z) (cost : float) (times : list Z) (rl : t) : t :=
  fold_left (fun rl now => fst (consume sleep cost now rl)) times rl.

(** The least whole number not below [x]; 0 for an infinity or NaN. *)
Definition ceiling (x : float) : Z :=
  match Prim2SF x with
  | S754_finite s m e =>
      let z := if s then Zneg m else Zpos m in
      if 0 <=? e then z * 2 ^ e else - ((- z) / 2 ^ (- e))
  | _ => 0
  end.

(** A timer that resolves after the least whole number of milliseconds
    covering the request. *)
Definition sleep_exact (ms : float) : Z := Z.max 0 (ceiling ms).

End RateLimiter.

(* ================================================================== *)
(** ** Response cache (the [lru-cache] package, as configured) *)
(* ================================================================== *)

(** [new LRUCache({max, ttl, allowStale: false})]: entries are kept most
    recently used first; an entry is stale once more than [ttl]
    milliseconds have passed since it was set. *)
Module LRUCache.
Section Cache.
Variable V : Type.

Record entry := { key : string; value : V; start : Z }.

Record t := { max : nat; ttl : Z; entries : list entry }.

Definition empty (max : nat) (ttl : Z) : t :=
  {| max := max; ttl := ttl; entries := [] |}.

Fixpoint lookup (k : string) (l : list entry) : option entry :=
  match l with
  | [] => None
  | e :: rest => if (key e =? k)%string then Some e else lookup k rest
  end.

Definition remove (k : string) (l : list entry) : list entry :=
  filter (fun e => negb (key e =? k)%string) l.

Definition with_entries (c : t) (l : list entry) : t :=
  {| max := max c; ttl := ttl c; entries := l |}.

Definition is_stale (now : Z) (c : t) (e : entry) : bool := now - start e >? ttl c.

(** [cache.get(k)]: a stale entry is deleted and reported absent; a fresh
    one becomes the most recently used. *)
Definition get (now : Z) (k : string) (c : t) : option V * t :=
  match lookup k (entries c) with
  | None => (None, c)
  | Some e =>
      if is_stale now c e then (None, with_entries c (remove k (entries c)))
      else (Some (value e), with_entries c (e :: remove k (entries c)))
  end.

(** [cache.set(k, v)]: the entry becomes the most recently used, its age
    restarts, and the least recently used entries beyond [max] go. *)
Definition set (now : Z) (k : string) (v : V) (c : t) : t :=
  with_entries c
    (firstn (max c) ({| key := k; value := v; start := now |} :: remove k (entries c))).

Definition values (c : t) : list V := map value (entries c).

End Cache.

Arguments key {V}.
Arguments value {V}.
Arguments start {V}.
Arguments max {V}.
Arguments ttl {V}.
Arguments entries {V}.
Arguments empty {V}.
Arguments lookup {V}.
Arguments remove {V}.
Arguments get {V}.
Arguments set {V}.
Arguments values {V}.
Arguments is_stale {V}.
Arguments with_entries {V}.

End LRUCache.

(* ================================================================== *)
(** ** The main-process service ([class LLMService]) *)
(* ================================================================== *)

Module Suggestion.
Import Js.
(** An element of [LLMResponse.suggestions]; the fields hold whatever the
    provider sent. *)
Record t := { text : jsval; confidence : jsval; type : jsval }.
End Suggestion.

Module ErrorCodes.
Definition UNKNOWN_ERROR := "ERR_UNKNOWN".
Definition VALIDATION_ERROR := "ERR_VALIDATION".
Definition API_ERROR := "ERR_API".
Definition NETWORK_ERROR := "ERR_NETWORK".
Definition TIMEOUT_ERROR := "ERR_TIMEOUT".
Definition AUTH_ERROR := "ERR_AUTH".
Definition LLM_PARSE_ERROR := "ERR_LLM_PARSE".
End ErrorCodes.

Module LLMService.
Import Js.

Record LLMRequest := {
  text : string;
  operation : string;
  style : option string;
  language : option string
}.

Record LLMResponse := {
  original : string;
  suggestions : list Suggestion.t;
  error : option string
}.

(** The back ends the two variants of the service talk to; [Cloud] stands
    for the cloud router [callCloudLLM] of the earlier variant. *)
Inductive Provider := LMStudio | Gemini | Ollama | Cloud | OpenAI | Anthropic.

Definition provider_eqb (p q : Provider) : bool :=
  match p, q with
  | LMStudio, LMStudio | Gemini, Gemini | Ollama, Ollama
  | Cloud, Cloud | OpenAI, OpenAI | Anthropic, Anthropic => true
  | _, _ => false
  end.

(** What the outside world does to the service. *)
Record HttpReply := {
  latency : nat;                   (* milliseconds until axios.post settles *)
  outcome : jserror + jsval        (* rejection, or response.data *)
}.

Record Env := {
  jsonParse : string -> jserror + jsval;
  post : nat -> Provider -> LLMRequest -> HttpReply;  (* the n-th axios.post *)
  sleep : float -> Z               (* time passed when setTimeout(resolve, ms) resolves *)
}.

(** What an observer of a run sees. *)
Inductive Event :=
| CacheGet (k : string)
| CacheSet (k : string)
| TokenDebit (cost : float)
| Sleep (ms : float)
| AdapterCall (p : Provider)
| HttpPost (p : Provider).

Record World := {
  provider : string;
  geminiKey : string;              (* this.apiKeys.gemini *)
  openaiKey : string;              (* this.apiKeys.openai, earlier variant *)
  anthropicKey : string;           (* this.apiKeys.anthropic, earlier variant *)
  cache : LRUCache.t LLMResponse;
  rateLimiter : RateLimiter.t;
  now : Z;
  posts : nat;                     (* axios.post calls made so far *)
  log : list Event                 (* latest event first *)
}.

Definition set_cache (c : LRUCache.t LLMResponse) (w : World) : World :=
  {| provider := provider w; geminiKey := geminiKey w;
     openaiKey := openaiKey w; anthropicKey := anthropicKey w; cache := c;
     rateLimiter := rateLimiter w; now := now w; posts := posts w; log := log w |}.

Definition set_rateLimiter (rl : RateLimiter.t) (w : World) : World :=
  {| provider := provider w; geminiKey := geminiKey w;
     openaiKey := openaiKey w; anthropicKey := anthropicKey w; cache := cache w;
     rateLimiter := rl; now := now w; posts := posts w; log := log w |}.

Definition set_now (t : Z) (w : World) : World :=
  {| provider := provider w; geminiKey := geminiKey w;
     openaiKey := openaiKey w; anthropicKey := anthropicKey w; cache := cache w;
     rateLimiter := rateLimiter w; now := t; posts := posts w; log := log w |}.

Definition set_posts (n : nat) (w : World) : World :=
  {| provider := provider w; geminiKey := geminiKey w;
     openaiKey := openaiKey w; anthropicKey := anthropicKey w; cache := cache w;
     rateLimiter := rateLimiter w; now := now w; posts := n; log := log w |}.

Definition emit (e : Event) (w : World) : World :=
  {| provider := provider w; geminiKey := geminiKey w;
     openaiKey := openaiKey w; anthropicKey := anthropicKey w; cache := cache w;
     rateLimiter := rateLimiter w; now := now w; posts := posts w; log := e :: log w |}.

(** [new LLMService()] at time [t], with the environment variables read. *)
Definition create (defaultProvider geminiApiKey : string) (t : Z) : World :=
  {| provider := if (defaultProvider =? "")%string then "local" else defaultProvider;
     geminiKey := geminiApiKey;
     openaiKey := ""; anthropicKey := "";
     cache := LRUCache.empty 100 (1000 * 60 * 60);
     rateLimiter := RateLimiter.create 10 2 t;
     now := t; posts := 0%nat; log := [] |}.

(** *** Computations that change the world and may throw *)

Definition M (A : Type) : Type := World -> (jserror + A) * World.

Definition ret {A} (a : A) : M A := fun w => (inr a, w).

Definition throw {A} (e : jserror) : M A := fun w => (inl e, w).

Definition bind {A B} (m : M A) (k : A -> M B) : M B :=
  fun w => match m w with
           | (inr a, w') => k a w'
           | (inl e, w') => (inl e, w')
           end.

(** [try { m } catch (error) { h error }]: the handler starts from the
    world the failed body left behind. *)
Definition try_catch {A} (m : M A) (h : jserror -> M A) : M A :=
  fun w => match m w with
           | (inr a, w') => (inr a, w')
           | (inl e, w') => h e w'
           end.

Definition lift {A} (r : jserror + A) : M A := fun w => (r, w).

Definition gets {A} (f : World -> A) : M A := fun w => (inr (f w), w).

Definition modify (f : World -> World) : M unit := fun w => (inr tt, f w).

Declare Scope service_scope.
Delimit Scope service_scope with service.
Notation "x <- m ;; k" := (bind m (fun x => k))
  (at level 61, m at next level, right associativity) : service_scope.
Notation "m ;;; k" := (bind m (fun _ => k))
  (at level 61, right associativity) : service_scope.
Local Open Scope service_scope.

(** *** Pure helpers *)

Definition or_empty (o : option string) : string :=
  match o with
  | Some s => s
  | None => ""
  end.

(** [x || d] on an optional string: absent and empty both give [d]. *)
Definition or_default (o : option string) (d : string) : string :=
  match o with
  | Some s => if (s =? "")%string then d else s
  | None => d
  end.

Definition generateCacheKey (request : LLMRequest) : string :=
  operation request ++ ":" ++ or_empty (style request) ++ ":"
    ++ or_empty (language request) ++ ":" ++ text request.

Definition number_0_8 : jsval := VNum (Num 8 (-1)).

(** The arrow function of [suggestions.map]. *)
Definition toSuggestion (s : jsval) : jserror + Suggestion.t :=
  match get_prop s "text" with
  | inl e => inl e
  | inr t =>
      match get_prop s "confidence" with
      | inl e => inl e
      | inr c =>
          match get_prop s "type" with
          | inl e => inl e
          | inr ty =>
              inr {| Suggestion.text := t;
                     Suggestion.confidence := or_else c number_0_8;
                     Suggestion.type := or_else ty (VStr "unknown") |}
          end
      end
  end.

(** What the arrow function makes of an element that is an object. *)
Definition suggestionOf (fields : list (string * jsval)) : Suggestion.t :=
  {| Suggestion.text := obj_get fields "text";
     Suggestion.confidence := or_else (obj_get fields "confidence") number_0_8;
     Suggestion.type := or_else (obj_get fields "type") (VStr "unknown") |}.

(** [suggestions.map(...)], stopping at the first element that throws. *)
Fixpoint mapSuggestions (l : list jsval) : jserror + list Suggestion.t :=
  match l with
  | [] => inr []
  | s :: rest =>
      match toSuggestion s with
      | inl e => inl e
      | inr x =>
          match mapSuggestions rest with
          | inl e => inl e
          | inr xs => inr (x :: xs)
          end
      end
  end.

(** From [responseText] to the suggestion list: the bracket match, then
    [JSON.parse], then the map.  [failure] is the adapter's own message. *)
Definition parseSuggestions (env : Env) (failure : string) (responseText : jsval)
  : jserror + list Suggestion.t :=
  match responseText with
  | VStr s =>
      match match_brackets s with
      | None => inl (JsError failure)
      | Some jsonMatch =>
          match jsonParse env jsonMatch with
          | inl e => inl e
          | inr (VArr l) => mapSuggestions l
          | inr _ => inl (JsError "suggestions.map is not a function")
          end
      end
  | VUndefined => inl (type_error_read "undefined" "match")
  | VNull => inl (type_error_read "null" "match")
  | _ => inl (JsError "responseText.match is not a function")
  end.

(** [a.b] on the result of an earlier access. *)
Definition dot (r : jserror + jsval) (k : string) : jserror + jsval :=
  match r with
  | inl e => inl e
  | inr v => get_prop v k
  end.

Definition at0 (r : jserror + jsval) : jserror + jsval :=
  match r with
  | inl e => inl e
  | inr v => get_index0 v
  end.

(** [response.data.choices[0].message.content] *)
Definition lmStudioText (data : jsval) : jserror + jsval :=
  dot (dot (at0 (dot (inr data) "choices")) "message") "content".

(** [response.data.candidates[0].content.parts[0].text] *)
Definition geminiText (data : jsval) : jserror + jsval :=
  dot (at0 (dot (dot (at0 (dot (inr data) "candidates")) "content") "parts")) "text".

(** The steps that end the [try] block of every adapter, from
    [responseText] to the response: the suggestions are parsed and put
    beside the request's text. *)
Definition fromText (env : Env) (failure : string) (request : LLMRequest)
    (responseText : jserror + jsval) : jserror + LLMResponse :=
  match responseText with
  | inl e => inl e
  | inr t =>
      match parseSuggestions env failure t with
      | inl e => inl e
      | inr parsed =>
          inr {| original := text request; suggestions := parsed; error := None |}
      end
  end.

(** Both adapters build a prompt for the two operations and throw on any
    other. *)
Definition checkOperation (request : LLMRequest) : M unit :=
  if (operation request =? "grammar-check")%string
     || (operation request =? "rephrase")%string
  then ret tt
  else throw (JsError ("Unsupported operation: " ++ operation request)).

(** [await axios.post(...)] *)
Definition axiosPost (env : Env) (p : Provider) (request : LLMRequest) : M jsval :=
  fun w =>
    let reply := post env (posts w) p request in
    let w' := emit (HttpPost p)
                (set_now (now w + Z.of_nat (latency reply)) (set_posts (S (posts w)) w)) in
    (outcome reply, w').

(** *** S9 [handleError] *)

(** The code and the message [handleError] settles on; building the
    message of an API error converts a value of the response body to a
    string, which can throw. *)
Definition describeError (err : jserror) : jserror + string * string :=
  match err with
  | AxiosError (Some response) _ =>
      let responseData := data response in
      let detail := get_prop_opt (get_prop_opt responseData "error") "message" in
      if truthy detail then
        match to_string detail with
        | inl e => inl e
        | inr detailText =>
            inr (ErrorCodes.API_ERROR,
                 "API Error: " ++ int_to_string (status response) ++ " - " ++ detailText)
        end
      else
        match to_string (or_else (get_prop_opt responseData "error")
                                 (VStr (statusText response))) with
        | inl e => inl e
        | inr errorText =>
            inr (ErrorCodes.API_ERROR,
                 "API Error: " ++ int_to_string (status response) ++ " - " ++ errorText)
        end
  | AxiosError None true =>
      inr (ErrorCodes.NETWORK_ERROR, "No response received from LLM service")
  | AxiosError None false =>
      inr (ErrorCodes.UNKNOWN_ERROR, "Unknown error occurred")
  | JsError message =>
      inr (if includes message "API key" then ErrorCodes.AUTH_ERROR
           else if includes message "timeout" then ErrorCodes.TIMEOUT_ERROR
           else ErrorCodes.UNKNOWN_ERROR,
           message)
  | Thrown _ => inr (ErrorCodes.UNKNOWN_ERROR, "Unknown error occurred")
  end.

(** [handleError] returns the error response, or throws while it builds
    the message. *)
Definition handleError (err : jserror) (request : LLMRequest) : jserror + LLMResponse :=
  match describeError err with
  | inl e => inl e
  | inr (errorCode, errorMessage) =>
      inr {| original := text request;
             suggestions := [];
             error := Some (errorCode ++ ": " ++ errorMessage) |}
  end.

(** What [handleError] makes of the TypeError of a failed conversion. *)
Definition conversionFailure (request : LLMRequest) : LLMResponse :=
  {| original := text request; suggestions := [];
     error := Some "ERR_UNKNOWN: Cannot convert object to primitive value" |}.

(** *** Rate limiting and caching inside the service *)

(** [await this.rateLimiter.consume(cost)] *)
Definition consume (env : Env) (cost : float) : M bool :=
  fun w =>
    match RateLimiter.consume_begin cost (now w) (rateLimiter w) with
    | RateLimiter.Granted rl =>
        (inr true, emit (TokenDebit cost) (set_rateLimiter rl w))
    | RateLimiter.Waiting waitTime rl =>
        let t := now w + sleep env waitTime in
        (inr true,
         emit (TokenDebit cost)
           (set_rateLimiter (RateLimiter.consume_resume cost t rl)
              (set_now t (emit (Sleep waitTime) w))))
    end.

(** [this.cache.get(cacheKey)] *)
Definition cacheGet (k : string) : M (option LLMResponse) :=
  fun w =>
    let '(r, c) := LRUCache.get (now w) k (cache w) in
    (inr r, emit (CacheGet k) (set_cache c w)).

(** S8 [cacheResponse] *)
Definition cacheResponse (request : LLMRequest) (response : LLMResponse) : M unit :=
  fun w =>
    let cacheKey := generateCacheKey request in
    (inr tt, emit (CacheSet cacheKey)
               (set_cache (LRUCache.set (now w) cacheKey response (cache w)) w)).

(** *** S7 [callGemini] *)

(** The body of the [try] block. *)
Definition geminiAttempt (env : Env) (request : LLMRequest) : M LLMResponse :=
  key <- gets geminiKey ;;
  (if (key =? "")%string then throw (JsError "Gemini API key not configured")
   else ret tt) ;;;
  checkOperation request ;;;
  data <- axiosPost env Gemini request ;;
  responseText <- lift (geminiText data) ;;
  parsed <- lift (parseSuggestions env "Failed to parse Gemini response" responseText) ;;
  ret {| original := text request; suggestions := parsed; error := None |}.

Definition callGemini (env : Env) (request : LLMRequest) : M LLMResponse :=
  modify (emit (AdapterCall Gemini)) ;;;
  try_catch (geminiAttempt env request) (fun error => throw error).

(** *** S6 [callLMStudio] *)

(** The body of the [try] block. *)
Definition lmStudioAttempt (env : Env) (request : LLMRequest) : M LLMResponse :=
  checkOperation request ;;;
  data <- axiosPost env LMStudio request ;;
  responseText <- lift (lmStudioText data) ;;
  parsed <- lift (parseSuggestions env "Failed to parse LM Studio response" responseText) ;;
  ret {| original := text request; suggestions := parsed; error := None |}.

(** The [catch] block: one hop to Gemini when a key is configured. *)
Definition lmStudioFallback (env : Env) (request : LLMRequest) (error : jserror)
  : M LLMResponse :=
  key <- gets geminiKey ;;
  if (key =? "")%string then throw error
  else callGemini env request.

Definition callLMStudio (env : Env) (request : LLMRequest) : M LLMResponse :=
  modify (emit (AdapterCall LMStudio)) ;;;
  try_catch (lmStudioAttempt env request) (lmStudioFallback env request).

(** *** S5 [processRequest] *)

Definition usesLocal (w : World) : bool :=
  (provider w =? "local")%string || (provider w =? "lmstudio")%string.

Definition processRequest (env : Env) (request : LLMRequest) : M LLMResponse :=
  try_catch
    (let cacheKey := generateCacheKey request in
     cachedResponse <- cacheGet cacheKey ;;
     match cachedResponse with
     | Some r => ret r
     | None =>
         consume env 1 ;;;
         isLocal <- gets usesLocal ;;
         response <- (if isLocal then callLMStudio env request
                      else callGemini env request) ;;
         cacheResponse request response ;;;
         ret response
     end)
    (fun error => lift (handleError error request)).

(** *** S3 [checkGrammar] and S4 [rephraseText] *)

Definition checkGrammar (env : Env) (text : string) (language : option string)
  : M LLMResponse :=
  let language := match language with Some l => l | None => "en" end in
  try_catch
    (if (text =? "")%string then throw (JsError "Invalid text input")
     else processRequest env {| text := text; operation := "grammar-check";
                                style := None; language := Some language |})
    (fun error =>
       lift (handleError error {| text := text; operation := "grammar-check";
                                  style := None; language := Some language |})).

Definition rephraseText (env : Env) (text : string) (style : option string)
  : M LLMResponse :=
  let style := match style with Some s => s | None => "formal" end in
  try_catch
    (if (text =? "")%string then throw (JsError "Invalid text input")
     else processRequest env {| text := text; operation := "rephrase";
                                style := Some style; language := None |})
    (fun error =>
       lift (handleError error {| text := text; operation := "rephrase";
                                  style := Some style; language := None |})).

(** *** S2 [initialize] *)

(** [apiKeys[name]] on the object handed to [initialize]; a later field of
    the same name wins. *)
Fixpoint suppliedKey (apiKeys : list (string * string)) (name : string) : option string :=
  match apiKeys with
  | [] => None
  | (k, v) :: rest =>
      match suppliedKey rest name with
      | Some v' => Some v'
      | None => if (k =? name)%string then Some v else None
      end
  end.

(** [{...this.apiKeys, ...apiKeys}[name]] *)
Definition mergedKey (present : string) (apiKeys : list (string * string)) (name : string)
  : string :=
  match suppliedKey apiKeys name with
  | Some v => v
  | None => present
  end.

(** The provider is replaced and the supplied keys are laid over the
    present ones; the cache and the limiter are those of before. *)
Definition initialize (newProvider : string) (apiKeys : list (string * string)) (w : World)
  : World :=
  {| provider := newProvider;
     geminiKey := mergedKey (geminiKey w) apiKeys "gemini";
     openaiKey := mergedKey (openaiKey w) apiKeys "openai";
     anthropicKey := mergedKey (anthropicKey w) apiKeys "anthropic";
     cache := cache w; rateLimiter := rateLimiter w; now := now w;
     posts := posts w; log := log w |}.

(** The two operations the adapters build a prompt for. *)
Definition supported (request : LLMRequest) : bool :=
  (operation request =? "grammar-check")%string || (operation request =? "rephrase")%string.

(** The world once [axios.post] to [p] has settled. *)
Definition posted (env : Env) (p : Provider) (request : LLMRequest) (w : World) : World :=
  emit (HttpPost p)
    (set_now (now w + Z.of_nat (latency (post env (posts w) p request)))
       (set_posts (S (posts w)) w)).

(** The codes [handleError] can put in front of a message. *)
Definition handledCodes : list string :=
  [ ErrorCodes.API_ERROR; ErrorCodes.NETWORK_ERROR; ErrorCodes.AUTH_ERROR;
    ErrorCodes.TIMEOUT_ERROR; ErrorCodes.UNKNOWN_ERROR ].

(** A response as the service hands it out: without an error, or without
    suggestions and with a message that [handleError] has put one of its
    codes in front of. *)
Definition classified (r : LLMResponse) : Prop :=
  error r = None
  \/ (suggestions r = []
      /\ exists code msg, error r = Some (code ++ ": " ++ msg) /\ In code handledCodes).

(** No colon occurs in the operation, the style or the language. *)
Definition plainFields (request : LLMRequest) : Prop :=
  has_char ":" (operation request) = false
  /\ has_char ":" (or_empty (style request)) = false
  /\ has_char ":" (or_empty (language request)) = false.

(** *** Observations on a run *)

Definition is_adapter_call (p : Provider) (e : Event) : bool :=
  match e with
  | AdapterCall q => provider_eqb q p
  | _ => false
  end.

Definition is_any_adapter_call (e : Event) : bool :=
  match e with AdapterCall _ => true | _ => false end.

Definition is_http (e : Event) : bool :=
  match e with HttpPost _ => true | _ => false end.

Definition is_http_to (p : Provider) (e : Event) : bool :=
  match e with
  | HttpPost q => provider_eqb q p
  | _ => false
  end.

Definition is_debit (e : Event) : bool :=
  match e with TokenDebit _ => true | _ => false end.

Definition is_cache_get (e : Event) : bool :=
  match e with CacheGet _ => true | _ => false end.

Definition is_cache_set (e : Event) : bool :=
  match e with CacheSet _ => true | _ => false end.

Definition count (f : Event -> bool) (l : list Event) : nat := length (filter f l).

(** The world in which [callLMStudio] enters its [try] block when
    [processRequest] has missed the cache: the lookup is logged, the token
    debited, the adapter call noted. *)
Definition admitted (env : Env) (request : LLMRequest) (w : World) : World :=
  emit (AdapterCall LMStudio)
    (snd (consume env 1 (snd (cacheGet (generateCacheKey request) w)))).

(** Nothing but the clock, the request counter and the log has changed. *)
Definition same_service (w w' : World) : Prop :=
  provider w' = provider w /\ geminiKey w' = geminiKey w
  /\ cache w' = cache w /\ rateLimiter w' = rateLimiter w
  /\ now w <= now w'
  /\ openaiKey w' = openaiKey w /\ anthropicKey w' = anthropicKey w.

(** A predicate on events that ignores adapter calls and HTTP requests. *)
Definition quiet (f : Event -> bool) : Prop :=
  (forall p, f (AdapterCall p) = false) /\ (forall p, f (HttpPost p) = false).

(** No response in the cache carries an error. *)
Definition no_cached_error (w : World) : Prop :=
  Forall (fun r => error r = None) (LRUCache.values (cache w)).

(** The events of a run started on a world whose log is empty. *)
Definition fresh_log (w : World) : World :=
  {| provider := provider w; geminiKey := geminiKey w;
     openaiKey := openaiKey w; anthropicKey := anthropicKey w; cache := cache w;
     rateLimiter := rateLimiter w; now := now w; posts := posts w; log := [] |}.

(** The reference environment: [Json.parse], timers that fire on time and a
    scripted network. *)
Definition refEnv (net : nat -> Provider -> LLMRequest -> HttpReply) : Env :=
  {| jsonParse := Json.parse; post := net; sleep := RateLimiter.sleep_exact |}.

End LLMService.

(* ================================================================== *)
(** ** The IPC handlers in front of the service ([registerLLMHandlers]) *)
(* ================================================================== *)

Module IpcHandlers.
Import Js.
Import LLMService.
Local Open Scope service_scope.

(** What the renderer sent: [None] for [null] or [undefined], otherwise
    the text and the optional language or style. *)
Definition Payload : Type := option (string * option string).

(** [ipcMain.handle(IpcChannels.AI_CHECK_GRAMMAR, ...)] *)
Definition onCheckGrammar (env : Env) (data : Payload) : M LLMResponse :=
  try_catch
    (match data with
     | Some (text, language) =>
         if (text =? "")%string then throw (JsError "Invalid input for grammar check")
         else checkGrammar env text language
     | None => throw (JsError "Invalid input for grammar check")
     end)
    (fun error => throw error).

(** [ipcMain.handle(IpcChannels.AI_REPHRASE_TEXT, ...)] *)
Definition onRephraseText (env : Env) (data : Payload) : M LLMResponse :=
  try_catch
    (match data with
     | Some (text, style) =>
         if (text =? "")%string then throw (JsError "Invalid input for text rephrasing")
         else rephraseText env text style
     | None => throw (JsError "Invalid input for text rephrasing")
     end)
    (fun error => throw error).

(** What [SETTINGS_SAVE] reads from the settings it is sent. *)
Record Settings := {
  llmProvider : option string;
  apiKeys : option (list (string * string))
}.

(** [ipcMain.handle(IpcChannels.SETTINGS_SAVE, ...)]; [None] is a payload
    that is not an object.  [Object.assign(settingsStore.store, settings)]
    reads the settings store, which throws [storeFault] when it cannot be
    read, and merges the settings into the object the store has handed
    out; the handler reaches the service after that. *)
Definition onSettingsSave (storeFault : option jserror) (settings : option Settings)
  : M bool :=
  try_catch
    (match settings with
     | None => throw (JsError "Invalid settings object")
     | Some s =>
         (match storeFault with
          | Some e => throw e
          | None => ret tt
          end) ;;;
         (match llmProvider s with
          | Some p =>
              if (p =? "")%string then ret tt
              else modify (initialize p (match apiKeys s with
                                         | Some keys => keys
                                         | None => []
                                         end))
          | None => ret tt
          end) ;;;
         ret true
     end)
    (fun error => throw error).

End IpcHandlers.

(* ================================================================== *)
(** ** The earlier variant of the service (Ollama, OpenAI, Anthropic) *)
(* ================================================================== *)

(** [class LLMService] as [src/unnamed/part_000] has it: the local model is
    served by Ollama and the fallback goes through [callCloudLLM] to OpenAI
    or Anthropic.  The state, the cache, the limiter and the response
    parsing are those of the service above. *)
Module LLMServiceOllama.
Import Js.
Import LLMService.
Local Open Scope service_scope.

(** [new LLMService()] at time [t], with the environment variables read. *)
Definition create (defaultProvider openaiApiKey anthropicApiKey : string) (t : Z) : World :=
  {| provider := if (defaultProvider =? "")%string then "local" else defaultProvider;
     geminiKey := "";
     openaiKey := openaiApiKey; anthropicKey := anthropicApiKey;
     cache := LRUCache.empty 100 (1000 * 60 * 60);
     rateLimiter := RateLimiter.create 10 2 t;
     now := t; posts := 0%nat; log := [] |}.

(** [response.data.response] *)
Definition ollamaText (data : jsval) : jserror + jsval :=
  dot (inr data) "response".

(** [response.data.content[0].text] *)
Definition anthropicText (data : jsval) : jserror + jsval :=
  dot (at0 (dot (inr data) "content")) "text".

(** [callOpenAI]; the response is read as LM Studio's is, from
    [response.data.choices[0].message.content]. *)
Definition callOpenAI (env : Env) (request : LLMRequest) : M LLMResponse :=
  modify (emit (AdapterCall OpenAI)) ;;;
  checkOperation request ;;;
  data <- axiosPost env OpenAI request ;;
  responseText <- lift (lmStudioText data) ;;
  parsed <- lift (parseSuggestions env "Failed to parse OpenAI response" responseText) ;;
  ret {| original := text request; suggestions := parsed; error := None |}.

(** [callAnthropic] *)
Definition callAnthropic (env : Env) (request : LLMRequest) : M LLMResponse :=
  modify (emit (AdapterCall Anthropic)) ;;;
  checkOperation request ;;;
  data <- axiosPost env Anthropic request ;;
  responseText <- lift (anthropicText data) ;;
  parsed <- lift (parseSuggestions env "Failed to parse Anthropic response" responseText) ;;
  ret {| original := text request; suggestions := parsed; error := None |}.

(** The cloud provider [callCloudLLM] settles on: Anthropic when it is the
    selected provider or when it alone has a key, OpenAI otherwise. *)
Definition cloudProvider (w : World) : Provider :=
  let useAnthropicFallback :=
    (openaiKey w =? "")%string && negb (anthropicKey w =? "")%string in
  if (provider w =? "anthropic")%string || useAnthropicFallback then Anthropic else OpenAI.

(** The body of the [try] block of S7 [callCloudLLM]. *)
Definition cloudAttempt (env : Env) (request : LLMRequest) : M LLMResponse :=
  chosen <- gets cloudProvider ;;
  openai <- gets openaiKey ;;
  anthropic <- gets anthropicKey ;;
  match chosen with
  | Anthropic =>
      if (anthropic =? "")%string
      then throw (JsError "Anthropic API key not configured")
      else callAnthropic env request
  | _ =>
      if (openai =? "")%string
      then throw (JsError "OpenAI API key not configured")
      else callOpenAI env request
  end.

Definition callCloudLLM (env : Env) (request : LLMRequest) : M LLMResponse :=
  modify (emit (AdapterCall Cloud)) ;;;
  try_catch (cloudAttempt env request) (fun error => throw error).

(** The body of the [try] block of S6 [callLocalLLM]. *)
Definition localAttempt (env : Env) (request : LLMRequest) : M LLMResponse :=
  checkOperation request ;;;
  data <- axiosPost env Ollama request ;;
  responseText <- lift (ollamaText data) ;;
  parsed <- lift (parseSuggestions env "Failed to parse LLM response" responseText) ;;
  ret {| original := text request; suggestions := parsed; error := None |}.

(** Whether [this.apiKeys.openai || this.apiKeys.anthropic] is truthy. *)
Definition hasCloudKey (w : World) : bool :=
  negb (openaiKey w =? "")%string || negb (anthropicKey w =? "")%string.

(** The [catch] block of [callLocalLLM]: one hop to the cloud when a key is
    configured. *)
Definition localFallback (env : Env) (request : LLMRequest) (error : jserror)
  : M LLMResponse :=
  configured <- gets hasCloudKey ;;
  if configured then callCloudLLM env request else throw error.

Definition callLocalLLM (env : Env) (request : LLMRequest) : M LLMResponse :=
  modify (emit (AdapterCall Ollama)) ;;;
  try_catch (localAttempt env request) (localFallback env request).

(** S9 [handleError] of this variant: one format for API errors. *)
Definition describeError (err : jserror) : jserror + string * string :=
  match err with
  | AxiosError (Some response) _ =>
      match to_string (or_else (get_prop_opt (data response) "error")
                               (VStr (statusText response))) with
      | inl e => inl e
      | inr errorText =>
          inr (ErrorCodes.API_ERROR,
               "API Error: " ++ int_to_string (status response) ++ " - " ++ errorText)
      end
  | AxiosError None true =>
      inr (ErrorCodes.NETWORK_ERROR, "No response received from LLM service")
  | AxiosError None false =>
      inr (ErrorCodes.UNKNOWN_ERROR, "Unknown error occurred")
  | JsError message =>
      inr (if includes message "API key" then ErrorCodes.AUTH_ERROR
           else if includes message "timeout" then ErrorCodes.TIMEOUT_ERROR
           else ErrorCodes.UNKNOWN_ERROR,
           message)
  | Thrown _ => inr (ErrorCodes.UNKNOWN_ERROR, "Unknown error occurred")
  end.

Definition handleError (err : jserror) (request : LLMRequest) : jserror + LLMResponse :=
  match describeError err with
  | inl e => inl e
  | inr (errorCode, errorMessage) =>
      inr {| original := text request;
             suggestions := [];
             error := Some (errorCode ++ ": " ++ errorMessage) |}
  end.

(** S5 [processRequest] *)
Definition processRequest (env : Env) (request : LLMRequest) : M LLMResponse :=
  try_catch
    (let cacheKey := generateCacheKey request in
     cachedResponse <- cacheGet cacheKey ;;
     match cachedResponse with
     | Some r => ret r
     | None =>
         consume env 1 ;;;
         isLocal <- gets (fun w => (provider w =? "local")%string) ;;
         response <- (if isLocal then callLocalLLM env request
                      else callCloudLLM env request) ;;
         cacheResponse request response ;;;
         ret response
     end)
    (fun error => lift (handleError error request)).

(** The world in which [callLocalLLM] enters its [try] block when
    [processRequest] has missed the cache. *)
Definition admitted (env : Env) (request : LLMRequest) (w : World) : World :=
  emit (AdapterCall Ollama)
    (snd (consume env 1 (snd (cacheGet (generateCacheKey request) w)))).

(** Calls of [callOpenAI] or [callAnthropic]. *)
Definition is_cloud_provider_call (e : Event) : bool :=
  is_adapter_call OpenAI e || is_adapter_call Anthropic e.

End LLMServiceOllama.

(* ================================================================== *)
(** ** The renderer's debouncer ([class Debouncer]) *)
(* ================================================================== *)

(** The debouncer is driven by two kinds of events: a call of [debounce],
    and the firing of the timer it has set.  Each call hands out a new
    promise, numbered in call order.  [W] is the state the debounced
    function works on and [R] what it resolves with. *)
Module Debouncer.
Import Js.
Section Debounce.
Variables W R : Type.

(** [func(...args)], run at a given time. *)
Definition job : Type := Z -> W -> (jserror + R) * W.

Record timer := { due : Z; owner : nat; work : job }.

Record t := {
  timeout : option timer;        (* the timer of the last call, until it fires *)
  lastCall : Z;
  delay : Z;
  promises : nat;                (* promises handed out so far *)
  settled : list (nat * (jserror + R));  (* promise, and what it settled with *)
  invocations : nat              (* calls of the underlying function so far *)
}.

(** [new Debouncer(delay)] *)
Definition create (delay : Z) : t :=
  {| timeout := None; lastCall := 0; delay := delay;
     promises := 0; settled := []; invocations := 0 |}.

(** [debounce(func, ...args)] when [Date.now()] reads [now]: the timer of
    an earlier call is cleared, and with it the only way that call's
    promise could settle. *)
Definition debounce (now : Z) (func : job) (d : t) : nat * t :=
  let timeSinceLastCall := now - lastCall d in
  let id := promises d in
  (id,
   {| timeout := Some {| due := now + Z.max 0 (delay d - timeSinceLastCall);
                         owner := id; work := func |};
      lastCall := lastCall d;
      delay := delay d;
      promises := S id;
      settled := settled d;
      invocations := invocations d |}).

(** The timer callback, run at [now]; [None] when no timer is set or the
    timer is not due yet. *)
Definition fire (now : Z) (d : t) (w : W) : option (t * W) :=
  match timeout d with
  | None => None
  | Some tm =>
      if due tm <=? now then
        let '(result, w') := work tm now w in
        Some ({| timeout := None;
                 lastCall := now;
                 delay := delay d;
                 promises := promises d;
                 settled := (owner tm, result) :: settled d;
                 invocations := S (invocations d) |}, w')
      else None
  end.

Inductive event :=
| Call (now : Z) (func : job)
| Fire (now : Z).

Definition step (e : event) (s : t * W) : option (t * W) :=
  match e with
  | Call now func => Some (snd (debounce now func (fst s)), snd s)
  | Fire now => fire now (fst s) (snd s)
  end.

Fixpoint run (es : list event) (s : t * W) : option (t * W) :=
  match es with
  | [] => Some s
  | e :: rest =>
      match step e s with
      | Some s' => run rest s'
      | None => None
      end
  end.

(** The times at which the events of a run fire the timer. *)
Fixpoint fire_times (es : list event) : list Z :=
  match es with
  | [] => []
  | Fire now :: rest => now :: fire_times rest
  | Call _ _ :: rest => fire_times rest
  end.

(** Every time of [ts] comes at least [gap] after the one before it, the
    first at least [gap] after [last]. *)
Fixpoint spaced (gap last : Z) (ts : list Z) : Prop :=
  match ts with
  | [] => True
  | t :: rest => last + gap <= t /\ spaced gap t rest
  end.

(** What promise [id] has settled with, if it has. *)
Fixpoint outcome_of (id : nat) (l : list (nat * (jserror + R))) : option (jserror + R) :=
  match l with
  | [] => None
  | (i, r) :: rest => if Nat.eqb i id then Some r else outcome_of id rest
  end.

Definition result (id : nat) (d : t) : option (jserror + R) := outcome_of id (settled d).

Definition owns_timer (id : nat) (d : t) : bool :=
  match timeout d with
  | Some tm => Nat.eqb (owner tm) id
  | None => false
  end.

(** A promise that was handed out and has not settled. *)
Definition unsettled (id : nat) (d : t) : Prop :=
  (id < promises d)%nat /\ result id d = None.

(** A promise that was handed out, has not settled and has no timer left. *)
Definition abandoned (id : nat) (d : t) : Prop :=
  (id < promises d)%nat /\ result id d = None /\ owns_timer id d = false.

(** Promise numbers in use are below the counter. *)
Definition well_formed (d : t) : Prop :=
  (forall id r, In (id, r) (settled d) -> (id < promises d)%nat)
  /\ (forall tm, timeout d = Some tm -> (owner tm < promises d)%nat).

(** A timer is never due before [delay] has passed since the last
    invocation. *)
Definition paced (d : t) : Prop :=
  forall tm, timeout d = Some tm -> lastCall d + delay d <= due tm.

(** A burst: calls with no timer firing between them. *)
Definition burst (calls : list (Z * job)) : list event :=
  map (fun c => Call (fst c) (snd c)) calls.

End Debounce.

Arguments due {W R}.
Arguments owner {W R}.
Arguments work {W R}.
Arguments timeout {W R}.
Arguments lastCall {W R}.
Arguments delay {W R}.
Arguments promises {W R}.
Arguments settled {W R}.
Arguments invocations {W R}.
Arguments create {W R}.
Arguments debounce {W R}.
Arguments fire {W R}.
Arguments Call {W R}.
Arguments Fire {W R}.
Arguments step {W R}.
Arguments run {W R}.
Arguments fire_times {W R}.
Arguments result {W R}.
Arguments outcome_of {R}.
Arguments owns_timer {W R}.
Arguments unsettled {W R}.
Arguments abandoned {W R}.
Arguments well_formed {W R}.
Arguments paced {W R}.
Arguments burst {W R}.

End Debouncer.

(* ================================================================== *)
(** ** The renderer's processor ([class LLMProcessor]) *)
(* ================================================================== *)

Module LLMProcessor.
Import Js.
Import LLMService.

(** The literal [commonMisspellings]. *)
Definition commonMisspellings : list (string * jsval) :=
  [ ("teh", VStr "the"); ("adn", VStr "and"); ("waht", VStr "what");
    ("thier", VStr "their"); ("recieve", VStr "receive"); ("alot", VStr "a lot");
    ("seperate", VStr "separate"); ("definately", VStr "definitely");
    ("accomodate", VStr "accommodate"); ("occured", VStr "occurred");
    ("untill", VStr "until"); ("wierd", VStr "weird") ].

(** [commonMisspellings[word.toLowerCase()]] *)
Definition misspelling (word : string) : jsval :=
  obj_get commonMisspellings (toLowerCase word).

Record Misspelled := { m_original : string; suggestion : jsval }.

Definition findMisspelledWords (words : list string) : list Misspelled :=
  map (fun word => {| m_original := word; suggestion := misspelling word |})
      (filter (fun word => truthy (misspelling word)) words).

Definition number_0_7 : jsval := VNum (Num 7 (-1)).

(** S6 [handleOfflineMode] *)
Definition handleOfflineMode (text : string) : LLMResponse :=
  let words := split_ws text in
  let misspelledWords := findMisspelledWords words in
  let suggestions :=
    map (fun word => {| Suggestion.text := suggestion word;
                        Suggestion.confidence := number_0_7;
                        Suggestion.type := VStr "spelling" |}) misspelledWords in
  {| original := text;
     suggestions := suggestions;
     error := if Nat.eqb (length suggestions) 0
              then Some "No issues found in offline mode" else None |}.

(** What the renderer's surroundings do. *)
Inductive Channel := AI_CHECK_GRAMMAR | AI_REPHRASE_TEXT.

Record Env := {
  onLine : Z -> bool;            (* navigator.onLine, read at a given time *)
  invoke : nat -> Channel -> string -> option string
           -> jserror + option LLMResponse
                                 (* the n-th IPCBridge.invoke: rejection, or the
                                    reply ([None] for null or undefined) *)
}.

Inductive Event :=
| IpcInvoke (c : Channel)
| CacheWrite (k : string) (r : LLMResponse).

(** The state the debounced closures work on. *)
Record Store := {
  cache : LRUCache.t LLMResponse;
  invokes : nat;                 (* IPCBridge.invoke calls made so far *)
  log : list Event               (* latest event first *)
}.

(** A debounced closure resolves with a response, or with the [null] or
    [undefined] the main process replied ([None]). *)
Record t := {
  store : Store;
  requestDebouncer : Debouncer.t Store (option LLMResponse)
}.

(** [new LLMProcessor()] *)
Definition create : t :=
  {| store := {| cache := LRUCache.empty 100 (1000 * 60 * 60);
                 invokes := 0; log := [] |};
     requestDebouncer := Debouncer.create 500 |}.

(** [!response.error] *)
Definition no_error (r : LLMResponse) : bool :=
  match error r with
  | None => true
  | Some s => (s =? "")%string
  end.

(** The closure handed to [debounce] by [checkGrammar] and [rephraseText];
    the two differ in the channel, the cache key and the option sent. *)
Definition request_job (env : Env) (c : Channel) (cacheKey text : string)
    (opt : option string) : Debouncer.job Store (option LLMResponse) :=
  fun now s =>
    if negb (onLine env now) then (inr (Some (handleOfflineMode text)), s)
    else
      let s1 := {| cache := cache s; invokes := S (invokes s);
                   log := IpcInvoke c :: log s |} in
      match invoke env (invokes s) c text opt with
      | inl e => (inl e, s1)
      | inr None => (inr None, s1)
      | inr (Some response) =>
          if no_error response then
            (inr (Some response),
             {| cache := LRUCache.set now cacheKey response (cache s1);
                invokes := invokes s1;
                log := CacheWrite cacheKey response :: log s1 |})
          else (inr (Some response), s1)
      end.

(** What a call of [checkGrammar] or [rephraseText] gives its caller at
    once: the cached response, or a promise of the debouncer. *)
Inductive answer :=
| Returned (r : LLMResponse)
| Promised (promise : nat).

Definition submit (env : Env) (c : Channel) (cacheKey text : string)
    (opt : option string) (now : Z) (p : t) : answer * t :=
  match LRUCache.get now cacheKey (cache (store p)) with
  | (Some cachedResponse, c') =>
      (Returned cachedResponse,
       {| store := {| cache := c'; invokes := invokes (store p); log := log (store p) |};
          requestDebouncer := requestDebouncer p |})
  | (None, c') =>
      let '(id, d) := Debouncer.debounce now (request_job env c cacheKey text opt)
                        (requestDebouncer p) in
      (Promised id,
       {| store := {| cache := c'; invokes := invokes (store p); log := log (store p) |};
          requestDebouncer := d |})
  end.

(** S3 [checkGrammar] *)
Definition checkGrammar (env : Env) (text : string) (language : option string)
    (now : Z) (p : t) : answer * t :=
  submit env AI_CHECK_GRAMMAR ("grammar:" ++ or_default language "en" ++ ":" ++ text)
         text language now p.

(** S4 [rephraseText] *)
Definition rephraseText (env : Env) (text : string) (style : option string)
    (now : Z) (p : t) : answer * t :=
  submit env AI_REPHRASE_TEXT ("rephrase:" ++ or_default style "formal" ++ ":" ++ text)
         text style now p.

(** The debounce timer fires at [now]. *)
Definition timer_fires (now : Z) (p : t) : option t :=
  match Debouncer.fire now (requestDebouncer p) (store p) with
  | Some (d, s) => Some {| store := s; requestDebouncer := d |}
  | None => None
  end.

(** [options?.language] and [options?.style] *)
Record BatchOptions := { language : option string; style : option string }.

Definition optionOf {A} (f : BatchOptions -> option A) (options : option BatchOptions)
  : option A :=
  match options with
  | Some o => f o
  | None => None
  end.

(** S5 [processBatch]: [texts.map] calls [checkGrammar] or [rephraseText]
    on each text in turn ([batchCall] is the arrow function), all within
    one turn of the event loop; [clock i] is what [Date.now()] reads during
    the i-th call.  The result is one answer per text, to be awaited
    together by [Promise.all]. *)
Definition batchCall (env : Env) (operation : string) (options : option BatchOptions)
    (text : string) (now : Z) (p : t) : answer * t :=
  if (operation =? "grammar-check")%string
  then checkGrammar env text (optionOf language options) now p
  else rephraseText env text (optionOf style options) now p.

Fixpoint processBatchFrom (env : Env) (texts : list string) (operation : string)
    (options : option BatchOptions) (clock : nat -> Z) (i : nat) (p : t)
  : list answer * t :=
  match texts with
  | [] => ([], p)
  | text :: rest =>
      let '(a, p1) := batchCall env operation options text (clock i) p in
      let '(others, p2) := processBatchFrom env rest operation options clock (S i) p1 in
      (a :: others, p2)
  end.

Definition processBatch (env : Env) (texts : list string) (operation : string)
    (options : option BatchOptions) (clock : nat -> Z) (p : t) : list answer * t :=
  processBatchFrom env texts operation options clock 0 p.

(** What the promise behind an answer has settled with, if it has. *)
Definition settledWith (p : t) (a : answer) : option (jserror + option LLMResponse) :=
  match a with
  | Returned r => Some (inr (Some r))
  | Promised id => Debouncer.result id (requestDebouncer p)
  end.

(** [Promise.all] fulfils once every promise has fulfilled. *)
Definition allFulfilled (answers : list answer) (p : t) : bool :=
  forallb (fun a => match settledWith p a with
                    | Some (inr _) => true
                    | _ => false
                    end) answers.

(** What can happen to the processor: a call of one of its methods, or the
    debounce timer firing. *)
Inductive action :=
| CheckGrammar (text : string) (language : option string) (now : Z)
| RephraseText (text : string) (style : option string) (now : Z)
| TimerFires (now : Z).

Definition act (env : Env) (a : action) (p : t) : option t :=
  match a with
  | CheckGrammar text language now => Some (snd (checkGrammar env text language now p))
  | RephraseText text style now => Some (snd (rephraseText env text style now p))
  | TimerFires now => timer_fires now p
  end.

Fixpoint acts (env : Env) (l : list action) (p : t) : option t :=
  match l with
  | [] => Some p
  | a :: rest =>
      match act env a p with
      | Some p' => acts env rest p'
      | None => None
      end
  end.

Definition is_invoke (e : Event) : bool :=
  match e with IpcInvoke _ => true | _ => false end.

End LLMProcessor.

(* ================================================================== *)
(** ** Concrete worlds, requests and payloads *)
(* ================================================================== *)

Module Fixtures.
Import Js.
Import LLMService.

(** The body LM Studio answers with when the model printed [content]. *)
Definition lmStudioData (content : string) : jsval :=
  VObj [("choices", VArr [VObj [("message", VObj [("content", VStr content)])]])].

(** The body Gemini answers with when the model printed [content]. *)
Definition geminiData (content : string) : jsval :=
  VObj [("candidates",
         VArr [VObj [("content", VObj [("parts", VArr [VObj [("text", VStr content)]])])]])].

(** The body Ollama answers with. *)
Definition ollamaData (content : string) : jsval :=
  VObj [("response", VStr content)].

(** The body Anthropic answers with; OpenAI's has the shape of LM
    Studio's. *)
Definition anthropicData (content : string) : jsval :=
  VObj [("content", VArr [VObj [("text", VStr content)]])].

(** A network on which every provider answers [content] after 100 ms. *)
Definition answers (content : string) : nat -> Provider -> LLMRequest -> HttpReply :=
  fun _ p _ =>
    {| latency := 100;
       outcome := inr (match p with
                       | LMStudio | OpenAI => lmStudioData content
                       | Gemini => geminiData content
                       | Ollama => ollamaData content
                       | Anthropic => anthropicData content
                       | Cloud => VNull
                       end) |}.

(** A network on which no request gets a response. *)
Definition unreachable : nat -> Provider -> LLMRequest -> HttpReply :=
  fun _ _ _ => {| latency := 5; outcome := inl (AxiosError None true) |}.

(** A network on which every request is answered with status 500 and the
    body [{"error":{"toString":1}}]. *)
Definition unprintable : nat -> Provider -> LLMRequest -> HttpReply :=
  fun _ _ _ =>
    {| latency := 5;
       outcome := inl (AxiosError
                         (Some {| status := 500;
                                  data := VObj [("error",
                                                 VObj [("toString", VNum (Num 1 0))])];
                                  statusText := "Internal Server Error" |})
                         true) |}.

(** A network whose first request gets no response and whose later ones
    are answered with [content]. *)
Definition recovers (content : string) : nat -> Provider -> LLMRequest -> HttpReply :=
  fun n p r => match n with O => unreachable n p r | S _ => answers content n p r end.

(** The service as constructed with no environment variable set: provider
    [local], no Gemini key. *)
Definition localService : World := create "" "" 0.

(** The earlier variant of the service with an Anthropic key only. *)
Definition ollamaServiceWithKey : World := LLMServiceOllama.create "" "" "secret" 0.

(** The earlier variant of the service with no key. *)
Definition ollamaService : World := LLMServiceOllama.create "" "" "" 0.

(** The same with a Gemini key configured. *)
Definition localServiceWithKey : World := create "" "secret" 0.

Definition grammarRequest (t : string) : LLMRequest :=
  {| text := t; operation := "grammar-check"; style := None; language := Some "en" |}.

Definition oneCorrection : string :=
  dq "[{'text':'He goes to school','confidence':0.95,'type':'grammar'}]".

(** A debounced function that resolves with [s] whenever it runs. *)
Definition say (s : string) : Debouncer.job unit string := fun _ w => (inr s, w).

(** A renderer that is on line, with a main process that answers every
    request with a response without suggestions. *)
Definition answering : LLMProcessor.Env :=
  {| LLMProcessor.onLine := fun _ => true;
     LLMProcessor.invoke := fun _ _ text _ =>
       inr (Some {| original := text; suggestions := []; error := None |}) |}.

(** A renderer without connection; the main process is not reached. *)
Definition offline : LLMProcessor.Env :=
  {| LLMProcessor.onLine := fun _ => false;
     LLMProcessor.invoke := fun _ _ _ _ => inr None |}.

(** A moment at which the clock reads more than the debounce delay. *)
Definition noon : Z := 1000000.

End Fixtures.


(* ================================================================== *)
(** ** IPC channels, the renderer's bridge and the preload script *)
(* ================================================================== *)

(** [IpcChannels] of [constants.ts]. *)
Module IpcChannels.

Definition FILE_NEW := "file:new".
Definition FILE_OPEN := "file:open".
Definition FILE_SAVE := "file:save".
Definition FILE_SAVE_AS := "file:save-as".
Definition GET_RECENT_FILES := "file:get-recent".
Definition EDIT_UNDO := "edit:undo".
Definition EDIT_REDO := "edit:redo".
Definition EDIT_CUT := "edit:cut".
Definition EDIT_COPY := "edit:copy".
Definition EDIT_PASTE := "edit:paste".
Definition EDIT_SELECT_ALL := "edit:select-all".
Definition EDIT_FIND := "edit:find".
Definition EDIT_REPLACE := "edit:replace".
Definition VIEW_TOGGLE_THEME := "view:toggle-theme".
Definition VIEW_ZOOM_IN := "view:zoom-in".
Definition VIEW_ZOOM_OUT := "view:zoom-out".
Definition VIEW_ZOOM_RESET := "view:zoom-reset".
Definition AI_CHECK_GRAMMAR := "ai:check-grammar".
Definition AI_REPHRASE_TEXT := "ai:rephrase-text".
Definition SETTINGS_GET := "settings:get".
Definition SETTINGS_SAVE := "settings:save".
Definition SHOW_SETTINGS := "ui:show-settings".
Definition SHOW_DOCUMENTATION := "ui:show-documentation".
Definition WINDOW_FOCUSED := "window:focused".
Definition WINDOW_BLURRED := "window:blurred".

(** [Object.values(IpcChannels)] *)
Definition values : list string :=
  [ FILE_NEW; FILE_OPEN; FILE_SAVE; FILE_SAVE_AS; GET_RECENT_FILES;
    EDIT_UNDO; EDIT_REDO; EDIT_CUT; EDIT_COPY; EDIT_PASTE; EDIT_SELECT_ALL;
    EDIT_FIND; EDIT_REPLACE;
    VIEW_TOGGLE_THEME; VIEW_ZOOM_IN; VIEW_ZOOM_OUT; VIEW_ZOOM_RESET;
    AI_CHECK_GRAMMAR; AI_REPHRASE_TEXT;
    SETTINGS_GET; SETTINGS_SAVE;
    SHOW_SETTINGS; SHOW_DOCUMENTATION;
    WINDOW_FOCUSED; WINDOW_BLURRED ].

End IpcChannels.

(** [class IPCBridge] of [src/src/services/IPCBridge.ts]. *)
Module IPCBridge.
Import Js.

(** S5 [validateChannel] *)
Definition validateChannel (channel : string) : bool :=
  negb (channel =? "")%string && existsb (String.eqb channel) IpcChannels.values.

(** [Object.prototype.hasOwnProperty.call(data, k)] on a plain object. *)
Definition hasOwn (fields : list (string * jsval)) (k : string) : bool :=
  match own_property fields k with
  | Some _ => true
  | None => false
  end.

(** S6 [validateData].  On an object the loop visits every own property
    once, with the value the property has: a field overridden by a later
    field of the same name is not seen.  On an array it visits the
    elements.  [Object.prototype] itself owns both forbidden names. *)
Fixpoint validateData (data : jsval) : bool :=
  match data with
  | VObj fields =>
      negb (hasOwn fields "__proto__" || hasOwn fields "constructor")
      && (fix each (l : list (string * jsval)) : bool :=
            match l with
            | [] => true
            | (k, v) :: rest => (hasOwn rest k || validateData v) && each rest
            end) fields
  | VArr l =>
      (fix each (l : list jsval) : bool :=
         match l with
         | [] => true
         | v :: rest => validateData v && each rest
         end) l
  | VObjectProto => false
  | _ => true
  end.

(** The loop of [validateData] over the fields of an object, and over the
    elements of an array. *)
Definition eachField (l : list (string * jsval)) : bool :=
  (fix each (l : list (string * jsval)) : bool :=
     match l with
     | [] => true
     | (k, v) :: rest => (hasOwn rest k || validateData v) && each rest
     end) l.

Definition eachElement (l : list jsval) : bool :=
  (fix each (l : list jsval) : bool :=
     match l with
     | [] => true
     | v :: rest => validateData v && each rest
     end) l.

(** The literal [methodMap]. *)
Definition methodMap : list (string * jsval) :=
  [ ("file:get-recent", VStr "getRecentFiles");
    ("file:new", VStr "fileNew");
    ("file:open", VStr "fileOpen");
    ("file:save", VStr "fileSave");
    ("file:save-as", VStr "fileSaveAs");
    ("ai:check-grammar", VStr "aiCheckGrammar");
    ("ai:rephrase-text", VStr "aiRephraseText");
    ("settings:get", VStr "settingsGet");
    ("settings:save", VStr "settingsSave");
    ("ui:show-settings", VStr "uiShowSettings");
    ("ui:show-documentation", VStr "uiShowDocumentation");
    ("view:toggle-theme", VStr "viewToggleTheme");
    ("view:zoom-in", VStr "viewZoomIn");
    ("view:zoom-out", VStr "viewZoomOut");
    ("view:zoom-reset", VStr "viewZoomReset");
    ("edit:undo", VStr "editUndo");
    ("edit:redo", VStr "editRedo");
    ("edit:cut", VStr "editCut");
    ("edit:copy", VStr "editCopy");
    ("edit:paste", VStr "editPaste");
    ("edit:select-all", VStr "editSelectAll");
    ("edit:find", VStr "editFind");
    ("edit:replace", VStr "editReplace") ].

(** [c.toUpperCase()] for one code unit below 256.  The capitals of the
    micro sign and of y with diaeresis lie above 255 and have no image in
    [string]: [None]. *)
Definition upper_char (c : ascii) : option string :=
  let n := code c in
  if (n =? 181) || (n =? 255) then None
  else if n =? 223 then Some "SS"
  else if ((97 <=? n) && (n <=? 122)) || ((224 <=? n) && (n <=? 254) && negb (n =? 247))
  then Some (String (ascii_of_N (Z.to_N (n - 32))) "")
  else Some (String c "").

(** The text before the first colon and the text after it. *)
Fixpoint split_colon (s : string) : option (string * string) :=
  match s with
  | EmptyString => None
  | String c r =>
      if (c =? ":")%char then Some ("", r)
      else match split_colon r with
           | Some (a, b) => Some (String c a, b)
           | None => None
           end
  end.

(** [channel.replace(/^([^:]+):([^:]+)$/, (_, namespace, action) => ...)]:
    a channel made of two non-empty parts around its only colon becomes
    the namespace followed by the capitalised action; any other channel
    stays as it is. *)
Definition camelCase (channel : string) : option string :=
  match split_colon channel with
  | Some (namespace, String c rest) =>
      if negb (namespace =? "")%string && negb (has_char ":" (String c rest))
      then match upper_char c with
           | Some capital => Some (namespace ++ capital ++ rest)
           | None => None
           end
      else Some channel
  | _ => Some channel
  end.

(** [getMethodName]: [methodMap[channel] || channel.replace(...)]; [None]
    where the result has no image in [string]. *)
Definition getMethodName (channel : string) : option jsval :=
  if truthy (obj_get methodMap channel) then Some (obj_get methodMap channel)
  else match camelCase channel with
       | Some name => Some (VStr name)
       | None => None
       end.

(** What a call of the bridge comes to: the method of [window.electronAPI]
    it calls and the argument it passes. *)
Record ApiCall := { method : string; argument : jsval }.

Definition isFunction (v : jsval) : bool :=
  match v with
  | VFunction _ => true
  | _ => false
  end.

(** The part of [invoke] and [send] inside their [try] block, once the
    channel and the data have passed; [api] is [window.electronAPI],
    [None] when it is not there. *)
Definition dispatch (api : option (list (string * jsval))) (channel : string) (data : jsval)
  : option (jserror + ApiCall) :=
  match api with
  | None => Some (inl (JsError "Electron API not available"))
  | Some electronAPI =>
      match getMethodName channel with
      | None => None
      | Some methodName =>
          Some (match methodName with
                | VStr name =>
                    if isFunction (obj_get electronAPI name)
                    then inr {| method := name; argument := data |}
                    else inl (JsError ("IPC method not available: " ++ name))
                | other =>
                    (* a key that is not a string: [electronAPI[other]] is
                       looked up under [String(other)] *)
                    match to_string other with
                    | inl e => inl e
                    | inr name =>
                        if isFunction (obj_get electronAPI name)
                        then inr {| method := name; argument := data |}
                        else inl (JsError ("IPC method not available: " ++ name))
                    end
                end)
      end
  end.

(** S2 [invoke]: the rejection, or the call made on [window.electronAPI],
    whose result is what the promise resolves with.  [None] where the
    method name has no image in [string]. *)
Definition invoke (api : option (list (string * jsval))) (channel : string) (data : jsval)
  : option (jserror + ApiCall) :=
  if negb (validateChannel channel)
  then Some (inl (JsError ("Invalid IPC channel: " ++ channel)))
  else if match data with VUndefined => false | _ => negb (validateData data) end
  then Some (inl (JsError "Invalid IPC data"))
  else dispatch api channel data.

(** S1 [send]: the call made on [window.electronAPI], if any; every
    failure is logged and swallowed. *)
Definition send (api : option (list (string * jsval))) (channel : string) (data : jsval)
  : option ApiCall :=
  match invoke api channel data with
  | Some (inr call) => Some call
  | _ => None
  end.

(** Reading a value along own properties and array elements. *)
Inductive Step :=
| Key (k : string)
| Index (i : nat).

Fixpoint walk (v : jsval) (path : list Step) : option jsval :=
  match path with
  | [] => Some v
  | Key k :: rest =>
      match v with
      | VObj fields =>
          match own_property fields k with
          | Some x => walk x rest
          | None => None
          end
      | _ => None
      end
  | Index i :: rest =>
      match v with
      | VArr l =>
          match nth_error l i with
          | Some x => walk x rest
          | None => None
          end
      | _ => None
      end
  end.

(** An object that owns a property [__proto__] or [constructor]. *)
Definition polluted (v : jsval) : bool :=
  match v with
  | VObj fields => hasOwn fields "__proto__" || hasOwn fields "constructor"
  | VObjectProto => true
  | _ => false
  end.

End IPCBridge.

(** The preload script of [src/unnamed/part_002]: the object it exposes as
    [window.electronAPI]. *)
Module Preload.
Import Js.

(** What a method of the exposed object does with [ipcRenderer]. *)
Inductive Action :=
| Invoke (channel : string) (argument : option jsval)   (* ipcRenderer.invoke *)
| Send (channel : string).                              (* ipcRenderer.send *)

Definition channelOf (a : Action) : string :=
  match a with
  | Invoke channel _ => channel
  | Send channel => channel
  end.

(** The methods, with what each does when called with [x]. *)
Definition methods : list (string * (jsval -> Action)) :=
  [ ("fileNew", fun _ => Invoke IpcChannels.FILE_NEW None);
    ("fileOpen", fun x => Invoke IpcChannels.FILE_OPEN (Some x));
    ("fileSave", fun x => Invoke IpcChannels.FILE_SAVE (Some x));
    ("fileSaveAs", fun x => Invoke IpcChannels.FILE_SAVE_AS (Some x));
    ("getRecentFiles", fun _ => Invoke IpcChannels.GET_RECENT_FILES None);
    ("aiCheckGrammar", fun x => Invoke IpcChannels.AI_CHECK_GRAMMAR (Some x));
    ("aiRephraseText", fun x => Invoke IpcChannels.AI_REPHRASE_TEXT (Some x));
    ("settingsGet", fun _ => Invoke IpcChannels.SETTINGS_GET None);
    ("settingsSave", fun x => Invoke IpcChannels.SETTINGS_SAVE (Some x));
    ("uiShowSettings", fun _ => Send IpcChannels.SHOW_SETTINGS);
    ("uiShowDocumentation", fun _ => Send IpcChannels.SHOW_DOCUMENTATION);
    ("viewToggleTheme", fun _ => Send IpcChannels.VIEW_TOGGLE_THEME);
    ("viewZoomIn", fun _ => Send IpcChannels.VIEW_ZOOM_IN);
    ("viewZoomOut", fun _ => Send IpcChannels.VIEW_ZOOM_OUT);
    ("viewZoomReset", fun _ => Send IpcChannels.VIEW_ZOOM_RESET);
    ("editUndo", fun _ => Send IpcChannels.EDIT_UNDO);
    ("editRedo", fun _ => Send IpcChannels.EDIT_REDO);
    ("editCut", fun _ => Send IpcChannels.EDIT_CUT);
    ("editCopy", fun _ => Send IpcChannels.EDIT_COPY);
    ("editPaste", fun _ => Send IpcChannels.EDIT_PASTE);
    ("editSelectAll", fun _ => Send IpcChannels.EDIT_SELECT_ALL);
    ("editFind", fun _ => Send IpcChannels.EDIT_FIND);
    ("editReplace", fun _ => Send IpcChannels.EDIT_REPLACE) ].

(** [window.electronAPI] as the renderer sees it: the methods above and
    [on]. *)
Definition electronAPI : list (string * jsval) :=
  map (fun m => (fst m, VFunction (fst m))) methods ++ [("on", VFunction "on")].

(** What calling the method [name] with [x] does. *)
Fixpoint actionOf (l : list (string * (jsval -> Action))) (name : string) (x : jsval)
  : option Action :=
  match l with
  | [] => None
  | (n, f) :: rest => if (n =? name)%string then Some (f x) else actionOf rest name x
  end.

Definition call (name : string) (x : jsval) : option Action := actionOf methods name x.

(** The channels [on] lets the renderer listen to. *)
Definition validChannels : list string :=
  [ IpcChannels.FILE_NEW; IpcChannels.FILE_OPEN; IpcChannels.FILE_SAVE;
    IpcChannels.FILE_SAVE_AS;
    IpcChannels.EDIT_UNDO; IpcChannels.EDIT_REDO; IpcChannels.EDIT_CUT;
    IpcChannels.EDIT_COPY; IpcChannels.EDIT_PASTE; IpcChannels.EDIT_SELECT_ALL;
    IpcChannels.EDIT_FIND; IpcChannels.EDIT_REPLACE;
    IpcChannels.VIEW_TOGGLE_THEME; IpcChannels.VIEW_ZOOM_IN; IpcChannels.VIEW_ZOOM_OUT;
    IpcChannels.VIEW_ZOOM_RESET;
    IpcChannels.AI_CHECK_GRAMMAR; IpcChannels.AI_REPHRASE_TEXT;
    IpcChannels.SHOW_SETTINGS; IpcChannels.SHOW_DOCUMENTATION ].

(** [on(channel, callback)]: whether the callback is subscribed. *)
Definition on (channel : string) : bool := existsb (String.eqb channel) validChannels.

End Preload.

(* ================================================================== *)
(** ** The file handler of the main process *)
(* ================================================================== *)

(** [class FileHandler] of [src/main/file-handler.ts].  Everything thrown
    inside the class is an [Error] of the platform (the dialogs, [fs], the
    store): a failure carries the error's message.  Two paths name the
    same file when they are the same string.  The lines written to the
    log are left out. *)
Module FileHandler.

Record FileData := {
  path : string;
  content : string;
  saved : bool;
  lastModified : Z
}.

(** What the disk holds under a path. *)
Record File := { text : string; mtime : Z }.

Record World := {
  currentFile : option FileData;
  recentFiles : list string;
  store : list string;               (* [recentFiles] of the electron-store *)
  disk : list (string * File);       (* the files, by path *)
  backups : list (string * File);    (* the backup directory, by file name *)
  now : Z
}.

Definition setCurrentFile (f : option FileData) (w : World) : World :=
  {| currentFile := f; recentFiles := recentFiles w; store := store w;
     disk := disk w; backups := backups w; now := now w |}.

Definition setRecentFiles (l : list string) (w : World) : World :=
  {| currentFile := currentFile w; recentFiles := l; store := store w;
     disk := disk w; backups := backups w; now := now w |}.

Definition setStore (l : list string) (w : World) : World :=
  {| currentFile := currentFile w; recentFiles := recentFiles w; store := l;
     disk := disk w; backups := backups w; now := now w |}.

Definition setDisk (d : list (string * File)) (w : World) : World :=
  {| currentFile := currentFile w; recentFiles := recentFiles w; store := store w;
     disk := d; backups := backups w; now := now w |}.

Definition setBackups (d : list (string * File)) (w : World) : World :=
  {| currentFile := currentFile w; recentFiles := recentFiles w; store := store w;
     disk := disk w; backups := d; now := now w |}.

Definition setNow (t : Z) (w : World) : World :=
  {| currentFile := currentFile w; recentFiles := recentFiles w; store := store w;
     disk := disk w; backups := backups w; now := t |}.

(** What [dialog.showOpenDialog] and [dialog.showSaveDialog] resolve with. *)
Module OpenDialogReturnValue.
Record t := { canceled : bool; filePaths : list string }.
End OpenDialogReturnValue.

Module SaveDialogReturnValue.
Record t := { canceled : bool; filePath : option string }.
End SaveDialogReturnValue.

(** The platform.  A dialog resolves or rejects; a call of [fs] or of the
    store may fail with a message; [later] is the clock's reading when the
    call awaited in a world completes. *)
Record Env := {
  showOpenDialog : World -> string + OpenDialogReturnValue.t;
  showSaveDialog : World -> string + SaveDialogReturnValue.t;
  readFault : string -> World -> option string;
  writeFault : string -> World -> option string;
  storeFault : World -> option string;
  readdirFault : World -> option string;
  statFault : string -> World -> option string;
  unlinkFault : string -> World -> option string;
  later : World -> Z;
  backupName : Z -> string;   (* [backup-<ISO time, - for : and .>.txt] *)
  backupPath : string -> string   (* [path.join(this.backupDir, file)] *)
}.

(** [constructor]: the recent files are those of the store. *)
Definition create (stored : list string) (files backupFiles : list (string * File)) (t : Z)
  : World :=
  {| currentFile := None; recentFiles := stored; store := stored;
     disk := files; backups := backupFiles; now := t |}.

(** *** Computations that change the world and may fail *)

Definition M (A : Type) : Type := World -> (string + A) * World.

Definition ret {A} (a : A) : M A := fun w => (inr a, w).

Definition throw {A} (message : string) : M A := fun w => (inl message, w).

Definition bind {A B} (m : M A) (k : A -> M B) : M B :=
  fun w => match m w with
           | (inr a, w') => k a w'
           | (inl e, w') => (inl e, w')
           end.

(** [try { m } catch (error) { h error.message }] *)
Definition try_catch {A} (m : M A) (h : string -> M A) : M A :=
  fun w => match m w with
           | (inr a, w') => (inr a, w')
           | (inl e, w') => h e w'
           end.

Declare Scope file_scope.
Delimit Scope file_scope with file.
Notation "x <- m ;; k" := (bind m (fun x => k))
  (at level 61, m at next level, right associativity) : file_scope.
Notation "m ;;; k" := (bind m (fun _ => k))
  (at level 61, right associativity) : file_scope.
Local Open Scope file_scope.

(** *** The disk *)

Fixpoint lookup (files : list (string * File)) (p : string) : option File :=
  match files with
  | [] => None
  | (q, f) :: rest => if (q =? p)%string then Some f else lookup rest p
  end.

Fixpoint write (files : list (string * File)) (p : string) (f : File)
  : list (string * File) :=
  match files with
  | [] => [(p, f)]
  | (q, g) :: rest => if (q =? p)%string then (p, f) :: rest else (q, g) :: write rest p f
  end.

Definition remove (files : list (string * File)) (p : string) : list (string * File) :=
  filter (fun e => negb (fst e =? p)%string) files.

(** [await fs.promises.readFile(p, 'utf8')] *)
Definition readFile (env : Env) (p : string) : M string :=
  fun w =>
    let w' := setNow (later env w) w in
    match readFault env p w with
    | Some message => (inl message, w')
    | None =>
        match lookup (disk w) p with
        | Some f => (inr (text f), w')
        | None => (inl ("ENOENT: no such file or directory, open '" ++ p ++ "'"), w')
        end
    end.

(** [await fs.promises.writeFile(p, content, 'utf8')] *)
Definition writeFile (env : Env) (p : string) (content : string) : M unit :=
  fun w =>
    let w' := setNow (later env w) w in
    match writeFault env p w with
    | Some message => (inl message, w')
    | None => (inr tt, setDisk (write (disk w) p {| text := content; mtime := later env w |}) w')
    end.

Definition openDialog (env : Env) : M OpenDialogReturnValue.t :=
  fun w => (showOpenDialog env w, setNow (later env w) w).

Definition saveDialog (env : Env) : M SaveDialogReturnValue.t :=
  fun w => (showSaveDialog env w, setNow (later env w) w).

(** *** The methods *)

(** [!filePath] for a path that may be missing *)
Definition missing (filePath : option string) : bool :=
  match filePath with
  | Some p => (p =? "")%string
  | None => true
  end.

(** The list [addToRecentFiles] leaves in [this.recentFiles]. *)
Definition recentWith (filePath : string) (recent : list string) : list string :=
  let without := filter (fun p => negb (p =? filePath)%string) recent in
  let unshifted := filePath :: without in
  if (10 <? length unshifted)%nat then firstn 10 unshifted else unshifted.

(** [addToRecentFiles] *)
Definition addToRecentFiles (env : Env) (filePath : string) : M unit :=
  fun w =>
    let kept := recentWith filePath (recentFiles w) in
    let w' := setRecentFiles kept w in
    match storeFault env w' with
    | Some message => (inl message, w')
    | None => (inr tt, setStore kept w')
    end.

(** The assignment of a saved file to [this.currentFile]. *)
Definition setCurrent (p content : string) : M FileData :=
  fun w =>
    let f := {| path := p; content := content; saved := true; lastModified := now w |} in
    (inr f, setCurrentFile (Some f) w).

(** S2 [newFile] *)
Definition newFile : M FileData := setCurrent "" "".

(** S3 [openFile] *)
Definition openFile (env : Env) (filePath : option string) : M (option FileData) :=
  try_catch
    (chosen <- (if missing filePath
                then result <- openDialog env ;;
                     if OpenDialogReturnValue.canceled result
                        || (length (OpenDialogReturnValue.filePaths result) =? 0)%nat
                     then ret None
                     else ret (Some (hd "" (OpenDialogReturnValue.filePaths result)))
                else ret filePath) ;;
     match chosen with
     | None => ret None
     | Some p =>
         content <- readFile env p ;;
         f <- setCurrent p content ;;
         addToRecentFiles env p ;;;
         ret (Some f)
     end)
    (fun errorMessage => throw ("Could not open file: " ++ errorMessage)).

(** S5 [saveFileAs] *)
Definition saveFileAs (env : Env) (content : string) : M bool :=
  try_catch
    (result <- saveDialog env ;;
     if SaveDialogReturnValue.canceled result || missing (SaveDialogReturnValue.filePath result)
     then ret false
     else
       let p := match SaveDialogReturnValue.filePath result with Some p => p | None => "" end in
       writeFile env p content ;;;
       setCurrent p content ;;;
       addToRecentFiles env p ;;;
       ret true)
    (fun errorMessage => throw ("Could not save file: " ++ errorMessage)).

(** [this.currentFile?.path || ''] *)
Definition currentPath (w : World) : string :=
  match currentFile w with
  | Some f => path f
  | None => ""
  end.

(** S4 [saveFile].  Where it hands over to [saveFileAs] it returns that
    promise without awaiting it: a rejection of [saveFileAs] does not pass
    through the [catch] of [saveFile]. *)
Definition saveFile (env : Env) (content : string) (filePath : option string) : M bool :=
  fun w =>
    if missing filePath && (currentPath w =? "")%string
    then saveFileAs env content w
    else
      let savePath := if missing filePath then currentPath w
                      else match filePath with Some p => p | None => "" end in
      if (savePath =? "")%string
      then saveFileAs env content w
      else
        try_catch
          (writeFile env savePath content ;;;
           setCurrent savePath content ;;;
           addToRecentFiles env savePath ;;;
           ret true)
          (fun errorMessage => throw ("Could not save file: " ++ errorMessage)) w.

(** S6 [getRecentFiles] *)
Definition getRecentFiles : M (list string) := fun w => (inr (recentFiles w), w).

(** *** Backups

    The backup directory holds nothing but backups, and nothing else
    touches it while a method works on it. *)

(** [Array.prototype.sort] with a comparator: a stable sort. *)
Fixpoint insertBy {A : Type} (compare : A -> A -> Z) (x : A) (l : list A) : list A :=
  match l with
  | [] => [x]
  | y :: rest => if compare x y <=? 0 then x :: l else y :: insertBy compare x rest
  end.

Definition sortBy {A : Type} (compare : A -> A -> Z) (l : list A) : list A :=
  fold_right (insertBy compare) [] l.

(** [await Promise.all(files.map(async file => ... fs.promises.stat ...))]:
    the files with their times, or the failure of a [stat]. *)
Fixpoint statAll (env : Env) (w : World) (files : list string) : string + list (string * Z) :=
  match files with
  | [] => inr []
  | file :: rest =>
      match statFault env (backupPath env file) w with
      | Some message => inl message
      | None =>
          match lookup (backups w) file with
          | None => inl ("ENOENT: no such file or directory, stat '"
                           ++ backupPath env file ++ "'")
          | Some f =>
              match statAll env w rest with
              | inl message => inl message
              | inr stats => inr ((file, mtime f) :: stats)
              end
          end
      end
  end.

(** The loop over [filesToDelete]: it ends at the first [unlink] that
    fails. *)
Fixpoint unlinkAll (env : Env) (files : list string) (w : World) : World :=
  match files with
  | [] => w
  | file :: rest =>
      let w' := setNow (later env w) w in
      match unlinkFault env (backupPath env file) w with
      | Some _ => w'
      | None => unlinkAll env rest (setBackups (remove (backups w) file) w')
      end
  end.

(** [cleanupOldBackups]; it never rejects. *)
Definition cleanupOldBackups (env : Env) (w : World) : World :=
  let w1 := setNow (later env w) w in
  match readdirFault env w with
  | Some _ => w1
  | None =>
      let files := map fst (backups w) in
      if (length files <=? 10)%nat then w1
      else
        let w2 := setNow (later env w1) w1 in
        match statAll env w1 files with
        | inl _ => w2
        | inr backupFiles =>
            let sorted := sortBy (fun a b => snd a - snd b) backupFiles in
            let filesToDelete := firstn (length sorted - 10) sorted in
            unlinkAll env (map fst filesToDelete) w2
        end
  end.

(** S9 [createBackup], with the clean-up it starts. *)
Definition createBackup (env : Env) (content : string) (w : World) : World :=
  let file := backupName env (now w) in
  match writeFault env (backupPath env file) w with
  | Some _ => w
  | None =>
      cleanupOldBackups env
        (setBackups (write (backups w) file {| text := content; mtime := now w |}) w)
  end.

(** S10 [restoreFromBackup]; it never rejects. *)
Definition restoreFromBackup (env : Env) (w : World) : option FileData * World :=
  let w1 := setNow (later env w) w in
  match readdirFault env w with
  | Some _ => (None, w1)
  | None =>
      let files := map fst (backups w) in
      if (length files =? 0)%nat then (None, w1)
      else
        let w2 := setNow (later env w1) w1 in
        match statAll env w1 files with
        | inl _ => (None, w2)
        | inr backupFiles =>
            match sortBy (fun a b => snd b - snd a) backupFiles with
            | [] => (None, w2)      (* [backupFiles[0].path] of nothing throws *)
            | (mostRecentBackup, _) :: _ =>
                let w3 := setNow (later env w2) w2 in
                match readFault env (backupPath env mostRecentBackup) w2 with
                | Some _ => (None, w3)
                | None =>
                    match lookup (backups w2) mostRecentBackup with
                    | None => (None, w3)
                    | Some f =>
                        (Some {| path := ""; content := text f; saved := false;
                                 lastModified := now w3 |}, w3)
                    end
                end
            end
        end
  end.

(** *** What the renderer can ask for

    The handlers of [file:new], [file:open], [file:save], [file:save-as]
    and [file:get-recent] ([registerFileHandlers] of
    [src/unnamed/part_003]); [mainWindow] tells whether
    [windowManager.getWindow('main')] is there. *)
Inductive Request :=
| FileNew
| FileOpen (filePath : option string)
| FileSave (content : string)
| FileSaveAs (content : string)
| GetRecentFiles.

Inductive Reply :=
| Opened (f : option FileData)     (* what [newFile] and [openFile] give *)
| Saved (done : bool)
| Recent (l : list string).

Definition handle (env : Env) (mainWindow : bool) (r : Request) : M Reply :=
  match r with
  | FileNew => f <- newFile ;; ret (Opened (Some f))
  | FileOpen filePath =>
      if mainWindow then f <- openFile env filePath ;; ret (Opened f)
      else throw "Main window not found"
  | FileSave content =>
      if mainWindow then done <- saveFile env content None ;; ret (Saved done)
      else throw "Main window not found"
  | FileSaveAs content =>
      if mainWindow then done <- saveFileAs env content ;; ret (Saved done)
      else throw "Main window not found"
  | GetRecentFiles => l <- getRecentFiles ;; ret (Recent l)
  end.

(** The requests of a session, one after the other, whatever each one
    comes to; the platform and the main window may differ from one request
    to the next. *)
Fixpoint session (rs : list (Env * bool * Request)) (w : World) : World :=
  match rs with
  | [] => w
  | (env, mainWindow, r) :: rest => session rest (snd (handle env mainWindow r w))
  end.

End FileHandler.

(** A platform and a starting world to run the file handler on. *)
Module FileFixtures.
Import FileHandler.

(** Nothing fails; both dialogs give [/home/ada/notes.txt]; a platform
    call takes a millisecond. *)
Definition desk : Env :=
  {| showOpenDialog := fun _ =>
       inr {| OpenDialogReturnValue.canceled := false;
              OpenDialogReturnValue.filePaths := ["/home/ada/notes.txt"] |};
     showSaveDialog := fun _ =>
       inr {| SaveDialogReturnValue.canceled := false;
              SaveDialogReturnValue.filePath := Some "/home/ada/notes.txt" |};
     readFault := fun _ _ => None;
     writeFault := fun _ _ => None;
     storeFault := fun _ => None;
     readdirFault := fun _ => None;
     statFault := fun _ _ => None;
     unlinkFault := fun _ _ => None;
     later := fun w => now w + 1;
     backupName := fun t => "backup-" ++ Js.int_to_string t ++ ".txt";
     backupPath := fun file => "/home/ada/.config/ai-notepad/backups/" ++ file |}.

(** Two files on the disk, both among the recent files; no backups. *)
Definition start : World :=
  create ["/home/ada/a.txt"; "/home/ada/b.txt"]
         [("/home/ada/a.txt", {| text := "alpha"; mtime := 1000 |});
          ("/home/ada/b.txt", {| text := "beta"; mtime := 2000 |})]
         []
         5000.

(** Twelve backups, listed in no order of time. *)
Definition crowded : World :=
  create [] []
         (map (fun t => (backupName desk t,
                         {| text := "draft of " ++ Js.int_to_string t; mtime := t |}))
              [1200; 300; 700; 100; 900; 1100; 500; 200; 1000; 400; 800; 600])
         5000.

End FileFixtures.

(* ================================================================== *)
(** ** The selection handler of the renderer *)
(* ================================================================== *)

(** [class SelectionHandler] of [src/unnamed/part_005].  A text is the
    sequence of its code units; positions are whole numbers. *)
Module SelectionHandler.

Record TextSelection := { start : Z; end_ : Z; text : string }.

(** [this.currentSelection] *)
Definition t : Type := option TextSelection.

(** [text.length] *)
Definition len (s : string) : Z := Z.of_nat (String.length s).

(** [text[i]]: [None] is [undefined]. *)
Definition at_ (s : string) (i : Z) : option ascii :=
  if i <? 0 then None else String.get (Z.to_nat i) s.

(** [text.substring(a, b)] for [0 <= a <= b <= text.length] *)
Definition substring (s : string) (a b : Z) : string :=
  String.substring (Z.to_nat a) (Z.to_nat (b - a)) s.

(** [/\w/.test(c)]; [undefined] is tested as the string [undefined]. *)
Definition wordChar (c : option ascii) : bool :=
  match c with
  | None => true
  | Some c =>
      let n := Js.code c in
      ((48 <=? n) && (n <=? 57)) || ((65 <=? n) && (n <=? 90))
      || ((97 <=? n) && (n <=? 122)) || (n =? 95)
  end.

(** [c !== '\n'] *)
Definition notNewline (c : option ascii) : bool :=
  match c with
  | None => true
  | Some c => negb (Js.code c =? 10)
  end.

(** [while (start > 0 && test(text[start - 1])) start--], run for at most
    [fuel] rounds. *)
Fixpoint back (test : option ascii -> bool) (s : string) (fuel : nat) (start : Z) : Z :=
  match fuel with
  | O => start
  | S fuel' =>
      if (0 <? start) && test (at_ s (start - 1))
      then back test s fuel' (start - 1)
      else start
  end.

(** [while (end < text.length && test(text[end])) end++], run for at most
    [fuel] rounds. *)
Fixpoint forth (test : option ascii -> bool) (s : string) (fuel : nat) (end0 : Z) : Z :=
  match fuel with
  | O => end0
  | S fuel' =>
      if (end0 <? len s) && test (at_ s end0)
      then forth test s fuel' (end0 + 1)
      else end0
  end.

(** S3 [selectWord]; the loops get as many rounds as there are code units
    on their side of the position. *)
Definition selectWord (s : string) (position : Z) (current : t) : TextSelection * t :=
  if (s =? "")%string || (position <? 0) || (len s <=? position)
  then ({| start := position; end_ := position; text := "" |}, current)
  else
    let start := back wordChar s (Z.to_nat position) position in
    let end0 := forth wordChar s (Z.to_nat (len s - position)) position in
    let selection := {| start := start; end_ := end0; text := substring s start end0 |} in
    (selection, Some selection).

(** S4 [selectLine] *)
Definition selectLine (s : string) (position : Z) (current : t) : TextSelection * t :=
  if (s =? "")%string || (position <? 0) || (len s <=? position)
  then ({| start := position; end_ := position; text := "" |}, current)
  else
    let start := back notNewline s (Z.to_nat position) position in
    let end0 := forth notNewline s (Z.to_nat (len s - position)) position in
    let selection := {| start := start; end_ := end0; text := substring s start end0 |} in
    (selection, Some selection).

(** S2 [setSelection] *)
Definition setSelection (start0 end0 : Z) (s : string) (current : t) : t :=
  if start0 =? end0 then None
  else Some {| start := start0; end_ := end0; text := s |}.

End SelectionHandler.

(* ================================================================== *)
(** ** The window states of the main process *)
(* ================================================================== *)

(** [saveWindowState] and [restoreWindowState] of [class WindowManager]
    ([src/main/main.ts]).  Coordinates and sizes are whole numbers; a
    state in the store has a width, a height and the flag, as the
    interface [WindowState] asks. *)
Module WindowManager.

(** [Electron.Rectangle] *)
Module Rectangle.
Record t := { x : Z; y : Z; width : Z; height : Z }.
End Rectangle.

(** [interface WindowState]; [None] is [undefined]. *)
Module WindowState.
Record t := {
  x : option Z;
  y : option Z;
  width : Z;
  height : Z;
  isMaximized : bool
}.
End WindowState.

(** What the manager asks of a [BrowserWindow]. *)
Record Window := {
  isDestroyed : bool;
  getBounds : Rectangle.t;
  isMaximized : bool
}.

(** [windowStates] of the store, by window id. *)
Definition States : Type := list (string * WindowState.t).

(** The platform: whether reading or writing the store throws, and the
    displays, unless asking for them throws. *)
Record Env := {
  getFault : bool;
  setFault : bool;
  getAllDisplays : option (list Rectangle.t)
}.

Fixpoint lookup (states : States) (id : string) : option WindowState.t :=
  match states with
  | [] => None
  | (k, v) :: rest => if (k =? id)%string then Some v else lookup rest id
  end.

(** The property [id] of [states] created or overwritten. *)
Fixpoint put (states : States) (id : string) (v : WindowState.t) : States :=
  match states with
  | [] => [(id, v)]
  | (k, u) :: rest =>
      if (k =? id)%string then (id, v) :: rest else (k, u) :: put rest id v
  end.

(** [states[id] = windowState], as far as the store sees it: under the
    name [__proto__] the assignment makes [windowState] the prototype of
    [states] and creates no property, so nothing of it is written. *)
Definition assign (states : States) (id : string) (v : WindowState.t) : States :=
  if (id =? "__proto__")%string then states else put states id v.

(** S7 [saveWindowState]: what the store holds afterwards. *)
Definition saveWindowState (env : Env) (window : option Window) (id : string) (states : States)
  : States :=
  match window with
  | None => states
  | Some window =>
      if isDestroyed window then states
      else
        let bounds := getBounds window in
        let windowState :=
          {| WindowState.x := Some (Rectangle.x bounds);
             WindowState.y := Some (Rectangle.y bounds);
             WindowState.width := Rectangle.width bounds;
             WindowState.height := Rectangle.height bounds;
             WindowState.isMaximized := isMaximized window |} in
        if getFault env || setFault env then states
        else assign states id windowState
  end.

Definition defaultState : WindowState.t :=
  {| WindowState.x := None; WindowState.y := None;
     WindowState.width := 1200; WindowState.height := 800;
     WindowState.isMaximized := false |}.

(** The test of the loop over the displays. *)
Definition within (x y width height : Z) (bounds : Rectangle.t) : bool :=
  (Rectangle.x bounds <=? x)
  && (Rectangle.y bounds <=? y)
  && (x + width <=? Rectangle.x bounds + Rectangle.width bounds)
  && (y + height <=? Rectangle.y bounds + Rectangle.height bounds).

(** S8 [restoreWindowState].  [states[id]] is the property of that name;
    where [states] has none, an inherited one may be found, which has
    nothing to lay over the defaults. *)
Definition restoreWindowState (env : Env) (id : string) (states : States) : WindowState.t :=
  if getFault env then defaultState
  else
    let state := match lookup states id with
                 | Some savedState => savedState
                 | None => defaultState
                 end in
    match WindowState.x state, WindowState.y state with
    | Some x, Some y =>
        match getAllDisplays env with
        | None => defaultState
        | Some displays =>
            if existsb (within x y (WindowState.width state) (WindowState.height state))
                 displays
            then state
            else {| WindowState.x := None; WindowState.y := None;
                    WindowState.width := WindowState.width state;
                    WindowState.height := WindowState.height state;
                    WindowState.isMaximized := WindowState.isMaximized state |}
        end
    | _, _ => state
    end.

End WindowManager.

(* ================================================================== *)
(** ** The undo history of the editor *)
(* ================================================================== *)

(** [EditorProvider] of [src/src/context/EditorContext.tsx].  A handler
    reads the state of the render it was made in and queues updates; the
    next render sees them applied in order.  Each call below is made on the
    render that follows the call before it. *)
Module EditorContext.

Record State := {
  content : option string;       (* [None]: set to [undefined] *)
  history : list string;
  historyIndex : Z
}.

(** The first render. *)
Definition initial : State := {| content := Some ""; history := [""]; historyIndex := 0 |}.

Definition length (l : list string) : Z := Z.of_nat (List.length l).

(** [history[i]] *)
Definition at_ (l : list string) (i : Z) : option string :=
  if i <? 0 then None else nth_error l (Z.to_nat i).

(** [history.slice(0, n)] for [n >= 0] *)
Definition slice0 (l : list string) (n : Z) : list string := firstn (Z.to_nat n) l.

(** S1 [setContent] *)
Definition setContent (newContent : string) (s : State) : State :=
  {| content := Some newContent; history := history s; historyIndex := historyIndex s |}.

(** S2 [addToHistory]: [setHistory(history.slice(...))] if the index is not
    at the end, then [setHistory(prev => [...prev, newContent])] and
    [setHistoryIndex(prev => prev + 1)]. *)
Definition addToHistory (newContent : string) (s : State) : State :=
  let truncated :=
    if historyIndex s <? length (history s) - 1
    then slice0 (history s) (historyIndex s + 1)
    else history s in
  {| content := content s;
     history := truncated ++ [newContent];
     historyIndex := historyIndex s + 1 |}.

(** S3 [undo]: what it returns, and the next state. *)
Definition undo (s : State) : option string * State :=
  if 0 <? historyIndex s
  then (at_ (history s) (historyIndex s - 1),
        {| content := at_ (history s) (historyIndex s - 1);
           history := history s;
           historyIndex := historyIndex s - 1 |})
  else (content s, s).

(** S4 [redo] *)
Definition redo (s : State) : option string * State :=
  if historyIndex s <? length (history s) - 1
  then (at_ (history s) (historyIndex s + 1),
        {| content := at_ (history s) (historyIndex s + 1);
           history := history s;
           historyIndex := historyIndex s + 1 |})
  else (content s, s).

(** The index points into the history. *)
Definition inside (s : State) : Prop := 0 <= historyIndex s < length (history s).

Inductive Action :=
| SetContent (newContent : string)
| AddToHistory (newContent : string)
| Undo
| Redo.

Definition act (a : Action) (s : State) : State :=
  match a with
  | SetContent c => setContent c s
  | AddToHistory c => addToHistory c s
  | Undo => snd (undo s)
  | Redo => snd (redo s)
  end.

Definition acts (l : list Action) (s : State) : State := fold_left (fun s a => act a s) l s.

End EditorContext.
(* ================================================================== *)
(** ** Properties of the main-process service *)
(* ================================================================== *)

Import Js.
Import LLMService.
Local Open Scope service_scope.

(** *** What [handleError] gives *)

(** A conversion to a string gives the string or throws the one
    TypeError. *)
Lemma to_string_settles (v : jsval) :
  (exists s, to_string v = inr s) \/ to_string v = inl cannot_convert.
Proof.
  induction v as [| | [|] | n | s | l IH | fields _ | name |] using value_ind;
    try (left; eexists; reflexivity).
  - induction IH as [| x rest Hx _ IHrest]; [left; exists ""; reflexivity |].
    cbn [to_string] in *.
    assert (Hhead : (exists s, match x with
                               | VUndefined | VNull => inr ""
                               | _ => to_string x
                               end = inr s)
                    \/ match x with
                       | VUndefined | VNull => inr ""
                       | _ => to_string x
                       end = inl cannot_convert).
    { destruct x; try exact Hx; left; exists ""; reflexivity. }
    destruct Hhead as [[s ->] | ->]; [| right; reflexivity].
    destruct rest as [| y rest']; [left; exists s; reflexivity |].
    destruct IHrest as [[t ->] | ->]; [left; eexists; reflexivity | right; reflexivity].
  - cbn. destruct (own_property fields "toString");
      [right; reflexivity | left; eexists; reflexivity].
Qed.

(** [handleError] returns a response without suggestions, whose message
    begins with one of its five codes, or throws the TypeError of a
    failed conversion. *)
Lemma handleError_settles (e : jserror) (request : LLMRequest) :
  (exists code msg,
      handleError e request
      = inr {| original := text request; suggestions := [];
               error := Some (code ++ ": " ++ msg) |}
      /\ In code handledCodes)
  \/ handleError e request = inl cannot_convert.
Proof.
  unfold handleError, describeError, handledCodes.
  destruct e as [[resp |] [|] | msg | v].
  - destruct (truthy _);
      match goal with |- context [to_string ?x] =>
        destruct (to_string_settles x) as [[s ->] | ->] end;
      try (right; reflexivity);
      left; eexists; eexists; (split; [reflexivity |]); cbn; tauto.
  - destruct (truthy _);
      match goal with |- context [to_string ?x] =>
        destruct (to_string_settles x) as [[s ->] | ->] end;
      try (right; reflexivity);
      left; eexists; eexists; (split; [reflexivity |]); cbn; tauto.
  - left; eexists; eexists; (split; [reflexivity |]); cbn; tauto.
  - left; eexists; eexists; (split; [reflexivity |]); cbn; tauto.
  - left. destruct (includes msg "API key"); [| destruct (includes msg "timeout")];
      eexists; eexists; (split; [reflexivity |]); cbn; tauto.
  - left; eexists; eexists; (split; [reflexivity |]); cbn; tauto.
Qed.

(** Every response built by [handleError] carries an error and no
    suggestion. *)
Lemma handleError_shape (e : jserror) (request : LLMRequest) (r : LLMResponse) :
  handleError e request = inr r ->
  suggestions r = []
  /\ original r = text request
  /\ exists msg, error r = Some msg /\ msg <> "".
Proof.
  intros Hr.
  destruct (handleError_settles e request) as [(code & msg & Heq & Hcode) | Heq];
    rewrite Heq in Hr; [| discriminate].
  injection Hr as <-. cbn. repeat split. eexists. split; [reflexivity |].
  unfold handledCodes in Hcode. cbn in Hcode.
  destruct Hcode as [<- | [<- | [<- | [<- | [<- | []]]]]]; discriminate.
Qed.

(** An [Error] is never in the way of its own report. *)
Lemma handleError_message (message : string) (request : LLMRequest) :
  handleError (JsError message) request
  = inr {| original := text request; suggestions := [];
           error := Some ((if includes message "API key" then ErrorCodes.AUTH_ERROR
                           else if includes message "timeout" then ErrorCodes.TIMEOUT_ERROR
                           else ErrorCodes.UNKNOWN_ERROR) ++ ": " ++ message) |}.
Proof. reflexivity. Qed.

Lemma handleError_cannot_convert (request : LLMRequest) :
  handleError cannot_convert request = inr (conversionFailure request).
Proof. reflexivity. Qed.

(** [processRequest] returns a response, or rejects with the TypeError its
    [catch] block ran into. *)
Lemma processRequest_settles (env : Env) (request : LLMRequest) (w : World) :
  (exists r, fst (processRequest env request w) = inr r)
  \/ fst (processRequest env request w) = inl cannot_convert.
Proof.
  unfold processRequest, try_catch, lift.
  match goal with |- context [match ?b w with _ => _ end] => destruct (b w) as [[e | r] w'] end.
  - destruct (handleError_settles e request) as [(code & msg & -> & _) | ->];
      [left; eexists; reflexivity | right; reflexivity].
  - left. exists r. reflexivity.
Qed.

(** *** Normalising the suggestions *)

(** [suggestions.map] keeps the length and the order: the i-th suggestion
    comes from the i-th element. *)
Lemma mapSuggestions_pointwise (l : list jsval) (out : list Suggestion.t) :
  mapSuggestions l = inr out -> Forall2 (fun s x => toSuggestion s = inr x) l out.
Proof.
  revert out. induction l as [| s rest IH]; intros out H; cbn in H.
  - injection H as <-. constructor.
  - destruct (toSuggestion s) as [e | x] eqn:Hs; [discriminate |].
    destruct (mapSuggestions rest) as [e | xs] eqn:Hr; [discriminate |].
    injection H as <-. constructor; [assumption | apply IH; reflexivity].
Qed.

(** On an object element the three fields are read off as found; a falsy
    [confidence] or [type] is replaced by the default. *)
Lemma toSuggestion_object (fields : list (string * jsval)) :
  toSuggestion (VObj fields)
  = inr {| Suggestion.text := obj_get fields "text";
           Suggestion.confidence := or_else (obj_get fields "confidence") number_0_8;
           Suggestion.type := or_else (obj_get fields "type") (VStr "unknown") |}.
Proof. reflexivity. Qed.

Lemma or_else_truthy (a b : jsval) : truthy a = true -> or_else a b = a.
Proof. unfold or_else. intros ->. reflexivity. Qed.

Lemma or_else_omitted (b : jsval) : or_else VUndefined b = b.
Proof. reflexivity. Qed.

(** The suggestion list has the length and the order of the parsed
    array, and an object element gives its [text] as found, its
    [confidence] unless that is falsy (then 0.8) and its [type] unless that
    is falsy (then [unknown]); an omitted field reads as [undefined]. *)
Theorem suggestions_keep_order_and_defaults
    (l : list jsval) (out : list Suggestion.t) :
  mapSuggestions l = inr out ->
  length out = length l
  /\ (forall (i : nat) (fields : list (string * jsval)),
        nth_error l i = Some (VObj fields) ->
        nth_error out i
        = Some {| Suggestion.text := obj_get fields "text";
                  Suggestion.confidence :=
                    if truthy (obj_get fields "confidence")
                    then obj_get fields "confidence" else VNum (Num 8 (-1));
                  Suggestion.type :=
                    if truthy (obj_get fields "type")
                    then obj_get fields "type" else VStr "unknown" |})
  /\ (forall fields : list (string * jsval),
        own_property fields "confidence" = None ->
        obj_get fields "confidence" = VUndefined)
  /\ (forall fields : list (string * jsval),
        own_property fields "type" = None ->
        obj_get fields "type" = VUndefined).
Proof.
  intros Hmap. apply mapSuggestions_pointwise in Hmap.
  split; [| split; [| split; intros fields Hnone; unfold obj_get; rewrite Hnone;
                              reflexivity]].
  - symmetry. induction Hmap; cbn; congruence.
  - induction Hmap as [| s x l' out' Hs _ IH]; intros i fields Hi.
    + destruct i; discriminate.
    + destruct i as [| i]; cbn in *.
      * injection Hi as ->. rewrite toSuggestion_object in Hs. injection Hs as <-.
        reflexivity.
      * apply IH, Hi.
Qed.

Lemma suggestions_keep_order_and_defaults_witness :
  nth_error [ {| Suggestion.text := VStr "a"; Suggestion.confidence := VNum (Num 8 (-1));
                 Suggestion.type := VStr "unknown" |};
              {| Suggestion.text := VStr "b"; Suggestion.confidence := VNum (Num 5 (-1));
                 Suggestion.type := VStr "grammar" |} ] 1
  = Some {| Suggestion.text := VStr "b"; Suggestion.confidence := VNum (Num 5 (-1));
            Suggestion.type := VStr "grammar" |}.
Proof.
  exact (proj1 (proj2 (suggestions_keep_order_and_defaults
           [ VObj [("text", VStr "a")];
             VObj [("text", VStr "b"); ("confidence", VNum (Num 5 (-1)));
                   ("type", VStr "grammar")] ]
           _ eq_refl)) 1%nat _ eq_refl).
Defined.

(** C5 at the failing input.  LM Studio answers with one suggestion whose
    confidence is 0 and whose type is the empty string; the response
    carries confidence 0.8 and type [unknown] instead of the values
    supplied. *)
Theorem C5_supplied_zero_confidence_is_replaced :
  fst (processRequest
         (refEnv (Fixtures.answers (dq "[{'text':'a','confidence':0,'type':''}]")))
         (Fixtures.grammarRequest "x") Fixtures.localService)
  = inr {| original := "x";
           suggestions := [ {| Suggestion.text := VStr "a";
                               Suggestion.confidence := VNum (Num 8 (-1));
                               Suggestion.type := VStr "unknown" |} ];
           error := None |}.
Proof. vm_compute. reflexivity. Qed.

(** *** Locating the array in the payload *)

Lemma from_first_open_skips (pre rest : string) :
  has_char "[" pre = false ->
  from_first_open (pre ++ String "[" rest) = Some (String "[" rest).
Proof.
  induction pre as [| c r IH]; cbn; intros H.
  - reflexivity.
  - apply orb_false_iff in H as [Hc Hr]. rewrite Hc. apply IH, Hr.
Qed.

Lemma upto_last_close_none (post : string) :
  has_char "]" post = false -> upto_last_close post = None.
Proof.
  induction post as [| c r IH]; cbn; intros H.
  - reflexivity.
  - apply orb_false_iff in H as [Hc Hr]. rewrite (IH Hr), Hc. reflexivity.
Qed.

Lemma upto_last_close_span (mid post : string) :
  has_char "]" post = false ->
  upto_last_close (mid ++ String "]" post) = Some (mid ++ "]").
Proof.
  intros H. induction mid as [| c r IH]; cbn.
  - rewrite (upto_last_close_none post H). reflexivity.
  - rewrite IH. reflexivity.
Qed.

(** With no ["["] before the array and no ["]"] after it, the match is the
    array text itself. *)
Lemma match_brackets_span (pre mid post : string) :
  has_char "[" pre = false ->
  has_char "]" post = false ->
  match_brackets (pre ++ String "[" (mid ++ String "]" post)) = Some (String "[" (mid ++ "]")).
Proof.
  intros Hpre Hpost. unfold match_brackets.
  rewrite (from_first_open_skips pre _ Hpre), (upto_last_close_span mid post Hpost).
  reflexivity.
Qed.

(** The admission steps of [processRequest] on a cache miss leave the
    request counter alone. *)
Lemma consume_posts (env : Env) (cost : float) (w : World) :
  posts (snd (consume env cost w)) = posts w
  /\ geminiKey (snd (consume env cost w)) = geminiKey w
  /\ provider (snd (consume env cost w)) = provider w
  /\ fst (consume env cost w) = inr true.
Proof.
  unfold consume. destruct (RateLimiter.consume_begin cost (now w) (rateLimiter w));
    cbn; repeat split.
Qed.

(** *** The cache *)

Section CacheFacts.
Variable V : Type.
Implicit Types (c : LRUCache.t V) (l : list (LRUCache.entry V)).

Lemma lookup_key k l e : LRUCache.lookup k l = Some e -> LRUCache.key e = k.
Proof.
  induction l as [| x rest IH]; cbn; [discriminate |].
  destruct (String.eqb_spec (LRUCache.key x) k) as [Hk | _].
  - intros [= <-]. exact Hk.
  - exact IH.
Qed.

Lemma lookup_in k l e : LRUCache.lookup k l = Some e -> In e l.
Proof.
  induction l as [| x rest IH]; cbn; [discriminate |].
  destruct (LRUCache.key x =? k)%string.
  - intros [= <-]. left. reflexivity.
  - intros H. right. apply IH, H.
Qed.

Lemma lookup_remove k l : LRUCache.lookup k (LRUCache.remove k l) = None.
Proof.
  induction l as [| x rest IH]; cbn; [reflexivity |].
  destruct (LRUCache.key x =? k)%string eqn:Hk; cbn; [exact IH |].
  rewrite Hk. exact IH.
Qed.

Lemma remove_incl k l e : In e (LRUCache.remove k l) -> In e l.
Proof. unfold LRUCache.remove. intros H. apply filter_In in H. apply H. Qed.

(** A miss leaves no entry under the key: a stale one is deleted. *)
Lemma get_miss_clears now k c :
  fst (LRUCache.get now k c) = None ->
  LRUCache.lookup k (LRUCache.entries (snd (LRUCache.get now k c))) = None.
Proof.
  unfold LRUCache.get. destruct (LRUCache.lookup k (LRUCache.entries c)) as [e |] eqn:Hl.
  - destruct (LRUCache.is_stale now c e); cbn; [intros _; apply lookup_remove | discriminate].
  - intros _. exact Hl.
Qed.

(** A hit returns the entry's value and keeps the entry, in front. *)
Lemma get_hit now k c v :
  fst (LRUCache.get now k c) = Some v ->
  exists e, LRUCache.lookup k (LRUCache.entries c) = Some e
            /\ LRUCache.value e = v
            /\ LRUCache.is_stale now c e = false
            /\ LRUCache.lookup k (LRUCache.entries (snd (LRUCache.get now k c))) = Some e.
Proof.
  unfold LRUCache.get. destruct (LRUCache.lookup k (LRUCache.entries c)) as [e |] eqn:Hl;
    [| discriminate].
  destruct (LRUCache.is_stale now c e) eqn:Hs; cbn; [discriminate |].
  intros [= <-]. exists e.
  split; [reflexivity |]. split; [reflexivity |]. split; [exact Hs |].
  cbn. rewrite (lookup_key k _ e Hl), String.eqb_refl. reflexivity.
Qed.

Lemma get_fresh now k c e :
  LRUCache.lookup k (LRUCache.entries c) = Some e ->
  LRUCache.is_stale now c e = false ->
  LRUCache.get now k c
  = (Some (LRUCache.value e),
     LRUCache.with_entries c (e :: LRUCache.remove k (LRUCache.entries c))).
Proof. unfold LRUCache.get. intros -> ->. reflexivity. Qed.

Lemma set_lookup now k v c :
  (0 < LRUCache.max c)%nat ->
  LRUCache.lookup k (LRUCache.entries (LRUCache.set now k v c))
  = Some {| LRUCache.key := k; LRUCache.value := v; LRUCache.start := now |}.
Proof.
  intros Hmax. unfold LRUCache.set. cbn.
  destruct (LRUCache.max c) as [| n]; [lia |]. cbn.
  rewrite String.eqb_refl. reflexivity.
Qed.

Lemma get_values (P : V -> Prop) now k c :
  Forall P (LRUCache.values c) -> Forall P (LRUCache.values (snd (LRUCache.get now k c))).
Proof.
  unfold LRUCache.values, LRUCache.get. intros H.
  rewrite Forall_forall in H.
  destruct (LRUCache.lookup k (LRUCache.entries c)) as [e |] eqn:Hl; cbn;
    [| apply Forall_forall; exact H].
  assert (Hrest : Forall P (map (@LRUCache.value V) (LRUCache.remove k (LRUCache.entries c)))).
  { apply Forall_forall. intros v Hin. apply in_map_iff in Hin as (x & <- & Hx).
    apply H, in_map, (remove_incl k), Hx. }
  destruct (LRUCache.is_stale now c e); cbn; [exact Hrest |].
  constructor; [| exact Hrest].
  apply H, in_map, (lookup_in k), Hl.
Qed.

Lemma set_values (P : V -> Prop) now k v c :
  Forall P (LRUCache.values c) -> P v -> Forall P (LRUCache.values (LRUCache.set now k v c)).
Proof.
  unfold LRUCache.values, LRUCache.set. cbn. intros H Hv.
  rewrite Forall_forall in H. apply Forall_forall. intros x Hin.
  apply in_map_iff in Hin as (e & <- & He).
  assert (Hall : In e ({| LRUCache.key := k; LRUCache.value := v; LRUCache.start := now |}
                       :: LRUCache.remove k (LRUCache.entries c))).
  { rewrite <- (firstn_skipn (LRUCache.max c)). apply in_or_app. left. exact He. }
  destruct Hall as [<- | Hin]; [exact Hv |].
  apply H, in_map, (remove_incl k), Hin.
Qed.

End CacheFacts.

(** *** What the adapters do to the world *)

Lemma try_catch_rethrow {A : Type} (m : M A) (w : World) :
  try_catch m (fun error => throw error) w = m w.
Proof. unfold try_catch, throw. destruct (m w) as [[e | a] w']; reflexivity. Qed.

Lemma callGemini_unfold (env : Env) (request : LLMRequest) (w : World) :
  callGemini env request w = geminiAttempt env request (emit (AdapterCall Gemini) w).
Proof. unfold callGemini, bind, modify. apply try_catch_rethrow. Qed.

Lemma callLMStudio_unfold (env : Env) (request : LLMRequest) (w : World) :
  callLMStudio env request w
  = match lmStudioAttempt env request (emit (AdapterCall LMStudio) w) with
    | (inr r, w2) => (inr r, w2)
    | (inl e, w2) =>
        if (geminiKey w2 =? "")%string then (inl e, w2)
        else callGemini env request w2
    end.
Proof.
  unfold callLMStudio, lmStudioFallback, bind, modify, try_catch, gets, throw.
  destruct (lmStudioAttempt env request (emit (AdapterCall LMStudio) w)) as [[e | r] w2];
    [| reflexivity].
  destruct (geminiKey w2 =? "")%string; reflexivity.
Qed.

(** Closes one branch of an attempt: the service is as it was, the log has
    grown by at most the request, a result has no error. *)
Ltac attempt_branch :=
  cbn;
  split; [repeat split; try reflexivity; lia |];
  split; [auto |];
  intros r H; try discriminate H; injection H as <-; split; reflexivity.

(** An attempt changes nothing of the service, and logs at most its one
    HTTP request; what it returns carries no error. *)
Lemma lmStudioAttempt_effect (env : Env) (request : LLMRequest) (w : World) :
  same_service w (snd (lmStudioAttempt env request w))
  /\ (log (snd (lmStudioAttempt env request w)) = log w
      \/ log (snd (lmStudioAttempt env request w)) = HttpPost LMStudio :: log w)
  /\ (forall r, fst (lmStudioAttempt env request w) = inr r ->
                error r = None /\ original r = text request).
Proof.
  unfold lmStudioAttempt, bind, checkOperation, axiosPost, lift, ret, throw, same_service.
  destruct ((operation request =? "grammar-check")%string
            || (operation request =? "rephrase")%string); [| attempt_branch].
  cbn.
  destruct (outcome (post env (posts w) LMStudio request)) as [e | data]; [attempt_branch |].
  destruct (lmStudioText data) as [e | responseText]; [attempt_branch |].
  destruct (parseSuggestions env _ responseText) as [e | parsed]; attempt_branch.
Qed.

Lemma geminiAttempt_effect (env : Env) (request : LLMRequest) (w : World) :
  same_service w (snd (geminiAttempt env request w))
  /\ (log (snd (geminiAttempt env request w)) = log w
      \/ log (snd (geminiAttempt env request w)) = HttpPost Gemini :: log w)
  /\ (forall r, fst (geminiAttempt env request w) = inr r ->
                error r = None /\ original r = text request).
Proof.
  unfold geminiAttempt, bind, gets, checkOperation, axiosPost, lift, ret, throw, same_service.
  destruct (geminiKey w =? "")%string; [attempt_branch |].
  destruct ((operation request =? "grammar-check")%string
            || (operation request =? "rephrase")%string); [| attempt_branch].
  cbn.
  destruct (outcome (post env (posts w) Gemini request)) as [e | data]; [attempt_branch |].
  destruct (geminiText data) as [e | responseText]; [attempt_branch |].
  destruct (parseSuggestions env _ responseText) as [e | parsed]; attempt_branch.
Qed.

Lemma count_cons (f : Event -> bool) (e : Event) (l : list Event) :
  count f (e :: l) = if f e then S (count f l) else count f l.
Proof. unfold count. cbn. destruct (f e); reflexivity. Qed.

(** An attempt leaves every count of events other than HTTP requests as it
    was. *)
Lemma attempt_keeps_count (f : Event -> bool) (p : Provider) (l l' : list Event) :
  f (HttpPost p) = false ->
  l' = l \/ l' = HttpPost p :: l ->
  count f l' = count f l.
Proof.
  intros Hf [-> | ->]; [reflexivity |]. rewrite count_cons, Hf. reflexivity.
Qed.

(** *** [processRequest], case by case *)

Lemma processRequest_hit (env : Env) (request : LLMRequest) (w : World) (r : LLMResponse) :
  fst (LRUCache.get (now w) (generateCacheKey request) (cache w)) = Some r ->
  processRequest env request w
  = (inr r, emit (CacheGet (generateCacheKey request))
              (set_cache (snd (LRUCache.get (now w) (generateCacheKey request) (cache w))) w)).
Proof.
  intros Hhit. unfold processRequest, try_catch, bind, cacheGet.
  destruct (LRUCache.get (now w) (generateCacheKey request) (cache w)) as [o c].
  cbn in Hhit. subst o. reflexivity.
Qed.

Lemma processRequest_miss (env : Env) (request : LLMRequest) (w : World) :
  fst (LRUCache.get (now w) (generateCacheKey request) (cache w)) = None ->
  processRequest env request w
  = let w1 := snd (consume env 1 (snd (cacheGet (generateCacheKey request) w))) in
    match (if usesLocal w1 then callLMStudio env request else callGemini env request) w1 with
    | (inr r, w2) => (inr r, snd (cacheResponse request r w2))
    | (inl e, w2) => (handleError e request, w2)
    end.
Proof.
  intros Hmiss. unfold processRequest, try_catch, bind, cacheGet, lift.
  destruct (LRUCache.get (now w) (generateCacheKey request) (cache w)) as [o c].
  cbn in Hmiss. subst o. cbn [snd].
  set (w0 := emit (CacheGet (generateCacheKey request)) (set_cache c w)).
  destruct (consume_posts env 1 w0) as (_ & _ & _ & Hok).
  destruct (consume env 1 w0) as [res w1]. cbn in Hok. subst res. cbn [snd].
  unfold gets. cbn zeta.
  destruct (usesLocal w1).
  - destruct (callLMStudio env request w1) as [[e | r] w2]; reflexivity.
  - destruct (callGemini env request w1) as [[e | r] w2]; reflexivity.
Qed.

(** [consume] of the service is [RateLimiter.consume] on the service's
    limiter and clock. *)
Lemma consume_in_service (env : Env) (cost : float) (w : World) :
  rateLimiter (snd (consume env cost w))
  = fst (RateLimiter.consume (sleep env) cost (now w) (rateLimiter w))
  /\ now (snd (consume env cost w))
     = snd (RateLimiter.consume (sleep env) cost (now w) (rateLimiter w))
  /\ cache (snd (consume env cost w)) = cache w.
Proof.
  unfold consume, RateLimiter.consume.
  destruct (RateLimiter.consume_begin cost (now w) (rateLimiter w)); repeat split.
Qed.

(** The admission steps change neither the provider nor the key, and log
    only a lookup, one debit and possibly a wait. *)
Lemma admission_effect (env : Env) (request : LLMRequest) (w : World) :
  let w1 := snd (consume env 1 (snd (cacheGet (generateCacheKey request) w))) in
  provider w1 = provider w /\ geminiKey w1 = geminiKey w
  /\ (forall f, f (CacheGet (generateCacheKey request)) = false ->
                (forall c, f (TokenDebit c) = false) ->
                (forall ms, f (Sleep ms) = false) ->
                count f (log w1) = count f (log w))
  /\ cache w1 = snd (LRUCache.get (now w) (generateCacheKey request) (cache w))
  /\ count is_debit (log w1) = S (count is_debit (log w))
  /\ rateLimiter w1 = fst (RateLimiter.consume (sleep env) 1 (now w) (rateLimiter w))
  /\ now w1 = snd (RateLimiter.consume (sleep env) 1 (now w) (rateLimiter w))
  /\ openaiKey w1 = openaiKey w /\ anthropicKey w1 = anthropicKey w.
Proof.
  unfold cacheGet.
  destruct (LRUCache.get (now w) (generateCacheKey request) (cache w)) as [o c]. cbn [snd].
  set (w0 := emit (CacheGet (generateCacheKey request)) (set_cache c w)).
  destruct (consume_in_service env 1 w0) as (Hrl & Hnow & _).
  change (rateLimiter w0) with (rateLimiter w) in Hrl, Hnow.
  change (now w0) with (now w) in Hrl, Hnow.
  split; [| split; [| split; [| split; [| split;
    [| split; [exact Hrl | split; [exact Hnow |]]]]]]];
    clear Hrl Hnow; unfold consume, w0;
    destruct (RateLimiter.consume_begin 1 _ _) as [rl | waitTime rl];
    cbn [snd fst log emit set_rateLimiter set_now set_cache provider geminiKey cache
         openaiKey anthropicKey];
    try (split; reflexivity);
    try reflexivity;
    try (intros f Hget Hdebit Hsleep; rewrite !count_cons, ?Hget, ?Hdebit, ?Hsleep;
         reflexivity);
    rewrite !count_cons; reflexivity.
Qed.

(** *** Fallback *)

(** Counts of adapter calls and of requests to Gemini up to the moment
    LM Studio's attempt is over. *)
Lemma count_after_primary (env : Env) (request : LLMRequest) (w : World)
    (f : Event -> bool) :
  f (CacheGet (generateCacheKey request)) = false ->
  (forall c, f (TokenDebit c) = false) ->
  (forall ms, f (Sleep ms) = false) ->
  f (HttpPost LMStudio) = false ->
  count f (log (snd (lmStudioAttempt env request (admitted env request w))))
  = if f (AdapterCall LMStudio) then S (count f (log w)) else count f (log w).
Proof.
  intros Hget Hdebit Hsleep Hpost.
  destruct (lmStudioAttempt_effect env request (admitted env request w)) as (_ & Hlog & _).
  rewrite (attempt_keeps_count f LMStudio _ _ Hpost Hlog).
  unfold admitted. cbn [log emit]. rewrite count_cons.
  destruct (admission_effect env request w) as (_ & _ & Hcount & _).
  rewrite (Hcount f Hget Hdebit Hsleep). reflexivity.
Qed.

(** [processRequest] has missed the cache, the provider is the local one
    and LM Studio's attempt has thrown [e].  Without a Gemini key no call
    of the Gemini adapter and no request to Gemini is made, and the caller
    gets what [handleError e] gives: an error response without
    suggestions, unless [handleError] itself throws.  With a key the
    Gemini adapter is called exactly once, LM Studio's not again, and the
    caller gets Gemini's response, or what [handleError] gives for
    Gemini's error, [e] being dropped.  [handleError] throws nothing but
    the TypeError of a failed conversion to string. *)
Lemma lmStudio_fallback_hop
    (env : Env) (request : LLMRequest) (w : World) (e : jserror) (w2 : World) :
  usesLocal w = true ->
  fst (LRUCache.get (now w) (generateCacheKey request) (cache w)) = None ->
  lmStudioAttempt env request (admitted env request w) = (inl e, w2) ->
  (geminiKey w = "" ->
     processRequest env request w = (handleError e request, w2)
     /\ count (is_adapter_call Gemini) (log w2) = count (is_adapter_call Gemini) (log w)
     /\ count (is_http_to Gemini) (log w2) = count (is_http_to Gemini) (log w)
     /\ (forall r, handleError e request = inr r -> suggestions r = [] /\ error r <> None))
  /\ (geminiKey w <> "" ->
        (forall r w3, callGemini env request w2 = (inr r, w3) ->
                      processRequest env request w
                      = (inr r, snd (cacheResponse request r w3)))
        /\ (forall e' w3, callGemini env request w2 = (inl e', w3) ->
                          processRequest env request w = (handleError e' request, w3))
        /\ count (is_adapter_call Gemini) (log (snd (processRequest env request w)))
           = S (count (is_adapter_call Gemini) (log w))
        /\ count (is_adapter_call LMStudio) (log (snd (processRequest env request w)))
           = S (count (is_adapter_call LMStudio) (log w)))
  /\ ((exists r, fst (processRequest env request w) = inr r)
      \/ fst (processRequest env request w) = inl cannot_convert).
Proof.
  intros Hlocal Hmiss Hattempt.
  pose proof (processRequest_miss env request w Hmiss) as Hrun. cbn zeta in Hrun.
  destruct (admission_effect env request w) as (Hprov & Hkey & _). cbn zeta in Hprov, Hkey.
  set (w1 := snd (consume env 1 (snd (cacheGet (generateCacheKey request) w)))) in *.
  assert (Hlocal1 : usesLocal w1 = true) by (unfold usesLocal in *; rewrite Hprov; exact Hlocal).
  rewrite Hlocal1, callLMStudio_unfold in Hrun.
  change (emit (AdapterCall LMStudio) w1) with (admitted env request w) in Hrun.
  destruct (lmStudioAttempt_effect env request (admitted env request w))
    as ((_ & Hkey2 & _ & _) & _ & _).
  pose proof (count_after_primary env request w (is_adapter_call Gemini)
                eq_refl (fun _ => eq_refl) (fun _ => eq_refl) eq_refl) as HcountG.
  pose proof (count_after_primary env request w (is_http_to Gemini)
                eq_refl (fun _ => eq_refl) (fun _ => eq_refl) eq_refl) as HcountH.
  pose proof (count_after_primary env request w (is_adapter_call LMStudio)
                eq_refl (fun _ => eq_refl) (fun _ => eq_refl) eq_refl) as HcountL.
  rewrite Hattempt in Hrun, Hkey2, HcountG, HcountH, HcountL.
  cbn [snd] in Hkey2, HcountG, HcountH, HcountL.
  assert (Hk : geminiKey w2 = geminiKey w).
  { rewrite Hkey2. unfold admitted. cbn [geminiKey emit]. exact Hkey. }
  split; [| split].
  - intros Hnokey. rewrite Hk, Hnokey in Hrun. cbn in Hrun.
    split; [exact Hrun |]. split; [exact HcountG |]. split; [exact HcountH |].
    intros r Hr. destruct (handleError_shape e request r Hr) as (Hs & _ & msg & Hmsg & _).
    split; [exact Hs |]. rewrite Hmsg. discriminate.
  - intros Hwithkey.
    assert (Hneq : (geminiKey w2 =? "")%string = false).
    { rewrite Hk. apply String.eqb_neq. exact Hwithkey. }
    rewrite Hneq in Hrun.
    pose proof (callGemini_unfold env request w2) as Hg.
    destruct (geminiAttempt_effect env request (emit (AdapterCall Gemini) w2))
      as (_ & Hglog & _).
    rewrite <- Hg in Hglog.
    assert (HG3 : count (is_adapter_call Gemini) (log (snd (callGemini env request w2)))
                  = S (count (is_adapter_call Gemini) (log w))).
    { rewrite (attempt_keeps_count _ Gemini _ _ eq_refl Hglog).
      cbn [log emit]. rewrite count_cons. cbn [is_adapter_call provider_eqb]. rewrite HcountG.
      reflexivity. }
    assert (HL3 : count (is_adapter_call LMStudio) (log (snd (callGemini env request w2)))
                  = S (count (is_adapter_call LMStudio) (log w))).
    { rewrite (attempt_keeps_count _ Gemini _ _ eq_refl Hglog).
      cbn [log emit]. rewrite count_cons. cbn [is_adapter_call provider_eqb]. rewrite HcountL.
      reflexivity. }
    destruct (callGemini env request w2) as [[e' | r] w3] eqn:Hcall; cbn [snd] in HG3, HL3.
    + split; [intros r w3' Heq; discriminate Heq |].
      split; [intros e'' w3' [= <- <-]; exact Hrun |].
      rewrite Hrun. cbn [snd]. split; assumption.
    + split; [intros r' w3' [= <- <-]; exact Hrun |].
      split; [intros e'' w3' Heq; discriminate Heq |].
      rewrite Hrun. cbn [snd cacheResponse log emit set_cache]. rewrite !count_cons.
      cbn [is_adapter_call provider_eqb]. split; assumption.
  - apply processRequest_settles.
Qed.

(** *** Caching *)

Lemma same_service_emit (ev : Event) (w w' : World) :
  same_service (emit ev w) w' -> same_service w w'.
Proof. exact (fun H => H). Qed.

(** Both adapters leave the service as it was and return responses
    without an error; each logs its own call, and nothing but adapter
    calls and HTTP requests. *)
Lemma callGemini_effect (env : Env) (request : LLMRequest) (w : World) :
  same_service w (snd (callGemini env request w))
  /\ (forall r, fst (callGemini env request w) = inr r -> error r = None)
  /\ count is_any_adapter_call (log (snd (callGemini env request w)))
     = S (count is_any_adapter_call (log w))
  /\ (forall f, quiet f ->
                count f (log (snd (callGemini env request w))) = count f (log w)).
Proof.
  rewrite callGemini_unfold.
  destruct (geminiAttempt_effect env request (emit (AdapterCall Gemini) w))
    as (Hsame & Hlog & Hres).
  split; [exact Hsame |]. split; [intros r Hr; apply (Hres r Hr) |].
  split.
  - rewrite (attempt_keeps_count _ Gemini _ _ eq_refl Hlog). cbn [log emit].
    rewrite count_cons. reflexivity.
  - intros f [Hcall Hpost].
    rewrite (attempt_keeps_count f Gemini _ _ (Hpost Gemini) Hlog). cbn [log emit].
    rewrite count_cons, Hcall. reflexivity.
Qed.

Lemma callLMStudio_effect (env : Env) (request : LLMRequest) (w : World) :
  same_service w (snd (callLMStudio env request w))
  /\ (forall r, fst (callLMStudio env request w) = inr r -> error r = None)
  /\ (count is_any_adapter_call (log w)
      < count is_any_adapter_call (log (snd (callLMStudio env request w))))%nat
  /\ (forall f, quiet f ->
                count f (log (snd (callLMStudio env request w))) = count f (log w)).
Proof.
  rewrite callLMStudio_unfold.
  destruct (lmStudioAttempt_effect env request (emit (AdapterCall LMStudio) w))
    as (Hsame & Hlog & Hres).
  assert (Hcount : count is_any_adapter_call
                     (log (snd (lmStudioAttempt env request (emit (AdapterCall LMStudio) w))))
                   = S (count is_any_adapter_call (log w))).
  { rewrite (attempt_keeps_count _ LMStudio _ _ eq_refl Hlog). cbn [log emit].
    rewrite count_cons. reflexivity. }
  assert (Hquiet : forall f, quiet f ->
            count f (log (snd (lmStudioAttempt env request (emit (AdapterCall LMStudio) w))))
            = count f (log w)).
  { intros f [Hcall Hpost].
    rewrite (attempt_keeps_count f LMStudio _ _ (Hpost LMStudio) Hlog). cbn [log emit].
    rewrite count_cons, Hcall. reflexivity. }
  destruct (lmStudioAttempt env request (emit (AdapterCall LMStudio) w)) as [[e | r] w2];
    cbn [fst snd] in *.
  - destruct (geminiKey w2 =? "")%string.
    + cbn [fst snd]. split; [exact Hsame |]. split; [discriminate |].
      split; [lia | exact Hquiet].
    + destruct (callGemini_effect env request w2) as (Hsame2 & Hres2 & Hcount2 & Hquiet2).
      split.
      { destruct Hsame as (H1 & H2 & H3 & H4 & H5 & H6 & H7).
        destruct Hsame2 as (G1 & G2 & G3 & G4 & G5 & G6 & G7).
        unfold same_service.
        cbn [provider geminiKey openaiKey anthropicKey cache rateLimiter now emit] in *.
        repeat split; try congruence. lia. }
      split; [exact Hres2 |]. split; [lia |].
      intros f Hf. rewrite (Hquiet2 f Hf). apply (Hquiet f Hf).
  - split; [exact Hsame |]. split; [intros r' Hr; apply (Hres r' Hr) |].
    split; [lia | exact Hquiet].
Qed.

Lemma call_effect (env : Env) (request : LLMRequest) (w : World) :
  let run := (if usesLocal w then callLMStudio env request else callGemini env request) w in
  same_service w (snd run)
  /\ (forall r, fst run = inr r -> error r = None)
  /\ (count is_any_adapter_call (log w) < count is_any_adapter_call (log (snd run)))%nat
  /\ (forall f, quiet f -> count f (log (snd run)) = count f (log w)).
Proof.
  cbn zeta. destruct (usesLocal w).
  - apply callLMStudio_effect.
  - destruct (callGemini_effect env request w) as (H1 & H2 & H3 & H4).
    split; [exact H1 |]. split; [exact H2 |]. split; [lia | exact H4].
Qed.

Lemma get_max {V : Type} (now : Z) (k : string) (c : LRUCache.t V) :
  LRUCache.max (snd (LRUCache.get now k c)) = LRUCache.max c.
Proof.
  unfold LRUCache.get. destruct (LRUCache.lookup k (LRUCache.entries c)) as [e |];
    [destruct (LRUCache.is_stale now c e) |]; reflexivity.
Qed.

(** What a call of [processRequest] that missed the cache leaves behind:
    a token was debited and an adapter called; either the response has no
    error and was cached, or it has one, or [handleError] has thrown, and
    the cache holds what the lookup left. *)
Lemma processRequest_miss_result (env : Env) (request : LLMRequest) (w : World) :
  fst (LRUCache.get (now w) (generateCacheKey request) (cache w)) = None ->
  let k := generateCacheKey request in
  let missed := snd (LRUCache.get (now w) k (cache w)) in
  let w' := snd (processRequest env request w) in
  (count is_any_adapter_call (log w) < count is_any_adapter_call (log w'))%nat
  /\ count is_debit (log w') = S (count is_debit (log w))
  /\ ((exists resp, fst (processRequest env request w) = inr resp
         /\ ((error resp = None
              /\ cache w' = LRUCache.set (now w') k resp missed
              /\ count is_cache_set (log w') = S (count is_cache_set (log w)))
             \/ (error resp <> None
                 /\ cache w' = missed
                 /\ count is_cache_set (log w') = count is_cache_set (log w))))
      \/ (fst (processRequest env request w) = inl cannot_convert
          /\ cache w' = missed
          /\ count is_cache_set (log w') = count is_cache_set (log w))).
Proof.
  intros Hmiss. cbn zeta. rewrite (processRequest_miss env request w Hmiss). cbn zeta.
  destruct (admission_effect env request w) as (_ & _ & Hcount & Hcache & Hd & _).
  cbn zeta in Hcount, Hcache, Hd.
  pose proof (Hcount is_any_adapter_call eq_refl (fun _ => eq_refl) (fun _ => eq_refl)) as Ha.
  pose proof (Hcount is_cache_set eq_refl (fun _ => eq_refl) (fun _ => eq_refl)) as Hs.
  clear Hcount.
  remember (snd (consume env 1 (snd (cacheGet (generateCacheKey request) w)))) as w1 eqn:Hw1.
  clear Hw1.
  destruct (call_effect env request w1) as ((_ & _ & Hc & _) & Hres & Hadapter & Hquiet).
  cbn zeta in Hc, Hres, Hadapter, Hquiet.
  pose proof (Hquiet is_cache_set (conj (fun _ => eq_refl) (fun _ => eq_refl))) as Hq.
  pose proof (Hquiet is_debit (conj (fun _ => eq_refl) (fun _ => eq_refl))) as Hqd.
  clear Hquiet.
  destruct ((if usesLocal w1 then callLMStudio env request else callGemini env request) w1)
    as [[e | resp] w2]; cbn [fst snd] in *.
  - split; [lia |]. split; [lia |].
    destruct (handleError_settles e request) as [(code & msg & Heq & _) | Heq]; rewrite Heq.
    + left. eexists. split; [reflexivity |]. right.
      split; [discriminate |]. split; [congruence | lia].
    + right. split; [reflexivity |]. split; [congruence | lia].
  - unfold cacheResponse. cbn [snd log emit set_cache cache now].
    rewrite !count_cons. cbn [is_any_adapter_call is_cache_set is_debit].
    split; [lia |]. split; [lia |].
    left. exists resp. split; [reflexivity |]. left.
    split; [apply Hres; reflexivity |].
    split; [congruence | lia].
Qed.

(** *** Empty text *)

(** C1, as the code has it.  [checkGrammar] and [rephraseText] answer an
    empty text with a returned error response, classified [ERR_UNKNOWN],
    and leave the whole service untouched: no cache lookup, no token
    debited, no adapter or network call, no event; nothing is thrown.
    [processRequest] does not look at the text: a request with empty text
    that misses the cache costs a token and reaches an adapter like any
    other. *)
Theorem C1_empty_text_is_answered_without_side_effect :
  (forall (env : Env) (w : World) (language style : option string),
      checkGrammar env "" language w
      = (inr {| original := ""; suggestions := [];
                error := Some "ERR_UNKNOWN: Invalid text input" |}, w)
      /\ rephraseText env "" style w
         = (inr {| original := ""; suggestions := [];
                   error := Some "ERR_UNKNOWN: Invalid text input" |}, w))
  /\ (forall (env : Env) (request : LLMRequest) (w : World),
        text request = "" ->
        fst (LRUCache.get (now w) (generateCacheKey request) (cache w)) = None ->
        count is_debit (log (snd (processRequest env request w)))
        = S (count is_debit (log w))
        /\ (count is_any_adapter_call (log w)
            < count is_any_adapter_call (log (snd (processRequest env request w))))%nat).
Proof.
  split.
  - intros env w language style. split; reflexivity.
  - intros env request w _ Hmiss.
    destruct (processRequest_miss_result env request w Hmiss) as (Hcall & Hdebit & _).
    split; [exact Hdebit | exact Hcall].
Qed.

Lemma C1_empty_text_is_answered_without_side_effect_witness :
  count is_debit
    (log (snd (processRequest (refEnv Fixtures.unreachable) (Fixtures.grammarRequest "")
                 Fixtures.localService)))
  = S (count is_debit (log Fixtures.localService)).
Proof.
  exact (proj1 (proj2 C1_empty_text_is_answered_without_side_effect
                  (refEnv Fixtures.unreachable) (Fixtures.grammarRequest "")
                  Fixtures.localService eq_refl eq_refl)).
Defined.

(** C1, counterexample.  [checkGrammar] on the empty text returns a
    response value ([inr]) instead of throwing; and [processRequest] has no
    validation at all: on a request with empty text it looks the cache up,
    debits a token, posts to the provider and caches the answer. *)
Lemma C1_counterexample :
  fst (checkGrammar (refEnv (Fixtures.answers Fixtures.oneCorrection)) "" None
         Fixtures.localService)
  = inr {| original := ""; suggestions := [];
           error := Some "ERR_UNKNOWN: Invalid text input" |}
  /\ (let w := snd (processRequest (refEnv (Fixtures.answers Fixtures.oneCorrection))
                      (Fixtures.grammarRequest "") Fixtures.localService) in
      log w = [CacheSet "grammar-check::en:"; HttpPost LMStudio; AdapterCall LMStudio;
               TokenDebit 1%float; CacheGet "grammar-check::en:"]
      /\ RateLimiter.tokens (rateLimiter w) = 9%float
      /\ length (LRUCache.entries (cache w)) = 1%nat).
Proof.
  vm_compute. repeat split.
Qed.

(** The IPC handlers do throw on an empty text, before the service is
    called: the renderer's [invoke] rejects and the service is untouched. *)
Lemma ipc_handlers_reject_empty_text :
  forall (env : Env) (w : World) (opt : option string),
    IpcHandlers.onCheckGrammar env (Some ("", opt)) w
    = (inl (JsError "Invalid input for grammar check"), w)
    /\ IpcHandlers.onRephraseText env (Some ("", opt)) w
       = (inl (JsError "Invalid input for text rephrasing"), w)
    /\ IpcHandlers.onCheckGrammar env None w
       = (inl (JsError "Invalid input for grammar check"), w)
    /\ IpcHandlers.onRephraseText env None w
       = (inl (JsError "Invalid input for text rephrasing"), w).
Proof. intros env w opt. repeat split. Qed.

(** *** Repeated requests *)

(** A successful call leaves its response in the cache under the
    request's key. *)
Lemma success_is_cached (env : Env) (request : LLMRequest) (w w1 : World) (r1 : LLMResponse) :
  (0 < LRUCache.max (cache w))%nat ->
  processRequest env request w = (inr r1, w1) ->
  error r1 = None ->
  exists e, LRUCache.lookup (generateCacheKey request) (LRUCache.entries (cache w1)) = Some e
            /\ LRUCache.value e = r1.
Proof.
  intros Hmax Hrun Hok.
  destruct (fst (LRUCache.get (now w) (generateCacheKey request) (cache w))) as [r |] eqn:Hget.
  - rewrite (processRequest_hit env request w r Hget) in Hrun. injection Hrun as <- <-.
    destruct (get_hit _ _ _ _ _ Hget) as (e & _ & Hv & _ & Hl).
    exists e. split; [exact Hl | exact Hv].
  - destruct (processRequest_miss_result env request w Hget)
      as (_ & _ & [(resp & Hresp & Hcase) | (Hrej & _)]);
      [| rewrite Hrun in Hrej; discriminate Hrej].
    cbn zeta in Hcase. rewrite Hrun in Hresp, Hcase. cbn [fst snd] in Hresp, Hcase.
    injection Hresp as <-.
    destruct Hcase as [(_ & Hcache & _) | (Herr & _)]; [| contradiction].
    rewrite Hcache. eexists. split; [apply set_lookup | reflexivity].
    rewrite get_max. exact Hmax.
Qed.

(** C3, as the code has it.  The first call returned a response without
    error, and at the time [t2] of the second call the entry it left in the
    cache has not outlived the TTL.  Then the second call, whatever the
    network would do, returns the same response, logs one cache lookup
    and nothing else, and leaves the rate limiter and the request counter
    as they were: no adapter call, no HTTP request, no token debited. *)
Theorem C3_repeated_request_is_served_from_cache
    (env env' : Env) (request : LLMRequest) (w w1 : World) (r1 : LLMResponse) (t2 : Z) :
  (0 < LRUCache.max (cache w))%nat ->
  processRequest env request w = (inr r1, w1) ->
  error r1 = None ->
  (forall e, LRUCache.lookup (generateCacheKey request) (LRUCache.entries (cache w1)) = Some e ->
             LRUCache.is_stale t2 (cache w1) e = false) ->
  fst (processRequest env' request (set_now t2 w1)) = inr r1
  /\ log (snd (processRequest env' request (set_now t2 w1)))
     = CacheGet (generateCacheKey request) :: log w1
  /\ rateLimiter (snd (processRequest env' request (set_now t2 w1))) = rateLimiter w1
  /\ posts (snd (processRequest env' request (set_now t2 w1))) = posts w1.
Proof.
  intros Hmax Hrun Hok Hfresh.
  destruct (success_is_cached env request w w1 r1 Hmax Hrun Hok) as (e & Hl & Hv).
  pose proof (get_fresh _ t2 _ (cache w1) e Hl (Hfresh e Hl)) as Hget.
  assert (Hhit : fst (LRUCache.get (now (set_now t2 w1)) (generateCacheKey request)
                        (cache (set_now t2 w1))) = Some r1).
  { cbn [now cache set_now]. rewrite Hget, Hv. reflexivity. }
  rewrite (processRequest_hit env' request (set_now t2 w1) r1 Hhit).
  repeat split.
Qed.

Lemma C3_repeated_request_is_served_from_cache_witness :
  fst (processRequest (refEnv Fixtures.unreachable) (Fixtures.grammarRequest "He go to school")
         (set_now 5000
            (snd (processRequest (refEnv (Fixtures.answers Fixtures.oneCorrection))
                    (Fixtures.grammarRequest "He go to school") Fixtures.localService))))
  = fst (processRequest (refEnv (Fixtures.answers Fixtures.oneCorrection))
           (Fixtures.grammarRequest "He go to school") Fixtures.localService).
Proof.
  destruct (processRequest (refEnv (Fixtures.answers Fixtures.oneCorrection))
              (Fixtures.grammarRequest "He go to school") Fixtures.localService)
    as [res w1] eqn:Hfirst.
  assert (Hres : exists r1, res = inr r1 /\ error r1 = None
                            /\ forall e, LRUCache.lookup
                                 (generateCacheKey (Fixtures.grammarRequest "He go to school"))
                                 (LRUCache.entries (cache w1)) = Some e ->
                               LRUCache.is_stale 5000 (cache w1) e = false).
  { vm_compute in Hfirst. injection Hfirst as <- <-. eexists. split; [reflexivity |].
    split; [reflexivity |]. intros e He. vm_compute in He. injection He as <-. reflexivity. }
  destruct Hres as (r1 & -> & Hok & Hfresh). cbn [fst snd].
  exact (proj1 (C3_repeated_request_is_served_from_cache
                  (refEnv (Fixtures.answers Fixtures.oneCorrection))
                  (refEnv Fixtures.unreachable)
                  (Fixtures.grammarRequest "He go to school")
                  Fixtures.localService w1 r1 5000
                  ltac:(vm_compute; lia) Hfirst Hok Hfresh)).
Defined.

(** C3, counterexample.  With the provider out of reach the first call
    returns an error response, nothing is cached, and the identical second
    call debits a second token and posts a second request.  And when the
    first call succeeded at time 100 but the second comes more than an
    hour later, the entry has expired: again a second token and a second
    request. *)
Lemma C3_counterexample :
  (let w1 := snd (processRequest (refEnv Fixtures.unreachable)
                    (Fixtures.grammarRequest "He go to school") Fixtures.localService) in
   let w2 := snd (processRequest (refEnv Fixtures.unreachable)
                    (Fixtures.grammarRequest "He go to school") w1) in
   count is_http (log w2) = 2%nat /\ count is_debit (log w2) = 2%nat
   /\ LRUCache.entries (cache w1) = [])
  /\
  (let first := processRequest (refEnv (Fixtures.answers Fixtures.oneCorrection))
                  (Fixtures.grammarRequest "He go to school") Fixtures.localService in
   let w2 := snd (processRequest (refEnv (Fixtures.answers Fixtures.oneCorrection))
                    (Fixtures.grammarRequest "He go to school")
                    (set_now (100 + 3600001) (snd first))) in
   now (snd first) = 100
   /\ count is_http (log w2) = 2%nat /\ count is_debit (log w2) = 2%nat).
Proof.
  vm_compute. repeat split.
Qed.

(** *** Only successes are cached *)

(** [checkGrammar] and [rephraseText] hand on what [processRequest]
    returns; when [processRequest] rejects, their own [catch] block turns
    the TypeError into an error response. *)
Lemma checkGrammar_unfold (env : Env) (text : string) (language : option string) (w : World) :
  let request := {| LLMService.text := text; operation := "grammar-check"; style := None;
                    language := Some (match language with Some l => l | None => "en" end) |} in
  checkGrammar env text language w
  = if (text =? "")%string
    then (inr {| original := text; suggestions := [];
                 error := Some "ERR_UNKNOWN: Invalid text input" |}, w)
    else match processRequest env request w with
         | (inr r, w') => (inr r, w')
         | (inl _, w') => (inr (conversionFailure request), w')
         end.
Proof.
  cbn zeta. unfold checkGrammar, try_catch, lift.
  destruct (text =? "")%string; [reflexivity |].
  match goal with |- context [processRequest env ?rq w] =>
    destruct (processRequest_settles env rq w) as [[r Hr] | Hr];
    destruct (processRequest env rq w) as [res w'] end;
    cbn in Hr; subst res; reflexivity.
Qed.

Lemma rephraseText_unfold (env : Env) (text : string) (style : option string) (w : World) :
  let request := {| LLMService.text := text; operation := "rephrase";
                    style := Some (match style with Some s => s | None => "formal" end);
                    language := None |} in
  rephraseText env text style w
  = if (text =? "")%string
    then (inr {| original := text; suggestions := [];
                 error := Some "ERR_UNKNOWN: Invalid text input" |}, w)
    else match processRequest env request w with
         | (inr r, w') => (inr r, w')
         | (inl _, w') => (inr (conversionFailure request), w')
         end.
Proof.
  cbn zeta. unfold rephraseText, try_catch, lift.
  destruct (text =? "")%string; [reflexivity |].
  match goal with |- context [processRequest env ?rq w] =>
    destruct (processRequest_settles env rq w) as [[r Hr] | Hr];
    destruct (processRequest env rq w) as [res w'] end;
    cbn in Hr; subst res; reflexivity.
Qed.

(** The world [checkGrammar] and [rephraseText] leave is the one
    [processRequest] leaves. *)
Lemma entry_point_world {A : Type} (run : (jserror + A) * World) (fallback : A) :
  snd (match run with
       | (inr r, w') => (inr r, w')
       | (inl _, w') => (@inr jserror A fallback, w')
       end) = snd run.
Proof. destruct run as [[e | r] w']; reflexivity. Qed.

Lemma processRequest_keeps_cache_clean (env : Env) (request : LLMRequest) (w : World) :
  no_cached_error w -> no_cached_error (snd (processRequest env request w)).
Proof.
  unfold no_cached_error. intros Hclean.
  pose proof (get_values _ (fun r => error r = None) (now w) (generateCacheKey request)
                (cache w) Hclean) as Hmissed.
  destruct (fst (LRUCache.get (now w) (generateCacheKey request) (cache w))) as [r |] eqn:Hget.
  - rewrite (processRequest_hit env request w r Hget). exact Hmissed.
  - destruct (processRequest_miss_result env request w Hget)
      as (_ & _ & [(resp & _ & Hcase) | (_ & Hcase & _)]);
      cbn zeta in Hcase; [| rewrite Hcase; exact Hmissed].
    destruct Hcase as [(Hok & -> & _) | (_ & -> & _)]; [| exact Hmissed].
    apply set_values; assumption.
Qed.

Lemma error_response_is_not_cached (env : Env) (request : LLMRequest) (w w1 : World)
    (r1 : LLMResponse) :
  processRequest env request w = (inr r1, w1) ->
  error r1 <> None ->
  count is_cache_set (log w1) = count is_cache_set (log w).
Proof.
  intros Hrun Herr.
  destruct (fst (LRUCache.get (now w) (generateCacheKey request) (cache w))) as [r |] eqn:Hget.
  - rewrite (processRequest_hit env request w r Hget) in Hrun. injection Hrun as <- <-.
    cbn [log emit set_cache]. rewrite count_cons. reflexivity.
  - destruct (processRequest_miss_result env request w Hget)
      as (_ & _ & [(resp & Hresp & Hcase) | (Hrej & _)]);
      [| rewrite Hrun in Hrej; discriminate Hrej].
    cbn zeta in Hcase. rewrite Hrun in Hresp, Hcase. cbn [fst snd] in Hresp, Hcase.
    injection Hresp as <-.
    destruct Hcase as [(Hok & _) | (_ & _ & Hcount)]; [contradiction | exact Hcount].
Qed.

Lemma failure_is_retried (env env' : Env) (request : LLMRequest) (w w1 : World)
    (r1 : LLMResponse) (t2 : Z) :
  no_cached_error w ->
  processRequest env request w = (inr r1, w1) ->
  error r1 <> None ->
  (count is_any_adapter_call (log w1)
   < count is_any_adapter_call (log (snd (processRequest env' request (set_now t2 w1)))))%nat.
Proof.
  intros Hclean Hrun Herr.
  destruct (fst (LRUCache.get (now w) (generateCacheKey request) (cache w))) as [r |] eqn:Hget.
  - exfalso. rewrite (processRequest_hit env request w r Hget) in Hrun.
    injection Hrun as <- _.
    destruct (get_hit _ _ _ _ _ Hget) as (e & Hl & Hv & _).
    unfold no_cached_error in Hclean. rewrite Forall_forall in Hclean.
    apply Herr, Hclean. rewrite <- Hv. apply in_map, (lookup_in _ _ _ _ Hl).
  - destruct (processRequest_miss_result env request w Hget)
      as (_ & _ & [(resp & Hresp & Hcase) | (Hrej & _)]);
      [| rewrite Hrun in Hrej; discriminate Hrej].
    cbn zeta in Hcase. rewrite Hrun in Hresp, Hcase. cbn [fst snd] in Hresp, Hcase.
    injection Hresp as <-.
    destruct Hcase as [(Hok & _) | (_ & Hcache & _)]; [contradiction |].
    pose proof (get_miss_clears _ _ _ _ Hget) as Hgone. rewrite <- Hcache in Hgone.
    assert (Hmiss2 : fst (LRUCache.get (now (set_now t2 w1)) (generateCacheKey request)
                            (cache (set_now t2 w1))) = None).
    { cbn [now cache set_now]. unfold LRUCache.get. rewrite Hgone. reflexivity. }
    apply (processRequest_miss_result env' request (set_now t2 w1) Hmiss2).
Qed.

(** The renderer's closure writes to its cache only a reply whose [error]
    is absent or empty. *)
Lemma renderer_caches_only_clean_replies
    (env : LLMProcessor.Env) (c : LLMProcessor.Channel) (cacheKey text : string)
    (opt : option string) (t : Z) (s : LLMProcessor.Store) :
  LLMProcessor.cache (snd (LLMProcessor.request_job env c cacheKey text opt t s))
  = LLMProcessor.cache s
  \/ exists r,
       fst (LLMProcessor.request_job env c cacheKey text opt t s) = inr (Some r)
       /\ (error r = None \/ error r = Some "")
       /\ LLMProcessor.cache (snd (LLMProcessor.request_job env c cacheKey text opt t s))
          = LRUCache.set t cacheKey r (LLMProcessor.cache s).
Proof.
  unfold LLMProcessor.request_job.
  destruct (negb (LLMProcessor.onLine env t)); [left; reflexivity |].
  destruct (LLMProcessor.invoke env (LLMProcessor.invokes s) c text opt) as [e | [r |]];
    [left; reflexivity | | left; reflexivity].
  destruct (LLMProcessor.no_error r) eqn:Hclean; [| left; reflexivity].
  right. exists r. split; [reflexivity |]. split; [| reflexivity].
  unfold LLMProcessor.no_error in Hclean. destruct (error r) as [msg |]; [| left; reflexivity].
  right. apply String.eqb_eq in Hclean. rewrite Hclean. reflexivity.
Qed.

(** C7.  In the main process a cache whose responses are all free of
    error stays so through [processRequest], [checkGrammar] and
    [rephraseText]; a call that returns a response with an error has
    written nothing to the cache; and after such a call the identical
    request, whenever it comes, calls an adapter again.  In the renderer
    the debounced closure leaves its cache alone unless the reply from the
    main process has no error message, and then caches that reply. *)
Theorem C7_only_successes_are_cached :
  (forall (env : Env) (request : LLMRequest) (text : string) (opt : option string) (w : World),
      no_cached_error w ->
      no_cached_error (snd (processRequest env request w))
      /\ no_cached_error (snd (checkGrammar env text opt w))
      /\ no_cached_error (snd (rephraseText env text opt w)))
  /\ (forall (env : Env) (request : LLMRequest) (w w1 : World) (r1 : LLMResponse),
        processRequest env request w = (inr r1, w1) ->
        error r1 <> None ->
        count is_cache_set (log w1) = count is_cache_set (log w))
  /\ (forall (env env' : Env) (request : LLMRequest) (w w1 : World) (r1 : LLMResponse) (t2 : Z),
        no_cached_error w ->
        processRequest env request w = (inr r1, w1) ->
        error r1 <> None ->
        (count is_any_adapter_call (log w1)
         < count is_any_adapter_call
             (log (snd (processRequest env' request (set_now t2 w1)))))%nat)
  /\ (forall (env : LLMProcessor.Env) (c : LLMProcessor.Channel) (cacheKey text : string)
             (opt : option string) (t : Z) (s : LLMProcessor.Store),
        LLMProcessor.cache (snd (LLMProcessor.request_job env c cacheKey text opt t s))
        = LLMProcessor.cache s
        \/ exists r,
             fst (LLMProcessor.request_job env c cacheKey text opt t s) = inr (Some r)
             /\ (error r = None \/ error r = Some "")
             /\ LLMProcessor.cache (snd (LLMProcessor.request_job env c cacheKey text opt t s))
                = LRUCache.set t cacheKey r (LLMProcessor.cache s)).
Proof.
  split; [| split; [| split]].
  - intros env request text opt w Hclean.
    split; [apply processRequest_keeps_cache_clean, Hclean |].
    split.
    + rewrite checkGrammar_unfold. cbn zeta. destruct (text =? "")%string; [exact Hclean |].
      rewrite entry_point_world. apply processRequest_keeps_cache_clean, Hclean.
    + rewrite rephraseText_unfold. cbn zeta. destruct (text =? "")%string; [exact Hclean |].
      rewrite entry_point_world. apply processRequest_keeps_cache_clean, Hclean.
  - exact error_response_is_not_cached.
  - exact failure_is_retried.
  - exact renderer_caches_only_clean_replies.
Qed.

Lemma C7_only_successes_are_cached_witness :
  (count is_any_adapter_call
     (log (snd (processRequest (refEnv Fixtures.unreachable)
                  (Fixtures.grammarRequest "He go to school") Fixtures.localService)))
   < count is_any_adapter_call
       (log (snd (processRequest (refEnv (Fixtures.answers Fixtures.oneCorrection))
                    (Fixtures.grammarRequest "He go to school")
                    (set_now 9000
                       (snd (processRequest (refEnv Fixtures.unreachable)
                               (Fixtures.grammarRequest "He go to school")
                               Fixtures.localService)))))))%nat.
Proof.
  destruct C7_only_successes_are_cached as (_ & _ & Hretry & _).
  apply (Hretry (refEnv Fixtures.unreachable)
           (refEnv (Fixtures.answers Fixtures.oneCorrection))
           (Fixtures.grammarRequest "He go to school") Fixtures.localService
           (snd (processRequest (refEnv Fixtures.unreachable)
                   (Fixtures.grammarRequest "He go to school") Fixtures.localService))
           {| original := "He go to school"; suggestions := [];
              error := Some "ERR_NETWORK: No response received from LLM service" |}
           9000).
  - constructor.
  - vm_compute. reflexivity.
  - discriminate.
Defined.

(* ================================================================== *)
(** ** Properties of the earlier variant of the service *)
(* ================================================================== *)

Section OllamaVariant.
Import LLMServiceOllama.

Lemma ollama_handleError_settles (e : jserror) (request : LLMRequest) :
  (exists code msg,
      LLMServiceOllama.handleError e request
      = inr {| original := text request; suggestions := [];
               error := Some (code ++ ": " ++ msg) |}
      /\ In code handledCodes)
  \/ LLMServiceOllama.handleError e request = inl cannot_convert.
Proof.
  unfold LLMServiceOllama.handleError, LLMServiceOllama.describeError, handledCodes.
  destruct e as [[resp |] [|] | msg | v].
  - match goal with |- context [to_string ?x] =>
      destruct (to_string_settles x) as [[s ->] | ->] end;
      [left; eexists; eexists; (split; [reflexivity |]); cbn; tauto | right; reflexivity].
  - match goal with |- context [to_string ?x] =>
      destruct (to_string_settles x) as [[s ->] | ->] end;
      [left; eexists; eexists; (split; [reflexivity |]); cbn; tauto | right; reflexivity].
  - left; eexists; eexists; (split; [reflexivity |]); cbn; tauto.
  - left; eexists; eexists; (split; [reflexivity |]); cbn; tauto.
  - left. destruct (includes msg "API key"); [| destruct (includes msg "timeout")];
      eexists; eexists; (split; [reflexivity |]); cbn; tauto.
  - left; eexists; eexists; (split; [reflexivity |]); cbn; tauto.
Qed.

Lemma ollama_processRequest_settles (env : Env) (request : LLMRequest) (w : World) :
  (exists r, fst (LLMServiceOllama.processRequest env request w) = inr r)
  \/ fst (LLMServiceOllama.processRequest env request w) = inl cannot_convert.
Proof.
  unfold LLMServiceOllama.processRequest, try_catch, lift.
  match goal with |- context [match ?b w with _ => _ end] => destruct (b w) as [[e | r] w'] end.
  - destruct (ollama_handleError_settles e request) as [(code & msg & -> & _) | ->];
      [left; eexists; reflexivity | right; reflexivity].
  - left. exists r. reflexivity.
Qed.

Lemma ollama_handleError_shape (e : jserror) (request : LLMRequest) (r : LLMResponse) :
  LLMServiceOllama.handleError e request = inr r ->
  suggestions r = [] /\ exists msg, error r = Some msg.
Proof.
  intros Hr.
  destruct (ollama_handleError_settles e request) as [(code & msg & Heq & _) | Heq];
    rewrite Heq in Hr; [| discriminate].
  injection Hr as <-. split; [reflexivity | eexists; reflexivity].
Qed.

Lemma localAttempt_effect (env : Env) (request : LLMRequest) (w : World) :
  same_service w (snd (localAttempt env request w))
  /\ (log (snd (localAttempt env request w)) = log w
      \/ log (snd (localAttempt env request w)) = HttpPost Ollama :: log w)
  /\ (forall r, fst (localAttempt env request w) = inr r ->
                error r = None /\ original r = text request).
Proof.
  unfold localAttempt, bind, checkOperation, axiosPost, lift, ret, throw, same_service.
  destruct ((operation request =? "grammar-check")%string
            || (operation request =? "rephrase")%string); [| attempt_branch].
  cbn.
  destruct (outcome (post env (posts w) Ollama request)) as [e | data]; [attempt_branch |].
  unfold ollamaText, dot.
  destruct (get_prop data "response") as [e | responseText]; [attempt_branch |].
  destruct (parseSuggestions env _ responseText) as [e | parsed]; attempt_branch.
Qed.

(** Closes one branch of a cloud adapter: the service is as it was, the log
    has grown by the adapter call and at most the request, a result has no
    error. *)
Ltac cloud_branch :=
  cbn;
  split; [repeat split; try reflexivity; lia |];
  split; [auto |];
  intros r H; try discriminate H; injection H as <-; reflexivity.

Lemma callOpenAI_effect (env : Env) (request : LLMRequest) (w : World) :
  same_service w (snd (callOpenAI env request w))
  /\ (log (snd (callOpenAI env request w)) = AdapterCall OpenAI :: log w
      \/ log (snd (callOpenAI env request w))
         = HttpPost OpenAI :: AdapterCall OpenAI :: log w)
  /\ (forall r, fst (callOpenAI env request w) = inr r -> error r = None).
Proof.
  unfold callOpenAI, bind, modify, checkOperation, axiosPost, lift, ret, throw, same_service.
  destruct ((operation request =? "grammar-check")%string
            || (operation request =? "rephrase")%string); [| cloud_branch].
  cbn.
  destruct (outcome (post env (posts w) OpenAI request)) as [e | data]; [cloud_branch |].
  destruct (lmStudioText data) as [e | responseText]; [cloud_branch |].
  destruct (parseSuggestions env _ responseText) as [e | parsed]; cloud_branch.
Qed.

Lemma callAnthropic_effect (env : Env) (request : LLMRequest) (w : World) :
  same_service w (snd (callAnthropic env request w))
  /\ (log (snd (callAnthropic env request w)) = AdapterCall Anthropic :: log w
      \/ log (snd (callAnthropic env request w))
         = HttpPost Anthropic :: AdapterCall Anthropic :: log w)
  /\ (forall r, fst (callAnthropic env request w) = inr r -> error r = None).
Proof.
  unfold callAnthropic, bind, modify, checkOperation, axiosPost, lift, ret, throw,
    same_service.
  destruct ((operation request =? "grammar-check")%string
            || (operation request =? "rephrase")%string); [| cloud_branch].
  cbn.
  destruct (outcome (post env (posts w) Anthropic request)) as [e | data]; [cloud_branch |].
  destruct (anthropicText data) as [e | responseText]; [cloud_branch |].
  destruct (parseSuggestions env _ responseText) as [e | parsed]; cloud_branch.
Qed.

Lemma callCloudLLM_unfold (env : Env) (request : LLMRequest) (w : World) :
  callCloudLLM env request w = cloudAttempt env request (emit (AdapterCall Cloud) w).
Proof. unfold callCloudLLM, bind, modify. apply try_catch_rethrow. Qed.

Lemma cloudProvider_local (w : World) :
  provider w = "local" ->
  cloudProvider w
  = if (openaiKey w =? "")%string && negb (anthropicKey w =? "")%string
    then Anthropic else OpenAI.
Proof. unfold cloudProvider. intros ->. reflexivity. Qed.

(** On the fallback path (provider [local], some cloud key configured)
    [callCloudLLM] calls exactly one of [callOpenAI] and [callAnthropic]. *)
Lemma cloud_hop (env : Env) (request : LLMRequest) (w : World) :
  provider w = "local" ->
  hasCloudKey w = true ->
  exists p, (p = OpenAI \/ p = Anthropic)
    /\ same_service w (snd (callCloudLLM env request w))
    /\ (log (snd (callCloudLLM env request w))
        = AdapterCall p :: AdapterCall Cloud :: log w
        \/ log (snd (callCloudLLM env request w))
           = HttpPost p :: AdapterCall p :: AdapterCall Cloud :: log w)
    /\ (forall r, fst (callCloudLLM env request w) = inr r -> error r = None).
Proof.
  intros Hlocal Hkey. rewrite callCloudLLM_unfold.
  unfold cloudAttempt, bind, gets.
  change (cloudProvider (emit (AdapterCall Cloud) w)) with (cloudProvider w).
  change (openaiKey (emit (AdapterCall Cloud) w)) with (openaiKey w).
  change (anthropicKey (emit (AdapterCall Cloud) w)) with (anthropicKey w).
  rewrite (cloudProvider_local w Hlocal).
  unfold hasCloudKey in Hkey.
  destruct (openaiKey w =? "")%string; cbn [andb negb orb] in *.
  - destruct (anthropicKey w =? "")%string; cbn [negb] in *; [discriminate |].
    exists Anthropic. split; [right; reflexivity |].
    exact (callAnthropic_effect env request (emit (AdapterCall Cloud) w)).
  - exists OpenAI. split; [left; reflexivity |].
    exact (callOpenAI_effect env request (emit (AdapterCall Cloud) w)).
Qed.

Lemma callLocalLLM_unfold (env : Env) (request : LLMRequest) (w : World) :
  callLocalLLM env request w
  = match localAttempt env request (emit (AdapterCall Ollama) w) with
    | (inr r, w2) => (inr r, w2)
    | (inl e, w2) =>
        if hasCloudKey w2 then callCloudLLM env request w2 else (inl e, w2)
    end.
Proof.
  unfold callLocalLLM, localFallback, bind, modify, try_catch, gets, throw.
  destruct (localAttempt env request (emit (AdapterCall Ollama) w)) as [[e | r] w2];
    [| reflexivity].
  destruct (hasCloudKey w2); reflexivity.
Qed.

Lemma ollama_processRequest_miss (env : Env) (request : LLMRequest) (w : World) :
  provider w = "local" ->
  fst (LRUCache.get (now w) (generateCacheKey request) (cache w)) = None ->
  LLMServiceOllama.processRequest env request w
  = match callLocalLLM env request
            (snd (consume env 1 (snd (cacheGet (generateCacheKey request) w)))) with
    | (inr r, w2) => (inr r, snd (cacheResponse request r w2))
    | (inl e, w2) => (LLMServiceOllama.handleError e request, w2)
    end.
Proof.
  intros Hlocal Hmiss.
  destruct (admission_effect env request w) as (Hprov & _). cbn zeta in Hprov.
  unfold LLMServiceOllama.processRequest, try_catch, bind, cacheGet, lift in *.
  destruct (LRUCache.get (now w) (generateCacheKey request) (cache w)) as [o c].
  cbn in Hmiss. subst o. cbn [snd] in *.
  set (w0 := emit (CacheGet (generateCacheKey request)) (set_cache c w)) in *.
  destruct (consume_posts env 1 w0) as (_ & _ & _ & Hok).
  destruct (consume env 1 w0) as [res w1]. cbn in Hok. subst res. cbn [snd] in *.
  unfold gets. rewrite Hprov, Hlocal, String.eqb_refl.
  destruct (callLocalLLM env request w1) as [[e | r] w2]; reflexivity.
Qed.

Lemma count_after_local (env : Env) (request : LLMRequest) (w : World)
    (f : Event -> bool) :
  f (CacheGet (generateCacheKey request)) = false ->
  (forall c, f (TokenDebit c) = false) ->
  (forall ms, f (Sleep ms) = false) ->
  f (HttpPost Ollama) = false ->
  count f (log (snd (localAttempt env request (LLMServiceOllama.admitted env request w))))
  = if f (AdapterCall Ollama) then S (count f (log w)) else count f (log w).
Proof.
  intros Hget Hdebit Hsleep Hpost.
  destruct (localAttempt_effect env request (LLMServiceOllama.admitted env request w))
    as (_ & Hlog & _).
  rewrite (attempt_keeps_count f Ollama _ _ Hpost Hlog).
  unfold LLMServiceOllama.admitted. cbn [log emit]. rewrite count_cons.
  destruct (admission_effect env request w) as (_ & _ & Hcount & _).
  rewrite (Hcount f Hget Hdebit Hsleep). reflexivity.
Qed.

(** The counts of a log grown by one cloud hop. *)
Lemma count_cloud_hop (p : Provider) (l l' : list Event) :
  p = OpenAI \/ p = Anthropic ->
  l' = AdapterCall p :: AdapterCall Cloud :: l
  \/ l' = HttpPost p :: AdapterCall p :: AdapterCall Cloud :: l ->
  count (is_adapter_call Cloud) l' = S (count (is_adapter_call Cloud) l)
  /\ count is_cloud_provider_call l' = S (count is_cloud_provider_call l)
  /\ count (is_adapter_call Ollama) l' = count (is_adapter_call Ollama) l.
Proof.
  intros [-> | ->] [-> | ->]; rewrite !count_cons; repeat split.
Qed.

(** The fallback of the earlier variant: [callLocalLLM] has thrown [e]
    after a cache miss under provider [local].  Without an OpenAI or
    Anthropic key nothing of the cloud is called and the caller gets what
    [handleError e] gives.  With one, [callCloudLLM] is called exactly
    once, it calls exactly one of [callOpenAI] and [callAnthropic], Ollama
    is not tried again, and the caller gets the cloud's response or what
    [handleError] gives for the cloud's error. *)
Lemma ollama_fallback_hop
    (env : Env) (request : LLMRequest) (w : World) (e : jserror) (w2 : World) :
  provider w = "local" ->
  fst (LRUCache.get (now w) (generateCacheKey request) (cache w)) = None ->
  localAttempt env request (LLMServiceOllama.admitted env request w) = (inl e, w2) ->
  (hasCloudKey w = false ->
     LLMServiceOllama.processRequest env request w
     = (LLMServiceOllama.handleError e request, w2)
     /\ count (is_adapter_call Cloud) (log w2) = count (is_adapter_call Cloud) (log w)
     /\ count is_cloud_provider_call (log w2) = count is_cloud_provider_call (log w)
     /\ (forall r, LLMServiceOllama.handleError e request = inr r ->
                   suggestions r = [] /\ error r <> None))
  /\ (hasCloudKey w = true ->
        (forall r w3, callCloudLLM env request w2 = (inr r, w3) ->
                      LLMServiceOllama.processRequest env request w
                      = (inr r, snd (cacheResponse request r w3)))
        /\ (forall e' w3, callCloudLLM env request w2 = (inl e', w3) ->
                          LLMServiceOllama.processRequest env request w
                          = (LLMServiceOllama.handleError e' request, w3))
        /\ count (is_adapter_call Cloud)
             (log (snd (LLMServiceOllama.processRequest env request w)))
           = S (count (is_adapter_call Cloud) (log w))
        /\ count is_cloud_provider_call
             (log (snd (LLMServiceOllama.processRequest env request w)))
           = S (count is_cloud_provider_call (log w))
        /\ count (is_adapter_call Ollama)
             (log (snd (LLMServiceOllama.processRequest env request w)))
           = S (count (is_adapter_call Ollama) (log w)))
  /\ ((exists r, fst (LLMServiceOllama.processRequest env request w) = inr r)
      \/ fst (LLMServiceOllama.processRequest env request w) = inl cannot_convert).
Proof.
  intros Hlocal Hmiss Hattempt.
  pose proof (ollama_processRequest_miss env request w Hlocal Hmiss) as Hrun.
  destruct (admission_effect env request w)
    as (Hprov & _ & _ & _ & _ & _ & _ & Hopenai & Hanthropic).
  cbn zeta in Hprov, Hopenai, Hanthropic.
  set (w1 := snd (consume env 1 (snd (cacheGet (generateCacheKey request) w)))) in *.
  rewrite callLocalLLM_unfold in Hrun.
  change (emit (AdapterCall Ollama) w1) with (LLMServiceOllama.admitted env request w) in Hrun.
  destruct (localAttempt_effect env request (LLMServiceOllama.admitted env request w))
    as ((Hprov2 & _ & _ & _ & _ & Hopenai2 & Hanthropic2) & _ & _).
  pose proof (count_after_local env request w (is_adapter_call Cloud)
                eq_refl (fun _ => eq_refl) (fun _ => eq_refl) eq_refl) as HcountC.
  pose proof (count_after_local env request w is_cloud_provider_call
                eq_refl (fun _ => eq_refl) (fun _ => eq_refl) eq_refl) as HcountP.
  pose proof (count_after_local env request w (is_adapter_call Ollama)
                eq_refl (fun _ => eq_refl) (fun _ => eq_refl) eq_refl) as HcountO.
  rewrite Hattempt in Hrun, Hprov2, Hopenai2, Hanthropic2, HcountC, HcountP, HcountO.
  cbn [snd] in Hprov2, Hopenai2, Hanthropic2, HcountC, HcountP, HcountO.
  cbn [is_cloud_provider_call is_adapter_call provider_eqb orb] in HcountC, HcountP, HcountO.
  assert (Hkeys : hasCloudKey w2 = hasCloudKey w).
  { unfold hasCloudKey. rewrite Hopenai2, Hanthropic2.
    change (openaiKey (LLMServiceOllama.admitted env request w)) with (openaiKey w1).
    change (anthropicKey (LLMServiceOllama.admitted env request w)) with (anthropicKey w1).
    rewrite Hopenai, Hanthropic. reflexivity. }
  assert (Hlocal2 : provider w2 = "local").
  { rewrite Hprov2.
    change (provider (LLMServiceOllama.admitted env request w)) with (provider w1).
    rewrite Hprov. exact Hlocal. }
  split; [| split].
  - intros Hnokey. rewrite Hkeys, Hnokey in Hrun.
    split; [exact Hrun |]. split; [exact HcountC |]. split; [exact HcountP |].
    intros r Hr. destruct (ollama_handleError_shape e request r Hr) as (Hs & msg & Hmsg).
    split; [exact Hs |]. rewrite Hmsg. discriminate.
  - intros Hwithkey. rewrite Hkeys, Hwithkey in Hrun.
    assert (Hkey2 : hasCloudKey w2 = true) by (rewrite Hkeys; exact Hwithkey).
    destruct (cloud_hop env request w2 Hlocal2 Hkey2) as (p & Hp & _ & Hlog & _).
    destruct (count_cloud_hop p _ _ Hp Hlog) as (HC & HP & HO).
    rewrite HcountC in HC. rewrite HcountP in HP. rewrite HcountO in HO.
    destruct (callCloudLLM env request w2) as [[e' | r] w3] eqn:Hcall; cbn [snd] in HC, HP, HO.
    + split; [intros r w3' Heq; discriminate Heq |].
      split; [intros e'' w3' [= <- <-]; exact Hrun |].
      rewrite Hrun. cbn [snd]. repeat split; assumption.
    + split; [intros r' w3' [= <- <-]; exact Hrun |].
      split; [intros e'' w3' Heq; discriminate Heq |].
      rewrite Hrun. cbn [snd cacheResponse log emit set_cache]. rewrite !count_cons.
      cbn [is_cloud_provider_call is_adapter_call provider_eqb orb].
      repeat split; assumption.
  - apply ollama_processRequest_settles.
Qed.

End OllamaVariant.

(* ================================================================== *)
(** ** The rate limiter below zero *)
(* ================================================================== *)

(** C6, where the code departs from it.  After its wait [consume] refills
    and debits without looking at the budget again, and nothing keeps two
    callers from waiting at the same time.  The limiter of the service
    (capacity 10, 2 tokens per second) has served ten calls in the
    millisecond it was made in and is empty; an eleventh and a twelfth
    call, begun in that millisecond, both find the budget short and both
    ask the timer for 500 ms; when they resume, the first refills one
    token and debits it, the second refills nothing and debits again: the
    budget is -1.  A caller on its own ends below zero as well, by
    rounding: after ten calls at the times 7, 7, 108, 209, 216, 216, 216,
    216, 217 and 224 the call at 225 finds 0.436 of a token, waits the
    282 ms it has computed, refills to a little less than the one token it
    needs and debits it. *)
Theorem C6_waiting_callers_overdraw_the_bucket :
  (let empty := RateLimiter.consume_each RateLimiter.sleep_exact 1 (repeat 0 10%nat)
                  (RateLimiter.create 10 2 0) in
   let waiting := RateLimiter.refill 0 empty in
   RateLimiter.tokens empty = 0%float
   /\ RateLimiter.consume_begin 1 0 empty = RateLimiter.Waiting 500 waiting
   /\ RateLimiter.consume_begin 1 0 waiting = RateLimiter.Waiting 500 waiting
   /\ RateLimiter.tokens (RateLimiter.consume_resume 1 500 waiting) = 0%float
   /\ RateLimiter.tokens
        (RateLimiter.consume_resume 1 500 (RateLimiter.consume_resume 1 500 waiting))
      = (-1)%float)
  /\ (let served := RateLimiter.consume_each RateLimiter.sleep_exact 1
                      [7; 7; 108; 209; 216; 216; 216; 216; 217; 224]
                      (RateLimiter.create 10 2 0) in
      RateLimiter.consume_begin 1 225 served
      = RateLimiter.Waiting 282 (RateLimiter.refill 225 served)
      /\ snd (RateLimiter.consume RateLimiter.sleep_exact 1 225 served) = 225 + 282
      /\ (RateLimiter.tokens (fst (RateLimiter.consume RateLimiter.sleep_exact 1 225 served))
          <? 0)%float = true).
Proof.
  split; vm_compute; repeat split.
Qed.

(* ================================================================== *)
(** ** Errors and edge cases of the service *)
(* ================================================================== *)

(** *** What a failing attempt leaves behind *)

(** Without a key the Gemini adapter throws before it builds a request. *)
Lemma geminiAttempt_without_key (env : Env) (request : LLMRequest) (w : World) :
  geminiKey w = "" ->
  geminiAttempt env request w = (inl (JsError "Gemini API key not configured"), w).
Proof. intros Hkey. unfold geminiAttempt, bind, gets. rewrite Hkey. reflexivity. Qed.

Lemma lmStudioAttempt_unsupported (env : Env) (request : LLMRequest) (w : World) :
  supported request = false ->
  lmStudioAttempt env request w
  = (inl (JsError ("Unsupported operation: " ++ operation request)), w).
Proof.
  unfold supported. intros Hop. unfold lmStudioAttempt, bind, checkOperation.
  rewrite Hop. reflexivity.
Qed.

Lemma geminiAttempt_unsupported (env : Env) (request : LLMRequest) (w : World) :
  geminiKey w <> "" ->
  supported request = false ->
  geminiAttempt env request w
  = (inl (JsError ("Unsupported operation: " ++ operation request)), w).
Proof.
  unfold supported. intros Hkey Hop. unfold geminiAttempt, bind, gets, checkOperation.
  apply String.eqb_neq in Hkey. rewrite Hkey, Hop. reflexivity.
Qed.

Lemma lmStudioAttempt_rejected (env : Env) (request : LLMRequest) (w : World) (e : jserror) :
  supported request = true ->
  outcome (post env (posts w) LMStudio request) = inl e ->
  lmStudioAttempt env request w = (inl e, posted env LMStudio request w).
Proof.
  unfold supported. intros Hop Hout. unfold lmStudioAttempt, bind, checkOperation, axiosPost.
  rewrite Hop. cbn. rewrite Hout. reflexivity.
Qed.

Lemma geminiAttempt_rejected (env : Env) (request : LLMRequest) (w : World) (e : jserror) :
  geminiKey w <> "" ->
  supported request = true ->
  outcome (post env (posts w) Gemini request) = inl e ->
  geminiAttempt env request w = (inl e, posted env Gemini request w).
Proof.
  unfold supported. intros Hkey Hop Hout.
  unfold geminiAttempt, bind, gets, checkOperation, axiosPost.
  apply String.eqb_neq in Hkey. rewrite Hkey, Hop. cbn. rewrite Hout. reflexivity.
Qed.

(** The admission steps of a miss, as far as the later steps can tell. *)
Lemma admission_facts (env : Env) (request : LLMRequest) (w : World) :
  let w1 := snd (consume env 1 (snd (cacheGet (generateCacheKey request) w))) in
  usesLocal w1 = usesLocal w
  /\ geminiKey w1 = geminiKey w
  /\ posts w1 = posts w
  /\ cache w1 = snd (LRUCache.get (now w) (generateCacheKey request) (cache w))
  /\ count is_http (log w1) = count is_http (log w)
  /\ count is_debit (log w1) = S (count is_debit (log w))
  /\ count is_any_adapter_call (log w1) = count is_any_adapter_call (log w).
Proof.
  cbn zeta.
  destruct (admission_effect env request w) as (Hprov & Hkey & Hcount & Hcache & Hdebit & _).
  cbn zeta in Hprov, Hkey, Hcount, Hcache, Hdebit.
  split; [unfold usesLocal; rewrite Hprov; reflexivity |].
  split; [exact Hkey |].
  split.
  { destruct (consume_posts env 1 (snd (cacheGet (generateCacheKey request) w))) as (Hp & _).
    rewrite Hp. unfold cacheGet.
    destruct (LRUCache.get (now w) (generateCacheKey request) (cache w)). reflexivity. }
  split; [exact Hcache |].
  split; [apply Hcount; reflexivity |].
  split; [exact Hdebit |].
  apply Hcount; reflexivity.
Qed.

(** *** A provider that needs a key which is not there *)

(** Where a miss under a cloud provider without a key ends. *)
Lemma processRequest_without_key (env : Env) (request : LLMRequest) (w : World) :
  usesLocal w = false ->
  geminiKey w = "" ->
  fst (LRUCache.get (now w) (generateCacheKey request) (cache w)) = None ->
  processRequest env request w
  = (handleError (JsError "Gemini API key not configured") request,
     emit (AdapterCall Gemini)
       (snd (consume env 1 (snd (cacheGet (generateCacheKey request) w))))).
Proof.
  intros Hcloud Hkey Hmiss.
  rewrite (processRequest_miss env request w Hmiss). cbn zeta.
  destruct (admission_facts env request w) as (Hl & Hk & _). cbn zeta in Hl, Hk.
  remember (snd (consume env 1 (snd (cacheGet (generateCacheKey request) w)))) as w1 eqn:Hw1.
  clear Hw1.
  rewrite Hl, Hcloud, callGemini_unfold, geminiAttempt_without_key
    by (cbn [geminiKey emit]; congruence).
  reflexivity.
Qed.

(** The provider is a cloud one, no Gemini key is configured and the
    request is not in the cache.  The caller gets an error response
    classified [ERR_AUTH]; no HTTP request is made and nothing is cached,
    but the request has cost a token of the rate limiter. *)
Theorem gemini_without_key_is_an_auth_error
    (env : Env) (request : LLMRequest) (w : World) :
  usesLocal w = false ->
  geminiKey w = "" ->
  fst (LRUCache.get (now w) (generateCacheKey request) (cache w)) = None ->
  fst (processRequest env request w)
  = inr {| original := text request; suggestions := [];
           error := Some "ERR_AUTH: Gemini API key not configured" |}
  /\ posts (snd (processRequest env request w)) = posts w
  /\ count is_http (log (snd (processRequest env request w))) = count is_http (log w)
  /\ count is_debit (log (snd (processRequest env request w))) = S (count is_debit (log w))
  /\ cache (snd (processRequest env request w))
     = snd (LRUCache.get (now w) (generateCacheKey request) (cache w)).
Proof.
  intros Hcloud Hkey Hmiss.
  rewrite (processRequest_without_key env request w Hcloud Hkey Hmiss).
  destruct (admission_facts env request w) as (_ & _ & Hp & Hc & Hh & Hd & _).
  cbn zeta in Hp, Hc, Hh, Hd.
  cbn [fst snd posts cache log emit]. rewrite !count_cons. cbn [is_http is_debit].
  split; [reflexivity |]. repeat split; assumption.
Qed.

Lemma gemini_without_key_is_an_auth_error_witness :
  fst (processRequest (refEnv (Fixtures.answers Fixtures.oneCorrection))
         (Fixtures.grammarRequest "He go to school") (create "gemini" "" 0))
  = inr {| original := "He go to school"; suggestions := [];
           error := Some "ERR_AUTH: Gemini API key not configured" |}.
Proof.
  exact (proj1 (gemini_without_key_is_an_auth_error
                  (refEnv (Fixtures.answers Fixtures.oneCorrection))
                  (Fixtures.grammarRequest "He go to school") (create "gemini" "" 0)
                  eq_refl eq_refl eq_refl)).
Defined.

(** *** An operation the adapters do not know *)

Lemma processRequest_unsupported (env : Env) (request : LLMRequest) (w : World) :
  supported request = false ->
  usesLocal w = true \/ geminiKey w <> "" ->
  fst (LRUCache.get (now w) (generateCacheKey request) (cache w)) = None ->
  fst (processRequest env request w)
  = handleError (JsError ("Unsupported operation: " ++ operation request)) request
  /\ posts (snd (processRequest env request w)) = posts w
  /\ count is_http (log (snd (processRequest env request w))) = count is_http (log w)
  /\ count is_debit (log (snd (processRequest env request w))) = S (count is_debit (log w))
  /\ cache (snd (processRequest env request w))
     = snd (LRUCache.get (now w) (generateCacheKey request) (cache w)).
Proof.
  intros Hop Hroute Hmiss.
  rewrite (processRequest_miss env request w Hmiss). cbn zeta.
  destruct (admission_facts env request w) as (Hl & Hk & Hp & Hc & Hh & Hd & _).
  cbn zeta in Hl, Hk, Hp, Hc, Hh, Hd.
  remember (snd (consume env 1 (snd (cacheGet (generateCacheKey request) w)))) as w1 eqn:Hw1.
  clear Hw1. rewrite Hl.
  destruct (usesLocal w) eqn:Hlocal.
  - rewrite callLMStudio_unfold, (lmStudioAttempt_unsupported env request _ Hop).
    cbn [geminiKey emit]. rewrite Hk.
    destruct (String.eqb_spec (geminiKey w) "") as [Hnone | Hsome].
    + cbn [fst snd posts cache log emit]. rewrite !count_cons. cbn [is_http is_debit].
      repeat split; assumption.
    + rewrite callGemini_unfold, (geminiAttempt_unsupported env request _)
        by (cbn [geminiKey emit]; congruence).
      cbn [fst snd posts cache log emit]. rewrite !count_cons. cbn [is_http is_debit].
      repeat split; assumption.
  - destruct Hroute as [Hfalse | Hsome]; [discriminate |].
    rewrite callGemini_unfold, (geminiAttempt_unsupported env request _)
      by (cbn [geminiKey emit]; congruence).
    cbn [fst snd posts cache log emit]. rewrite !count_cons. cbn [is_http is_debit].
    repeat split; assumption.
Qed.

(** The operation is neither [grammar-check] nor [rephrase], the request
    is not in the cache, and an adapter is reached (the provider is the
    local one, or a Gemini key is configured).  Every adapter throws while
    choosing its prompt: the caller gets the error response for
    [Unsupported operation], no HTTP request is made, nothing is cached;
    the request has still cost a token. *)
Theorem unsupported_operation_never_reaches_the_network
    (env : Env) (request : LLMRequest) (w : World) :
  operation request <> "grammar-check" ->
  operation request <> "rephrase" ->
  usesLocal w = true \/ geminiKey w <> "" ->
  fst (LRUCache.get (now w) (generateCacheKey request) (cache w)) = None ->
  fst (processRequest env request w)
  = inr {| original := text request; suggestions := [];
           error := Some ((if includes ("Unsupported operation: " ++ operation request)
                                "API key"
                           then "ERR_AUTH"
                           else if includes ("Unsupported operation: " ++ operation request)
                                     "timeout"
                           then "ERR_TIMEOUT" else "ERR_UNKNOWN")
                          ++ ": Unsupported operation: " ++ operation request) |}
  /\ posts (snd (processRequest env request w)) = posts w
  /\ count is_http (log (snd (processRequest env request w))) = count is_http (log w)
  /\ count is_debit (log (snd (processRequest env request w))) = S (count is_debit (log w))
  /\ cache (snd (processRequest env request w))
     = snd (LRUCache.get (now w) (generateCacheKey request) (cache w)).
Proof.
  intros Hg Hr Hroute Hmiss.
  assert (Hop : supported request = false).
  { unfold supported. apply String.eqb_neq in Hg, Hr. rewrite Hg, Hr. reflexivity. }
  destruct (processRequest_unsupported env request w Hop Hroute Hmiss)
    as (Hres & Hrest).
  split; [| exact Hrest].
  rewrite Hres, handleError_message.
  destruct (includes ("Unsupported operation: " ++ operation request) "API key");
    [reflexivity |].
  destruct (includes ("Unsupported operation: " ++ operation request) "timeout");
    reflexivity.
Qed.

Lemma unsupported_operation_never_reaches_the_network_witness :
  fst (processRequest (refEnv (Fixtures.answers Fixtures.oneCorrection))
         {| text := "Bonjour"; operation := "translate"; style := None; language := None |}
         Fixtures.localServiceWithKey)
  = inr {| original := "Bonjour"; suggestions := [];
           error := Some "ERR_UNKNOWN: Unsupported operation: translate" |}.
Proof.
  exact (proj1 (unsupported_operation_never_reaches_the_network
                  (refEnv (Fixtures.answers Fixtures.oneCorrection))
                  {| text := "Bonjour"; operation := "translate"; style := None;
                     language := None |}
                  Fixtures.localServiceWithKey
                  ltac:(discriminate) ltac:(discriminate) (or_introl eq_refl) eq_refl)).
Defined.

(** *** A network that does not answer *)

(** No request gets a response, the operation is one the adapters know and
    an adapter is reached.  The caller gets an error response classified
    [ERR_NETWORK] and nothing is cached.  One request was made, or two when
    the local provider failed and a Gemini key allowed the fallback. *)
Theorem unanswered_requests_are_network_errors
    (env : Env) (request : LLMRequest) (w : World) :
  (forall n p r, outcome (post env n p r) = inl (AxiosError None true)) ->
  supported request = true ->
  usesLocal w = true \/ geminiKey w <> "" ->
  fst (LRUCache.get (now w) (generateCacheKey request) (cache w)) = None ->
  fst (processRequest env request w)
  = inr {| original := text request; suggestions := [];
           error := Some "ERR_NETWORK: No response received from LLM service" |}
  /\ posts (snd (processRequest env request w))
     = (posts w + if usesLocal w && negb (geminiKey w =? "")%string then 2 else 1)%nat
  /\ cache (snd (processRequest env request w))
     = snd (LRUCache.get (now w) (generateCacheKey request) (cache w)).
Proof.
  intros Hnet Hop Hroute Hmiss.
  rewrite (processRequest_miss env request w Hmiss). cbn zeta.
  destruct (admission_facts env request w) as (Hl & Hk & Hp & Hc & _).
  cbn zeta in Hl, Hk, Hp, Hc.
  remember (snd (consume env 1 (snd (cacheGet (generateCacheKey request) w)))) as w1 eqn:Hw1.
  clear Hw1. rewrite Hl.
  destruct (usesLocal w) eqn:Hlocal.
  - rewrite callLMStudio_unfold, (lmStudioAttempt_rejected env request _ _ Hop (Hnet _ _ _)).
    cbn [geminiKey emit posted set_now set_posts]. rewrite Hk.
    destruct (String.eqb_spec (geminiKey w) "") as [Hnone | Hsome].
    + cbn [fst snd posts cache emit posted set_now set_posts andb negb].
      rewrite Hp, Hc. split; [reflexivity |]. split; [lia | reflexivity].
    + rewrite callGemini_unfold.
      rewrite geminiAttempt_rejected with (e := AxiosError None true);
        [| cbn [geminiKey emit posted set_now set_posts]; congruence | exact Hop | apply Hnet].
      cbn [fst snd posts cache emit posted set_now set_posts andb negb].
      rewrite Hp, Hc. split; [reflexivity |]. split; [lia | reflexivity].
  - destruct Hroute as [Hfalse | Hsome]; [discriminate |].
    rewrite callGemini_unfold.
    rewrite geminiAttempt_rejected with (e := AxiosError None true);
      [| cbn [geminiKey emit]; congruence | exact Hop | apply Hnet].
    cbn [fst snd posts cache emit posted set_now set_posts andb negb].
    rewrite Hp, Hc. split; [reflexivity |]. split; [lia | reflexivity].
Qed.

Lemma unanswered_requests_are_network_errors_witness :
  posts (snd (processRequest (refEnv Fixtures.unreachable)
                (Fixtures.grammarRequest "He go to school") Fixtures.localServiceWithKey))
  = 2%nat.
Proof.
  exact (proj1 (proj2 (unanswered_requests_are_network_errors
                         (refEnv Fixtures.unreachable)
                         (Fixtures.grammarRequest "He go to school")
                         Fixtures.localServiceWithKey
                         (fun _ _ _ => eq_refl) eq_refl (or_introl eq_refl) eq_refl))).
Defined.

(** *** The codes an error response can carry *)

Lemma handleError_classified (e : jserror) (request : LLMRequest) (r : LLMResponse) :
  handleError e request = inr r -> classified r.
Proof.
  intros Hr.
  destruct (handleError_settles e request) as [(code & msg & Heq & Hcode) | Heq];
    rewrite Heq in Hr; [| discriminate].
  injection Hr as <-. right. split; [reflexivity |].
  exists code, msg. split; [reflexivity | exact Hcode].
Qed.

Lemma conversionFailure_classified (request : LLMRequest) :
  classified (conversionFailure request).
Proof.
  right. split; [reflexivity |].
  exists ErrorCodes.UNKNOWN_ERROR, "Cannot convert object to primitive value".
  split; [reflexivity |]. unfold handledCodes. cbn. tauto.
Qed.

Lemma invalid_text_classified (text : string) :
  classified {| original := text; suggestions := [];
                error := Some "ERR_UNKNOWN: Invalid text input" |}.
Proof.
  right. split; [reflexivity |].
  exists ErrorCodes.UNKNOWN_ERROR, "Invalid text input".
  split; [reflexivity |]. unfold handledCodes. cbn. tauto.
Qed.

Lemma cached_response_is_clean (w : World) (k : string) (r : LLMResponse) :
  no_cached_error w ->
  fst (LRUCache.get (now w) k (cache w)) = Some r ->
  error r = None.
Proof.
  intros Hclean Hget.
  destruct (get_hit _ _ _ _ _ Hget) as (e & Hl & Hv & _).
  unfold no_cached_error in Hclean. rewrite Forall_forall in Hclean.
  apply Hclean. rewrite <- Hv. apply in_map, (lookup_in _ _ _ _ Hl).
Qed.

Lemma processRequest_classified (env : Env) (request : LLMRequest) (w : World) :
  no_cached_error w ->
  (exists r, fst (processRequest env request w) = inr r /\ classified r)
  \/ fst (processRequest env request w) = inl cannot_convert.
Proof.
  intros Hclean.
  destruct (fst (LRUCache.get (now w) (generateCacheKey request) (cache w))) as [r |] eqn:Hget.
  - rewrite (processRequest_hit env request w r Hget). left. exists r.
    split; [reflexivity |]. left. exact (cached_response_is_clean w _ r Hclean Hget).
  - rewrite (processRequest_miss env request w Hget). cbn zeta.
    remember (snd (consume env 1 (snd (cacheGet (generateCacheKey request) w)))) as w1 eqn:Hw1.
    clear Hw1.
    destruct (call_effect env request w1) as (_ & Hres & _). cbn zeta in Hres.
    destruct ((if usesLocal w1 then callLMStudio env request else callGemini env request) w1)
      as [[e | resp] w2]; cbn [fst snd] in *.
    + destruct (handleError_settles e request) as [(code & msg & Heq & Hcode) | Heq].
      * left. eexists. split; [exact Heq |].
        apply (handleError_classified e request). exact Heq.
      * right. exact Heq.
    + left. exists resp. split; [reflexivity |]. left. apply Hres. reflexivity.
Qed.

(** What an entry point makes of the outcome of [processRequest]. *)
Lemma entry_point_classified (run : (jserror + LLMResponse) * World) (request : LLMRequest) :
  (exists r, fst run = inr r /\ classified r) \/ fst run = inl cannot_convert ->
  exists r, fst (match run with
                 | (inr r, w') => (@inr jserror LLMResponse r, w')
                 | (inl _, w') => (inr (conversionFailure request), w')
                 end) = inr r /\ classified r.
Proof.
  destruct run as [[e | r] w']; cbn [fst].
  - intros _. eexists. split; [reflexivity | apply conversionFailure_classified].
  - intros [(r' & [= <-] & Hr) | Hno]; [| discriminate].
    exists r. split; [reflexivity | exact Hr].
Qed.

(** Starting from a cache without error responses, whatever
    [checkGrammar] or [rephraseText] returns is a response without error,
    or one without suggestions whose message begins with [ERR_API],
    [ERR_NETWORK], [ERR_AUTH], [ERR_TIMEOUT] or [ERR_UNKNOWN]; they always
    return.  [processRequest] returns such a response too, unless
    [handleError] throws while it formats the body of an HTTP error: then
    [processRequest] rejects with that TypeError, which the two entry
    points report under [ERR_UNKNOWN].  No message ever begins with
    [ERR_VALIDATION], [ERR_RATE_LIMIT] or [ERR_LLM_PARSE]. *)
Theorem service_errors_carry_one_of_five_codes
    (env : Env) (request : LLMRequest) (text : string) (opt : option string) (w : World) :
  no_cached_error w ->
  ((exists r, fst (processRequest env request w) = inr r /\ classified r)
   \/ fst (processRequest env request w) = inl cannot_convert)
  /\ (exists r, fst (checkGrammar env text opt w) = inr r /\ classified r)
  /\ (exists r, fst (rephraseText env text opt w) = inr r /\ classified r)
  /\ (forall r msg, classified r -> error r = Some msg ->
        String.prefix "ERR_VALIDATION" msg = false
        /\ String.prefix "ERR_RATE_LIMIT" msg = false
        /\ String.prefix "ERR_LLM_PARSE" msg = false).
Proof.
  intros Hclean.
  split; [apply processRequest_classified, Hclean |].
  split.
  { rewrite checkGrammar_unfold. cbn zeta. destruct (text =? "")%string.
    - eexists. split; [reflexivity | apply invalid_text_classified].
    - apply entry_point_classified, processRequest_classified, Hclean. }
  split.
  { rewrite rephraseText_unfold. cbn zeta. destruct (text =? "")%string.
    - eexists. split; [reflexivity | apply invalid_text_classified].
    - apply entry_point_classified, processRequest_classified, Hclean. }
  intros r msg [Hnone | (_ & code & rest & Herr & Hcode)] Hmsg; [congruence |].
  rewrite Herr in Hmsg. injection Hmsg as <-.
  unfold handledCodes in Hcode. cbn in Hcode.
  destruct Hcode as [<- | [<- | [<- | [<- | [<- | []]]]]]; repeat split.
Qed.

Lemma service_errors_carry_one_of_five_codes_witness :
  exists r,
    fst (checkGrammar (refEnv Fixtures.unreachable) "He go to school" None
           Fixtures.localService) = inr r
    /\ classified r.
Proof.
  exact (proj1 (proj2 (service_errors_carry_one_of_five_codes
                         (refEnv Fixtures.unreachable)
                         (Fixtures.grammarRequest "He go to school")
                         "He go to school" None Fixtures.localService (Forall_nil _)))).
Defined.

(** *** Cache keys *)

(** A string without colon, a colon, and a rest: the three parts can be
    read back. *)
Lemma split_at_colon (a a' b b' : string) :
  has_char ":" a = false -> has_char ":" a' = false ->
  a ++ ":" ++ b = a' ++ ":" ++ b' -> a = a' /\ b = b'.
Proof.
  revert a'. induction a as [| c r IH]; intros [| c' r'] Ha Ha' Heq; cbn in *.
  - injection Heq as <-. split; reflexivity.
  - injection Heq as <- _. rewrite Ascii.eqb_refl in Ha'. discriminate.
  - injection Heq as -> _. rewrite Ascii.eqb_refl in Ha. discriminate.
  - injection Heq as -> Heq.
    apply orb_false_iff in Ha as [_ Ha]. apply orb_false_iff in Ha' as [_ Ha'].
    destruct (IH r' Ha Ha' Heq) as [-> ->]. split; reflexivity.
Qed.

(** Requests whose operation, style and language hold no colon (the text
    may) have the same cache key only if they agree on the operation, the
    style, the language and the text; an absent style or language counts
    as the empty one. *)
Theorem cache_key_tells_requests_apart (r1 r2 : LLMRequest) :
  plainFields r1 -> plainFields r2 ->
  generateCacheKey r1 = generateCacheKey r2 ->
  operation r1 = operation r2
  /\ or_empty (style r1) = or_empty (style r2)
  /\ or_empty (language r1) = or_empty (language r2)
  /\ text r1 = text r2.
Proof.
  intros (Ho1 & Hs1 & Hl1) (Ho2 & Hs2 & Hl2) Hkey. unfold generateCacheKey in Hkey.
  destruct (split_at_colon _ _ _ _ Ho1 Ho2 Hkey) as [Hop Hkey1].
  destruct (split_at_colon _ _ _ _ Hs1 Hs2 Hkey1) as [Hst Hkey2].
  destruct (split_at_colon _ _ _ _ Hl1 Hl2 Hkey2) as [Hla Htx].
  repeat split; assumption.
Qed.

Lemma cache_key_tells_requests_apart_witness :
  or_empty (style {| text := "a: b"; operation := "rephrase"; style := None;
                     language := None |})
  = or_empty (style {| text := "a: b"; operation := "rephrase"; style := Some "";
                       language := Some "" |}).
Proof.
  exact (proj1 (proj2 (cache_key_tells_requests_apart
                         {| text := "a: b"; operation := "rephrase"; style := None;
                            language := None |}
                         {| text := "a: b"; operation := "rephrase"; style := Some "";
                            language := Some "" |}
                         (conj eq_refl (conj eq_refl eq_refl))
                         (conj eq_refl (conj eq_refl eq_refl)) eq_refl))).
Defined.

(** Two requests with the same cache key share one cache entry: once the
    first has been answered without error, the second is given that
    answer for as long as the entry is fresh, with one cache lookup and
    nothing else.  Such requests exist with different texts as soon as a
    style holds a colon: [rephraseText("a", ":")] after
    [rephraseText(":a", "")] is answered from the cache, with the response
    to [":a"], though the network is out of reach by then. *)
Theorem requests_with_one_key_share_the_cached_response :
  (forall (env env' : Env) (r1 r2 : LLMRequest) (w w1 : World) (resp : LLMResponse) (t2 : Z),
      (0 < LRUCache.max (cache w))%nat ->
      generateCacheKey r2 = generateCacheKey r1 ->
      processRequest env r1 w = (inr resp, w1) ->
      error resp = None ->
      (forall e, LRUCache.lookup (generateCacheKey r1) (LRUCache.entries (cache w1)) = Some e ->
                 LRUCache.is_stale t2 (cache w1) e = false) ->
      fst (processRequest env' r2 (set_now t2 w1)) = inr resp
      /\ log (snd (processRequest env' r2 (set_now t2 w1)))
         = CacheGet (generateCacheKey r1) :: log w1
      /\ posts (snd (processRequest env' r2 (set_now t2 w1))) = posts w1)
  /\ (let first := rephraseText (refEnv (Fixtures.answers Fixtures.oneCorrection))
                     ":a" (Some "") Fixtures.localService in
      let second := rephraseText (refEnv Fixtures.unreachable) "a" (Some ":") (snd first) in
      fst second = fst first
      /\ (exists r, fst second = inr r /\ original r = ":a" /\ error r = None)
      /\ posts (snd second) = posts (snd first)).
Proof.
  split.
  - intros env env' r1 r2 w w1 resp t2 Hmax Hkey Hrun Hok Hfresh.
    destruct (success_is_cached env r1 w w1 resp Hmax Hrun Hok) as (e & Hl & Hv).
    pose proof (get_fresh _ t2 _ (cache w1) e Hl (Hfresh e Hl)) as Hget.
    assert (Hhit : fst (LRUCache.get (now (set_now t2 w1)) (generateCacheKey r2)
                          (cache (set_now t2 w1))) = Some resp).
    { cbn [now cache set_now]. rewrite Hkey, Hget, Hv. reflexivity. }
    rewrite (processRequest_hit env' r2 (set_now t2 w1) resp Hhit). rewrite Hkey.
    repeat split.
  - vm_compute. split; [reflexivity |]. split; [| reflexivity].
    eexists. split; [reflexivity |]. split; reflexivity.
Qed.

Lemma requests_with_one_key_share_the_cached_response_witness :
  fst (processRequest (refEnv Fixtures.unreachable)
         {| text := "a"; operation := "rephrase"; style := Some ":"; language := None |}
         (set_now 5000
            (snd (processRequest (refEnv (Fixtures.answers Fixtures.oneCorrection))
                    {| text := ":a"; operation := "rephrase"; style := Some "";
                       language := None |}
                    Fixtures.localService))))
  = fst (processRequest (refEnv (Fixtures.answers Fixtures.oneCorrection))
           {| text := ":a"; operation := "rephrase"; style := Some ""; language := None |}
           Fixtures.localService).
Proof.
  destruct (processRequest (refEnv (Fixtures.answers Fixtures.oneCorrection))
              {| text := ":a"; operation := "rephrase"; style := Some ""; language := None |}
              Fixtures.localService)
    as [res w1] eqn:Hfirst.
  assert (Hres : exists r1, res = inr r1 /\ error r1 = None
                            /\ forall e, LRUCache.lookup "rephrase::::a"
                                 (LRUCache.entries (cache w1)) = Some e ->
                               LRUCache.is_stale 5000 (cache w1) e = false).
  { vm_compute in Hfirst. injection Hfirst as <- <-. eexists. split; [reflexivity |].
    split; [reflexivity |]. intros e He. vm_compute in He. injection He as <-. reflexivity. }
  destruct Hres as (r1 & -> & Hok & Hfresh). cbn [fst snd].
  exact (proj1 (proj1 requests_with_one_key_share_the_cached_response
                  (refEnv (Fixtures.answers Fixtures.oneCorrection))
                  (refEnv Fixtures.unreachable)
                  {| text := ":a"; operation := "rephrase"; style := Some "";
                     language := None |}
                  {| text := "a"; operation := "rephrase"; style := Some ":";
                     language := None |}
                  Fixtures.localService w1 r1 5000
                  ltac:(vm_compute; lia) eq_refl Hfirst Hok Hfresh)).
Defined.

(** *** Changing the provider from the settings *)

(** The settings dialog offers the providers [local], [openai] and
    [anthropic] and sends keys named after them.  Such settings, with a
    provider other than [local] (or [lmstudio]), are saved on a service
    that was started without a Gemini key.  When the settings store
    cannot be read the handler rejects with the store's error and the
    service is as it was.  Otherwise the handler returns [true], the
    provider is replaced, the cache and the limiter are kept; afterwards
    a request that is in the cache is still answered from it, and every
    other request fails with [ERR_AUTH: Gemini API key not configured]
    before any HTTP request. *)
Theorem cloud_provider_from_settings_needs_the_gemini_key
    (env : Env) (p : string) (keys : list (string * string)) (request : LLMRequest)
    (w : World) :
  p <> "" -> p <> "local" -> p <> "lmstudio" ->
  geminiKey w = "" ->
  suppliedKey keys "gemini" = None ->
  let settings := Some {| IpcHandlers.llmProvider := Some p;
                          IpcHandlers.apiKeys := Some keys |} in
  (forall e, IpcHandlers.onSettingsSave (Some e) settings w = (inl e, w))
  /\ (let saved := IpcHandlers.onSettingsSave None settings w in
      fst saved = inr true
      /\ provider (snd saved) = p
      /\ cache (snd saved) = cache w
      /\ rateLimiter (snd saved) = rateLimiter w
      /\ (forall r, fst (LRUCache.get (now w) (generateCacheKey request) (cache w)) = Some r ->
                    fst (processRequest env request (snd saved)) = inr r)
      /\ (fst (LRUCache.get (now w) (generateCacheKey request) (cache w)) = None ->
          fst (processRequest env request (snd saved))
          = inr {| original := text request; suggestions := [];
                   error := Some "ERR_AUTH: Gemini API key not configured" |}
          /\ posts (snd (processRequest env request (snd saved))) = posts w)).
Proof.
  intros Hp Hlocal Hlm Hkey Hsupplied. cbn zeta.
  split; [intros e; reflexivity |].
  unfold IpcHandlers.onSettingsSave, try_catch, bind, modify, ret.
  cbn [IpcHandlers.llmProvider IpcHandlers.apiKeys].
  apply String.eqb_neq in Hp. rewrite Hp. cbn [fst snd].
  split; [reflexivity |]. split; [reflexivity |]. split; [reflexivity |].
  split; [reflexivity |]. split.
  - intros r Hhit.
    rewrite (processRequest_hit env request (initialize p keys w) r Hhit). reflexivity.
  - intros Hmiss.
    rewrite (processRequest_without_key env request (initialize p keys w)).
    + cbn [fst snd posts emit].
      destruct (admission_facts env request (initialize p keys w)) as (_ & _ & Hposts & _).
      split; [reflexivity | exact Hposts].
    + unfold usesLocal. cbn [provider initialize].
      apply String.eqb_neq in Hlocal, Hlm. rewrite Hlocal, Hlm. reflexivity.
    + cbn [geminiKey initialize]. unfold mergedKey. rewrite Hsupplied. exact Hkey.
    + exact Hmiss.
Qed.

Lemma cloud_provider_from_settings_needs_the_gemini_key_witness :
  fst (processRequest (refEnv (Fixtures.answers Fixtures.oneCorrection))
         (Fixtures.grammarRequest "He go to school")
         (snd (IpcHandlers.onSettingsSave None
                 (Some {| IpcHandlers.llmProvider := Some "openai";
                          IpcHandlers.apiKeys := Some [("openai", "sk-1"); ("anthropic", "")] |})
                 Fixtures.localService)))
  = inr {| original := "He go to school"; suggestions := [];
           error := Some "ERR_AUTH: Gemini API key not configured" |}.
Proof.
  exact (proj1 (proj2 (proj2 (proj2 (proj2 (proj2 (proj2
           (cloud_provider_from_settings_needs_the_gemini_key
              (refEnv (Fixtures.answers Fixtures.oneCorrection)) "openai"
              [("openai", "sk-1"); ("anthropic", "")]
              (Fixtures.grammarRequest "He go to school") Fixtures.localService
              ltac:(discriminate) ltac:(discriminate) ltac:(discriminate)
              eq_refl eq_refl)))))) eq_refl)).
Defined.

(** *** Routing in the earlier variant of the service *)

Section OllamaRouting.
Import LLMServiceOllama.

Lemma ollama_processRequest_cloud (env : Env) (request : LLMRequest) (w : World) :
  provider w <> "local" ->
  fst (LRUCache.get (now w) (generateCacheKey request) (cache w)) = None ->
  LLMServiceOllama.processRequest env request w
  = match callCloudLLM env request
            (snd (consume env 1 (snd (cacheGet (generateCacheKey request) w)))) with
    | (inr r, w2) => (inr r, snd (cacheResponse request r w2))
    | (inl e, w2) => (LLMServiceOllama.handleError e request, w2)
    end.
Proof.
  intros Hcloud Hmiss.
  destruct (admission_effect env request w) as (Hprov & _). cbn zeta in Hprov.
  unfold LLMServiceOllama.processRequest, try_catch, bind, cacheGet, lift in *.
  destruct (LRUCache.get (now w) (generateCacheKey request) (cache w)) as [o c].
  cbn in Hmiss. subst o. cbn [snd] in *.
  set (w0 := emit (CacheGet (generateCacheKey request)) (set_cache c w)) in *.
  destruct (consume_posts env 1 w0) as (_ & _ & _ & Hok).
  destruct (consume env 1 w0) as [res w1]. cbn in Hok. subst res. cbn [snd] in *.
  unfold gets. rewrite Hprov. apply String.eqb_neq in Hcloud. rewrite Hcloud.
  destruct (callCloudLLM env request w1) as [[e | r] w2]; reflexivity.
Qed.

(** What the admission steps leave of the earlier service's settings. *)
Lemma ollama_admission_facts (env : Env) (request : LLMRequest) (w : World) :
  let w1 := snd (consume env 1 (snd (cacheGet (generateCacheKey request) w))) in
  provider w1 = provider w
  /\ openaiKey w1 = openaiKey w
  /\ anthropicKey w1 = anthropicKey w
  /\ posts w1 = posts w
  /\ count (is_adapter_call OpenAI) (log w1) = count (is_adapter_call OpenAI) (log w)
  /\ count (is_adapter_call Anthropic) (log w1) = count (is_adapter_call Anthropic) (log w).
Proof.
  cbn zeta.
  destruct (admission_effect env request w)
    as (Hprov & _ & Hcount & _ & _ & _ & _ & Ho & Ha).
  cbn zeta in Hprov, Hcount, Ho, Ha.
  destruct (admission_facts env request w) as (_ & _ & Hp & _). cbn zeta in Hp.
  repeat split; try assumption; apply Hcount; reflexivity.
Qed.

(** The counts of a run that ends with one call of a cloud adapter. *)
Lemma count_one_adapter (p q : Provider) (l l' : list Event) :
  provider_eqb Cloud q = false ->
  l' = AdapterCall p :: AdapterCall Cloud :: l
  \/ l' = HttpPost p :: AdapterCall p :: AdapterCall Cloud :: l ->
  count (is_adapter_call q) l'
  = if provider_eqb p q then S (count (is_adapter_call q) l)
    else count (is_adapter_call q) l.
Proof.
  intros Hq [-> | ->]; rewrite !count_cons; cbn [is_adapter_call]; rewrite Hq;
    destruct (provider_eqb p q); reflexivity.
Qed.

(** A miss under a provider other than [local] goes to the cloud router;
    this is what the router does in the world the admission steps have
    left. *)
Lemma cloud_router (env : Env) (request : LLMRequest) (w : World) :
  callCloudLLM env request w
  = match cloudProvider w with
    | Anthropic =>
        if (anthropicKey w =? "")%string
        then (inl (JsError "Anthropic API key not configured"), emit (AdapterCall Cloud) w)
        else callAnthropic env request (emit (AdapterCall Cloud) w)
    | _ =>
        if (openaiKey w =? "")%string
        then (inl (JsError "OpenAI API key not configured"), emit (AdapterCall Cloud) w)
        else callOpenAI env request (emit (AdapterCall Cloud) w)
    end.
Proof.
  rewrite callCloudLLM_unfold. unfold cloudAttempt, bind, gets, throw.
  change (cloudProvider (emit (AdapterCall Cloud) w)) with (cloudProvider w).
  change (openaiKey (emit (AdapterCall Cloud) w)) with (openaiKey w).
  change (anthropicKey (emit (AdapterCall Cloud) w)) with (anthropicKey w).
  destruct (cloudProvider w);
    destruct (openaiKey w =? "")%string; destruct (anthropicKey w =? "")%string;
    reflexivity.
Qed.

Lemma cloudProvider_admitted (env : Env) (request : LLMRequest) (w : World) :
  cloudProvider (snd (consume env 1 (snd (cacheGet (generateCacheKey request) w))))
  = cloudProvider w.
Proof.
  destruct (ollama_admission_facts env request w) as (Hp & Ho & Ha & _).
  cbn zeta in Hp, Ho, Ha. unfold cloudProvider. rewrite Hp, Ho, Ha. reflexivity.
Qed.

(** A miss that the router turns away for want of a key. *)
Lemma cloud_route_refused (env : Env) (request : LLMRequest) (w : World) (msg : string) :
  provider w <> "local" ->
  fst (LRUCache.get (now w) (generateCacheKey request) (cache w)) = None ->
  (forall w1, cloudProvider w1 = cloudProvider w -> openaiKey w1 = openaiKey w ->
              anthropicKey w1 = anthropicKey w ->
              callCloudLLM env request w1 = (inl (JsError msg), emit (AdapterCall Cloud) w1)) ->
  fst (LLMServiceOllama.processRequest env request w)
  = LLMServiceOllama.handleError (JsError msg) request
  /\ posts (snd (LLMServiceOllama.processRequest env request w)) = posts w
  /\ (forall q, provider_eqb Cloud q = false ->
        count (is_adapter_call q) (log (snd (LLMServiceOllama.processRequest env request w)))
        = count (is_adapter_call q) (log w)).
Proof.
  intros Hcloud Hmiss Hrefused.
  rewrite (ollama_processRequest_cloud env request w Hcloud Hmiss).
  destruct (ollama_admission_facts env request w) as (_ & Ho & Ha & Hposts & _).
  cbn zeta in Ho, Ha, Hposts.
  destruct (admission_effect env request w) as (_ & _ & Hcount & _). cbn zeta in Hcount.
  pose proof (cloudProvider_admitted env request w) as Hchosen.
  remember (snd (consume env 1 (snd (cacheGet (generateCacheKey request) w)))) as w1 eqn:Hw1.
  clear Hw1. rewrite (Hrefused w1 Hchosen Ho Ha).
  cbn [fst snd posts log emit].
  split; [reflexivity |]. split; [exact Hposts |].
  intros q Hq. rewrite count_cons. cbn [is_adapter_call]. rewrite Hq.
  apply Hcount; reflexivity.
Qed.

(** A miss that the router hands to the adapter [p]. *)
Lemma cloud_route_taken (env : Env) (request : LLMRequest) (w : World) (p : Provider)
    (call : Env -> LLMRequest -> M LLMResponse) :
  provider w <> "local" ->
  fst (LRUCache.get (now w) (generateCacheKey request) (cache w)) = None ->
  (forall w1, cloudProvider w1 = cloudProvider w -> openaiKey w1 = openaiKey w ->
              anthropicKey w1 = anthropicKey w ->
              callCloudLLM env request w1 = call env request (emit (AdapterCall Cloud) w1)) ->
  (forall w0, log (snd (call env request w0)) = AdapterCall p :: log w0
              \/ log (snd (call env request w0)) = HttpPost p :: AdapterCall p :: log w0) ->
  forall q, provider_eqb Cloud q = false ->
    count (is_adapter_call q) (log (snd (LLMServiceOllama.processRequest env request w)))
    = if provider_eqb p q then S (count (is_adapter_call q) (log w))
      else count (is_adapter_call q) (log w).
Proof.
  intros Hcloud Hmiss Hroute Hlog q Hq.
  rewrite (ollama_processRequest_cloud env request w Hcloud Hmiss).
  destruct (ollama_admission_facts env request w) as (_ & Ho & Ha & _).
  cbn zeta in Ho, Ha.
  destruct (admission_effect env request w) as (_ & _ & Hcount & _). cbn zeta in Hcount.
  specialize (Hcount (is_adapter_call q) eq_refl (fun _ => eq_refl) (fun _ => eq_refl)).
  pose proof (cloudProvider_admitted env request w) as Hchosen.
  remember (snd (consume env 1 (snd (cacheGet (generateCacheKey request) w)))) as w1 eqn:Hw1.
  clear Hw1. rewrite (Hroute w1 Hchosen Ho Ha).
  pose proof (count_one_adapter p q (log w1)
                (log (snd (call env request (emit (AdapterCall Cloud) w1))))
                Hq (Hlog (emit (AdapterCall Cloud) w1))) as Hone.
  rewrite Hcount in Hone.
  destruct (call env request (emit (AdapterCall Cloud) w1)) as [[e | r] w2];
    cbn [fst snd] in *.
  - exact Hone.
  - unfold cacheResponse. cbn [snd log emit set_cache]. rewrite count_cons. exact Hone.
Qed.

End OllamaRouting.

(** The earlier variant, asked for something that is not in its cache
    while its provider is not [local], goes to one cloud provider and to
    no other: to Anthropic when that is the selected provider or when
    there is an Anthropic key and no OpenAI key, to OpenAI otherwise.
    When the provider it settles on has no key the caller gets an
    [ERR_AUTH] response and no adapter has been called; so with provider
    [anthropic] and no Anthropic key an OpenAI key is of no use. *)
Theorem earlier_service_routes_by_provider_and_keys
    (env : Env) (request : LLMRequest) (w : World) :
  provider w <> "local" ->
  fst (LRUCache.get (now w) (generateCacheKey request) (cache w)) = None ->
  let run := LLMServiceOllama.processRequest env request w in
  let calls p := count (is_adapter_call p) (log (snd run)) in
  let before p := count (is_adapter_call p) (log w) in
  (provider w = "anthropic" \/ (openaiKey w = "" /\ anthropicKey w <> "") ->
     (anthropicKey w = "" ->
        fst run = inr {| original := text request; suggestions := [];
                         error := Some "ERR_AUTH: Anthropic API key not configured" |}
        /\ posts (snd run) = posts w
        /\ calls OpenAI = before OpenAI /\ calls Anthropic = before Anthropic)
     /\ (anthropicKey w <> "" ->
          calls Anthropic = S (before Anthropic) /\ calls OpenAI = before OpenAI))
  /\ (provider w <> "anthropic" -> ~ (openaiKey w = "" /\ anthropicKey w <> "") ->
       (openaiKey w = "" ->
          fst run = inr {| original := text request; suggestions := [];
                           error := Some "ERR_AUTH: OpenAI API key not configured" |}
          /\ posts (snd run) = posts w
          /\ calls OpenAI = before OpenAI /\ calls Anthropic = before Anthropic)
       /\ (openaiKey w <> "" ->
            calls OpenAI = S (before OpenAI) /\ calls Anthropic = before Anthropic)).
Proof.
  intros Hcloud Hmiss. cbn zeta. split.
  - intros Hsel.
    assert (Hchosen : LLMServiceOllama.cloudProvider w = Anthropic).
    { unfold LLMServiceOllama.cloudProvider. destruct Hsel as [-> | [-> Ha]]; [reflexivity |].
      apply String.eqb_neq in Ha. rewrite Ha. cbn.
      destruct (provider w =? "anthropic")%string; reflexivity. }
    split.
    + intros Hkey.
      destruct (cloud_route_refused env request w "Anthropic API key not configured"
                  Hcloud Hmiss) as (Hres & Hposts & Hcalls).
      { intros w1 Hc _ Ha. rewrite cloud_router, Hc, Hchosen, Ha, Hkey. reflexivity. }
      split; [rewrite Hres; reflexivity |]. split; [exact Hposts |].
      split; apply Hcalls; reflexivity.
    + intros Hkey.
      assert (Hroute : forall w1,
                 LLMServiceOllama.cloudProvider w1 = LLMServiceOllama.cloudProvider w ->
                 openaiKey w1 = openaiKey w -> anthropicKey w1 = anthropicKey w ->
                 LLMServiceOllama.callCloudLLM env request w1
                 = LLMServiceOllama.callAnthropic env request (emit (AdapterCall Cloud) w1)).
      { intros w1 Hc _ Ha. rewrite cloud_router, Hc, Hchosen, Ha.
        apply String.eqb_neq in Hkey. rewrite Hkey. reflexivity. }
      pose proof (cloud_route_taken env request w Anthropic LLMServiceOllama.callAnthropic
                    Hcloud Hmiss Hroute
                    (fun w0 => proj1 (proj2 (callAnthropic_effect env request w0))))
        as Hcalls.
      split; [exact (Hcalls Anthropic eq_refl) | exact (Hcalls OpenAI eq_refl)].
  - intros Hother Hnofallback.
    assert (Hchosen : LLMServiceOllama.cloudProvider w = OpenAI).
    { unfold LLMServiceOllama.cloudProvider. apply String.eqb_neq in Hother. rewrite Hother. cbn.
      destruct (String.eqb_spec (openaiKey w) "") as [Ho |]; [| reflexivity].
      destruct (String.eqb_spec (anthropicKey w) "") as [| Ha]; [reflexivity |].
      exfalso. apply Hnofallback. split; assumption. }
    split.
    + intros Hkey.
      destruct (cloud_route_refused env request w "OpenAI API key not configured"
                  Hcloud Hmiss) as (Hres & Hposts & Hcalls).
      { intros w1 Hc Ho _. rewrite cloud_router, Hc, Hchosen, Ho, Hkey. reflexivity. }
      split; [rewrite Hres; reflexivity |]. split; [exact Hposts |].
      split; apply Hcalls; reflexivity.
    + intros Hkey.
      assert (Hroute : forall w1,
                 LLMServiceOllama.cloudProvider w1 = LLMServiceOllama.cloudProvider w ->
                 openaiKey w1 = openaiKey w -> anthropicKey w1 = anthropicKey w ->
                 LLMServiceOllama.callCloudLLM env request w1
                 = LLMServiceOllama.callOpenAI env request (emit (AdapterCall Cloud) w1)).
      { intros w1 Hc Ho _. rewrite cloud_router, Hc, Hchosen, Ho.
        apply String.eqb_neq in Hkey. rewrite Hkey. reflexivity. }
      pose proof (cloud_route_taken env request w OpenAI LLMServiceOllama.callOpenAI
                    Hcloud Hmiss Hroute
                    (fun w0 => proj1 (proj2 (callOpenAI_effect env request w0))))
        as Hcalls.
      split; [exact (Hcalls OpenAI eq_refl) | exact (Hcalls Anthropic eq_refl)].
Qed.

Lemma earlier_service_routes_by_provider_and_keys_witness :
  fst (LLMServiceOllama.processRequest (refEnv (Fixtures.answers Fixtures.oneCorrection))
         (Fixtures.grammarRequest "He go to school")
         (LLMServiceOllama.create "anthropic" "sk-1" "" 0))
  = inr {| original := "He go to school"; suggestions := [];
           error := Some "ERR_AUTH: Anthropic API key not configured" |}.
Proof.
  exact (proj1 (proj1 (proj1 (earlier_service_routes_by_provider_and_keys
                                (refEnv (Fixtures.answers Fixtures.oneCorrection))
                                (Fixtures.grammarRequest "He go to school")
                                (LLMServiceOllama.create "anthropic" "sk-1" "" 0)
                                ltac:(discriminate) eq_refl)
                         (or_introl eq_refl))
                  eq_refl)).
Defined.
(* ================================================================== *)
(** ** One fallback hop *)
(* ================================================================== *)

(** In both variants of the service: [processRequest] has missed the
    cache, the provider is the local one and the local adapter's attempt
    has thrown [e].  Without a fallback key nothing of the fallback is
    called and the caller gets what [handleError e] gives: an error
    response without suggestions, unless [handleError] throws.  With a key
    the fallback adapter ([callGemini], respectively [callCloudLLM] and
    through it one of [callOpenAI] and [callAnthropic]) is called exactly
    once, the local adapter not again, and the caller gets the fallback's
    response, or what [handleError] gives for the fallback's error, [e]
    being dropped.  In every case [processRequest] returns a response or
    rejects with the TypeError of a failed conversion to string. *)
Theorem one_fallback_hop :
  (forall (env : Env) (request : LLMRequest) (w : World) (e : jserror) (w2 : World),
      usesLocal w = true ->
      fst (LRUCache.get (now w) (generateCacheKey request) (cache w)) = None ->
      lmStudioAttempt env request (admitted env request w) = (inl e, w2) ->
      (geminiKey w = "" ->
         processRequest env request w = (handleError e request, w2)
         /\ count (is_adapter_call Gemini) (log w2) = count (is_adapter_call Gemini) (log w)
         /\ count (is_http_to Gemini) (log w2) = count (is_http_to Gemini) (log w)
         /\ (forall r, handleError e request = inr r ->
                       suggestions r = [] /\ error r <> None))
      /\ (geminiKey w <> "" ->
            (forall r w3, callGemini env request w2 = (inr r, w3) ->
                          processRequest env request w
                          = (inr r, snd (cacheResponse request r w3)))
            /\ (forall e' w3, callGemini env request w2 = (inl e', w3) ->
                              processRequest env request w = (handleError e' request, w3))
            /\ count (is_adapter_call Gemini) (log (snd (processRequest env request w)))
               = S (count (is_adapter_call Gemini) (log w))
            /\ count (is_adapter_call LMStudio) (log (snd (processRequest env request w)))
               = S (count (is_adapter_call LMStudio) (log w)))
      /\ ((exists r, fst (processRequest env request w) = inr r)
          \/ fst (processRequest env request w) = inl cannot_convert))
  /\
  (forall (env : Env) (request : LLMRequest) (w : World) (e : jserror) (w2 : World),
      provider w = "local" ->
      fst (LRUCache.get (now w) (generateCacheKey request) (cache w)) = None ->
      LLMServiceOllama.localAttempt env request (LLMServiceOllama.admitted env request w)
      = (inl e, w2) ->
      (LLMServiceOllama.hasCloudKey w = false ->
         LLMServiceOllama.processRequest env request w
         = (LLMServiceOllama.handleError e request, w2)
         /\ count (is_adapter_call Cloud) (log w2) = count (is_adapter_call Cloud) (log w)
         /\ count LLMServiceOllama.is_cloud_provider_call (log w2)
            = count LLMServiceOllama.is_cloud_provider_call (log w)
         /\ (forall r, LLMServiceOllama.handleError e request = inr r ->
                       suggestions r = [] /\ error r <> None))
      /\ (LLMServiceOllama.hasCloudKey w = true ->
            (forall r w3, LLMServiceOllama.callCloudLLM env request w2 = (inr r, w3) ->
                          LLMServiceOllama.processRequest env request w
                          = (inr r, snd (cacheResponse request r w3)))
            /\ (forall e' w3, LLMServiceOllama.callCloudLLM env request w2 = (inl e', w3) ->
                              LLMServiceOllama.processRequest env request w
                              = (LLMServiceOllama.handleError e' request, w3))
            /\ count (is_adapter_call Cloud)
                 (log (snd (LLMServiceOllama.processRequest env request w)))
               = S (count (is_adapter_call Cloud) (log w))
            /\ count LLMServiceOllama.is_cloud_provider_call
                 (log (snd (LLMServiceOllama.processRequest env request w)))
               = S (count LLMServiceOllama.is_cloud_provider_call (log w))
            /\ count (is_adapter_call Ollama)
                 (log (snd (LLMServiceOllama.processRequest env request w)))
               = S (count (is_adapter_call Ollama) (log w)))
      /\ ((exists r, fst (LLMServiceOllama.processRequest env request w) = inr r)
          \/ fst (LLMServiceOllama.processRequest env request w) = inl cannot_convert)).
Proof.
  split.
  - exact lmStudio_fallback_hop.
  - exact ollama_fallback_hop.
Qed.

Lemma one_fallback_hop_witness :
  processRequest (refEnv Fixtures.unreachable) (Fixtures.grammarRequest "x")
                 Fixtures.localService
  = (inr {| original := "x"; suggestions := [];
            error := Some "ERR_NETWORK: No response received from LLM service" |},
     snd (lmStudioAttempt (refEnv Fixtures.unreachable) (Fixtures.grammarRequest "x")
            (admitted (refEnv Fixtures.unreachable) (Fixtures.grammarRequest "x")
                      Fixtures.localService)))
  /\ count (is_adapter_call Gemini)
       (log (snd (processRequest (refEnv Fixtures.unreachable) (Fixtures.grammarRequest "x")
                    Fixtures.localServiceWithKey)))
     = S (count (is_adapter_call Gemini) (log Fixtures.localServiceWithKey))
  /\ count LLMServiceOllama.is_cloud_provider_call
       (log (snd (LLMServiceOllama.processRequest (refEnv Fixtures.unreachable)
                    (Fixtures.grammarRequest "x") Fixtures.ollamaServiceWithKey)))
     = S (count LLMServiceOllama.is_cloud_provider_call (log Fixtures.ollamaServiceWithKey)).
Proof.
  destruct one_fallback_hop as [Hmain Hearlier].
  split; [| split].
  - destruct (Hmain (refEnv Fixtures.unreachable)
                (Fixtures.grammarRequest "x") Fixtures.localService (AxiosError None true)
                (snd (lmStudioAttempt (refEnv Fixtures.unreachable)
                        (Fixtures.grammarRequest "x")
                        (admitted (refEnv Fixtures.unreachable)
                                  (Fixtures.grammarRequest "x") Fixtures.localService)))
                eq_refl eq_refl eq_refl) as (Hnokey & _ & _).
    exact (proj1 (Hnokey eq_refl)).
  - destruct (Hmain (refEnv Fixtures.unreachable)
                (Fixtures.grammarRequest "x") Fixtures.localServiceWithKey
                (AxiosError None true)
                (snd (lmStudioAttempt (refEnv Fixtures.unreachable)
                        (Fixtures.grammarRequest "x")
                        (admitted (refEnv Fixtures.unreachable)
                                  (Fixtures.grammarRequest "x")
                                  Fixtures.localServiceWithKey)))
                eq_refl eq_refl eq_refl) as (_ & Hkey & _).
    refine (proj1 (proj2 (proj2 (Hkey _)))). discriminate.
  - destruct (Hearlier (refEnv Fixtures.unreachable)
                (Fixtures.grammarRequest "x") Fixtures.ollamaServiceWithKey
                (AxiosError None true)
                (snd (LLMServiceOllama.localAttempt (refEnv Fixtures.unreachable)
                        (Fixtures.grammarRequest "x")
                        (LLMServiceOllama.admitted (refEnv Fixtures.unreachable)
                           (Fixtures.grammarRequest "x") Fixtures.ollamaServiceWithKey)))
                eq_refl eq_refl eq_refl) as (_ & Hkey & _).
    exact (proj1 (proj2 (proj2 (proj2 (Hkey eq_refl))))).
Defined.

(** *** An error body that cannot be printed *)

Lemma localAttempt_rejected (env : Env) (request : LLMRequest) (w : World) (e : jserror) :
  supported request = true ->
  outcome (post env (posts w) Ollama request) = inl e ->
  LLMServiceOllama.localAttempt env request w = (inl e, posted env Ollama request w).
Proof.
  unfold supported. intros Hop Hout.
  unfold LLMServiceOllama.localAttempt, bind, checkOperation, axiosPost.
  rewrite Hop. cbn. rewrite Hout. reflexivity.
Qed.

(** The body of an HTTP error holds, under [error], an object without
    [message] and with a [toString] of its own: [handleError] finds
    nothing to print it with and throws. *)
Lemma handleError_unprintable
    (response : AxiosResponse) (sent : bool) (fields : list (string * jsval))
    (request : LLMRequest) :
  get_prop_opt (data response) "error" = VObj fields ->
  own_property fields "message" = None ->
  own_property fields "toString" <> None ->
  handleError (AxiosError (Some response) sent) request = inl cannot_convert
  /\ LLMServiceOllama.handleError (AxiosError (Some response) sent) request
     = inl cannot_convert.
Proof.
  intros Hbody Hmessage HtoString.
  unfold handleError, describeError, LLMServiceOllama.handleError,
    LLMServiceOllama.describeError.
  rewrite Hbody. unfold get_prop_opt at 1. cbn [get_prop]. unfold obj_get.
  rewrite Hmessage. cbn [object_prototype String.eqb Ascii.eqb Bool.eqb truthy or_else].
  cbn [to_string]. destruct (own_property fields "toString"); [| contradiction].
  split; reflexivity.
Qed.

(** C2, where the code departs from it.  The provider is the local one,
    no fallback key is configured, the request is not in the cache, and
    the local back end answers with an HTTP error whose body holds under
    [error] an object with a property [toString] and without [message],
    as [{"error":{"toString":1}}] does.  The adapter throws, no fallback
    is tried, and in the [catch] block of [processRequest] [handleError]
    throws while it formats the message: [processRequest] rejects with
    the TypeError "Cannot convert object to primitive value" where the
    claim has it return a response with [error] set.  So it is in both
    variants of the service. *)
Theorem C2_error_body_can_make_processRequest_reject :
  (forall (env : Env) (request : LLMRequest) (w : World) (response : AxiosResponse)
          (sent : bool) (fields : list (string * jsval)),
      usesLocal w = true ->
      geminiKey w = "" ->
      fst (LRUCache.get (now w) (generateCacheKey request) (cache w)) = None ->
      supported request = true ->
      (forall n, outcome (post env n LMStudio request)
                 = inl (AxiosError (Some response) sent)) ->
      get_prop_opt (data response) "error" = VObj fields ->
      own_property fields "message" = None ->
      own_property fields "toString" <> None ->
      fst (processRequest env request w) = inl cannot_convert
      /\ count (is_adapter_call Gemini) (log (snd (processRequest env request w)))
         = count (is_adapter_call Gemini) (log w))
  /\
  (forall (env : Env) (request : LLMRequest) (w : World) (response : AxiosResponse)
          (sent : bool) (fields : list (string * jsval)),
      provider w = "local" ->
      LLMServiceOllama.hasCloudKey w = false ->
      fst (LRUCache.get (now w) (generateCacheKey request) (cache w)) = None ->
      supported request = true ->
      (forall n, outcome (post env n Ollama request)
                 = inl (AxiosError (Some response) sent)) ->
      get_prop_opt (data response) "error" = VObj fields ->
      own_property fields "message" = None ->
      own_property fields "toString" <> None ->
      fst (LLMServiceOllama.processRequest env request w) = inl cannot_convert
      /\ count (is_adapter_call Cloud)
           (log (snd (LLMServiceOllama.processRequest env request w)))
         = count (is_adapter_call Cloud) (log w)).
Proof.
  split.
  - intros env request w response sent fields Hlocal Hnokey Hmiss Hop Hnet Hbody Hmsg Hts.
    destruct (lmStudio_fallback_hop env request w (AxiosError (Some response) sent)
                (posted env LMStudio request (admitted env request w)) Hlocal Hmiss)
      as (Hhop & _).
    { apply lmStudioAttempt_rejected; [exact Hop | apply Hnet]. }
    destruct (Hhop Hnokey) as (Hrun & Hcount & _).
    rewrite Hrun. cbn [fst snd].
    split; [| exact Hcount].
    exact (proj1 (handleError_unprintable response sent fields request Hbody Hmsg Hts)).
  - intros env request w response sent fields Hlocal Hnokey Hmiss Hop Hnet Hbody Hmsg Hts.
    destruct (ollama_fallback_hop env request w (AxiosError (Some response) sent)
                (posted env Ollama request (LLMServiceOllama.admitted env request w))
                Hlocal Hmiss)
      as (Hhop & _).
    { apply localAttempt_rejected; [exact Hop | apply Hnet]. }
    destruct (Hhop Hnokey) as (Hrun & Hcount & _).
    rewrite Hrun. cbn [fst snd].
    split; [| exact Hcount].
    exact (proj2 (handleError_unprintable response sent fields request Hbody Hmsg Hts)).
Qed.

Lemma C2_error_body_can_make_processRequest_reject_witness :
  fst (processRequest (refEnv Fixtures.unprintable) (Fixtures.grammarRequest "He go to school")
         Fixtures.localService)
  = inl cannot_convert
  /\ fst (LLMServiceOllama.processRequest (refEnv Fixtures.unprintable)
            (Fixtures.grammarRequest "He go to school") Fixtures.ollamaService)
     = inl cannot_convert.
Proof.
  destruct C2_error_body_can_make_processRequest_reject as [Hmain Hearlier].
  split.
  - refine (proj1 (Hmain (refEnv Fixtures.unprintable)
                     (Fixtures.grammarRequest "He go to school") Fixtures.localService
                     _ true [("toString", VNum (Num 1 0))]
                     eq_refl eq_refl eq_refl eq_refl (fun _ => eq_refl) eq_refl eq_refl _)).
    discriminate.
  - refine (proj1 (Hearlier (refEnv Fixtures.unprintable)
                     (Fixtures.grammarRequest "He go to school") Fixtures.ollamaService
                     _ true [("toString", VNum (Num 1 0))]
                     eq_refl eq_refl eq_refl eq_refl (fun _ => eq_refl) eq_refl eq_refl _)).
    discriminate.
Defined.
(* ================================================================== *)
(** ** From the payload to the suggestions *)
(* ================================================================== *)

(** *** What the regular expression matches *)

Lemma string_app_assoc (a b c : string) : (a ++ b) ++ c = a ++ (b ++ c).
Proof. induction a as [| x r IH]; cbn; [reflexivity | rewrite IH; reflexivity]. Qed.

Lemma from_first_open_reaches (pre rest : string) :
  exists q, from_first_open (pre ++ String "[" rest) = Some (String "[" (q ++ rest)).
Proof.
  induction pre as [| c r [q IH]]; cbn.
  - exists "". reflexivity.
  - destruct (Ascii.eqb_spec c "[") as [-> | _].
    + exists (r ++ String "[" ""). rewrite string_app_assoc. reflexivity.
    + exists q. exact IH.
Qed.

Lemma upto_last_close_reaches (a b : string) :
  exists p, upto_last_close (a ++ String "]" b) = Some p.
Proof.
  induction a as [| c r [p IH]]; cbn.
  - destruct (upto_last_close b); eexists; reflexivity.
  - rewrite IH. eexists. reflexivity.
Qed.

Lemma from_first_open_found (s : string) (c : ascii) (r : string) :
  from_first_open s = Some (String c r) ->
  c = "["%char /\ exists pre, s = pre ++ String "[" r.
Proof.
  induction s as [| c' r' IH]; cbn; [discriminate |].
  destruct (Ascii.eqb_spec c' "[") as [-> | _].
  - intros [= <- <-]. split; [reflexivity |]. exists "". reflexivity.
  - intros H. destruct (IH H) as (Hc & pre & ->).
    split; [exact Hc |]. exists (String c' pre). reflexivity.
Qed.

Lemma from_first_open_nonempty (s : string) : from_first_open s <> Some "".
Proof.
  induction s as [| c r IH]; cbn; [discriminate |].
  destruct (c =? "[")%char; [discriminate | exact IH].
Qed.

Lemma upto_last_close_found (r p : string) :
  upto_last_close r = Some p ->
  exists mid post, r = mid ++ String "]" post /\ p = mid ++ "]".
Proof.
  revert p. induction r as [| c r' IH]; cbn; [discriminate |]. intros p.
  destruct (upto_last_close r') as [p' |].
  - intros [= <-]. destruct (IH p' eq_refl) as (mid & post & -> & ->).
    exists (String c mid), post. split; reflexivity.
  - destruct (Ascii.eqb_spec c "]") as [-> | _]; [| discriminate].
    intros [= <-]. exists "", r'. split; reflexivity.
Qed.

(** The regular expression matches exactly when the text holds a ["["]
    with a ["]"] after it. *)
Lemma match_brackets_none (s : string) :
  match_brackets s = None <-> ~ has_span s.
Proof.
  split.
  - intros Hnone (pre & mid & post & ->). unfold match_brackets in Hnone.
    destruct (from_first_open_reaches pre (mid ++ String "]" post)) as [q Hq].
    rewrite Hq in Hnone. rewrite <- string_app_assoc in Hnone.
    destruct (upto_last_close_reaches (q ++ mid) post) as [p Hp].
    rewrite Hp in Hnone. discriminate.
  - intros Hno. unfold match_brackets.
    destruct (from_first_open s) as [[| c r] |] eqn:Hopen; try reflexivity.
    destruct (upto_last_close r) as [p |] eqn:Hclose; [| reflexivity].
    exfalso. apply Hno.
    destruct (from_first_open_found s c r Hopen) as (_ & pre & ->).
    destruct (upto_last_close_found r p Hclose) as (mid & post & -> & _).
    exists pre, mid, post. reflexivity.
Qed.

(** *** What an answered adapter returns *)

Lemma mapSuggestions_objects (fl : list (list (string * jsval))) :
  mapSuggestions (map VObj fl) = inr (map suggestionOf fl).
Proof.
  induction fl as [| fields rest IH]; cbn [map mapSuggestions]; [reflexivity |].
  rewrite toSuggestion_object, IH. reflexivity.
Qed.

Lemma lmStudioAttempt_answered (env : Env) (request : LLMRequest) (w : World) (data : jsval) :
  supported request = true ->
  outcome (post env (posts w) LMStudio request) = inr data ->
  lmStudioAttempt env request w
  = (fromText env "Failed to parse LM Studio response" request (lmStudioText data),
     posted env LMStudio request w).
Proof.
  unfold supported. intros Hop Hout.
  unfold lmStudioAttempt, bind, checkOperation, axiosPost, lift, fromText.
  rewrite Hop. cbn. rewrite Hout.
  destruct (lmStudioText data) as [e | t]; [reflexivity |].
  destruct (parseSuggestions env _ t); reflexivity.
Qed.

Lemma geminiAttempt_answered (env : Env) (request : LLMRequest) (w : World) (data : jsval) :
  geminiKey w <> "" ->
  supported request = true ->
  outcome (post env (posts w) Gemini request) = inr data ->
  geminiAttempt env request w
  = (fromText env "Failed to parse Gemini response" request (geminiText data),
     posted env Gemini request w).
Proof.
  unfold supported. intros Hkey Hop Hout.
  unfold geminiAttempt, bind, gets, checkOperation, axiosPost, lift, fromText.
  apply String.eqb_neq in Hkey. rewrite Hkey, Hop. cbn. rewrite Hout.
  destruct (geminiText data) as [e | t]; [reflexivity |].
  destruct (parseSuggestions env _ t); reflexivity.
Qed.

(** A miss that LM Studio answers, no Gemini key being configured. *)
Lemma processRequest_local_answered
    (env : Env) (request : LLMRequest) (w : World) (data : jsval) :
  usesLocal w = true ->
  geminiKey w = "" ->
  fst (LRUCache.get (now w) (generateCacheKey request) (cache w)) = None ->
  supported request = true ->
  outcome (post env (posts w) LMStudio request) = inr data ->
  fst (processRequest env request w)
  = match fromText env "Failed to parse LM Studio response" request (lmStudioText data) with
    | inl e => handleError e request
    | inr r => inr r
    end.
Proof.
  intros Hlocal Hkey Hmiss Hop Hout.
  rewrite (processRequest_miss env request w Hmiss). cbn zeta.
  destruct (admission_facts env request w) as (Hl & Hk & Hp & _). cbn zeta in Hl, Hk, Hp.
  remember (snd (consume env 1 (snd (cacheGet (generateCacheKey request) w)))) as w1 eqn:Hw1.
  clear Hw1. rewrite Hl, Hlocal, callLMStudio_unfold.
  rewrite (lmStudioAttempt_answered env request _ data Hop)
    by (cbn [posts emit]; rewrite Hp; exact Hout).
  destruct (fromText env _ request (lmStudioText data)) as [e | r]; [| reflexivity].
  cbn [geminiKey posted emit set_now set_posts]. rewrite Hk, Hkey. reflexivity.
Qed.

(** A miss that Gemini, the selected provider, answers. *)
Lemma processRequest_cloud_answered
    (env : Env) (request : LLMRequest) (w : World) (data : jsval) :
  usesLocal w = false ->
  geminiKey w <> "" ->
  fst (LRUCache.get (now w) (generateCacheKey request) (cache w)) = None ->
  supported request = true ->
  outcome (post env (posts w) Gemini request) = inr data ->
  fst (processRequest env request w)
  = match fromText env "Failed to parse Gemini response" request (geminiText data) with
    | inl e => handleError e request
    | inr r => inr r
    end.
Proof.
  intros Hcloud Hkey Hmiss Hop Hout.
  rewrite (processRequest_miss env request w Hmiss). cbn zeta.
  destruct (admission_facts env request w) as (Hl & Hk & Hp & _). cbn zeta in Hl, Hk, Hp.
  remember (snd (consume env 1 (snd (cacheGet (generateCacheKey request) w)))) as w1 eqn:Hw1.
  clear Hw1. rewrite Hl, Hcloud, callGemini_unfold.
  rewrite (geminiAttempt_answered env request _ data)
    by (cbn [geminiKey posts emit]; congruence).
  destruct (fromText env _ request (geminiText data)) as [e | r]; reflexivity.
Qed.

(** A miss that LM Studio answers with a payload the adapter can read:
    the fallback plays no part. *)
Lemma processRequest_local_success
    (env : Env) (request : LLMRequest) (w : World) (data : jsval) (r : LLMResponse) :
  usesLocal w = true ->
  fst (LRUCache.get (now w) (generateCacheKey request) (cache w)) = None ->
  supported request = true ->
  outcome (post env (posts w) LMStudio request) = inr data ->
  fromText env "Failed to parse LM Studio response" request (lmStudioText data) = inr r ->
  fst (processRequest env request w) = inr r.
Proof.
  intros Hlocal Hmiss Hop Hout Hread.
  rewrite (processRequest_miss env request w Hmiss). cbn zeta.
  destruct (admission_facts env request w) as (Hl & _ & Hp & _). cbn zeta in Hl, Hp.
  remember (snd (consume env 1 (snd (cacheGet (generateCacheKey request) w)))) as w1 eqn:Hw1.
  clear Hw1. rewrite Hl, Hlocal, callLMStudio_unfold.
  rewrite (lmStudioAttempt_answered env request _ data Hop)
    by (cbn [posts emit]; rewrite Hp; exact Hout).
  rewrite Hread. reflexivity.
Qed.

Lemma parse_span (env : Env) (failure pre mid post : string) :
  has_char "[" pre = false ->
  has_char "]" post = false ->
  parseSuggestions env failure (VStr (pre ++ String "[" (mid ++ String "]" post)))
  = match jsonParse env (String "[" (mid ++ "]")) with
    | inl e => inl e
    | inr (VArr l) => mapSuggestions l
    | inr _ => inl (JsError "suggestions.map is not a function")
    end.
Proof.
  intros Hpre Hpost. cbn [parseSuggestions].
  rewrite (match_brackets_span pre mid post Hpre Hpost). reflexivity.
Qed.

(** *** Whatever the model prints *)

Lemma toSuggestion_error (s : jsval) (e : jserror) :
  toSuggestion s = inl e -> exists m, e = JsError m.
Proof.
  unfold toSuggestion, get_prop, type_error_read.
  destruct s; intros [= <-]; eexists; reflexivity.
Qed.

Lemma mapSuggestions_error (l : list jsval) (e : jserror) :
  mapSuggestions l = inl e -> exists m, e = JsError m.
Proof.
  induction l as [| s rest IH]; cbn [mapSuggestions]; [discriminate |].
  destruct (toSuggestion s) as [e' | x] eqn:Hs.
  - intros [= <-]. exact (toSuggestion_error s e' Hs).
  - destruct (mapSuggestions rest) as [e' | xs]; [| discriminate].
    intros [= <-]. apply IH. reflexivity.
Qed.

(** The reference [JSON.parse] throws nothing but a [SyntaxError]. *)
Lemma Json_parse_error (s : string) (e : jserror) :
  Json.parse s = inl e -> exists m, e = JsError m.
Proof.
  unfold Json.parse.
  destruct (Json.parse_value _ s) as [[v rest] |]; [destruct (Json.skip_ws rest) |];
    intros [= <-]; eexists; reflexivity.
Qed.

(** Given a string, the parsing of an adapter throws nothing but an
    [Error]. *)
Lemma fromText_error (env : Env) (failure payload : string) (request : LLMRequest)
    (e : jserror) :
  (forall s e', jsonParse env s = inl e' -> exists m, e' = JsError m) ->
  fromText env failure request (inr (VStr payload)) = inl e ->
  exists m, e = JsError m.
Proof.
  intros Hparse. unfold fromText. cbn [parseSuggestions].
  destruct (match_brackets payload) as [jsonMatch |]; [| intros [= <-]; eexists; reflexivity].
  destruct (jsonParse env jsonMatch) as [e' | v] eqn:Hjson.
  { intros [= <-]. exact (Hparse jsonMatch e' Hjson). }
  destruct v; try (intros [= <-]; eexists; reflexivity).
  destruct (mapSuggestions l) as [e' | parsed] eqn:Hmap; [| discriminate].
  intros [= <-]. exact (mapSuggestions_error l e' Hmap).
Qed.

Lemma fromText_clean (env : Env) (failure : string) (request : LLMRequest)
    (t : jserror + jsval) (r : LLMResponse) :
  fromText env failure request t = inr r -> error r = None.
Proof.
  unfold fromText. destruct t as [e | v]; [discriminate |].
  destruct (parseSuggestions env failure v); [discriminate |].
  intros [= <-]. reflexivity.
Qed.

(** Both providers answer every request, each with a text of its own:
    what the adapter reached first ends with, the fallback included. *)
Lemma call_on_printed_text
    (env : Env) (request : LLMRequest) (dataL dataG : jsval) (payloadL payloadG : string) :
  (forall s e, jsonParse env s = inl e -> exists m, e = JsError m) ->
  supported request = true ->
  (forall n, outcome (post env n LMStudio request) = inr dataL) ->
  lmStudioText dataL = inr (VStr payloadL) ->
  (forall n, outcome (post env n Gemini request) = inr dataG) ->
  geminiText dataG = inr (VStr payloadG) ->
  forall w,
    match fst ((if usesLocal w then callLMStudio env request
                else callGemini env request) w) with
    | inr r => error r = None
    | inl e => exists m, e = JsError m
    end.
Proof.
  intros Hparse Hop HL HtextL HG HtextG.
  assert (Hgemini : forall w,
             match fst (callGemini env request w) with
             | inr r => error r = None
             | inl e => exists m, e = JsError m
             end).
  { intros w. rewrite callGemini_unfold.
    destruct (String.eqb_spec (geminiKey w) "") as [Hnone | Hkey].
    - rewrite geminiAttempt_without_key by exact Hnone. eexists. reflexivity.
    - rewrite (geminiAttempt_answered env request _ dataG) by (try apply HG; assumption).
      cbn [fst]. rewrite HtextG.
      destruct (fromText env _ request (inr (VStr payloadG))) as [e | r] eqn:Hread.
      + exact (fromText_error env _ payloadG request e Hparse Hread).
      + exact (fromText_clean env _ request _ r Hread). }
  intros w. destruct (usesLocal w); [| apply Hgemini].
  rewrite callLMStudio_unfold.
  rewrite (lmStudioAttempt_answered env request _ dataL Hop) by apply HL.
  rewrite HtextL.
  destruct (fromText env _ request (inr (VStr payloadL))) as [e | r] eqn:Hread.
  - destruct (_ =? "")%string; [| apply Hgemini].
    exact (fromText_error env _ payloadL request e Hparse Hread).
  - exact (fromText_clean env _ request _ r Hread).
Qed.

(** A miss under the local provider with a Gemini key, when neither LM
    Studio nor Gemini prints a text the adapter can read. *)
Lemma processRequest_both_unreadable
    (env : Env) (request : LLMRequest) (w : World) (dataL dataG : jsval) (eL eG : jserror) :
  usesLocal w = true ->
  geminiKey w <> "" ->
  fst (LRUCache.get (now w) (generateCacheKey request) (cache w)) = None ->
  supported request = true ->
  outcome (post env (posts w) LMStudio request) = inr dataL ->
  fromText env "Failed to parse LM Studio response" request (lmStudioText dataL) = inl eL ->
  outcome (post env (S (posts w)) Gemini request) = inr dataG ->
  fromText env "Failed to parse Gemini response" request (geminiText dataG) = inl eG ->
  fst (processRequest env request w) = handleError eG request.
Proof.
  intros Hlocal Hkey Hmiss Hop HoutL HreadL HoutG HreadG.
  rewrite (processRequest_miss env request w Hmiss). cbn zeta.
  destruct (admission_facts env request w) as (Hl & Hk & Hp & _). cbn zeta in Hl, Hk, Hp.
  remember (snd (consume env 1 (snd (cacheGet (generateCacheKey request) w)))) as w1 eqn:Hw1.
  clear Hw1. rewrite Hl, Hlocal, callLMStudio_unfold.
  rewrite (lmStudioAttempt_answered env request _ dataL Hop)
    by (cbn [posts emit]; rewrite Hp; exact HoutL).
  rewrite HreadL. cbn [geminiKey posted emit set_now set_posts]. rewrite Hk.
  apply String.eqb_neq in Hkey. rewrite Hkey. apply String.eqb_neq in Hkey.
  rewrite callGemini_unfold.
  rewrite (geminiAttempt_answered env request _ dataG)
    by (cbn [geminiKey posts posted emit set_now set_posts]; congruence).
  rewrite HreadG. reflexivity.
Qed.

(** C8, as the code has it.  The adapter hands to [JSON.parse] the text
    from the first ["["] to the last ["]"] of the payload: when the prose
    or the fences before the array hold no ["["] and those after it no
    ["]"], that text is the array itself, and the response of the adapter
    (LM Studio, or Gemini as the selected provider) carries, in order, the
    suggestion made of each element.  A payload with no ["["] that a
    ["]"] follows makes the adapter fail with its own message, which
    [processRequest] returns as an error response under the code
    [ERR_UNKNOWN]: LM Studio's when there is no Gemini key to fall back
    on, Gemini's when Gemini is the selected provider or the fallback.
    And whatever texts the providers print, [processRequest] returns a
    response, with suggestions and no error or with an error and no
    suggestion; nothing is thrown. *)
Theorem C8_outermost_bracket_span_is_parsed :
  (forall (env : Env) (failure before body after : string),
      has_char "[" before = false ->
      has_char "]" after = false ->
      parseSuggestions env failure (VStr (before ++ String "[" (body ++ String "]" after)))
      = match jsonParse env (String "[" (body ++ "]")) with
        | inl e => inl e
        | inr (VArr l) => mapSuggestions l
        | inr _ => inl (JsError "suggestions.map is not a function")
        end)
  /\
  (forall (env : Env) (request : LLMRequest) (w : World) (data : jsval)
          (before body after : string) (elements : list (list (string * jsval))),
      fst (LRUCache.get (now w) (generateCacheKey request) (cache w)) = None ->
      supported request = true ->
      has_char "[" before = false ->
      has_char "]" after = false ->
      jsonParse env (String "[" (body ++ "]")) = inr (VArr (map VObj elements)) ->
      (usesLocal w = true ->
       outcome (post env (posts w) LMStudio request) = inr data ->
       lmStudioText data = inr (VStr (before ++ String "[" (body ++ String "]" after))) ->
       fst (processRequest env request w)
       = inr {| original := text request;
                suggestions := map suggestionOf elements;
                error := None |})
      /\ (usesLocal w = false ->
          geminiKey w <> "" ->
          outcome (post env (posts w) Gemini request) = inr data ->
          geminiText data = inr (VStr (before ++ String "[" (body ++ String "]" after))) ->
          fst (processRequest env request w)
          = inr {| original := text request;
                   suggestions := map suggestionOf elements;
                   error := None |}))
  /\
  (forall (env : Env) (request : LLMRequest) (w : World) (data : jsval) (payload : string),
      fst (LRUCache.get (now w) (generateCacheKey request) (cache w)) = None ->
      supported request = true ->
      ~ has_span payload ->
      (usesLocal w = true ->
       geminiKey w = "" ->
       outcome (post env (posts w) LMStudio request) = inr data ->
       lmStudioText data = inr (VStr payload) ->
       fst (processRequest env request w)
       = inr {| original := text request; suggestions := [];
                error := Some "ERR_UNKNOWN: Failed to parse LM Studio response" |})
      /\ (usesLocal w = false ->
          geminiKey w <> "" ->
          outcome (post env (posts w) Gemini request) = inr data ->
          geminiText data = inr (VStr payload) ->
          fst (processRequest env request w)
          = inr {| original := text request; suggestions := [];
                   error := Some "ERR_UNKNOWN: Failed to parse Gemini response" |})
      /\ (forall (fallbackData : jsval) (fallbackPayload : string),
            usesLocal w = true ->
            geminiKey w <> "" ->
            outcome (post env (posts w) LMStudio request) = inr data ->
            lmStudioText data = inr (VStr payload) ->
            outcome (post env (S (posts w)) Gemini request) = inr fallbackData ->
            geminiText fallbackData = inr (VStr fallbackPayload) ->
            ~ has_span fallbackPayload ->
            fst (processRequest env request w)
            = inr {| original := text request; suggestions := [];
                     error := Some "ERR_UNKNOWN: Failed to parse Gemini response" |}))
  /\
  (forall (env : Env) (request : LLMRequest) (w : World) (dataL dataG : jsval)
          (payloadL payloadG : string),
      (forall s e, jsonParse env s = inl e -> exists m, e = JsError m) ->
      fst (LRUCache.get (now w) (generateCacheKey request) (cache w)) = None ->
      supported request = true ->
      (forall n, outcome (post env n LMStudio request) = inr dataL) ->
      lmStudioText dataL = inr (VStr payloadL) ->
      (forall n, outcome (post env n Gemini request) = inr dataG) ->
      geminiText dataG = inr (VStr payloadG) ->
      exists r,
        fst (processRequest env request w) = inr r
        /\ (error r = None \/ (suggestions r = [] /\ error r <> None))).
Proof.
  split; [exact parse_span |]. split; [| split].
  - intros env request w data before body after elements Hmiss Hop Hpre Hpost Hparse.
    split.
    + intros Hlocal Hout Htext.
      apply (processRequest_local_success env request w data _ Hlocal Hmiss Hop Hout).
      unfold fromText. rewrite Htext, (parse_span env _ before body after Hpre Hpost), Hparse.
      rewrite mapSuggestions_objects. reflexivity.
    + intros Hcloud Hkey Hout Htext.
      rewrite (processRequest_cloud_answered env request w data Hcloud Hkey Hmiss Hop Hout).
      unfold fromText. rewrite Htext, (parse_span env _ before body after Hpre Hpost), Hparse.
      rewrite mapSuggestions_objects. reflexivity.
  - intros env request w data payload Hmiss Hop Hspan.
    apply match_brackets_none in Hspan. split; [| split].
    + intros Hlocal Hkey Hout Htext.
      rewrite (processRequest_local_answered env request w data Hlocal Hkey Hmiss Hop Hout).
      unfold fromText. rewrite Htext. cbn [parseSuggestions]. rewrite Hspan. reflexivity.
    + intros Hcloud Hkey Hout Htext.
      rewrite (processRequest_cloud_answered env request w data Hcloud Hkey Hmiss Hop Hout).
      unfold fromText. rewrite Htext. cbn [parseSuggestions]. rewrite Hspan. reflexivity.
    + intros fallbackData fallbackPayload Hlocal Hkey Hout Htext Hout' Htext' Hspan'.
      apply match_brackets_none in Hspan'.
      rewrite (processRequest_both_unreadable env request w data fallbackData
                 (JsError "Failed to parse LM Studio response")
                 (JsError "Failed to parse Gemini response")
                 Hlocal Hkey Hmiss Hop Hout).
      * reflexivity.
      * unfold fromText. rewrite Htext. cbn [parseSuggestions]. rewrite Hspan. reflexivity.
      * exact Hout'.
      * unfold fromText. rewrite Htext'. cbn [parseSuggestions]. rewrite Hspan'.
        reflexivity.
  - intros env request w dataL dataG payloadL payloadG Hparse Hmiss Hop HL HtextL HG HtextG.
    rewrite (processRequest_miss env request w Hmiss). cbn zeta.
    remember (snd (consume env 1 (snd (cacheGet (generateCacheKey request) w)))) as w1 eqn:Hw1.
    clear Hw1.
    pose proof (call_on_printed_text env request dataL dataG payloadL payloadG
                  Hparse Hop HL HtextL HG HtextG w1) as Hcall.
    destruct ((if usesLocal w1 then callLMStudio env request else callGemini env request) w1)
      as [[e | r] w2]; cbn [fst] in *.
    + destruct Hcall as [m ->]. rewrite handleError_message.
      eexists. split; [reflexivity |]. right. split; [reflexivity | discriminate].
    + exists r. split; [reflexivity |]. left. exact Hcall.
Qed.

Lemma C8_outermost_bracket_span_is_parsed_witness :
  fst (processRequest
         (refEnv (Fixtures.answers
                    (dq "Here you go: [{'text':'He goes','type':'grammar'}] Hope this helps!")))
         (Fixtures.grammarRequest "He go") Fixtures.localService)
  = inr {| original := "He go";
           suggestions := [ {| Suggestion.text := VStr "He goes";
                               Suggestion.confidence := VNum (Num 8 (-1));
                               Suggestion.type := VStr "grammar" |} ];
           error := None |}
  /\ fst (processRequest (refEnv (Fixtures.answers "I found no issues."))
            (Fixtures.grammarRequest "x") (create "gemini" "secret" 0))
     = inr {| original := "x"; suggestions := [];
              error := Some "ERR_UNKNOWN: Failed to parse Gemini response" |}
  /\ exists r,
       fst (processRequest (refEnv (Fixtures.answers "[oops]"))
              (Fixtures.grammarRequest "x") Fixtures.localServiceWithKey) = inr r
       /\ (error r = None \/ (suggestions r = [] /\ error r <> None)).
Proof.
  destruct C8_outermost_bracket_span_is_parsed as (_ & Hfound & Hnone & Hany).
  split; [| split].
  - exact (proj1 (Hfound
             (refEnv (Fixtures.answers
                (dq "Here you go: [{'text':'He goes','type':'grammar'}] Hope this helps!")))
             (Fixtures.grammarRequest "He go") Fixtures.localService
             (Fixtures.lmStudioData
                (dq "Here you go: [{'text':'He goes','type':'grammar'}] Hope this helps!"))
             "Here you go: " (dq "{'text':'He goes','type':'grammar'}") " Hope this helps!"
             [[("text", VStr "He goes"); ("type", VStr "grammar")]]
             eq_refl eq_refl eq_refl eq_refl eq_refl)
           eq_refl eq_refl eq_refl).
  - refine (proj1 (proj2 (Hnone (refEnv (Fixtures.answers "I found no issues."))
                            (Fixtures.grammarRequest "x") (create "gemini" "secret" 0)
                            (Fixtures.geminiData "I found no issues.") "I found no issues."
                            eq_refl eq_refl _))
              eq_refl _ eq_refl eq_refl).
    + apply match_brackets_none. reflexivity.
    + discriminate.
  - exact (Hany (refEnv (Fixtures.answers "[oops]")) (Fixtures.grammarRequest "x")
             Fixtures.localServiceWithKey
             (Fixtures.lmStudioData "[oops]") (Fixtures.geminiData "[oops]")
             "[oops]" "[oops]"
             Json_parse_error eq_refl eq_refl (fun _ => eq_refl) eq_refl
             (fun _ => eq_refl) eq_refl).
Defined.

(** C8, counterexample.  The payload below holds one well-formed JSON
    array, preceded by prose and followed by a remark in brackets.  The
    match runs on to the last ["]"], the matched text is not JSON, and the
    caller gets an error response instead of the suggestion.  And a payload
    without any array is reported under the generic code [ERR_UNKNOWN]. *)
Lemma C8_counterexample :
  Json.parse (dq "[{'text':'a','confidence':0.9,'type':'grammar'}]")
  = inr (VArr [VObj [("text", VStr "a"); ("confidence", VNum (Num 9 (-1)));
                     ("type", VStr "grammar")]])
  /\ match_brackets
       (dq "Fixed: [{'text':'a','confidence':0.9,'type':'grammar'}] (see [1])")
     = Some (dq "[{'text':'a','confidence':0.9,'type':'grammar'}] (see [1]")
  /\ match fst (processRequest
                  (refEnv (Fixtures.answers
                     (dq "Fixed: [{'text':'a','confidence':0.9,'type':'grammar'}] (see [1])")))
                  (Fixtures.grammarRequest "x") Fixtures.localService) with
     | inr r => suggestions r = [] /\ error r <> None
     | inl _ => False
     end
  /\ fst (processRequest (refEnv (Fixtures.answers "I found no issues."))
            (Fixtures.grammarRequest "x") Fixtures.localService)
     = inr {| original := "x"; suggestions := [];
              error := Some "ERR_UNKNOWN: Failed to parse LM Studio response" |}.
Proof.
  vm_compute. repeat split. discriminate.
Qed.
(* ================================================================== *)
(** ** Properties of the offline spell check *)
(* ================================================================== *)

Import LLMProcessor.

(** Every entry of the dictionary is found under its own key, and its
    replacement is a non-empty string. *)
Lemma misspelling_entry (k : string) (v : jsval) :
  In (k, v) commonMisspellings -> obj_get commonMisspellings k = v /\ truthy v = true.
Proof.
  unfold commonMisspellings. cbn [In]. intros H.
  repeat (destruct H as [H | H]; [injection H as <- <-; split; reflexivity |]).
  contradiction.
Qed.

Lemma offline_suggestions (text : string) :
  suggestions (handleOfflineMode text)
  = map (fun word => {| Suggestion.text := misspelling word;
                        Suggestion.confidence := VNum (Num 7 (-1));
                        Suggestion.type := VStr "spelling" |})
        (filter (fun word => truthy (misspelling word)) (split_ws text)).
Proof.
  unfold handleOfflineMode, findMisspelledWords. cbn [suggestions].
  rewrite map_map. reflexivity.
Qed.

(** What [checkGrammar] does with a text it has no cached reply for when
    the debounce timer fires while [navigator.onLine] is false. *)
Lemma offline_check_runs (env : LLMProcessor.Env) (text : string) (language : option string)
    (t t' : Z) (p : LLMProcessor.t) :
  fst (LRUCache.get t ("grammar:" ++ or_default language "en" ++ ":" ++ text)
         (cache (store p))) = None ->
  onLine env t' = false ->
  t + Z.max 0 (Debouncer.delay (requestDebouncer p)
               - (t - Debouncer.lastCall (requestDebouncer p))) <= t' ->
  exists p2,
    fst (LLMProcessor.checkGrammar env text language t p)
    = Promised (Debouncer.promises (requestDebouncer p))
    /\ timer_fires t' (snd (LLMProcessor.checkGrammar env text language t p)) = Some p2
    /\ Debouncer.result (Debouncer.promises (requestDebouncer p)) (requestDebouncer p2)
       = Some (inr (Some (handleOfflineMode text)))
    /\ invokes (store p2) = invokes (store p)
    /\ log (store p2) = log (store p).
Proof.
  intros Hmiss Hoff Hdue.
  unfold LLMProcessor.checkGrammar, submit.
  destruct (LRUCache.get t _ (cache (store p))) as [o c]. cbn in Hmiss. subst o.
  unfold timer_fires, Debouncer.fire. cbn.
  destruct (Z.leb_spec (t + Z.max 0 (Debouncer.delay (requestDebouncer p)
                                     - (t - Debouncer.lastCall (requestDebouncer p)))) t');
    [| lia].
  unfold request_job. rewrite Hoff. cbn.
  eexists. split; [reflexivity |]. split; [reflexivity |].
  unfold Debouncer.result. cbn. rewrite Nat.eqb_refl. repeat split.
Qed.

(** C9, as the code has it.  [checkGrammar] looks into the renderer's
    cache before anything else.  When it holds no reply for the text and
    the debounce timer of the call fires while [navigator.onLine] is
    false, the promise settles with [handleOfflineMode text] and the IPC
    bridge has not been used; the suggestions are the dictionary
    replacements of the white-space separated tokens, in order, each with
    confidence 0.7 and type [spelling]; every token whose lower-case form
    is a dictionary key is among them; and ["teh cat sat"] gives exactly
    the one suggestion ["the"]. *)
Theorem C9_offline_check_scans_the_dictionary
    (env : LLMProcessor.Env) (text : string) (language : option string)
    (t t' : Z) (p : LLMProcessor.t) :
  fst (LRUCache.get t ("grammar:" ++ or_default language "en" ++ ":" ++ text)
         (cache (store p))) = None ->
  onLine env t' = false ->
  t + Z.max 0 (Debouncer.delay (requestDebouncer p)
               - (t - Debouncer.lastCall (requestDebouncer p))) <= t' ->
  (exists p2,
      fst (LLMProcessor.checkGrammar env text language t p)
      = Promised (Debouncer.promises (requestDebouncer p))
      /\ timer_fires t' (snd (LLMProcessor.checkGrammar env text language t p)) = Some p2
      /\ Debouncer.result (Debouncer.promises (requestDebouncer p)) (requestDebouncer p2)
         = Some (inr (Some (handleOfflineMode text)))
      /\ invokes (store p2) = invokes (store p)
      /\ log (store p2) = log (store p))
  /\ suggestions (handleOfflineMode text)
     = map (fun word => {| Suggestion.text := misspelling word;
                           Suggestion.confidence := VNum (Num 7 (-1));
                           Suggestion.type := VStr "spelling" |})
           (filter (fun word => truthy (misspelling word)) (split_ws text))
  /\ (forall (word k : string) (v : jsval),
        In word (split_ws text) ->
        In (k, v) commonMisspellings ->
        toLowerCase word = k ->
        In {| Suggestion.text := v;
              Suggestion.confidence := VNum (Num 7 (-1));
              Suggestion.type := VStr "spelling" |}
           (suggestions (handleOfflineMode text)))
  /\ handleOfflineMode "teh cat sat"
     = {| original := "teh cat sat";
          suggestions := [ {| Suggestion.text := VStr "the";
                              Suggestion.confidence := VNum (Num 7 (-1));
                              Suggestion.type := VStr "spelling" |} ];
          error := None |}.
Proof.
  intros Hmiss Hoff Hdue.
  split; [exact (offline_check_runs env text language t t' p Hmiss Hoff Hdue) |].
  split; [apply offline_suggestions |].
  split; [| reflexivity].
  intros word k v Hword Hentry Hlower.
  destruct (misspelling_entry k v Hentry) as [Hget Htruthy].
  rewrite offline_suggestions. apply in_map_iff. exists word. split.
  - unfold misspelling. rewrite Hlower, Hget. reflexivity.
  - apply filter_In. split; [assumption |].
    unfold misspelling. rewrite Hlower, Hget. exact Htruthy.
Qed.

Lemma C9_offline_check_scans_the_dictionary_witness :
  exists p2,
    fst (LLMProcessor.checkGrammar Fixtures.offline "teh cat sat" None Fixtures.noon
           LLMProcessor.create)
    = Promised 0
    /\ timer_fires Fixtures.noon
         (snd (LLMProcessor.checkGrammar Fixtures.offline "teh cat sat" None Fixtures.noon
                 LLMProcessor.create)) = Some p2
    /\ Debouncer.result 0 (requestDebouncer p2)
       = Some (inr (Some (handleOfflineMode "teh cat sat")))
    /\ invokes (store p2) = 0%nat
    /\ log (store p2) = [].
Proof.
  exact (proj1 (C9_offline_check_scans_the_dictionary
                  Fixtures.offline "teh cat sat" None Fixtures.noon Fixtures.noon
                  LLMProcessor.create
                  eq_refl eq_refl ltac:(vm_compute; discriminate))).
Defined.

(** C9, counterexample.  The renderer has checked ["teh cat sat"] while on
    line and cached the reply of the main process, which holds no
    suggestion.  The connection is lost and the same text is checked
    again: [checkGrammar] returns the cached reply without reading
    [navigator.onLine], and the dictionary is not consulted.  And off
    line from the start, with nothing cached: ["teh cat sat"] is checked
    and, before the debounce timer has fired, another text; the timer of
    the first call is cleared, and its promise is answered neither with
    the suggestion nor with anything else. *)
Lemma C9_counterexample :
  match acts Fixtures.answering
          [CheckGrammar "teh cat sat" None Fixtures.noon; TimerFires Fixtures.noon]
          LLMProcessor.create with
  | Some p1 =>
      fst (LLMProcessor.checkGrammar Fixtures.offline "teh cat sat" None
             (Fixtures.noon + 1000) p1)
      = Returned {| original := "teh cat sat"; suggestions := []; error := None |}
      /\ suggestions (handleOfflineMode "teh cat sat") <> []
  | None => False
  end
  /\ match acts Fixtures.offline
            [CheckGrammar "teh cat sat" None Fixtures.noon;
             CheckGrammar "adn" None Fixtures.noon;
             TimerFires Fixtures.noon]
            LLMProcessor.create with
     | Some p =>
         fst (LLMProcessor.checkGrammar Fixtures.offline "teh cat sat" None Fixtures.noon
                LLMProcessor.create) = Promised 0
         /\ Debouncer.abandoned 0 (requestDebouncer p)
     | None => False
     end.
Proof.
  split.
  - vm_compute. split; [reflexivity | discriminate].
  - vm_compute. repeat split. repeat constructor.
Qed.

(** A text none of whose tokens is, in lower case, a key of the
    dictionary or the name of an inherited property: the offline response
    has no suggestion and reports ["No issues found in offline mode"] in
    its [error] field. *)
Lemma offline_without_match (text : string) :
  (forall word, In word (split_ws text) ->
                own_property commonMisspellings (toLowerCase word) = None
                /\ object_prototype (toLowerCase word) = VUndefined) ->
  handleOfflineMode text
  = {| original := text; suggestions := [];
       error := Some "No issues found in offline mode" |}.
Proof.
  intros Hclean.
  assert (Hnone : filter (fun word => truthy (misspelling word)) (split_ws text) = []).
  { induction (split_ws text) as [| w ws IH]; cbn [filter]; [reflexivity |].
    destruct (Hclean w (or_introl eq_refl)) as [Hown Hinherited].
    unfold misspelling at 1, obj_get. rewrite Hown, Hinherited. cbn [truthy].
    apply IH. intros word Hin. apply Hclean. right. exact Hin. }
  unfold handleOfflineMode, findMisspelledWords. rewrite Hnone. reflexivity.
Qed.

(** C10, where the code departs from it.  The dictionary is an object
    literal and the lookup [commonMisspellings[word.toLowerCase()]] also
    finds what every object inherits.  A text is checked off line, no
    reply for it being cached; one of its tokens is, in lower case, no key
    of the dictionary but the name of an inherited property, as
    [constructor] and [__proto__] are.  The token passes for a misspelling:
    the promise settles with a response that has no [error] and that
    suggests the inherited value, a function or an object, as the
    replacement, where the claim has [error] set to
    ["No issues found in offline mode"] and no suggestion. *)
Theorem C10_inherited_names_pass_for_misspellings
    (env : LLMProcessor.Env) (text : string) (language : option string)
    (t t' : Z) (p : LLMProcessor.t) (word : string) :
  fst (LRUCache.get t ("grammar:" ++ or_default language "en" ++ ":" ++ text)
         (cache (store p))) = None ->
  onLine env t' = false ->
  t + Z.max 0 (Debouncer.delay (requestDebouncer p)
               - (t - Debouncer.lastCall (requestDebouncer p))) <= t' ->
  In word (split_ws text) ->
  own_property commonMisspellings (toLowerCase word) = None ->
  object_prototype (toLowerCase word) <> VUndefined ->
  exists p2 r,
    timer_fires t' (snd (LLMProcessor.checkGrammar env text language t p)) = Some p2
    /\ Debouncer.result (Debouncer.promises (requestDebouncer p)) (requestDebouncer p2)
       = Some (inr (Some r))
    /\ error r = None
    /\ In {| Suggestion.text := object_prototype (toLowerCase word);
             Suggestion.confidence := VNum (Num 7 (-1));
             Suggestion.type := VStr "spelling" |}
          (suggestions r).
Proof.
  intros Hmiss Hoff Hdue Hword Hown Hinherited.
  destruct (offline_check_runs env text language t t' p Hmiss Hoff Hdue)
    as (p2 & _ & Hfires & Hresult & _).
  exists p2, (handleOfflineMode text).
  split; [exact Hfires |]. split; [exact Hresult |].
  assert (Hvalue : misspelling word = object_prototype (toLowerCase word)).
  { unfold misspelling, obj_get. rewrite Hown. reflexivity. }
  assert (Htruthy : truthy (misspelling word) = true).
  { rewrite Hvalue. unfold object_prototype in *.
    destruct (toLowerCase word =? "constructor")%string; [reflexivity |].
    destruct (toLowerCase word =? "__proto__")%string; [reflexivity |].
    match goal with |- context [if ?b then _ else _] => destruct b end;
      [reflexivity | contradiction]. }
  assert (Hin : In {| Suggestion.text := object_prototype (toLowerCase word);
                      Suggestion.confidence := VNum (Num 7 (-1));
                      Suggestion.type := VStr "spelling" |}
                   (suggestions (handleOfflineMode text))).
  { rewrite offline_suggestions. apply in_map_iff. exists word.
    split; [rewrite Hvalue; reflexivity |].
    apply filter_In. split; assumption. }
  split; [| exact Hin].
  unfold handleOfflineMode in *. cbn [error suggestions] in *.
  match goal with |- (if Nat.eqb (length ?l) 0 then _ else _) = None =>
    destruct l; [contradiction | reflexivity] end.
Qed.

Lemma C10_inherited_names_pass_for_misspellings_witness :
  exists p2 r,
    timer_fires Fixtures.noon
      (snd (LLMProcessor.checkGrammar Fixtures.offline "the constructor" None Fixtures.noon
              LLMProcessor.create)) = Some p2
    /\ Debouncer.result 0 (requestDebouncer p2) = Some (inr (Some r))
    /\ error r = None
    /\ In {| Suggestion.text := VFunction "Object";
             Suggestion.confidence := VNum (Num 7 (-1));
             Suggestion.type := VStr "spelling" |}
          (suggestions r).
Proof.
  exact (C10_inherited_names_pass_for_misspellings
           Fixtures.offline "the constructor" None Fixtures.noon Fixtures.noon
           LLMProcessor.create "constructor"
           eq_refl eq_refl ltac:(vm_compute; discriminate)
           ltac:(vm_compute; right; left; reflexivity) eq_refl ltac:(discriminate)).
Defined.

(** The dictionary is an object literal, so the lookup also finds what every
    object inherits: the tokens [constructor] and [__proto__] are reported
    as misspelled, with a function and an object as replacement. *)
Lemma inherited_properties_are_reported :
  handleOfflineMode "the constructor"
  = {| original := "the constructor";
       suggestions := [ {| Suggestion.text := VFunction "Object";
                           Suggestion.confidence := VNum (Num 7 (-1));
                           Suggestion.type := VStr "spelling" |} ];
       error := None |}
  /\ truthy (misspelling "__proto__") = true.
Proof. vm_compute. split; reflexivity. Qed.

(** From the call of [checkGrammar] to the settled promise, offline: a cache
    miss hands out a promise; when the timer fires while offline, the
    promise settles with the offline response and neither the IPC bridge
    nor the cache has been used. *)
Lemma offline_check_end_to_end
    (env : LLMProcessor.Env) (text : string) (language : option string)
    (t t' : Z) (p : LLMProcessor.t) :
  fst (LRUCache.get t ("grammar:" ++ or_default language "en" ++ ":" ++ text)
         (cache (store p))) = None ->
  onLine env t' = false ->
  t + Z.max 0 (Debouncer.delay (requestDebouncer p)
               - (t - Debouncer.lastCall (requestDebouncer p))) <= t' ->
  exists p2,
    fst (LLMProcessor.checkGrammar env text language t p)
    = Promised (Debouncer.promises (requestDebouncer p))
    /\ timer_fires t' (snd (LLMProcessor.checkGrammar env text language t p)) = Some p2
    /\ Debouncer.result (Debouncer.promises (requestDebouncer p)) (requestDebouncer p2)
       = Some (inr (Some (handleOfflineMode text)))
    /\ invokes (store p2) = invokes (store p)
    /\ log (store p2) = log (store p).
Proof.
  intros Hmiss Hoff Hdue.
  unfold LLMProcessor.checkGrammar, submit.
  destruct (LRUCache.get t _ (cache (store p))) as [o c]. cbn in Hmiss. subst o.
  unfold timer_fires, Debouncer.fire. cbn.
  destruct (Z.leb_spec (t + Z.max 0 (Debouncer.delay (requestDebouncer p)
                                     - (t - Debouncer.lastCall (requestDebouncer p)))) t');
    [| lia].
  unfold request_job. rewrite Hoff. cbn.
  eexists. split; [reflexivity |]. split; [reflexivity |].
  unfold Debouncer.result. cbn. rewrite Nat.eqb_refl. repeat split.
Qed.

Lemma offline_check_end_to_end_witness :
  exists p2,
    fst (LLMProcessor.checkGrammar
           {| onLine := fun _ => false; invoke := fun _ _ _ _ => inr None |}
           "teh cat sat" None Fixtures.noon LLMProcessor.create)
    = Promised 0
    /\ timer_fires Fixtures.noon
         (snd (LLMProcessor.checkGrammar
                 {| onLine := fun _ => false; invoke := fun _ _ _ _ => inr None |}
                 "teh cat sat" None Fixtures.noon LLMProcessor.create)) = Some p2
    /\ Debouncer.result 0 (requestDebouncer p2)
       = Some (inr (Some (handleOfflineMode "teh cat sat")))
    /\ invokes (store p2) = 0%nat
    /\ log (store p2) = [].
Proof.
  exact (offline_check_end_to_end
           {| onLine := fun _ => false; invoke := fun _ _ _ _ => inr None |}
           "teh cat sat" None Fixtures.noon Fixtures.noon LLMProcessor.create
           eq_refl eq_refl ltac:(vm_compute; discriminate)).
Defined.

(* ================================================================== *)
(** ** Properties of the debouncer *)
(* ================================================================== *)

Section DebouncerFacts.
Import Debouncer.
Variables W R : Type.
Implicit Types (d : Debouncer.t W R) (w : W) (f : Debouncer.job W R).

Lemma create_well_formed (delay : Z) : well_formed (@Debouncer.create W R delay).
Proof. split; cbn; [intros id r [] | discriminate]. Qed.

Lemma debounce_well_formed now f d :
  well_formed d -> well_formed (snd (debounce now f d)).
Proof.
  intros [Hs Ht]. split; cbn.
  - intros id r Hin. specialize (Hs id r Hin). lia.
  - intros tm [= <-]. cbn. lia.
Qed.

Lemma fire_well_formed now d w d' w' :
  well_formed d -> fire now d w = Some (d', w') -> well_formed d'.
Proof.
  intros [Hs Ht] Hfire. unfold fire in Hfire.
  destruct (timeout d) as [tm |] eqn:Htm; [| discriminate].
  destruct (due tm <=? now); [| discriminate].
  destruct (work tm now w) as [res w1]. injection Hfire as <- <-.
  split; cbn.
  - intros id r [[= <- <-] | Hin]; [apply Ht; reflexivity | apply (Hs id r Hin)].
  - discriminate.
Qed.

Lemma outcome_of_fresh (id : nat) (l : list (nat * (jserror + R))) :
  (forall i r, In (i, r) l -> i <> id) -> outcome_of id l = None.
Proof.
  induction l as [| [i r] rest IH]; cbn; intros H.
  - reflexivity.
  - destruct (Nat.eqb_spec i id) as [-> | Hne].
    + exfalso. apply (H id r); [left; reflexivity | reflexivity].
    + apply IH. intros j s Hin. apply (H j s). right. exact Hin.
Qed.

(** Once a promise has lost its timer nothing can settle it: a later call
    sets a timer for its own promise, and a timer settles its owner only. *)
Lemma abandoned_step (id : nat) (e : event W R) d w d' w' :
  abandoned id d -> step e (d, w) = Some (d', w') -> abandoned id d'.
Proof.
  intros (Hid & Hres & Hown) Hstep. destruct e as [now f | now]; cbn in Hstep.
  - injection Hstep as <- <-. unfold abandoned, result, owns_timer. cbn.
    repeat split; [lia | exact Hres |].
    apply Nat.eqb_neq. lia.
  - unfold fire in Hstep. unfold owns_timer in Hown.
    destruct (timeout d) as [tm |] eqn:Htm; [| discriminate].
    destruct (due tm <=? now); [| discriminate].
    destruct (work tm now w) as [res w1]. injection Hstep as <- <-.
    unfold abandoned, result, owns_timer. cbn.
    rewrite Hown. repeat split; assumption.
Qed.

Lemma abandoned_forever (id : nat) (es : list (event W R)) :
  forall d w d' w',
    abandoned id d -> run es (d, w) = Some (d', w') -> abandoned id d'.
Proof.
  induction es as [| e rest IH]; intros d w d' w' Hab Hrun; cbn in Hrun.
  - injection Hrun as <- <-. exact Hab.
  - destruct (step e (d, w)) as [[d1 w1] |] eqn:Hstep; [| discriminate].
    apply (IH d1 w1 d' w'); [| exact Hrun].
    apply (abandoned_step id e d w d1 w1); assumption.
Qed.

(** A burst leaves one timer, that of its last call; nothing has run. *)
Lemma run_burst (init : list (Z * Debouncer.job W R)) :
  forall d w (now : Z) f,
    run (burst (init ++ [(now, f)])) (d, w)
    = Some ({| timeout := Some {| due := now + Z.max 0 (delay d - (now - lastCall d));
                                  owner := (promises d + length init)%nat;
                                  work := f |};
               lastCall := lastCall d;
               delay := delay d;
               promises := S (promises d + length init);
               settled := settled d;
               invocations := invocations d |}, w).
Proof.
  induction init as [| [t0 f0] rest IH]; intros d w now f.
  - cbn. rewrite Nat.add_0_r. reflexivity.
  - cbn [app burst map run step fst snd length].
    change (map (fun c => Call (fst c) (snd c)) (rest ++ [(now, f)]))
      with (burst (rest ++ [(now, f)])).
    rewrite IH. cbn. rewrite <- Nat.add_succ_comm. reflexivity.
Qed.

End DebouncerFacts.


(** C4, as the code has it.  Take a burst of calls with no timer firing
    between them, ending with a call of [f] at time [now].  The burst
    itself invokes nothing.  Its one timer is due
    [max 0 (delay - (now - lastCall))] after the last call, [lastCall]
    being the time of the previous firing; it cannot fire earlier.  When it
    fires it invokes [f], the last call's function, once, and settles the
    last caller's promise with the result.  After that no timer is left.
    The promises of the superseded callers never settle, whatever happens
    later. *)
Theorem C4_burst_invokes_last_call_once
    (W R : Type) (d : Debouncer.t W R) (w : W)
    (init : list (Z * Debouncer.job W R)) (now : Z) (f : Debouncer.job W R)
    (fireAt : Z) :
  Debouncer.well_formed d ->
  now + Z.max 0 (Debouncer.delay d - (now - Debouncer.lastCall d)) <= fireAt ->
  exists d1 d2,
    Debouncer.run (Debouncer.burst (init ++ [(now, f)])) (d, w) = Some (d1, w)
    /\ Debouncer.invocations d1 = Debouncer.invocations d
    /\ (forall early,
          early < now + Z.max 0 (Debouncer.delay d - (now - Debouncer.lastCall d)) ->
          Debouncer.fire early d1 w = None)
    /\ Debouncer.fire fireAt d1 w = Some (d2, snd (f fireAt w))
    /\ Debouncer.invocations d2 = S (Debouncer.invocations d)
    /\ Debouncer.result (Debouncer.promises d + length init) d2 = Some (fst (f fireAt w))
    /\ (forall later w', Debouncer.fire later d2 w' = None)
    /\ (forall id,
          (Debouncer.promises d <= id < Debouncer.promises d + length init)%nat ->
          forall es d3 w3,
            Debouncer.run es (d2, snd (f fireAt w)) = Some (d3, w3) ->
            Debouncer.result id d3 = None).
Proof.
  intros Hwf Hdue.
  eexists.
  exists {| Debouncer.timeout := None;
            Debouncer.lastCall := fireAt;
            Debouncer.delay := Debouncer.delay d;
            Debouncer.promises := S (Debouncer.promises d + length init);
            Debouncer.settled :=
              ((Debouncer.promises d + length init)%nat, fst (f fireAt w))
                :: Debouncer.settled d;
            Debouncer.invocations := S (Debouncer.invocations d) |}.
  split; [apply run_burst |].
  split; [reflexivity |].
  split.
  { intros early Hearly. unfold Debouncer.fire. cbn.
    destruct (Z.leb_spec (now + Z.max 0 (Debouncer.delay d - (now - Debouncer.lastCall d)))
                early); [lia | reflexivity]. }
  split.
  { unfold Debouncer.fire. cbn.
    destruct (Z.leb_spec (now + Z.max 0 (Debouncer.delay d - (now - Debouncer.lastCall d)))
                fireAt); [| lia].
    destruct (f fireAt w) as [res w1]. reflexivity. }
  split; [reflexivity |].
  split.
  { unfold Debouncer.result. cbn. rewrite Nat.eqb_refl. reflexivity. }
  split; [reflexivity |].
  intros id Hid es d3 w3 Hrun.
  eapply (abandoned_forever W R id es) in Hrun; [apply Hrun |].
  unfold Debouncer.abandoned, Debouncer.result, Debouncer.owns_timer. cbn.
  split; [lia |]. split; [| reflexivity].
  destruct (Nat.eqb_spec (Debouncer.promises d + length init) id) as [Heq | _]; [lia |].
  apply outcome_of_fresh. intros i r Hin. destruct Hwf as [Hs _].
  specialize (Hs i r Hin). lia.
Qed.

Lemma C4_burst_invokes_last_call_once_witness :
  exists d1 d2,
    Debouncer.run
      (Debouncer.burst ([(Fixtures.noon, Fixtures.say "first");
                         (Fixtures.noon + 100, Fixtures.say "second")]
                        ++ [(Fixtures.noon + 200, Fixtures.say "third")]))
      (Debouncer.create 500, tt) = Some (d1, tt)
    /\ Debouncer.fire (Fixtures.noon + 200) d1 tt = Some (d2, tt)
    /\ Debouncer.invocations d2 = 1%nat
    /\ Debouncer.result 2 d2 = Some (inr "third")
    /\ Debouncer.result 0 d2 = None
    /\ Debouncer.result 1 d2 = None.
Proof.
  destruct (C4_burst_invokes_last_call_once unit string (Debouncer.create 500) tt
              [(Fixtures.noon, Fixtures.say "first");
               (Fixtures.noon + 100, Fixtures.say "second")]
              (Fixtures.noon + 200) (Fixtures.say "third") (Fixtures.noon + 200)
              (create_well_formed unit string 500) ltac:(vm_compute; discriminate))
    as (d1 & d2 & Hburst & _ & _ & Hfire & Hcount & Hlast & _ & Hlost).
  exists d1, d2.
  split; [exact Hburst |].
  split; [exact Hfire |].
  split; [exact Hcount |].
  split; [exact Hlast |].
  split.
  - apply (Hlost 0%nat ltac:(cbn; lia) [] d2 tt). reflexivity.
  - apply (Hlost 1%nat ltac:(cbn; lia) [] d2 tt). reflexivity.
Defined.

(** C4, counterexample.  First: three calls in the same millisecond, then
    the timer.  One invocation fires, for the third call, and the third
    promise settles with its result; the first and the second promise have
    not settled and no timer is left that could settle them.  Second: the
    debouncer has not fired before, the three calls come 100 ms apart and
    every timer fires when it is due.  The first call's timer has delay 0
    and fires at once, the third call's fires 500 ms after that: two
    invocations, and the second promise is left unsettled. *)
Lemma C4_counterexample :
  match Debouncer.run
          (Debouncer.burst [(Fixtures.noon, Fixtures.say "first");
                            (Fixtures.noon, Fixtures.say "second");
                            (Fixtures.noon, Fixtures.say "third")]
           ++ [Debouncer.Fire Fixtures.noon])
          (Debouncer.create 500, tt) with
  | Some (d, _) =>
      Debouncer.invocations d = 1%nat
      /\ Debouncer.result 2 d = Some (inr "third")
      /\ Debouncer.result 0 d = None
      /\ Debouncer.result 1 d = None
      /\ Debouncer.timeout d = None
  | None => False
  end
  /\
  match Debouncer.run
          [Debouncer.Call Fixtures.noon (Fixtures.say "first");
           Debouncer.Fire Fixtures.noon;
           Debouncer.Call (Fixtures.noon + 100) (Fixtures.say "second");
           Debouncer.Call (Fixtures.noon + 200) (Fixtures.say "third");
           Debouncer.Fire (Fixtures.noon + 500)]
          (Debouncer.create 500, tt) with
  | Some (d, _) =>
      Debouncer.invocations d = 2%nat
      /\ Debouncer.result 0 d = Some (inr "first")
      /\ Debouncer.result 1 d = None
      /\ Debouncer.result 2 d = Some (inr "third")
  | None => False
  end.
Proof.
  vm_compute. repeat split.
Qed.

(* ================================================================== *)
(** ** Pacing of the debouncer *)
(* ================================================================== *)

Section DebouncerPacing.
Import Debouncer.
Variables W R : Type.
Implicit Types (d : Debouncer.t W R) (w : W).

Lemma run_paced (es : list (event W R)) :
  forall d w d' w',
    paced d -> run es (d, w) = Some (d', w') ->
    spaced (delay d) (lastCall d) (fire_times es)
    /\ invocations d' = (invocations d + length (fire_times es))%nat.
Proof.
  induction es as [| e rest IH]; intros d w d' w' Hp Hrun; cbn in Hrun.
  - injection Hrun as <- <-. cbn. split; [exact I | lia].
  - destruct e as [now f | now]; cbn in Hrun.
    + apply IH in Hrun; [exact Hrun |].
      intros tm [= <-]. cbn. lia.
    + unfold fire in Hrun.
      destruct (timeout d) as [tm |] eqn:Htm; [| discriminate].
      destruct (Z.leb_spec (due tm) now) as [Hdue |]; [| discriminate].
      destruct (work tm now w) as [res w1].
      apply IH in Hrun; [| intros tm' Hnone; discriminate Hnone].
      cbn in Hrun. destruct Hrun as [Hspaced Hcount].
      cbn [fire_times spaced length]. specialize (Hp tm Htm).
      split; [split; [lia | exact Hspaced] | lia].
Qed.

End DebouncerPacing.

(** However calls and timer firings interleave, the debounced function
    never runs twice within [delay] milliseconds: every firing comes at
    least [delay] after the one before it, and every firing is one
    invocation. *)
Theorem debounced_function_runs_at_most_once_per_delay
    (W R : Type) (delay : Z) (es : list (Debouncer.event W R)) (w w' : W)
    (d' : Debouncer.t W R) :
  Debouncer.run es (Debouncer.create delay, w) = Some (d', w') ->
  Debouncer.spaced delay 0 (Debouncer.fire_times es)
  /\ Debouncer.invocations d' = length (Debouncer.fire_times es).
Proof.
  intros Hrun.
  apply (run_paced W R es (Debouncer.create delay) w d' w') in Hrun.
  - exact Hrun.
  - intros tm Hnone. discriminate Hnone.
Qed.

Lemma debounced_function_runs_at_most_once_per_delay_witness :
  Debouncer.spaced 500 0 [Fixtures.noon; Fixtures.noon + 500]
  /\ 2%nat = 2%nat.
Proof.
  exact (debounced_function_runs_at_most_once_per_delay unit string 500
           [Debouncer.Call Fixtures.noon (Fixtures.say "first");
            Debouncer.Fire Fixtures.noon;
            Debouncer.Call (Fixtures.noon + 100) (Fixtures.say "second");
            Debouncer.Call (Fixtures.noon + 200) (Fixtures.say "third");
            Debouncer.Fire (Fixtures.noon + 500)]
           tt tt _ eq_refl).
Defined.

(* ================================================================== *)
(** ** The renderer's processor: cache and batches *)
(* ================================================================== *)

Section ProcessorFacts.
Variable env : LLMProcessor.Env.
Local Abbreviation debouncerOf := LLMProcessor.requestDebouncer.
Local Abbreviation cacheOf p := (LLMProcessor.cache (LLMProcessor.store p)).

(** A call of [checkGrammar] or [rephraseText] either returns the cached
    response and leaves the debouncer alone, or hands out the debouncer's
    next promise. *)
Lemma submit_cases (c : LLMProcessor.Channel) (cacheKey text : string)
    (opt : option string) (now : Z) (p : LLMProcessor.t) :
  (exists r,
      fst (LLMProcessor.submit env c cacheKey text opt now p) = LLMProcessor.Returned r
      /\ fst (LRUCache.get now cacheKey (cacheOf p)) = Some r
      /\ debouncerOf (snd (LLMProcessor.submit env c cacheKey text opt now p))
         = debouncerOf p)
  \/ (fst (LLMProcessor.submit env c cacheKey text opt now p)
      = LLMProcessor.Promised (Debouncer.promises (debouncerOf p))
      /\ fst (LRUCache.get now cacheKey (cacheOf p)) = None
      /\ debouncerOf (snd (LLMProcessor.submit env c cacheKey text opt now p))
         = snd (Debouncer.debounce now (LLMProcessor.request_job env c cacheKey text opt)
                  (debouncerOf p))).
Proof.
  unfold LLMProcessor.submit.
  destruct (LRUCache.get now cacheKey (cacheOf p)) as [[r |] c'].
  - left. exists r. repeat split.
  - right. repeat split.
Qed.

(** What one call does to the debouncer. *)
Lemma batchCall_cases (operation : string) (options : option LLMProcessor.BatchOptions)
    (text : string) (now : Z) (p : LLMProcessor.t) :
  (exists r,
      fst (LLMProcessor.batchCall env operation options text now p) = LLMProcessor.Returned r
      /\ debouncerOf (snd (LLMProcessor.batchCall env operation options text now p))
         = debouncerOf p)
  \/ (exists f,
        fst (LLMProcessor.batchCall env operation options text now p)
        = LLMProcessor.Promised (Debouncer.promises (debouncerOf p))
        /\ debouncerOf (snd (LLMProcessor.batchCall env operation options text now p))
           = snd (Debouncer.debounce now f (debouncerOf p))).
Proof.
  unfold LLMProcessor.batchCall, LLMProcessor.checkGrammar, LLMProcessor.rephraseText.
  destruct (operation =? "grammar-check")%string;
    match goal with
    | |- context [LLMProcessor.submit env ?c ?k ?t ?o now p] =>
        destruct (submit_cases c k t o now p) as [(r & Ha & _ & Hd) | (Ha & _ & Hd)]
    end;
    [left; exists r; split; assumption | right; eexists; split; eassumption
    | left; exists r; split; assumption | right; eexists; split; eassumption].
Qed.

Lemma debounce_supersedes (a : nat) (now : Z)
    (f : Debouncer.job LLMProcessor.Store (option LLMResponse))
    (d : Debouncer.t LLMProcessor.Store (option LLMResponse)) :
  Debouncer.unsettled a d -> Debouncer.abandoned a (snd (Debouncer.debounce now f d)).
Proof.
  intros [Hlt Hres]. unfold Debouncer.abandoned, Debouncer.result, Debouncer.owns_timer.
  cbn. split; [lia |]. split; [exact Hres |]. apply Nat.eqb_neq. lia.
Qed.

Lemma debounce_unsettled (a : nat) (now : Z)
    (f : Debouncer.job LLMProcessor.Store (option LLMResponse))
    (d : Debouncer.t LLMProcessor.Store (option LLMResponse)) :
  Debouncer.unsettled a d -> Debouncer.unsettled a (snd (Debouncer.debounce now f d)).
Proof.
  intros [Hlt Hres]. unfold Debouncer.unsettled, Debouncer.result. cbn.
  split; [lia | exact Hres].
Qed.

Lemma debounce_abandoned (a : nat) (now : Z)
    (f : Debouncer.job LLMProcessor.Store (option LLMResponse))
    (d : Debouncer.t LLMProcessor.Store (option LLMResponse)) :
  Debouncer.abandoned a d -> Debouncer.abandoned a (snd (Debouncer.debounce now f d)).
Proof. intros (Hlt & Hres & _). apply debounce_supersedes. split; assumption. Qed.

Lemma fresh_promise_unsettled (now : Z)
    (f : Debouncer.job LLMProcessor.Store (option LLMResponse))
    (d : Debouncer.t LLMProcessor.Store (option LLMResponse)) :
  Debouncer.well_formed d ->
  Debouncer.unsettled (Debouncer.promises d) (snd (Debouncer.debounce now f d)).
Proof.
  intros [Hs _]. unfold Debouncer.unsettled, Debouncer.result. cbn. split; [lia |].
  apply outcome_of_fresh. intros i r Hin. specialize (Hs i r Hin). lia.
Qed.

(** A batch settles nothing, and a promise that was pending when the batch
    began is abandoned as soon as the batch hands out a promise of its
    own. *)
Lemma batch_effect (operation : string) (options : option LLMProcessor.BatchOptions)
    (clock : nat -> Z) (texts : list string) :
  forall (i : nat) (p : LLMProcessor.t),
    let answers := fst (LLMProcessor.processBatchFrom env texts operation options clock i p) in
    let p1 := snd (LLMProcessor.processBatchFrom env texts operation options clock i p) in
    (Debouncer.well_formed (debouncerOf p) -> Debouncer.well_formed (debouncerOf p1))
    /\ (forall a, Debouncer.unsettled a (debouncerOf p) -> Debouncer.unsettled a (debouncerOf p1))
    /\ (forall a, Debouncer.abandoned a (debouncerOf p) ->
                  Debouncer.abandoned a (debouncerOf p1))
    /\ (forall a b, Debouncer.unsettled a (debouncerOf p) ->
                    In (LLMProcessor.Promised b) answers ->
                    Debouncer.abandoned a (debouncerOf p1)).
Proof.
  induction texts as [| text rest IH]; intros i p; cbn zeta.
  - cbn. split; [tauto |]. split; [tauto |]. split; [tauto |]. intros a b _ [].
  - cbn [LLMProcessor.processBatchFrom].
    destruct (LLMProcessor.batchCall env operation options text (clock i) p)
      as [a0 p0] eqn:Hcall.
    specialize (IH (S i) p0). cbn zeta in IH.
    destruct (LLMProcessor.processBatchFrom env rest operation options clock (S i) p0)
      as [others p2].
    cbn [fst snd] in *. destruct IH as (IHwf & IHun & IHab & IHsup).
    pose proof (batchCall_cases operation options text (clock i) p) as Hcases.
    rewrite Hcall in Hcases. cbn [fst snd] in Hcases.
    destruct Hcases as [(r & -> & Hd) | (f & -> & Hd)].
    + rewrite Hd in *. split; [exact IHwf |]. split; [exact IHun |]. split; [exact IHab |].
      intros a b Hun [Hhead | Hin]; [discriminate Hhead |].
      apply (IHsup a b Hun Hin).
    + rewrite Hd in *. split.
      { intros Hwf. apply IHwf, debounce_well_formed, Hwf. }
      split.
      { intros a Hun. apply IHun, debounce_unsettled, Hun. }
      split.
      { intros a Hab. apply IHab, debounce_abandoned, Hab. }
      intros a b Hun _. apply IHab, debounce_supersedes, Hun.
Qed.

(** Two promises of one batch: the earlier one is abandoned. *)
Lemma batch_abandons_all_but_last (operation : string)
    (options : option LLMProcessor.BatchOptions) (clock : nat -> Z) (texts : list string) :
  forall (k : nat) (p : LLMProcessor.t) (i j a b : nat),
    Debouncer.well_formed (debouncerOf p) ->
    nth_error (fst (LLMProcessor.processBatchFrom env texts operation options clock k p)) i
    = Some (LLMProcessor.Promised a) ->
    nth_error (fst (LLMProcessor.processBatchFrom env texts operation options clock k p)) j
    = Some (LLMProcessor.Promised b) ->
    (i < j)%nat ->
    Debouncer.abandoned a
      (debouncerOf (snd (LLMProcessor.processBatchFrom env texts operation options clock k p))).
Proof.
  induction texts as [| text rest IH]; intros k p i j a b Hwf Hi Hj Hlt.
  - destruct i; discriminate Hi.
  - cbn [LLMProcessor.processBatchFrom] in *.
    destruct (LLMProcessor.batchCall env operation options text (clock k) p)
      as [a0 p0] eqn:Hcall.
    pose proof (batch_effect operation options clock rest (S k) p0) as Hrest.
    cbn zeta in Hrest.
    specialize (IH (S k) p0).
    destruct (LLMProcessor.processBatchFrom env rest operation options clock (S k) p0)
      as [others p2].
    cbn [fst snd] in *. destruct Hrest as (_ & _ & _ & Hsup).
    pose proof (batchCall_cases operation options text (clock k) p) as Hcases.
    rewrite Hcall in Hcases. cbn [fst snd] in Hcases.
    destruct j as [| j']; [lia |]. cbn [nth_error] in Hj.
    destruct i as [| i'].
    + cbn [nth_error] in Hi. injection Hi as ->.
      destruct Hcases as [(r & Hret & _) | (f & Hprom & Hd)]; [discriminate Hret |].
      injection Hprom as ->.
      apply (Hsup _ b); [| apply (nth_error_In _ _ Hj)].
      rewrite Hd. apply fresh_promise_unsettled, Hwf.
    + cbn [nth_error] in Hi. apply (IH i' j' a b); [| exact Hi | exact Hj | lia].
      destruct Hcases as [(r & _ & ->) | (f & _ & ->)];
        [exact Hwf | apply debounce_well_formed, Hwf].
Qed.

(** Nothing that happens to the processor later settles an abandoned
    promise. *)
Lemma acts_keep_abandoned (a : nat) (later : list LLMProcessor.action) :
  forall p p',
    Debouncer.abandoned a (debouncerOf p) ->
    LLMProcessor.acts env later p = Some p' ->
    Debouncer.abandoned a (debouncerOf p').
Proof.
  induction later as [| act rest IH]; intros p p' Hab Hrun; cbn in Hrun.
  - injection Hrun as <-. exact Hab.
  - destruct (LLMProcessor.act env act p) as [p1 |] eqn:Hact; [| discriminate].
    apply (IH p1 p'); [| exact Hrun]. clear IH Hrun.
    destruct act as [text language now | text style now | now]; cbn in Hact.
    + injection Hact as <-. unfold LLMProcessor.checkGrammar.
      match goal with
      | |- context [LLMProcessor.submit env ?c ?k ?t ?o now p] =>
          destruct (submit_cases c k t o now p) as [(r & _ & _ & ->) | (_ & _ & ->)]
      end; [exact Hab | apply debounce_abandoned, Hab].
    + injection Hact as <-. unfold LLMProcessor.rephraseText.
      match goal with
      | |- context [LLMProcessor.submit env ?c ?k ?t ?o now p] =>
          destruct (submit_cases c k t o now p) as [(r & _ & _ & ->) | (_ & _ & ->)]
      end; [exact Hab | apply debounce_abandoned, Hab].
    + unfold LLMProcessor.timer_fires in Hact.
      destruct (Debouncer.fire now (debouncerOf p) (LLMProcessor.store p))
        as [[d s] |] eqn:Hfire; [| discriminate].
      injection Hact as <-. cbn.
      apply (abandoned_step _ _ a (Debouncer.Fire now) (debouncerOf p) (LLMProcessor.store p)
               d s Hab Hfire).
Qed.

End ProcessorFacts.

(** A processor awaiting the promises of a batch: when two texts of the
    batch were not in the cache, the promise of the earlier one never
    settles, whatever is called and whichever timers fire afterwards, so
    the batch is never fulfilled: [Promise.all] does not resolve. *)
Theorem batch_with_two_uncached_texts_is_never_fulfilled
    (env env' : LLMProcessor.Env) (texts : list string) (operation : string)
    (options : option LLMProcessor.BatchOptions) (clock : nat -> Z) (p : LLMProcessor.t)
    (i j a b : nat) (later : list LLMProcessor.action) (p' : LLMProcessor.t) :
  Debouncer.well_formed (LLMProcessor.requestDebouncer p) ->
  nth_error (fst (LLMProcessor.processBatch env texts operation options clock p)) i
  = Some (LLMProcessor.Promised a) ->
  nth_error (fst (LLMProcessor.processBatch env texts operation options clock p)) j
  = Some (LLMProcessor.Promised b) ->
  (i < j)%nat ->
  LLMProcessor.acts env' later
    (snd (LLMProcessor.processBatch env texts operation options clock p)) = Some p' ->
  Debouncer.result a (LLMProcessor.requestDebouncer p') = None
  /\ LLMProcessor.allFulfilled
       (fst (LLMProcessor.processBatch env texts operation options clock p)) p' = false.
Proof.
  intros Hwf Hi Hj Hlt Hlater.
  pose proof (batch_abandons_all_but_last env operation options clock texts 0 p i j a b
                Hwf Hi Hj Hlt) as Hab.
  pose proof (acts_keep_abandoned env' a later _ p' Hab Hlater) as (_ & Hres & _).
  split; [exact Hres |].
  destruct (LLMProcessor.allFulfilled _ p') eqn:Hall; [| reflexivity].
  unfold LLMProcessor.allFulfilled in Hall. rewrite forallb_forall in Hall.
  specialize (Hall _ (nth_error_In _ _ Hi)). cbn in Hall. rewrite Hres in Hall.
  discriminate Hall.
Qed.

Lemma batch_with_two_uncached_texts_is_never_fulfilled_witness :
  LLMProcessor.allFulfilled
    (fst (LLMProcessor.processBatch Fixtures.answering
            ["He go to school"; "She have a cat"] "grammar-check" None
            (fun _ => Fixtures.noon) LLMProcessor.create))
    (match LLMProcessor.acts Fixtures.answering [LLMProcessor.TimerFires Fixtures.noon]
             (snd (LLMProcessor.processBatch Fixtures.answering
                     ["He go to school"; "She have a cat"] "grammar-check" None
                     (fun _ => Fixtures.noon) LLMProcessor.create)) with
     | Some p' => p'
     | None => LLMProcessor.create
     end) = false.
Proof.
  refine (proj2 (batch_with_two_uncached_texts_is_never_fulfilled
                   Fixtures.answering Fixtures.answering
                   ["He go to school"; "She have a cat"] "grammar-check" None
                   (fun _ => Fixtures.noon) LLMProcessor.create 0 1 0 1
                   [LLMProcessor.TimerFires Fixtures.noon] _
                   (create_well_formed _ _ 500) eq_refl eq_refl (le_n 1) _)).
  vm_compute. reflexivity.
Defined.

(** *** A repeated request in the renderer *)

Lemma get_ttl {V : Type} (now : Z) (k : string) (c : LRUCache.t V) :
  LRUCache.ttl (snd (LRUCache.get now k c)) = LRUCache.ttl c.
Proof.
  unfold LRUCache.get. destruct (LRUCache.lookup k (LRUCache.entries c)) as [e |];
    [destruct (LRUCache.is_stale now c e) |]; reflexivity.
Qed.

(** An entry just set is found for as long as it is fresh. *)
Lemma get_after_set {V : Type} (setAt now : Z) (k : string) (v : V) (c : LRUCache.t V) :
  (0 < LRUCache.max c)%nat ->
  now - setAt <= LRUCache.ttl c ->
  fst (LRUCache.get now k (LRUCache.set setAt k v c)) = Some v.
Proof.
  intros Hmax Hfresh.
  rewrite (get_fresh V now k (LRUCache.set setAt k v c) _ (set_lookup V setAt k v c Hmax)).
  - reflexivity.
  - unfold LRUCache.is_stale. cbn. rewrite Z.gtb_ltb. apply Z.ltb_ge. exact Hfresh.
Qed.

(** The round trip behind [checkGrammar] and [rephraseText]: a request
    that misses the cache, its timer firing on line, a reply without error
    from the main process, and the same request again. *)
Lemma submit_round_trip (env env' : LLMProcessor.Env) (c : LLMProcessor.Channel)
    (cacheKey text : string) (opt : option string) (now fireAt again : Z)
    (p : LLMProcessor.t) (r : LLMResponse) :
  fst (LRUCache.get now cacheKey (LLMProcessor.cache (LLMProcessor.store p))) = None ->
  (0 < LRUCache.max (LLMProcessor.cache (LLMProcessor.store p)))%nat ->
  now + Z.max 0 (Debouncer.delay (LLMProcessor.requestDebouncer p)
                 - (now - Debouncer.lastCall (LLMProcessor.requestDebouncer p))) <= fireAt ->
  LLMProcessor.onLine env fireAt = true ->
  LLMProcessor.invoke env (LLMProcessor.invokes (LLMProcessor.store p)) c text opt
  = inr (Some r) ->
  LLMProcessor.no_error r = true ->
  again - fireAt <= LRUCache.ttl (LLMProcessor.cache (LLMProcessor.store p)) ->
  exists p2,
    fst (LLMProcessor.submit env c cacheKey text opt now p)
    = LLMProcessor.Promised (Debouncer.promises (LLMProcessor.requestDebouncer p))
    /\ LLMProcessor.timer_fires fireAt (snd (LLMProcessor.submit env c cacheKey text opt now p))
       = Some p2
    /\ Debouncer.result (Debouncer.promises (LLMProcessor.requestDebouncer p))
         (LLMProcessor.requestDebouncer p2) = Some (inr (Some r))
    /\ LLMProcessor.invokes (LLMProcessor.store p2)
       = S (LLMProcessor.invokes (LLMProcessor.store p))
    /\ fst (LLMProcessor.submit env' c cacheKey text opt again p2) = LLMProcessor.Returned r
    /\ LLMProcessor.requestDebouncer (snd (LLMProcessor.submit env' c cacheKey text opt again p2))
       = LLMProcessor.requestDebouncer p2
    /\ LLMProcessor.invokes
         (LLMProcessor.store (snd (LLMProcessor.submit env' c cacheKey text opt again p2)))
       = LLMProcessor.invokes (LLMProcessor.store p2).
Proof.
  intros Hmiss Hmax Hdue Honline Hreply Hclean Hfresh.
  pose proof (get_max now cacheKey (LLMProcessor.cache (LLMProcessor.store p))) as Hmax1.
  pose proof (get_ttl now cacheKey (LLMProcessor.cache (LLMProcessor.store p))) as Httl1.
  unfold LLMProcessor.submit at 1 2.
  destruct (LRUCache.get now cacheKey (LLMProcessor.cache (LLMProcessor.store p)))
    as [o c1]. cbn [fst snd] in Hmiss, Hmax1, Httl1. subst o.
  cbn [fst snd Debouncer.debounce]. unfold LLMProcessor.timer_fires, Debouncer.fire.
  cbn [LLMProcessor.requestDebouncer LLMProcessor.store Debouncer.timeout Debouncer.due
       Debouncer.work Debouncer.owner].
  destruct (Z.leb_spec
              (now + Z.max 0 (Debouncer.delay (LLMProcessor.requestDebouncer p)
                              - (now - Debouncer.lastCall (LLMProcessor.requestDebouncer p))))
              fireAt) as [_ | Hlate]; [| lia].
  unfold LLMProcessor.request_job.
  cbn [LLMProcessor.cache LLMProcessor.invokes LLMProcessor.log].
  rewrite Honline, Hreply, Hclean. cbn [negb].
  eexists. split; [reflexivity |]. split; [reflexivity |].
  split.
  { unfold Debouncer.result. cbn. rewrite Nat.eqb_refl. reflexivity. }
  split; [reflexivity |].
  assert (Hhit : fst (LRUCache.get again cacheKey (LRUCache.set fireAt cacheKey r c1)) = Some r).
  { apply get_after_set; [rewrite Hmax1; exact Hmax | rewrite Httl1; exact Hfresh]. }
  unfold LLMProcessor.submit.
  cbn [LLMProcessor.cache LLMProcessor.store LLMProcessor.invokes LLMProcessor.log
       LLMProcessor.requestDebouncer].
  destruct (LRUCache.get again cacheKey (LRUCache.set fireAt cacheKey r c1)) as [o c2].
  cbn [fst] in Hhit. subst o. repeat split.
Qed.

(** A grammar check (or a rephrasing) that is not in the renderer's cache
    is promised by the debouncer; when its timer fires on line and the
    main process replies with a response without error, the promise
    settles with that response after one IPC call, and the same request
    made again within the hour is answered at once from the cache: no
    promise, no timer and no IPC call. *)
Theorem renderer_answers_a_repeat_from_its_cache :
  (forall (env env' : LLMProcessor.Env) (text : string) (language : option string)
          (now fireAt again : Z) (p : LLMProcessor.t) (r : LLMResponse),
      fst (LRUCache.get now ("grammar:" ++ or_default language "en" ++ ":" ++ text)
             (LLMProcessor.cache (LLMProcessor.store p))) = None ->
      (0 < LRUCache.max (LLMProcessor.cache (LLMProcessor.store p)))%nat ->
      now + Z.max 0 (Debouncer.delay (LLMProcessor.requestDebouncer p)
                     - (now - Debouncer.lastCall (LLMProcessor.requestDebouncer p)))
      <= fireAt ->
      LLMProcessor.onLine env fireAt = true ->
      LLMProcessor.invoke env (LLMProcessor.invokes (LLMProcessor.store p))
        LLMProcessor.AI_CHECK_GRAMMAR text language = inr (Some r) ->
      LLMProcessor.no_error r = true ->
      again - fireAt <= LRUCache.ttl (LLMProcessor.cache (LLMProcessor.store p)) ->
      exists p2,
        fst (LLMProcessor.checkGrammar env text language now p)
        = LLMProcessor.Promised (Debouncer.promises (LLMProcessor.requestDebouncer p))
        /\ LLMProcessor.timer_fires fireAt
             (snd (LLMProcessor.checkGrammar env text language now p)) = Some p2
        /\ Debouncer.result (Debouncer.promises (LLMProcessor.requestDebouncer p))
             (LLMProcessor.requestDebouncer p2) = Some (inr (Some r))
        /\ LLMProcessor.invokes (LLMProcessor.store p2)
           = S (LLMProcessor.invokes (LLMProcessor.store p))
        /\ fst (LLMProcessor.checkGrammar env' text language again p2)
           = LLMProcessor.Returned r
        /\ LLMProcessor.requestDebouncer
             (snd (LLMProcessor.checkGrammar env' text language again p2))
           = LLMProcessor.requestDebouncer p2
        /\ LLMProcessor.invokes
             (LLMProcessor.store (snd (LLMProcessor.checkGrammar env' text language again p2)))
           = LLMProcessor.invokes (LLMProcessor.store p2))
  /\ (forall (env env' : LLMProcessor.Env) (text : string) (style : option string)
             (now fireAt again : Z) (p : LLMProcessor.t) (r : LLMResponse),
        fst (LRUCache.get now ("rephrase:" ++ or_default style "formal" ++ ":" ++ text)
               (LLMProcessor.cache (LLMProcessor.store p))) = None ->
        (0 < LRUCache.max (LLMProcessor.cache (LLMProcessor.store p)))%nat ->
        now + Z.max 0 (Debouncer.delay (LLMProcessor.requestDebouncer p)
                       - (now - Debouncer.lastCall (LLMProcessor.requestDebouncer p)))
        <= fireAt ->
        LLMProcessor.onLine env fireAt = true ->
        LLMProcessor.invoke env (LLMProcessor.invokes (LLMProcessor.store p))
          LLMProcessor.AI_REPHRASE_TEXT text style = inr (Some r) ->
        LLMProcessor.no_error r = true ->
        again - fireAt <= LRUCache.ttl (LLMProcessor.cache (LLMProcessor.store p)) ->
        exists p2,
          fst (LLMProcessor.rephraseText env text style now p)
          = LLMProcessor.Promised (Debouncer.promises (LLMProcessor.requestDebouncer p))
          /\ LLMProcessor.timer_fires fireAt
               (snd (LLMProcessor.rephraseText env text style now p)) = Some p2
          /\ Debouncer.result (Debouncer.promises (LLMProcessor.requestDebouncer p))
               (LLMProcessor.requestDebouncer p2) = Some (inr (Some r))
          /\ LLMProcessor.invokes (LLMProcessor.store p2)
             = S (LLMProcessor.invokes (LLMProcessor.store p))
          /\ fst (LLMProcessor.rephraseText env' text style again p2)
             = LLMProcessor.Returned r
          /\ LLMProcessor.requestDebouncer
               (snd (LLMProcessor.rephraseText env' text style again p2))
             = LLMProcessor.requestDebouncer p2
          /\ LLMProcessor.invokes
               (LLMProcessor.store (snd (LLMProcessor.rephraseText env' text style again p2)))
             = LLMProcessor.invokes (LLMProcessor.store p2)).
Proof.
  split.
  - intros env env' text language now fireAt again p r.
    exact (submit_round_trip env env' LLMProcessor.AI_CHECK_GRAMMAR _ text language
             now fireAt again p r).
  - intros env env' text style now fireAt again p r.
    exact (submit_round_trip env env' LLMProcessor.AI_REPHRASE_TEXT _ text style
             now fireAt again p r).
Qed.

Lemma renderer_answers_a_repeat_from_its_cache_witness :
  exists p2,
    fst (LLMProcessor.checkGrammar Fixtures.answering "He go to school" None Fixtures.noon
           LLMProcessor.create) = LLMProcessor.Promised 0
    /\ LLMProcessor.timer_fires Fixtures.noon
         (snd (LLMProcessor.checkGrammar Fixtures.answering "He go to school" None
                 Fixtures.noon LLMProcessor.create)) = Some p2
    /\ Debouncer.result 0 (LLMProcessor.requestDebouncer p2)
       = Some (inr (Some {| original := "He go to school"; suggestions := [];
                            error := None |}))
    /\ LLMProcessor.invokes (LLMProcessor.store p2) = 1%nat
    /\ fst (LLMProcessor.checkGrammar Fixtures.answering "He go to school" None
              (Fixtures.noon + 60000) p2)
       = LLMProcessor.Returned {| original := "He go to school"; suggestions := [];
                                  error := None |}
    /\ LLMProcessor.requestDebouncer
         (snd (LLMProcessor.checkGrammar Fixtures.answering "He go to school" None
                 (Fixtures.noon + 60000) p2))
       = LLMProcessor.requestDebouncer p2
    /\ LLMProcessor.invokes
         (LLMProcessor.store
            (snd (LLMProcessor.checkGrammar Fixtures.answering "He go to school" None
                    (Fixtures.noon + 60000) p2)))
       = LLMProcessor.invokes (LLMProcessor.store p2).
Proof.
  exact (proj1 renderer_answers_a_repeat_from_its_cache
           Fixtures.answering Fixtures.answering "He go to school" None
           Fixtures.noon Fixtures.noon (Fixtures.noon + 60000) LLMProcessor.create
           {| original := "He go to school"; suggestions := []; error := None |}
           eq_refl (Nat.lt_0_succ 99) ltac:(vm_compute; discriminate) eq_refl eq_refl eq_refl
           ltac:(vm_compute; discriminate)).
Defined.

(* ================================================================== *)
(** ** Properties of the IPC bridge *)
(* ================================================================== *)

Section BridgeFacts.
Import IPCBridge.

Lemma validateData_object (fields : list (string * jsval)) :
  validateData (VObj fields)
  = negb (hasOwn fields "__proto__" || hasOwn fields "constructor") && eachField fields.
Proof. reflexivity. Qed.

Lemma validateData_array (l : list jsval) : validateData (VArr l) = eachElement l.
Proof. reflexivity. Qed.

Lemma eachField_cons (k : string) (v : jsval) (rest : list (string * jsval)) :
  eachField ((k, v) :: rest) = (hasOwn rest k || validateData v) && eachField rest.
Proof. reflexivity. Qed.

Lemma eachElement_cons (v : jsval) (rest : list jsval) :
  eachElement (v :: rest) = validateData v && eachElement rest.
Proof. reflexivity. Qed.

(** The value a property has is that of one of the fields. *)
Lemma own_property_in (fields : list (string * jsval)) (k : string) (x : jsval) :
  own_property fields k = Some x -> In (k, x) fields.
Proof.
  induction fields as [| [k' v] rest IH]; cbn; [discriminate |].
  destruct (own_property rest k) as [y |].
  - intros [= ->]. right. apply IH. reflexivity.
  - destruct (String.eqb_spec k' k) as [-> | _]; [| discriminate].
    intros [= ->]. left. reflexivity.
Qed.

(** The loop has checked the value of every own property. *)
Lemma eachField_checks (fields : list (string * jsval)) (k : string) (x : jsval) :
  eachField fields = true -> own_property fields k = Some x -> validateData x = true.
Proof.
  induction fields as [| [k' v] rest IH]; [discriminate 2 |].
  rewrite eachField_cons. intros Hall Hown. apply andb_true_iff in Hall as [Hhere Hrest].
  cbn in Hown. destruct (own_property rest k) as [y |] eqn:Hlater.
  - injection Hown as ->. apply IH; [exact Hrest | reflexivity].
  - destruct (String.eqb_spec k' k) as [-> | _]; [| discriminate].
    injection Hown as ->. unfold hasOwn in Hhere. rewrite Hlater in Hhere. exact Hhere.
Qed.

Lemma eachElement_checks (l : list jsval) (i : nat) (x : jsval) :
  eachElement l = true -> nth_error l i = Some x -> validateData x = true.
Proof.
  revert i. induction l as [| v rest IH]; intros i Hall Hnth; [destruct i; discriminate |].
  rewrite eachElement_cons in Hall. apply andb_true_iff in Hall as [Hhere Hrest].
  destruct i as [| i]; cbn in Hnth.
  - injection Hnth as ->. exact Hhere.
  - apply (IH i Hrest Hnth).
Qed.

(** A field that no later field overrides is the property's value, also
    behind any fields put in front. *)
Lemma own_property_app (pre l : list (string * jsval)) (k : string) (x : jsval) :
  own_property l k = Some x -> own_property (pre ++ l)%list k = Some x.
Proof.
  intros Hown. induction pre as [| [k' v] pre IH]; [exact Hown |].
  cbn. rewrite IH. reflexivity.
Qed.

Lemma unpolluted_is_accepted (data : jsval) :
  (forall path v, walk data path = Some v -> polluted v = false) ->
  validateData data = true.
Proof.
  induction data as [| | b | n | s | l IH | fields IH | name |] using value_ind;
    intros Hclean; try reflexivity.
  - rewrite validateData_array.
    assert (Hsuffix : forall pre rest, l = (pre ++ rest)%list -> eachElement rest = true).
    { intros pre rest. revert pre. induction rest as [| x rest IHrest]; intros pre Heq;
        [reflexivity |].
      rewrite eachElement_cons. apply andb_true_iff. split.
      - rewrite Forall_forall in IH. apply IH.
        + rewrite Heq. apply in_or_app. right. left. reflexivity.
        + intros path v Hwalk. apply (Hclean (Index (length pre) :: path) v).
          cbn. rewrite Heq, nth_error_app2, Nat.sub_diag by lia. exact Hwalk.
      - apply (IHrest (pre ++ [x])%list). rewrite <- app_assoc. exact Heq. }
    apply (Hsuffix [] l). reflexivity.
  - rewrite validateData_object. apply andb_true_iff. split.
    + apply negb_true_iff. exact (Hclean [] (VObj fields) eq_refl).
    + assert (Hsuffix : forall pre rest, fields = (pre ++ rest)%list -> eachField rest = true).
      { intros pre rest. revert pre. induction rest as [| [k x] rest IHrest]; intros pre Heq;
          [reflexivity |].
        rewrite eachField_cons. apply andb_true_iff. split.
        - unfold hasOwn. destruct (own_property rest k) as [y |] eqn:Hlater;
            [reflexivity |].
          cbn [orb]. rewrite Forall_forall in IH. apply (IH (k, x)).
          + rewrite Heq. apply in_or_app. right. left. reflexivity.
          + intros path v Hwalk. apply (Hclean (Key k :: path) v).
            cbn. rewrite Heq, (own_property_app pre ((k, x) :: rest) k x); [exact Hwalk |].
            cbn. rewrite Hlater, String.eqb_refl. reflexivity.
        - apply (IHrest (pre ++ [(k, x)])%list). rewrite <- app_assoc. exact Heq. }
      apply (Hsuffix [] fields). reflexivity.
  - exfalso. specialize (Hclean [] VObjectProto eq_refl). discriminate Hclean.
Qed.

Lemma allowed_channel (channel : string) :
  validateChannel channel = true -> In channel IpcChannels.values.
Proof.
  unfold validateChannel. intros H. apply andb_true_iff in H as [_ H].
  apply existsb_exists in H as (c & Hin & Heq). apply String.eqb_eq in Heq. subst c.
  exact Hin.
Qed.

End BridgeFacts.

(** [validateData] accepts a value exactly when no object that can be
    reached from it, through own properties and array elements, owns a
    property named [__proto__] or [constructor]: the check goes all the
    way down. *)
Theorem validateData_accepts_exactly_unpolluted_data (data : Js.jsval) :
  IPCBridge.validateData data = true
  <-> (forall path v, IPCBridge.walk data path = Some v -> IPCBridge.polluted v = false).
Proof.
  split; [| apply unpolluted_is_accepted].
  induction data as [| | b | n | s | l IH | fields IH | name |] using value_ind;
    intros Hok path v Hwalk;
    try (destruct path as [| [k | i] rest]; cbn in Hwalk;
         [injection Hwalk as <-; reflexivity | discriminate | discriminate]).
  - destruct path as [| [k | i] rest]; cbn in Hwalk;
      [injection Hwalk as <-; reflexivity | discriminate |].
    destruct (nth_error l i) as [x |] eqn:Hnth; [| discriminate].
    rewrite Forall_forall in IH.
    apply (IH x (nth_error_In _ _ Hnth)) with (path := rest); [| exact Hwalk].
    apply (eachElement_checks l i x); [exact Hok | exact Hnth].
  - rewrite validateData_object in Hok. apply andb_true_iff in Hok as [Hclean Hall].
    destruct path as [| [k | i] rest]; cbn in Hwalk;
      [injection Hwalk as <-; cbn; apply negb_true_iff; exact Hclean | | discriminate].
    destruct (own_property fields k) as [x |] eqn:Hown; [| discriminate].
    rewrite Forall_forall in IH.
    apply (IH (k, x) (own_property_in _ _ _ Hown)) with (path := rest); [| exact Hwalk].
    apply (eachField_checks fields k x); assumption.
  - discriminate Hok.
Qed.


(** What [invoke] does with the object the preload script exposes.  It
    never fails to answer.  When it calls a method, the channel is one of
    [IpcChannels], the data is undefined or passes [validateData], the
    method gets the data unchanged, and the method talks to the main
    process on the very channel that was asked for.  When it rejects, the
    channel is not allowed, or the data does not pass, or the channel is
    one of [window:focused] and [window:blurred], for which the preload
    script has no method. *)
Theorem invoke_reaches_the_channel_or_rejects (channel : string) (data : Js.jsval) :
  match IPCBridge.invoke (Some Preload.electronAPI) channel data with
  | Some (inr call) =>
      IPCBridge.validateChannel channel = true
      /\ (data = Js.VUndefined \/ IPCBridge.validateData data = true)
      /\ IPCBridge.argument call = data
      /\ exists action,
           Preload.call (IPCBridge.method call) data = Some action
           /\ Preload.channelOf action = channel
  | Some (inl e) =>
      (IPCBridge.validateChannel channel = false
       /\ e = Js.JsError ("Invalid IPC channel: " ++ channel))
      \/ (data <> Js.VUndefined /\ IPCBridge.validateData data = false
          /\ e = Js.JsError "Invalid IPC data")
      \/ (channel = IpcChannels.WINDOW_FOCUSED
          /\ e = Js.JsError "IPC method not available: windowFocused")
      \/ (channel = IpcChannels.WINDOW_BLURRED
          /\ e = Js.JsError "IPC method not available: windowBlurred")
  | None => False
  end.
Proof.
  unfold IPCBridge.invoke.
  destruct (IPCBridge.validateChannel channel) eqn:Hchannel; cbn [negb];
    [| left; split; reflexivity].
  assert (Hdata : (if match data with Js.VUndefined => false
                                 | _ => negb (IPCBridge.validateData data) end
                   then data <> Js.VUndefined /\ IPCBridge.validateData data = false
                   else data = Js.VUndefined \/ IPCBridge.validateData data = true)).
  { destruct data; try (right; reflexivity); try (left; reflexivity);
      match goal with
      | |- context [IPCBridge.validateData ?d] =>
          destruct (IPCBridge.validateData d); cbn [negb];
          [right; reflexivity | split; [discriminate | reflexivity]]
      end. }
  destruct (match data with Js.VUndefined => false
                       | _ => negb (IPCBridge.validateData data) end).
  { right. left. destruct Hdata as [Hdefined Hbad]. repeat split; assumption. }
  apply allowed_channel in Hchannel.
  repeat (destruct Hchannel as [<- | Hchannel];
          [first
             [ split; [reflexivity |]; split; [exact Hdata |]; split; [reflexivity |];
               eexists; split; reflexivity
             | right; right; left; split; reflexivity
             | right; right; right; split; reflexivity ] |]).
  destruct Hchannel.
Qed.

(* ================================================================== *)
(** ** Properties of the file handler *)
(* ================================================================== *)

Section FileHandlerFacts.
Import FileHandler.
Local Open Scope file_scope.

Lemma lookup_write (files : list (string * File)) (p : string) (f : File) :
  lookup (write files p f) p = Some f.
Proof.
  induction files as [| [q g] rest IH]; cbn.
  - rewrite String.eqb_refl. reflexivity.
  - destruct (String.eqb_spec q p) as [-> | Hne]; cbn.
    + rewrite String.eqb_refl. reflexivity.
    + destruct (String.eqb_spec q p) as [-> | _]; [contradiction | exact IH].
Qed.

Lemma lookup_write_other (files : list (string * File)) (p q : string) (f : File) :
  q <> p -> lookup (write files p f) q = lookup files q.
Proof.
  intros Hne. induction files as [| [r g] rest IH]; cbn.
  - destruct (String.eqb_spec p q) as [-> | _]; [contradiction | reflexivity].
  - destruct (String.eqb_spec r p) as [-> | Hrp]; cbn.
    + destruct (String.eqb_spec p q) as [-> | _]; [contradiction | reflexivity].
    + destruct (String.eqb_spec r q); [reflexivity | exact IH].
Qed.

(** *** The list of recent files *)

Lemma recentWith_head (p : string) (l : list string) :
  hd_error (recentWith p l) = Some p.
Proof.
  unfold recentWith. destruct (10 <? _)%nat; reflexivity.
Qed.

Lemma recentWith_length (p : string) (l : list string) :
  (length (recentWith p l) <= 10)%nat.
Proof.
  unfold recentWith.
  destruct (Nat.ltb_spec 10 (length (p :: filter (fun q => negb (q =? p)%string) l))) as [H | H].
  - rewrite length_firstn. lia.
  - exact H.
Qed.

Lemma firstn_In (A : Type) (x : A) (n : nat) (l : list A) : In x (firstn n l) -> In x l.
Proof.
  revert n. induction l as [| y rest IH]; intros n Hin.
  - rewrite firstn_nil in Hin. exact Hin.
  - destruct n as [| n]; [destruct Hin |]. destruct Hin as [-> | Hin].
    + left. reflexivity.
    + right. apply (IH n Hin).
Qed.

Lemma NoDup_firstn (A : Type) (n : nat) (l : list A) : NoDup l -> NoDup (firstn n l).
Proof.
  revert n. induction l as [| x rest IH]; intros n Hnd.
  - rewrite firstn_nil. constructor.
  - destruct n as [| n]; cbn; [constructor |].
    inversion Hnd as [| ? ? Hx Hrest]; subst. constructor.
    + intros Hin. apply Hx. apply (firstn_In _ _ _ _ Hin).
    + apply IH. exact Hrest.
Qed.

Lemma recentWith_NoDup (p : string) (l : list string) :
  NoDup l -> NoDup (recentWith p l).
Proof.
  intros Hnd.
  assert (Hall : NoDup (p :: filter (fun q => negb (q =? p)%string) l)).
  { constructor.
    - intros Hin. apply filter_In in Hin as [_ Hne].
      rewrite String.eqb_refl in Hne. discriminate.
    - apply NoDup_filter. exact Hnd. }
  unfold recentWith. destruct (10 <? _)%nat; [apply NoDup_firstn |]; exact Hall.
Qed.

Lemma addToRecentFiles_effect (env : Env) (p : string) (w : World) :
  exists r, addToRecentFiles env p w
            = (r, (match r with inr _ => setStore (recentWith p (recentFiles w)) | inl _ => id end)
                    (setRecentFiles (recentWith p (recentFiles w)) w))
            /\ match r with
               | inl m => storeFault env (setRecentFiles (recentWith p (recentFiles w)) w) = Some m
               | inr _ => storeFault env (setRecentFiles (recentWith p (recentFiles w)) w) = None
               end.
Proof.
  unfold addToRecentFiles.
  destruct (storeFault env (setRecentFiles (recentWith p (recentFiles w)) w)) as [m |].
  - exists (inl m). split; reflexivity.
  - exists (inr tt). split; reflexivity.
Qed.

(** *** Writing a file and making it the current one *)

(** What a save comes to once the path is known. *)
Lemma written (env : Env) (p text0 : string) (w : World) :
  p <> "" ->
  match try_catch
          (writeFile env p text0 ;;;
           setCurrent p text0 ;;;
           addToRecentFiles env p ;;;
           ret true)
          (fun errorMessage => throw ("Could not save file: " ++ errorMessage)) w with
  | (inr done, w') =>
      done = true
      /\ exists f,
           currentFile w' = Some f
           /\ path f = p /\ content f = text0 /\ saved f = true
           /\ (exists file, lookup (disk w') p = Some file /\ text file = text0)
           /\ (forall q, q <> p -> lookup (disk w') q = lookup (disk w) q)
           /\ hd_error (recentFiles w') = Some p
           /\ store w' = recentFiles w'
  | (inl e, w') =>
      exists m,
        e = "Could not save file: " ++ m
        /\ store w' = store w
        /\ ((currentFile w' = currentFile w /\ disk w' = disk w
             /\ recentFiles w' = recentFiles w
             /\ writeFault env p w = Some m)
            \/ exists w0, storeFault env w0 = Some m)
  end.
Proof.
  intros Hp. unfold try_catch, bind, writeFile, setCurrent, ret, throw.
  destruct (writeFault env p w) as [m |] eqn:Hwrite.
  - exists m. split; [reflexivity |]. split; [reflexivity |]. left. repeat split.
  - match goal with
    | |- context [addToRecentFiles env p ?w1] =>
        destruct (addToRecentFiles_effect env p w1) as (r & -> & Hstore)
    end.
    destruct r as [m | []].
    + exists m. split; [reflexivity |]. split; [reflexivity |]. right. eexists. exact Hstore.
    + split; [reflexivity |]. eexists. split; [reflexivity |].
      cbn. split; [reflexivity |]. split; [reflexivity |]. split; [reflexivity |].
      split; [eexists; split; [apply lookup_write | reflexivity] |].
      split; [intros q Hq; apply lookup_write_other; exact Hq |].
      split; [apply recentWith_head | reflexivity].
Qed.

Lemma saveFileAs_routes (env : Env) (text0 : string) (w : World) :
  let w1 := setNow (later env w) w in
  (exists m, showSaveDialog env w = inl m
             /\ saveFileAs env text0 w = (inl ("Could not save file: " ++ m), w1))
  \/ (exists result,
        showSaveDialog env w = inr result
        /\ (SaveDialogReturnValue.canceled result = true
            \/ missing (SaveDialogReturnValue.filePath result) = true)
        /\ saveFileAs env text0 w = (inr false, w1))
  \/ exists result p,
       showSaveDialog env w = inr result
       /\ SaveDialogReturnValue.canceled result = false
       /\ SaveDialogReturnValue.filePath result = Some p
       /\ p <> ""
       /\ saveFileAs env text0 w
          = try_catch
              (writeFile env p text0 ;;;
               setCurrent p text0 ;;;
               addToRecentFiles env p ;;;
               ret true)
              (fun errorMessage => throw ("Could not save file: " ++ errorMessage)) w1.
Proof.
  intros w1. subst w1. unfold saveFileAs, saveDialog, try_catch, bind. cbn beta iota.
  destruct (showSaveDialog env w) as [m | result].
  { left. exists m. split; reflexivity. }
  destruct (SaveDialogReturnValue.canceled result
            || missing (SaveDialogReturnValue.filePath result)) eqn:Hgo.
  { right. left. exists result. split; [reflexivity |].
    split; [apply orb_true_iff; exact Hgo | reflexivity]. }
  apply orb_false_iff in Hgo as [Hgoes Hpath].
  destruct (SaveDialogReturnValue.filePath result) as [p |] eqn:Hchosen; [| discriminate].
  cbn in Hpath. apply String.eqb_neq in Hpath.
  right. right. exists result, p. split; [reflexivity |]. split; [exact Hgoes |].
  split; [exact Hchosen |]. split; [exact Hpath | reflexivity].
Qed.

(** What [saveFileAs] comes to: the path is the one the dialog resolved
    with, and [false] means the dialog was cancelled or gave no path. *)
Lemma saveFileAs_outcome (env : Env) (text0 : string) (w : World) :
  match saveFileAs env text0 w with
  | (inr true, w') =>
      exists f,
        currentFile w' = Some f
        /\ path f <> "" /\ content f = text0 /\ saved f = true
        /\ (exists result,
              showSaveDialog env w = inr result
              /\ SaveDialogReturnValue.canceled result = false
              /\ SaveDialogReturnValue.filePath result = Some (path f))
        /\ (exists file, lookup (disk w') (path f) = Some file /\ text file = text0)
        /\ (forall q, q <> path f -> lookup (disk w') q = lookup (disk w) q)
        /\ hd_error (recentFiles w') = Some (path f)
        /\ store w' = recentFiles w'
  | (inr false, w') =>
      (exists result,
         showSaveDialog env w = inr result
         /\ (SaveDialogReturnValue.canceled result = true
             \/ missing (SaveDialogReturnValue.filePath result) = true))
      /\ currentFile w' = currentFile w /\ disk w' = disk w
      /\ recentFiles w' = recentFiles w /\ store w' = store w
  | (inl e, w') =>
      exists m,
        e = "Could not save file: " ++ m
        /\ store w' = store w
        /\ ((currentFile w' = currentFile w /\ disk w' = disk w
             /\ recentFiles w' = recentFiles w
             /\ (showSaveDialog env w = inl m
                 \/ exists p w0, writeFault env p w0 = Some m))
            \/ exists w0, storeFault env w0 = Some m)
  end.
Proof.
  destruct (saveFileAs_routes env text0 w)
    as [(m & Hdialog & ->)
       | [(result & Hdialog & Hwhy & ->) | (result & p & Hdialog & Hgoes & Hchosen & Hpath & ->)]].
  { exists m. split; [reflexivity |]. split; [reflexivity |]. left.
    repeat (split; [reflexivity |]). left. exact Hdialog. }
  { split; [exists result; split; [exact Hdialog | exact Hwhy] |]. repeat split. }
  pose proof (written env p text0 (setNow (later env w) w) Hpath) as H.
  destruct (try_catch _ _ (setNow (later env w) w)) as [[e | done] w'].
  - destruct H as (m & -> & Hs & [(Hc & Hd & Hr & Hfault) | Hfault]).
    + exists m. split; [reflexivity |]. split; [exact Hs |]. left.
      split; [exact Hc |]. split; [exact Hd |]. split; [exact Hr |].
      right. exists p, (setNow (later env w) w). exact Hfault.
    + exists m. split; [reflexivity |]. split; [exact Hs |]. right. exact Hfault.
  - destruct H as (-> & f & Hcur & Hf & Hcontent & Hsaved & Hrest). exists f.
    split; [exact Hcur |]. rewrite Hf. split; [exact Hpath |].
    split; [exact Hcontent |]. split; [exact Hsaved |].
    split; [exists result; repeat split; assumption | exact Hrest].
Qed.

(** The three ways of [saveFile]: with no path at all it is [saveFileAs];
    otherwise it writes under the path given or, without one, under the
    path of the current file. *)
Lemma saveFile_routes (env : Env) (text0 : string) (filePath : option string) (w : World) :
  (missing filePath = true /\ currentPath w = ""
   /\ saveFile env text0 filePath w = saveFileAs env text0 w)
  \/ exists p,
       p <> ""
       /\ (missing filePath = false -> Some p = filePath)
       /\ (missing filePath = true -> p = currentPath w)
       /\ saveFile env text0 filePath w
          = try_catch
              (writeFile env p text0 ;;;
               setCurrent p text0 ;;;
               addToRecentFiles env p ;;;
               ret true)
              (fun errorMessage => throw ("Could not save file: " ++ errorMessage)) w.
Proof.
  unfold saveFile.
  destruct (missing filePath) eqn:Hmissing.
  - destruct (String.eqb_spec (currentPath w) "") as [Hnone | Hcurrent]; cbn [andb].
    + left. repeat split. exact Hnone.
    + right. exists (currentPath w). repeat split; [exact Hcurrent | discriminate].
  - destruct filePath as [p |]; [| discriminate]. cbn in Hmissing. cbn [andb].
    rewrite Hmissing. apply String.eqb_neq in Hmissing.
    right. exists p. repeat split; [exact Hmissing | discriminate].
Qed.

(** *** Opening a file *)

Lemma openFile_routes (env : Env) (filePath : option string) (w : World) :
  let w1 := setNow (later env w) w in
  let read (p : string) (w0 : World) :=
    try_catch
      (content <- readFile env p ;;
       f <- setCurrent p content ;;
       addToRecentFiles env p ;;;
       ret (Some f))
      (fun errorMessage => throw ("Could not open file: " ++ errorMessage)) w0 in
  (missing filePath = true
   /\ ((exists m, showOpenDialog env w = inl m
                  /\ openFile env filePath w = (inl ("Could not open file: " ++ m), w1))
       \/ (exists result,
             showOpenDialog env w = inr result
             /\ (OpenDialogReturnValue.canceled result = true
                 \/ OpenDialogReturnValue.filePaths result = [])
             /\ openFile env filePath w = (inr None, w1))
       \/ (exists result p,
             showOpenDialog env w = inr result
             /\ OpenDialogReturnValue.canceled result = false
             /\ hd_error (OpenDialogReturnValue.filePaths result) = Some p
             /\ openFile env filePath w = read p w1)))
  \/ (missing filePath = false
      /\ exists p, filePath = Some p /\ openFile env filePath w = read p w).
Proof.
  intros w1 read. unfold openFile, openDialog.
  destruct (missing filePath) eqn:Hmissing.
  - left. split; [reflexivity |]. subst read w1.
    unfold try_catch, bind. cbn beta iota.
    destruct (showOpenDialog env w) as [m | result].
    + left. exists m. split; reflexivity.
    + destruct (OpenDialogReturnValue.canceled result) eqn:Hgoes; cbn [orb].
      * right. left. exists result. split; [reflexivity |].
        split; [left; exact Hgoes | reflexivity].
      * destruct (OpenDialogReturnValue.filePaths result) as [| p others] eqn:Hchosen;
          cbn [length Nat.eqb hd].
        -- right. left. exists result. split; [reflexivity |].
           split; [right; exact Hchosen | reflexivity].
        -- right. right. exists result, p. split; [reflexivity |].
           split; [exact Hgoes |]. split; [rewrite Hchosen; reflexivity |].
           reflexivity.
  - right. split; [reflexivity |]. destruct filePath as [p |]; [| discriminate].
    exists p. split; reflexivity.
Qed.

(** What reading comes to once the path is known. *)
Lemma opened (env : Env) (p : string) (w : World) :
  match try_catch
          (content <- readFile env p ;;
           f <- setCurrent p content ;;
           addToRecentFiles env p ;;;
           ret (Some f))
          (fun errorMessage => throw ("Could not open file: " ++ errorMessage)) w with
  | (inr r, w') =>
      exists f,
        r = Some f
        /\ currentFile w' = Some f
        /\ path f = p /\ saved f = true
        /\ (exists file, lookup (disk w) p = Some file /\ text file = content f)
        /\ disk w' = disk w
        /\ hd_error (recentFiles w') = Some p
        /\ store w' = recentFiles w'
  | (inl e, w') =>
      exists m,
        e = "Could not open file: " ++ m
        /\ disk w' = disk w
        /\ store w' = store w
        /\ ((currentFile w' = currentFile w /\ recentFiles w' = recentFiles w
             /\ (readFault env p w = Some m
                 \/ (lookup (disk w) p = None
                     /\ m = "ENOENT: no such file or directory, open '" ++ p ++ "'")))
            \/ exists w0, storeFault env w0 = Some m)
  end.
Proof.
  unfold try_catch, bind, readFile, setCurrent, ret, throw.
  destruct (readFault env p w) as [m |] eqn:Hread.
  { exists m. repeat (split; [reflexivity |]). left. repeat split. left. reflexivity. }
  destruct (lookup (disk w) p) as [file |] eqn:Hfile.
  - match goal with
    | |- context [addToRecentFiles env p ?w1] =>
        destruct (addToRecentFiles_effect env p w1) as (r & -> & Hstore)
    end.
    destruct r as [m | []].
    + exists m. repeat (split; [reflexivity |]). right. eexists. exact Hstore.
    + eexists. split; [reflexivity |]. cbn. repeat (split; [reflexivity |]).
      split; [exists file; split; reflexivity |].
      split; [reflexivity |]. split; [apply recentWith_head | reflexivity].
  - eexists. repeat (split; [reflexivity |]). left. repeat split. right. split; reflexivity.
Qed.

End FileHandlerFacts.

(** What [saveFile] comes to.  When it says the file is saved, the disk
    holds the content under a path that is not empty: the path given, or
    else the one of the current file, or else the one the save dialog
    resolved with, not cancelled; no other file has changed, the file is
    the current one and counts as saved, and its path is first in the
    recent files, which the store holds too.  When it says the file is not
    saved, there was no path, the dialog resolved cancelled or without a
    path, and nothing has changed.  When it
    fails, the message is that of the platform after [Could not save file:]
    once, also when the dialog or the write of [saveFileAs] failed; and
    nothing has changed, unless it was the store that failed. *)
Theorem saveFile_outcome
    (env : FileHandler.Env) (content : string) (filePath : option string)
    (w : FileHandler.World) :
  match FileHandler.saveFile env content filePath w with
  | (inr true, w') =>
      exists f,
        FileHandler.currentFile w' = Some f
        /\ FileHandler.path f <> ""
        /\ FileHandler.content f = content
        /\ FileHandler.saved f = true
        /\ (FileHandler.missing filePath = false -> Some (FileHandler.path f) = filePath)
        /\ (FileHandler.missing filePath = true -> FileHandler.currentPath w <> "" ->
            FileHandler.path f = FileHandler.currentPath w)
        /\ (FileHandler.missing filePath = true -> FileHandler.currentPath w = "" ->
            exists result,
              FileHandler.showSaveDialog env w = inr result
              /\ FileHandler.SaveDialogReturnValue.canceled result = false
              /\ FileHandler.SaveDialogReturnValue.filePath result
                 = Some (FileHandler.path f))
        /\ (exists file,
              FileHandler.lookup (FileHandler.disk w') (FileHandler.path f) = Some file
              /\ FileHandler.text file = content)
        /\ (forall q, q <> FileHandler.path f ->
                      FileHandler.lookup (FileHandler.disk w') q
                      = FileHandler.lookup (FileHandler.disk w) q)
        /\ hd_error (FileHandler.recentFiles w') = Some (FileHandler.path f)
        /\ FileHandler.store w' = FileHandler.recentFiles w'
  | (inr false, w') =>
      FileHandler.missing filePath = true
      /\ FileHandler.currentPath w = ""
      /\ (exists result,
            FileHandler.showSaveDialog env w = inr result
            /\ (FileHandler.SaveDialogReturnValue.canceled result = true
                \/ FileHandler.missing (FileHandler.SaveDialogReturnValue.filePath result)
                   = true))
      /\ FileHandler.currentFile w' = FileHandler.currentFile w
      /\ FileHandler.disk w' = FileHandler.disk w
      /\ FileHandler.recentFiles w' = FileHandler.recentFiles w
      /\ FileHandler.store w' = FileHandler.store w
  | (inl e, w') =>
      exists m,
        e = "Could not save file: " ++ m
        /\ FileHandler.store w' = FileHandler.store w
        /\ ((FileHandler.currentFile w' = FileHandler.currentFile w
             /\ FileHandler.disk w' = FileHandler.disk w
             /\ FileHandler.recentFiles w' = FileHandler.recentFiles w
             /\ (FileHandler.showSaveDialog env w = inl m
                 \/ exists p w0, FileHandler.writeFault env p w0 = Some m))
            \/ exists w0, FileHandler.storeFault env w0 = Some m)
  end.
Proof.
  destruct (saveFile_routes env content filePath w)
    as [(Hmissing & Hnone & ->) | (p & Hp & Hgiven & Hcurrent & ->)].
  - (* no path at all: the dialog *)
    pose proof (saveFileAs_outcome env content w) as H.
    destruct (FileHandler.saveFileAs env content w) as [[e | [|]] w']; [exact H | |].
    + destruct H as (f & Hcur & Hpath & Hcontent & Hsaved & Hdialog & Hdisk & Hothers
                     & Hrecent & Hstore).
      exists f. split; [exact Hcur |]. split; [exact Hpath |]. split; [exact Hcontent |].
      split; [exact Hsaved |].
      split; [intros Hno; rewrite Hmissing in Hno; discriminate Hno |].
      split; [intros _ Hsome; contradiction |].
      split; [intros _ _; exact Hdialog |].
      split; [exact Hdisk |]. split; [exact Hothers |]. split; [exact Hrecent | exact Hstore].
    + split; [exact Hmissing |]. split; [exact Hnone |]. exact H.
  - (* a path is known *)
    pose proof (written env p content w Hp) as H.
    destruct (FileHandler.try_catch _ _ w) as [[e | done] w'].
    { destruct H as (m & -> & Hs & [(Hc & Hd & Hr & Hfault) | Hfault]).
      - exists m. split; [reflexivity |]. split; [exact Hs |]. left.
        split; [exact Hc |]. split; [exact Hd |]. split; [exact Hr |].
        right. exists p, w. exact Hfault.
      - exists m. split; [reflexivity |]. split; [exact Hs |]. right. exact Hfault. }
    destruct H as (-> & f & Hcur & Hpath & Hcontent & Hsaved & Hdisk & Hothers & Hrecent & Hstore).
    exists f. rewrite Hpath.
    split; [exact Hcur |]. split; [exact Hp |]. split; [exact Hcontent |].
    split; [exact Hsaved |]. split; [exact Hgiven |].
    split; [intros Hyes _; apply (Hcurrent Hyes) |].
    split; [intros Hyes Hnone; exfalso; apply Hp; rewrite (Hcurrent Hyes); exact Hnone |].
    split; [exact Hdisk |]. split; [exact Hothers |]. split; [exact Hrecent | exact Hstore].
Qed.

(** What [openFile] comes to.  When it gives a file, the file is the
    current one and counts as saved, its path is the one given or, none
    being given, the first of those the open dialog resolved with, not
    cancelled; its content is what the disk holds under that path, and
    the path is first in the recent files, which the store holds too.
    When it gives nothing, no path was given, the dialog resolved
    cancelled or without any path, and nothing has changed.  When it
    fails, the message is [Could not open file:] followed by the message
    of the dialog, of the read (that of a missing file is the [ENOENT]
    one) or of the store; the disk and the store are as before, and so are
    the current file and the recent files unless it was the store that
    failed. *)
Theorem openFile_outcome
    (env : FileHandler.Env) (filePath : option string) (w : FileHandler.World) :
  match FileHandler.openFile env filePath w with
  | (inr (Some f), w') =>
      FileHandler.currentFile w' = Some f
      /\ FileHandler.saved f = true
      /\ (FileHandler.missing filePath = false -> Some (FileHandler.path f) = filePath)
      /\ (FileHandler.missing filePath = true ->
          exists result,
            FileHandler.showOpenDialog env w = inr result
            /\ FileHandler.OpenDialogReturnValue.canceled result = false
            /\ hd_error (FileHandler.OpenDialogReturnValue.filePaths result)
               = Some (FileHandler.path f))
      /\ (exists file,
            FileHandler.lookup (FileHandler.disk w) (FileHandler.path f) = Some file
            /\ FileHandler.text file = FileHandler.content f)
      /\ FileHandler.disk w' = FileHandler.disk w
      /\ hd_error (FileHandler.recentFiles w') = Some (FileHandler.path f)
      /\ FileHandler.store w' = FileHandler.recentFiles w'
  | (inr None, w') =>
      FileHandler.missing filePath = true
      /\ (exists result,
            FileHandler.showOpenDialog env w = inr result
            /\ (FileHandler.OpenDialogReturnValue.canceled result = true
                \/ FileHandler.OpenDialogReturnValue.filePaths result = []))
      /\ FileHandler.currentFile w' = FileHandler.currentFile w
      /\ FileHandler.disk w' = FileHandler.disk w
      /\ FileHandler.recentFiles w' = FileHandler.recentFiles w
      /\ FileHandler.store w' = FileHandler.store w
  | (inl e, w') =>
      exists m,
        e = "Could not open file: " ++ m
        /\ FileHandler.disk w' = FileHandler.disk w
        /\ FileHandler.store w' = FileHandler.store w
        /\ ((FileHandler.currentFile w' = FileHandler.currentFile w
             /\ FileHandler.recentFiles w' = FileHandler.recentFiles w
             /\ (FileHandler.showOpenDialog env w = inl m
                 \/ (exists p w0, FileHandler.readFault env p w0 = Some m)
                 \/ exists p,
                      FileHandler.lookup (FileHandler.disk w) p = None
                      /\ m = "ENOENT: no such file or directory, open '" ++ p ++ "'"))
            \/ exists w0, FileHandler.storeFault env w0 = Some m)
  end.
Proof.
  assert (Hread : forall p w0,
             FileHandler.disk w0 = FileHandler.disk w ->
             FileHandler.store w0 = FileHandler.store w ->
             FileHandler.currentFile w0 = FileHandler.currentFile w ->
             FileHandler.recentFiles w0 = FileHandler.recentFiles w ->
             (FileHandler.missing filePath = false -> Some p = filePath) ->
             (FileHandler.missing filePath = true ->
              exists result,
                FileHandler.showOpenDialog env w = inr result
                /\ FileHandler.OpenDialogReturnValue.canceled result = false
                /\ hd_error (FileHandler.OpenDialogReturnValue.filePaths result) = Some p) ->
             forall r w',
               FileHandler.try_catch
                 (FileHandler.bind (FileHandler.readFile env p) (fun content =>
                  FileHandler.bind (FileHandler.setCurrent p content) (fun f =>
                  FileHandler.bind (FileHandler.addToRecentFiles env p) (fun _ =>
                  FileHandler.ret (Some f)))))
                 (fun errorMessage =>
                    FileHandler.throw ("Could not open file: " ++ errorMessage)) w0
               = (r, w') ->
               match r with
               | inr opened =>
                   exists f,
                     opened = Some f
                     /\ FileHandler.currentFile w' = Some f
                     /\ FileHandler.saved f = true
                     /\ (FileHandler.missing filePath = false ->
                         Some (FileHandler.path f) = filePath)
                     /\ (FileHandler.missing filePath = true ->
                         exists result,
                           FileHandler.showOpenDialog env w = inr result
                           /\ FileHandler.OpenDialogReturnValue.canceled result = false
                           /\ hd_error (FileHandler.OpenDialogReturnValue.filePaths result)
                              = Some (FileHandler.path f))
                     /\ (exists file,
                           FileHandler.lookup (FileHandler.disk w) (FileHandler.path f)
                           = Some file
                           /\ FileHandler.text file = FileHandler.content f)
                     /\ FileHandler.disk w' = FileHandler.disk w
                     /\ hd_error (FileHandler.recentFiles w') = Some (FileHandler.path f)
                     /\ FileHandler.store w' = FileHandler.recentFiles w'
               | inl e =>
                   exists m,
                     e = "Could not open file: " ++ m
                     /\ FileHandler.disk w' = FileHandler.disk w
                     /\ FileHandler.store w' = FileHandler.store w
                     /\ ((FileHandler.currentFile w' = FileHandler.currentFile w
                          /\ FileHandler.recentFiles w' = FileHandler.recentFiles w
                          /\ ((exists p w0, FileHandler.readFault env p w0 = Some m)
                              \/ exists p,
                                   FileHandler.lookup (FileHandler.disk w) p = None
                                   /\ m = "ENOENT: no such file or directory, open '"
                                            ++ p ++ "'"))
                         \/ exists w0, FileHandler.storeFault env w0 = Some m)
               end).
  { intros p w0 Hdisk Hstore Hcur Hrecent Hgiven Hchosen r w' Hrun.
    pose proof (opened env p w0) as H. rewrite Hrun in H.
    destruct r as [e | r].
    - destruct H as (m & -> & Hd & Hs & Hrest). exists m. split; [reflexivity |].
      split; [congruence |]. split; [congruence |].
      destruct Hrest as [(Hc & Hr & Hwhy) | Hfault]; [| right; exact Hfault].
      left. split; [congruence |]. split; [congruence |].
      destruct Hwhy as [Hfault | (Hnone & ->)].
      + left. exists p, w0. exact Hfault.
      + right. exists p. split; [rewrite <- Hdisk; exact Hnone | reflexivity].
    - destruct H as (f & -> & Hc & Hpath & Hsaved & Hfile & Hd & Hhead & Hs).
      exists f. rewrite Hpath. split; [reflexivity |].
      split; [exact Hc |]. split; [exact Hsaved |]. split; [exact Hgiven |].
      split; [exact Hchosen |].
      split; [rewrite <- Hdisk; exact Hfile |]. split; [congruence |].
      split; [exact Hhead | exact Hs]. }
  destruct (openFile_routes env filePath w)
    as [(Hmissing & [(m & Hdialog & ->)
                    | [(result & Hdialog & Hwhy & ->)
                      | (result & p & Hdialog & Hgoes & Hfirst & ->)]])
       | (Hmissing & p & -> & ->)].
  - exists m. repeat (split; [reflexivity |]). left.
    repeat (split; [reflexivity |]). left. exact Hdialog.
  - split; [exact Hmissing |].
    split; [exists result; split; [exact Hdialog | exact Hwhy] |]. repeat split.
  - destruct (FileHandler.try_catch _ _ _) as [r w'] eqn:Hrun.
    apply Hread in Hrun; try reflexivity;
      [| intros Hno; rewrite Hmissing in Hno; discriminate Hno
       | intros _; exists result; repeat split; assumption].
    destruct r as [e | opened].
    + destruct Hrun as (m & He & Hd & Hs & [(Hc & Hr & Hwhy) | Hfault]);
        exists m; (split; [exact He |]); (split; [exact Hd |]); (split; [exact Hs |]);
        [left; split; [exact Hc |]; split; [exact Hr |]; right; exact Hwhy
        | right; exact Hfault].
    + destruct Hrun as (f & -> & Hrest). exact Hrest.
  - destruct (FileHandler.try_catch _ _ _) as [r w'] eqn:Hrun.
    apply Hread in Hrun; try reflexivity;
      [| intros Hyes; rewrite Hmissing in Hyes; discriminate Hyes].
    destruct r as [e | opened].
    + destruct Hrun as (m & He & Hd & Hs & [(Hc & Hr & Hwhy) | Hfault]);
        exists m; (split; [exact He |]); (split; [exact Hd |]); (split; [exact Hs |]);
        [left; split; [exact Hc |]; split; [exact Hr |]; right; exact Hwhy
        | right; exact Hfault].
    + destruct Hrun as (f & -> & Hrest). exact Hrest.
Qed.

Section FileSessionFacts.
Import FileHandler.
Local Open Scope file_scope.

(** *** What a request can do to the recent files: nothing, or put a path
    in front *)

Lemma written_recent (env : Env) (p text0 : string) (w : World) :
  let w' := snd (try_catch
                   (writeFile env p text0 ;;;
                    setCurrent p text0 ;;;
                    addToRecentFiles env p ;;;
                    ret true)
                   (fun errorMessage => throw ("Could not save file: " ++ errorMessage)) w) in
  recentFiles w' = recentFiles w \/ recentFiles w' = recentWith p (recentFiles w).
Proof.
  unfold try_catch, bind, writeFile, setCurrent, ret, throw. cbn zeta.
  destruct (writeFault env p w) as [m |]; [left; reflexivity |].
  match goal with
  | |- context [addToRecentFiles env p ?w1] =>
      destruct (addToRecentFiles_effect env p w1) as (r & -> & _)
  end.
  destruct r as [m | []]; right; reflexivity.
Qed.

Lemma opened_recent (env : Env) (p : string) (w : World) :
  let w' := snd (try_catch
                   (content <- readFile env p ;;
                    f <- setCurrent p content ;;
                    addToRecentFiles env p ;;;
                    ret (Some f))
                   (fun errorMessage => throw ("Could not open file: " ++ errorMessage)) w) in
  recentFiles w' = recentFiles w \/ recentFiles w' = recentWith p (recentFiles w).
Proof.
  unfold try_catch, bind, readFile, setCurrent, ret, throw. cbn zeta.
  destruct (readFault env p w) as [m |]; [left; reflexivity |].
  destruct (lookup (disk w) p) as [file |]; [| left; reflexivity].
  match goal with
  | |- context [addToRecentFiles env p ?w1] =>
      destruct (addToRecentFiles_effect env p w1) as (r & -> & _)
  end.
  destruct r as [m | []]; right; reflexivity.
Qed.

Lemma saveFileAs_recent (env : Env) (text0 : string) (w : World) :
  recentFiles (snd (saveFileAs env text0 w)) = recentFiles w
  \/ exists p, recentFiles (snd (saveFileAs env text0 w)) = recentWith p (recentFiles w).
Proof.
  destruct (saveFileAs_routes env text0 w)
    as [(m & _ & ->) | [(result & _ & _ & ->) | (result & p & _ & _ & _ & _ & ->)]].
  - left. reflexivity.
  - left. reflexivity.
  - destruct (written_recent env p text0 (setNow (later env w) w)) as [H | H];
      [left; exact H | right; exists p; exact H].
Qed.

Lemma saveFile_recent (env : Env) (text0 : string) (filePath : option string) (w : World) :
  recentFiles (snd (saveFile env text0 filePath w)) = recentFiles w
  \/ exists p, recentFiles (snd (saveFile env text0 filePath w)) = recentWith p (recentFiles w).
Proof.
  destruct (saveFile_routes env text0 filePath w) as [(_ & _ & ->) | (p & _ & _ & _ & ->)].
  - apply saveFileAs_recent.
  - destruct (written_recent env p text0 w) as [H | H]; [left; exact H | right; exists p; exact H].
Qed.

Lemma openFile_recent (env : Env) (filePath : option string) (w : World) :
  recentFiles (snd (openFile env filePath w)) = recentFiles w
  \/ exists p, recentFiles (snd (openFile env filePath w)) = recentWith p (recentFiles w).
Proof.
  destruct (openFile_routes env filePath w)
    as [(_ & [(m & _ & ->) | [(result & _ & _ & ->) | (result & p & _ & _ & _ & ->)]])
       | (_ & p & _ & ->)].
  - left. reflexivity.
  - left. reflexivity.
  - destruct (opened_recent env p (setNow (later env w) w)) as [H | H];
      [left; exact H | right; exists p; exact H].
  - destruct (opened_recent env p w) as [H | H]; [left; exact H | right; exists p; exact H].
Qed.

Lemma handle_recent (env : Env) (mainWindow : bool) (r : Request) (w : World) :
  recentFiles (snd (handle env mainWindow r w)) = recentFiles w
  \/ exists p, recentFiles (snd (handle env mainWindow r w)) = recentWith p (recentFiles w).
Proof.
  destruct r as [| filePath | text0 | text0 |]; cbn [handle].
  - left. reflexivity.
  - destruct mainWindow; [| left; reflexivity].
    unfold bind. pose proof (openFile_recent env filePath w) as H.
    destruct (openFile env filePath w) as [[e | f] w']; exact H.
  - destruct mainWindow; [| left; reflexivity].
    unfold bind. pose proof (saveFile_recent env text0 None w) as H.
    destruct (saveFile env text0 None w) as [[e | f] w']; exact H.
  - destruct mainWindow; [| left; reflexivity].
    unfold bind. pose proof (saveFileAs_recent env text0 w) as H.
    destruct (saveFileAs env text0 w) as [[e | f] w']; exact H.
  - left. reflexivity.
Qed.

(** A save that is reported as done has left the content on the disk,
    under the path of the current file. *)
Lemma saved_on_disk (env : Env) (text0 : string) (filePath : option string) (w w1 : World) :
  saveFile env text0 filePath w = (inr true, w1) ->
  currentPath w1 <> ""
  /\ exists file, lookup (disk w1) (currentPath w1) = Some file /\ text file = text0.
Proof.
  destruct (saveFile_routes env text0 filePath w) as [(_ & _ & ->) | (p & Hp & _ & _ & ->)];
    intros Hrun.
  - pose proof (saveFileAs_outcome env text0 w) as H. rewrite Hrun in H.
    destruct H as (f & Hcur & Hpath & _ & _ & _ & Hdisk & _).
    unfold currentPath. rewrite Hcur. split; assumption.
  - pose proof (written env p text0 w Hp) as H. rewrite Hrun in H.
    destruct H as (_ & f & Hcur & Hpath & _ & _ & Hdisk & _).
    unfold currentPath. rewrite Hcur, Hpath. split; assumption.
Qed.

End FileSessionFacts.

(** Whatever the renderer asks for and whatever the platform does, the
    recent files never become more than ten and no path comes to stand in
    them twice. *)
Theorem recent_files_stay_ten_and_distinct
    (rs : list (FileHandler.Env * bool * FileHandler.Request)) (w : FileHandler.World) :
  (length (FileHandler.recentFiles w) <= 10)%nat ->
  NoDup (FileHandler.recentFiles w) ->
  (length (FileHandler.recentFiles (FileHandler.session rs w)) <= 10)%nat
  /\ NoDup (FileHandler.recentFiles (FileHandler.session rs w)).
Proof.
  revert w. induction rs as [| [[env mainWindow] r] rest IH]; intros w Hlen Hnd.
  - split; assumption.
  - cbn [FileHandler.session].
    destruct (handle_recent env mainWindow r w) as [Hsame | (p & Hpushed)].
    + apply IH; rewrite Hsame; assumption.
    + apply IH; rewrite Hpushed; [apply recentWith_length | apply recentWith_NoDup; exact Hnd].
Qed.

Lemma recent_files_stay_ten_and_distinct_witness :
  (length (FileHandler.recentFiles
             (FileHandler.session
                [(FileFixtures.desk, true, FileHandler.FileOpen (Some "/home/ada/b.txt"));
                 (FileFixtures.desk, true, FileHandler.FileSave "more");
                 (FileFixtures.desk, false, FileHandler.FileSaveAs "lost");
                 (FileFixtures.desk, true, FileHandler.FileOpen None)]
                FileFixtures.start)) <= 10)%nat
  /\ NoDup (FileHandler.recentFiles
              (FileHandler.session
                 [(FileFixtures.desk, true, FileHandler.FileOpen (Some "/home/ada/b.txt"));
                  (FileFixtures.desk, true, FileHandler.FileSave "more");
                  (FileFixtures.desk, false, FileHandler.FileSaveAs "lost");
                  (FileFixtures.desk, true, FileHandler.FileOpen None)]
                 FileFixtures.start)).
Proof.
  apply (recent_files_stay_ten_and_distinct
           [(FileFixtures.desk, true, FileHandler.FileOpen (Some "/home/ada/b.txt"));
            (FileFixtures.desk, true, FileHandler.FileSave "more");
            (FileFixtures.desk, false, FileHandler.FileSaveAs "lost");
            (FileFixtures.desk, true, FileHandler.FileOpen None)]
           FileFixtures.start).
  - vm_compute. repeat constructor.
  - vm_compute. repeat constructor; cbn; intuition discriminate.
Defined.

(** A file that was saved opens with the content that was saved.  If the
    handler of [file:save] or of [file:save-as] answers that the file is
    saved, and the next read of that file and the store do not fail, then
    the handler of [file:open], asked for the path of the current file,
    gives that path with the content that was saved, and the file stays the
    current one. *)
Theorem saved_file_opens_with_the_saved_content
    (env env' : FileHandler.Env) (mainWindow : bool) (r : FileHandler.Request)
    (content : string) (w w1 : FileHandler.World) :
  r = FileHandler.FileSave content \/ r = FileHandler.FileSaveAs content ->
  FileHandler.handle env mainWindow r w = (inr (FileHandler.Saved true), w1) ->
  FileHandler.readFault env' (FileHandler.currentPath w1) w1 = None ->
  (forall w0, FileHandler.storeFault env' w0 = None) ->
  exists f w2,
    FileHandler.handle env' true (FileHandler.FileOpen (Some (FileHandler.currentPath w1))) w1
    = (inr (FileHandler.Opened (Some f)), w2)
    /\ FileHandler.path f = FileHandler.currentPath w1
    /\ FileHandler.content f = content
    /\ FileHandler.saved f = true
    /\ FileHandler.currentFile w2 = Some f.
Proof.
  intros Hr Hsave Hread Hstore.
  assert (Hdisk : FileHandler.currentPath w1 <> ""
                  /\ exists file,
                       FileHandler.lookup (FileHandler.disk w1) (FileHandler.currentPath w1)
                       = Some file
                       /\ FileHandler.text file = content).
  { destruct Hr as [-> | ->]; cbn [FileHandler.handle] in Hsave;
      (destruct mainWindow; [| discriminate Hsave]); unfold FileHandler.bind in Hsave.
    - destruct (FileHandler.saveFile env content None w) as [[e | done] w'] eqn:Hrun;
        [discriminate Hsave |].
      injection Hsave as -> ->. apply (saved_on_disk env content None w w1 Hrun).
    - pose proof (saveFileAs_outcome env content w) as H.
      destruct (FileHandler.saveFileAs env content w) as [[e | done] w'];
        [discriminate Hsave |].
      injection Hsave as -> ->.
      destruct H as (f & Hcur & Hpath & _ & _ & _ & Hfile & _).
      unfold FileHandler.currentPath. rewrite Hcur. split; assumption. }
  destruct Hdisk as (Hpath & file & Hfile & Htext).
  cbn [FileHandler.handle]. unfold FileHandler.bind.
  destruct (openFile_routes env' (Some (FileHandler.currentPath w1)) w1)
    as [(Hmissing & _) | (_ & p & [= <-] & ->)].
  { cbn in Hmissing. apply String.eqb_eq in Hmissing. contradiction. }
  pose proof (opened env' (FileHandler.currentPath w1) w1) as H.
  destruct (FileHandler.try_catch _ _ w1) as [[e | opened] w2].
  - exfalso. destruct H as (m & _ & _ & _ & [(_ & _ & [Hfault | (Hnone & _)]) | (w0 & Hfault)]).
    + rewrite Hread in Hfault. discriminate Hfault.
    + rewrite Hfile in Hnone. discriminate Hnone.
    + rewrite Hstore in Hfault. discriminate Hfault.
  - destruct H as (f & -> & Hcur & Hp & Hsaved & (file' & Hfile' & Htext') & _).
    exists f, w2. split; [reflexivity |]. split; [exact Hp |].
    split; [| split; assumption].
    rewrite Hfile in Hfile'. injection Hfile' as <-. rewrite <- Htext'. exact Htext.
Qed.

Lemma saved_file_opens_with_the_saved_content_witness :
  exists f w2,
    FileHandler.handle FileFixtures.desk true
      (FileHandler.FileOpen
         (Some (FileHandler.currentPath
                  (snd (FileHandler.handle FileFixtures.desk true
                          (FileHandler.FileSave "a first line") FileFixtures.start)))))
      (snd (FileHandler.handle FileFixtures.desk true
              (FileHandler.FileSave "a first line") FileFixtures.start))
    = (inr (FileHandler.Opened (Some f)), w2)
    /\ FileHandler.path f = "/home/ada/notes.txt"
    /\ FileHandler.content f = "a first line"
    /\ FileHandler.saved f = true
    /\ FileHandler.currentFile w2 = Some f.
Proof.
  apply (saved_file_opens_with_the_saved_content
           FileFixtures.desk FileFixtures.desk true (FileHandler.FileSave "a first line")
           "a first line" FileFixtures.start
           (snd (FileHandler.handle FileFixtures.desk true
                   (FileHandler.FileSave "a first line") FileFixtures.start))).
  - left. reflexivity.
  - vm_compute. reflexivity.
  - reflexivity.
  - intros w0. reflexivity.
Defined.

(* ================================================================== *)
(** ** Properties of the backups *)
(* ================================================================== *)

Section SortFacts.
Import FileHandler.
Variable A : Type.
Variable compare : A -> A -> Z.

(** [a] may stand before [b]. *)
Let before (a b : A) : Prop := compare a b <= 0.

Hypothesis before_total : forall a b, before a b \/ before b a.
Hypothesis before_trans : forall a b c, before a b -> before b c -> before a c.

Lemma insertBy_permutation (x : A) (l : list A) :
  Permutation (insertBy compare x l) (x :: l).
Proof.
  induction l as [| y rest IH]; cbn; [reflexivity |].
  destruct (compare x y <=? 0); [reflexivity |].
  rewrite IH. apply perm_swap.
Qed.

Lemma sortBy_permutation (l : list A) : Permutation (sortBy compare l) l.
Proof.
  induction l as [| x rest IH]; cbn; [reflexivity |].
  rewrite insertBy_permutation. apply perm_skip. exact IH.
Qed.

Lemma insertBy_sorted (x : A) (l : list A) :
  StronglySorted before l -> StronglySorted before (insertBy compare x l).
Proof.
  induction l as [| y rest IH]; cbn; intros Hs.
  - constructor; constructor.
  - destruct (Z.leb_spec (compare x y) 0) as [Hxy | Hyx].
    + constructor; [exact Hs |]. constructor; [exact Hxy |].
      inversion Hs as [| ? ? _ Hall]; subst.
      apply Forall_forall. intros z Hz. rewrite Forall_forall in Hall.
      apply (before_trans x y z Hxy (Hall z Hz)).
    + inversion Hs as [| ? ? Hrest Hall]; subst.
      constructor; [apply IH; exact Hrest |].
      apply Forall_forall. intros z Hz.
      apply (Permutation_in _ (insertBy_permutation x rest)) in Hz.
      destruct Hz as [<- | Hz].
      * destruct (before_total y x) as [H | H]; [exact H | unfold before in H; lia].
      * rewrite Forall_forall in Hall. apply (Hall z Hz).
Qed.

Lemma sortBy_sorted (l : list A) : StronglySorted before (sortBy compare l).
Proof.
  induction l as [| x rest IH]; cbn; [constructor | apply insertBy_sorted; exact IH].
Qed.

(** In a sorted list whatever stands in front may stand before whatever
    comes behind. *)
Lemma sorted_app (front behind : list A) :
  StronglySorted before (front ++ behind) ->
  forall a b, In a front -> In b behind -> before a b.
Proof.
  induction front as [| x rest IH]; intros Hs a b Ha Hb; [destruct Ha |].
  inversion Hs as [| ? ? Hrest Hall]; subst.
  destruct Ha as [<- | Ha].
  - rewrite Forall_forall in Hall. apply Hall. apply in_or_app. right. exact Hb.
  - apply (IH Hrest a b Ha Hb).
Qed.

End SortFacts.

Section BackupFacts.
Import FileHandler.
Variable env : Env.

Lemma listed_file (l : list (string * File)) (name : string) (f : File) :
  lookup l name = Some f -> In (name, f) l.
Proof.
  induction l as [| [q g] rest IH]; cbn; [discriminate |].
  destruct (String.eqb_spec q name) as [-> | _].
  - intros [= ->]. left. reflexivity.
  - intros H. right. apply (IH H).
Qed.

Lemma file_of_name (l : list (string * File)) (name : string) (f : File) :
  NoDup (map fst l) -> In (name, f) l -> lookup l name = Some f.
Proof.
  induction l as [| [q g] rest IH]; cbn; intros Hnd Hin; [destruct Hin |].
  inversion Hnd as [| ? ? Hq Hrest]; subst.
  destruct Hin as [[= -> ->] | Hin].
  - rewrite String.eqb_refl. reflexivity.
  - destruct (String.eqb_spec q name) as [-> | _]; [| apply (IH Hrest Hin)].
    exfalso. apply Hq. apply (in_map fst _ _ Hin).
Qed.

Lemma lookup_listed (l : list (string * File)) (name : string) :
  In name (map fst l) -> exists f, lookup l name = Some f.
Proof.
  induction l as [| [q g] rest IH]; cbn; intros Hin; [destruct Hin |].
  destruct (String.eqb_spec q name) as [-> | Hne]; [exists g; reflexivity |].
  destruct Hin as [Heq | Hin]; [contradiction | apply (IH Hin)].
Qed.

(** The times [stat] gives are those of the files, in the order asked. *)
Lemma statAll_stats (w : World) (files : list string) (stats : list (string * Z)) :
  statAll env w files = inr stats ->
  map fst stats = files
  /\ (forall name t, In (name, t) stats ->
                     exists f, lookup (backups w) name = Some f /\ mtime f = t)
  /\ (forall name f, In name files -> lookup (backups w) name = Some f ->
                     In (name, mtime f) stats).
Proof.
  revert stats. induction files as [| file rest IH]; intros stats; cbn.
  - intros [= <-]. repeat split; intros; contradiction.
  - destruct (statFault env (backupPath env file) w); [discriminate |].
    destruct (lookup (backups w) file) as [f |] eqn:Hfile; [| discriminate].
    destruct (statAll env w rest) as [m | stats']; [discriminate |].
    intros [= <-]. destruct (IH stats' eq_refl) as (Hnames & Hback & Hforth).
    split; [cbn; rewrite Hnames; reflexivity |]. split.
    + intros name t [[= <- <-] | Hin]; [exists f; split; [exact Hfile | reflexivity] |].
      apply (Hback name t Hin).
    + intros name g [<- | Hin] Hlook.
      * rewrite Hfile in Hlook. injection Hlook as <-. left. reflexivity.
      * right. apply (Hforth name g Hin Hlook).
Qed.

(** [stat] fails only by a fault, on files that are there. *)
Lemma statAll_total (w : World) (files : list string) :
  (forall p w0, statFault env p w0 = None) ->
  incl files (map fst (backups w)) ->
  exists stats, statAll env w files = inr stats.
Proof.
  intros Hfault. induction files as [| file rest IH]; intros Hincl; cbn.
  - exists []. reflexivity.
  - rewrite Hfault.
    destruct (lookup_listed (backups w) file (Hincl file (or_introl eq_refl))) as (f & ->).
    destruct IH as (stats & ->); [intros x Hx; apply Hincl; right; exact Hx |].
    eexists. reflexivity.
Qed.

Lemma filter_none (l : list (string * File)) :
  filter (fun e => negb (existsb (String.eqb (fst e)) [])) l = l.
Proof.
  induction l as [| e l IH]; [reflexivity |].
  change (e :: filter (fun e => negb (existsb (String.eqb (fst e)) [])) l = e :: l).
  rewrite IH. reflexivity.
Qed.

Lemma filter_remove (l : list (string * File)) (file : string) (done : list string) :
  filter (fun e => negb (existsb (String.eqb (fst e)) done)) (remove l file)
  = filter (fun e => negb (existsb (String.eqb (fst e)) (file :: done))) l.
Proof.
  unfold remove. induction l as [| e l IH]; cbn; [reflexivity |].
  destruct (fst e =? file)%string; cbn; [exact IH |].
  destruct (existsb (String.eqb (fst e)) done); cbn; [exact IH |].
  rewrite IH. reflexivity.
Qed.

(** [unlink] has removed the first files of the list, up to the first
    failure, and nothing else has changed but the clock. *)
Lemma unlinkAll_effect (files : list string) (w : World) :
  exists done rest,
    files = (done ++ rest)%list
    /\ backups (unlinkAll env files w)
       = filter (fun e => negb (existsb (String.eqb (fst e)) done)) (backups w)
    /\ currentFile (unlinkAll env files w) = currentFile w
    /\ disk (unlinkAll env files w) = disk w
    /\ recentFiles (unlinkAll env files w) = recentFiles w
    /\ store (unlinkAll env files w) = store w
    /\ ((forall p w0, unlinkFault env p w0 = None) -> rest = []).
Proof.
  revert w. induction files as [| file more IH]; intros w.
  - exists [], []. split; [reflexivity |]. split; [symmetry; apply filter_none |].
    repeat split.
  - cbn [unlinkAll]. destruct (unlinkFault env (backupPath env file) w) as [m |] eqn:Hfault.
    + exists [], (file :: more). split; [reflexivity |].
      split; [symmetry; apply filter_none |]. repeat split.
      intros Hnone. rewrite Hnone in Hfault. discriminate Hfault.
    + destruct (IH (setBackups (remove (backups w) file) (setNow (later env w) w)))
        as (done & rest & Hfiles & Hb & Hc & Hd & Hr & Hs & Hall).
      exists (file :: done), rest. split; [cbn; rewrite Hfiles; reflexivity |].
      split; [| repeat split; assumption].
      rewrite Hb. cbn [backups setBackups setNow]. apply filter_remove.
Qed.

Lemma filter_length_permutation (B : Type) (f : B -> bool) (l l' : list B) :
  Permutation l l' -> length (filter f l) = length (filter f l').
Proof.
  induction 1 as [| x l l' _ IH | x y l | l l' l'' _ IH1 _ IH2]; cbn.
  - reflexivity.
  - destruct (f x); cbn; rewrite IH; reflexivity.
  - destruct (f x), (f y); reflexivity.
  - rewrite IH1. exact IH2.
Qed.

Lemma filter_by_name (B : Type) (p : string -> bool) (l : list (string * B)) :
  length (filter (fun e => p (fst e)) l) = length (filter p (map fst l)).
Proof.
  induction l as [| e l IH]; cbn; [reflexivity |].
  destruct (p (fst e)); cbn; rewrite IH; reflexivity.
Qed.

Lemma filter_all (p : string -> bool) (l : list string) :
  (forall x, In x l -> p x = true) -> filter p l = l.
Proof.
  induction l as [| x l IH]; cbn; intros H; [reflexivity |].
  rewrite (H x (or_introl eq_refl)), IH; [reflexivity |].
  intros y Hy. apply H. right. exact Hy.
Qed.

Lemma filter_nothing (p : string -> bool) (l : list string) :
  (forall x, In x l -> p x = false) -> filter p l = [].
Proof.
  induction l as [| x l IH]; cbn; intros H; [reflexivity |].
  rewrite (H x (or_introl eq_refl)). apply IH.
  intros y Hy. apply H. right. exact Hy.
Qed.

Lemma listed (name : string) (names : list string) :
  existsb (String.eqb name) names = true <-> In name names.
Proof.
  rewrite existsb_exists. split.
  - intros (x & Hin & Heq). apply String.eqb_eq in Heq. subst x. exact Hin.
  - intros Hin. exists name. split; [exact Hin | apply String.eqb_refl].
Qed.

(** With the names of [gone] taken away, as many entries are left as
    there are names in [stay]. *)
Lemma left_after_unlink (B : Type) (l : list (string * B)) (gone stay : list string) :
  Permutation (gone ++ stay) (map fst l) ->
  NoDup (map fst l) ->
  length (filter (fun e => negb (existsb (String.eqb (fst e)) gone)) l) = length stay.
Proof.
  intros Hperm Hnd.
  rewrite (filter_by_name B (fun name => negb (existsb (String.eqb name) gone)) l).
  rewrite <- (filter_length_permutation _ _ _ _ Hperm).
  rewrite filter_app, length_app.
  apply (Permutation_NoDup (Permutation_sym Hperm)) in Hnd.
  rewrite filter_nothing, filter_all; [reflexivity | |].
  - intros x Hx. apply negb_true_iff. destruct (existsb (String.eqb x) gone) eqn:Hin;
      [| reflexivity].
    apply listed in Hin. exfalso. revert Hnd Hin Hx. clear.
    induction gone as [| g gone IH]; cbn; intros Hnd Hin Hx; [exact Hin |].
    inversion Hnd as [| ? ? Hg Hrest]; subst. destruct Hin as [-> | Hin].
    + apply Hg. apply in_or_app. right. exact Hx.
    + apply (IH Hrest Hin Hx).
  - intros x Hx. apply negb_false_iff. apply listed. exact Hx.
Qed.

Lemma firstn_map_prefix (B : Type) (k : nat) (l : list (string * B)) (done rest : list string) :
  map fst (firstn k l) = (done ++ rest)%list ->
  map fst (firstn (length done) l) = done.
Proof.
  revert k l. induction done as [| d done IH]; intros k l Heq; [reflexivity |].
  destruct k as [| k]; [discriminate Heq |]. destruct l as [| e l]; [discriminate Heq |].
  cbn in Heq |- *. injection Heq as -> Heq. rewrite (IH k l Heq). reflexivity.
Qed.

Lemma firstn_prefix_length (B : Type) (k : nat) (l : list (string * B)) (done rest : list string) :
  map fst (firstn k l) = (done ++ rest)%list ->
  (length done + length rest <= k)%nat
  /\ (k <= length l -> length done + length rest = k)%nat.
Proof.
  intros Heq. apply (f_equal (@length string)) in Heq.
  rewrite length_map, length_firstn, length_app in Heq. lia.
Qed.

(** What [cleanupOldBackups] does: nothing, or it removes the files
    [gone], which stand in front of the files [stay] that it leaves, in
    the order of their times. *)
Lemma cleanup_effect (w : World) :
  NoDup (map fst (backups w)) ->
  currentFile (cleanupOldBackups env w) = currentFile w
  /\ disk (cleanupOldBackups env w) = disk w
  /\ recentFiles (cleanupOldBackups env w) = recentFiles w
  /\ store (cleanupOldBackups env w) = store w
  /\ ((backups (cleanupOldBackups env w) = backups w
       /\ ((length (backups w) <= 10)%nat
           \/ readdirFault env w <> None
           \/ exists m, statAll env (setNow (later env w) w) (map fst (backups w)) = inl m))
      \/ exists gone stay : list (string * Z),
           (10 < length (backups w))%nat
           /\ Permutation (map fst (gone ++ stay)) (map fst (backups w))
           /\ (forall name t, In (name, t) (gone ++ stay) ->
                 exists f, In (name, f) (backups w) /\ mtime f = t)
           /\ (forall name f, In (name, f) (backups w) -> In (name, mtime f) (gone ++ stay))
           /\ StronglySorted (fun a b => snd a - snd b <= 0) (gone ++ stay)
           /\ (10 <= length stay)%nat
           /\ ((forall p w0, unlinkFault env p w0 = None) -> length stay = 10%nat)
           /\ backups (cleanupOldBackups env w)
              = filter (fun e => negb (existsb (String.eqb (fst e)) (map fst gone)))
                  (backups w)).
Proof.
  intros Hnd. unfold cleanupOldBackups.
  destruct (readdirFault env w) as [m |] eqn:Hreaddir.
  { repeat (split; [reflexivity |]). left. split; [reflexivity |].
    right. left. discriminate. }
  rewrite length_map.
  destruct (Nat.leb_spec (length (backups w)) 10) as [Hfew | Hmany].
  { repeat (split; [reflexivity |]). left. split; [reflexivity |]. left. exact Hfew. }
  destruct (statAll env (setNow (later env w) w) (map fst (backups w)))
    as [m | backupFiles] eqn:Hstat.
  { repeat (split; [reflexivity |]). left. split; [reflexivity |]. right. right.
    exists m. reflexivity. }
  destruct (statAll_stats _ _ _ Hstat) as (Hnames & Hback & Hforth).
  cbn [backups setNow] in Hback, Hforth.
  set (sorted := sortBy (fun a b : string * Z => snd a - snd b) backupFiles).
  assert (Hperm : Permutation sorted backupFiles) by apply sortBy_permutation.
  assert (Hsorted : StronglySorted (fun a b : string * Z => snd a - snd b <= 0) sorted).
  { apply sortBy_sorted; intros; lia. }
  assert (Hlen : length sorted = length (backups w)).
  { rewrite (Permutation_length Hperm), <- (length_map fst backupFiles), Hnames.
    apply length_map. }
  destruct (unlinkAll_effect (map fst (firstn (length sorted - 10) sorted))
              (setNow (later env (setNow (later env w) w)) (setNow (later env w) w)))
    as (done & rest & Hfiles & Hb & Hc & Hd & Hr & Hs & Hall).
  split; [exact Hc |]. split; [exact Hd |]. split; [exact Hr |]. split; [exact Hs |].
  right. exists (firstn (length done) sorted), (skipn (length done) sorted).
  rewrite firstn_skipn.
  destruct (firstn_prefix_length _ _ _ _ _ Hfiles) as [Hle Heq].
  split; [exact Hmany |].
  split; [rewrite <- Hnames; apply Permutation_map; exact Hperm |].
  split.
  { intros name t Hin. apply (Permutation_in _ Hperm) in Hin.
    destruct (Hback name t Hin) as (f & Hf & Ht). exists f. split; [| exact Ht].
    apply listed_file. exact Hf. }
  split.
  { intros name f Hin. apply (Permutation_in _ (Permutation_sym Hperm)).
    apply Hforth; [apply (in_map fst _ _ Hin) | apply (file_of_name _ _ _ Hnd Hin)]. }
  split; [exact Hsorted |].
  split; [rewrite length_skipn; lia |].
  split.
  { intros Hnone. rewrite (Hall Hnone) in Heq. cbn in Heq. rewrite length_skipn. lia. }
  rewrite Hb. rewrite (firstn_map_prefix _ _ _ _ _ Hfiles). reflexivity.
Qed.

(** What [restoreFromBackup] does: it gives nothing, or the content of
    the file that the sort has put first. *)
Lemma restore_effect (w : World) :
  let w1 := setNow (later env w) w in
  let w2 := setNow (later env w1) w1 in
  (fst (restoreFromBackup env w) = None
   /\ (backups w = []
       \/ readdirFault env w <> None
       \/ (exists m, statAll env w1 (map fst (backups w)) = inl m)
       \/ exists name, readFault env (backupPath env name) w2 <> None))
  \/ exists name t rest file stats,
       statAll env w1 (map fst (backups w)) = inr stats
       /\ sortBy (fun a b : string * Z => snd b - snd a) stats = (name, t) :: rest
       /\ lookup (backups w) name = Some file
       /\ fst (restoreFromBackup env w)
          = Some {| path := ""; content := text file; saved := false;
                    lastModified := later env w2 |}.
Proof.
  intros w1 w2. unfold restoreFromBackup. fold w1. fold w2.
  destruct (readdirFault env w) as [m |] eqn:Hreaddir.
  { left. split; [reflexivity |]. right. left. discriminate. }
  rewrite length_map.
  destruct (backups w) as [| e l] eqn:Hdir.
  { left. split; [reflexivity |]. left. reflexivity. }
  rewrite <- Hdir. replace (length (backups w) =? 0)%nat with false
    by (rewrite Hdir; reflexivity).
  destruct (statAll env w1 (map fst (backups w))) as [m | stats] eqn:Hstat.
  { left. split; [reflexivity |]. right. right. left. exists m. reflexivity. }
  destruct (statAll_stats _ _ _ Hstat) as (Hnames & Hback & _).
  pose proof (sortBy_permutation _ (fun a b : string * Z => snd b - snd a) stats) as Hperm.
  destruct (sortBy (fun a b : string * Z => snd b - snd a) stats) as [| [name t] rest] eqn:Hsort.
  { exfalso. apply Permutation_nil in Hperm. subst stats. rewrite Hdir in Hnames.
    discriminate Hnames. }
  destruct (readFault env (backupPath env name) w2) as [m |] eqn:Hread.
  { left. split; [reflexivity |]. right. right. right. exists name. rewrite Hread. discriminate. }
  destruct (Hback name t (Permutation_in _ Hperm (or_introl eq_refl))) as (file & Hfile & _).
  cbn [backups setNow w1 w2] in Hfile |- *. rewrite Hfile.
  right. exists name, t, rest, file, stats.
  split; [reflexivity |]. split; [exact Hsort |]. split; [exact Hfile | reflexivity].
Qed.

Lemma restore_keeps (w : World) :
  currentFile (snd (restoreFromBackup env w)) = currentFile w
  /\ disk (snd (restoreFromBackup env w)) = disk w
  /\ backups (snd (restoreFromBackup env w)) = backups w
  /\ recentFiles (snd (restoreFromBackup env w)) = recentFiles w
  /\ store (snd (restoreFromBackup env w)) = store w.
Proof.
  unfold restoreFromBackup.
  destruct (readdirFault env w); [repeat split |].
  destruct (length (map fst (backups w)) =? 0)%nat; [repeat split |].
  destruct (statAll env _ _); [repeat split |].
  destruct (sortBy _ _) as [| [name t] rest]; [repeat split |].
  destruct (readFault env _ _); [repeat split |].
  destruct (lookup _ name); repeat split.
Qed.

(** The file that a sort by falling times puts first is as new as any. *)
Lemma first_is_newest (w : World) (stats rest : list (string * Z)) (name : string) (t : Z)
    (file : File) :
  statAll env w (map fst (backups w)) = inr stats ->
  sortBy (fun a b : string * Z => snd b - snd a) stats = (name, t) :: rest ->
  lookup (backups w) name = Some file ->
  forall name' file', lookup (backups w) name' = Some file' -> mtime file' <= mtime file.
Proof.
  intros Hstat Hsort Hfile name' file' Hfile'.
  destruct (statAll_stats _ _ _ Hstat) as (_ & Hback & Hforth).
  pose proof (sortBy_permutation _ (fun a b : string * Z => snd b - snd a) stats) as Hperm.
  assert (Hsorted : StronglySorted (fun a b : string * Z => snd b - snd a <= 0)
                      (sortBy (fun a b : string * Z => snd b - snd a) stats)).
  { apply sortBy_sorted; intros; lia. }
  rewrite Hsort in Hperm, Hsorted.
  destruct (Hback name t (Permutation_in _ Hperm (or_introl eq_refl))) as (f & Hf & Ht).
  rewrite Hfile in Hf. injection Hf as <-.
  assert (Hin : In (name', mtime file') ((name, t) :: rest)).
  { apply (Permutation_in _ (Permutation_sym Hperm)). apply Hforth; [| exact Hfile'].
    apply (in_map fst _ _ (listed_file _ _ _ Hfile')). }
  destruct Hin as [[= _ Heq] | Hin]; [lia |].
  inversion Hsorted as [| ? ? _ Hall]; subst. rewrite Forall_forall in Hall.
  specialize (Hall _ Hin). cbn in Hall. lia.
Qed.

Lemma statAll_fails (w : World) (files : list string) (m : string) :
  statAll env w files = inl m ->
  incl files (map fst (backups w)) ->
  exists p, statFault env p w = Some m.
Proof.
  induction files as [| file rest IH]; cbn; [discriminate |]. intros Hfail Hincl.
  destruct (statFault env (backupPath env file) w) as [m' |] eqn:Hhere.
  { injection Hfail as <-. exists (backupPath env file). exact Hhere. }
  destruct (lookup_listed (backups w) file (Hincl file (or_introl eq_refl))) as (f & Hf).
  rewrite Hf in Hfail.
  destruct (statAll env w rest) as [m' | stats]; [| discriminate].
  injection Hfail as <-. apply IH; [reflexivity |].
  intros x Hx. apply Hincl. right. exact Hx.
Qed.

(** *** Writing a backup *)

Lemma write_in (l : list (string * File)) (p : string) (f : File) (e : string * File) :
  In e (write l p f) -> e = (p, f) \/ In e l.
Proof.
  induction l as [| [q g] rest IH]; cbn.
  - intros [<- | []]. left. reflexivity.
  - destruct (q =? p)%string; cbn.
    + intros [<- | Hin]; [left; reflexivity | right; right; exact Hin].
    + intros [<- | Hin]; [right; left; reflexivity |].
      destruct (IH Hin) as [-> | H]; [left; reflexivity | right; right; exact H].
Qed.

Lemma write_names (l : list (string * File)) (p : string) (f : File) (x : string) :
  In x (map fst (write l p f)) -> x = p \/ In x (map fst l).
Proof.
  intros Hin. apply in_map_iff in Hin as (e & <- & He).
  destruct (write_in _ _ _ _ He) as [-> | H]; [left; reflexivity |].
  right. apply (in_map fst _ _ H).
Qed.

Lemma write_NoDup (l : list (string * File)) (p : string) (f : File) :
  NoDup (map fst l) -> NoDup (map fst (write l p f)).
Proof.
  induction l as [| [q g] rest IH]; cbn; intros Hnd.
  - constructor; [intros [] | constructor].
  - inversion Hnd as [| ? ? Hq Hrest]; subst.
    destruct (String.eqb_spec q p) as [-> | Hne]; cbn.
    + constructor; assumption.
    + constructor; [| apply IH; exact Hrest].
      intros Hin. destruct (write_names _ _ _ _ Hin) as [-> | H]; [apply Hne; reflexivity |].
      apply Hq. exact H.
Qed.

(** A backup that is newer than every other one outlives the clean-up. *)
Lemma cleanup_keeps_the_newest (w : World) (name : string) (file : File) :
  NoDup (map fst (backups w)) ->
  In (name, file) (backups w) ->
  (forall name' file', In (name', file') (backups w) -> (name', file') <> (name, file) ->
                       mtime file' < mtime file) ->
  In (name, file) (backups (cleanupOldBackups env w)).
Proof.
  intros Hnd Hin Hnewest.
  destruct (cleanup_effect w Hnd) as (_ & _ & _ & _ & Hbackups).
  destruct Hbackups
    as [(-> & _)
       | (gone & stay & Hmany & Hperm & Hback & Hforth & Hsorted & Hten & _ & ->)];
    [exact Hin |].
  apply filter_In. split; [exact Hin |]. cbn [fst].
  destruct (existsb (String.eqb name) (map fst gone)) eqn:Hgone; [| reflexivity].
  exfalso. apply listed in Hgone. apply in_map_iff in Hgone as ([n t] & Hn & Hgone).
  cbn in Hn. subst n.
  destruct (Hback name t (in_or_app _ _ _ (or_introl Hgone))) as (f & Hf & Ht).
  pose proof (file_of_name _ _ _ Hnd Hf) as H1. pose proof (file_of_name _ _ _ Hnd Hin) as H2.
  rewrite H1 in H2. injection H2 as ->.
  destruct stay as [| [n' t'] stay']; [cbn in Hten; lia |].
  pose proof (sorted_app _ _ gone ((n', t') :: stay') Hsorted _ _ Hgone (or_introl eq_refl))
    as Hle. cbn in Hle.
  destruct (Hback n' t' ltac:(apply in_or_app; right; left; reflexivity)) as (f' & Hf' & Ht').
  assert (Hother : (n', f') <> (name, file)).
  { intros [= -> ->].
    apply (Permutation_NoDup (Permutation_sym Hperm)) in Hnd.
    rewrite map_app in Hnd. revert Hnd Hgone. clear.
    induction gone as [| g gone IH]; cbn; intros Hnd Hgone; [exact Hgone |].
    inversion Hnd as [| ? ? Hg Hrest]; subst. destruct Hgone as [-> | Hgone].
    - apply Hg. apply in_or_app. right. left. reflexivity.
    - apply (IH Hrest Hgone). }
  specialize (Hnewest n' f' Hf' Hother). lia.
Qed.

Lemma cleanup_incl (w : World) :
  NoDup (map fst (backups w)) -> incl (backups (cleanupOldBackups env w)) (backups w).
Proof.
  intros Hnd. destruct (cleanup_effect w Hnd) as (_ & _ & _ & _ & Hbackups).
  destruct Hbackups as [(-> & _) | (gone & stay & _ & _ & _ & _ & _ & _ & _ & ->)].
  - apply incl_refl.
  - intros e He. apply filter_In in He. apply He.
Qed.

End BackupFacts.

(** [cleanupOldBackups] keeps the newest backups.  Whatever fails, it
    only removes files of the backup directory, it leaves at least ten of
    them (or all, where there are fewer), and no file it removes is newer
    than a file it leaves.  When nothing fails it leaves exactly ten (or
    all, where there are fewer).  It touches nothing else. *)
Theorem cleanup_keeps_the_newest_backups (env : FileHandler.Env) (w : FileHandler.World) :
  NoDup (map fst (FileHandler.backups w)) ->
  incl (FileHandler.backups (FileHandler.cleanupOldBackups env w)) (FileHandler.backups w)
  /\ (Nat.min 10 (length (FileHandler.backups w))
      <= length (FileHandler.backups (FileHandler.cleanupOldBackups env w)))%nat
  /\ (forall kept deleted,
        In kept (FileHandler.backups (FileHandler.cleanupOldBackups env w)) ->
        In deleted (FileHandler.backups w) ->
        ~ In deleted (FileHandler.backups (FileHandler.cleanupOldBackups env w)) ->
        FileHandler.mtime (snd deleted) <= FileHandler.mtime (snd kept))
  /\ ((forall w0, FileHandler.readdirFault env w0 = None) ->
      (forall p w0, FileHandler.statFault env p w0 = None) ->
      (forall p w0, FileHandler.unlinkFault env p w0 = None) ->
      length (FileHandler.backups (FileHandler.cleanupOldBackups env w))
      = Nat.min 10 (length (FileHandler.backups w)))
  /\ FileHandler.currentFile (FileHandler.cleanupOldBackups env w) = FileHandler.currentFile w
  /\ FileHandler.disk (FileHandler.cleanupOldBackups env w) = FileHandler.disk w
  /\ FileHandler.recentFiles (FileHandler.cleanupOldBackups env w) = FileHandler.recentFiles w.
Proof.
  intros Hnd.
  destruct (cleanup_effect env w Hnd) as (Hc & Hd & Hr & _ & Hbackups).
  assert (Hmain :
    incl (FileHandler.backups (FileHandler.cleanupOldBackups env w)) (FileHandler.backups w)
    /\ (Nat.min 10 (length (FileHandler.backups w))
        <= length (FileHandler.backups (FileHandler.cleanupOldBackups env w)))%nat
    /\ (forall kept deleted,
          In kept (FileHandler.backups (FileHandler.cleanupOldBackups env w)) ->
          In deleted (FileHandler.backups w) ->
          ~ In deleted (FileHandler.backups (FileHandler.cleanupOldBackups env w)) ->
          FileHandler.mtime (snd deleted) <= FileHandler.mtime (snd kept))
    /\ ((forall w0, FileHandler.readdirFault env w0 = None) ->
        (forall p w0, FileHandler.statFault env p w0 = None) ->
        (forall p w0, FileHandler.unlinkFault env p w0 = None) ->
        length (FileHandler.backups (FileHandler.cleanupOldBackups env w))
        = Nat.min 10 (length (FileHandler.backups w))));
    [| tauto].
  destruct Hbackups
    as [(-> & Hwhy)
       | (gone & stay & Hmany & Hperm & Hback & Hforth & Hsorted & Hten & Hexact & ->)].
  - (* nothing is removed *)
    split; [apply incl_refl |]. split; [lia |].
    split; [intros kept deleted _ Hin Hout; contradiction |].
    intros Hreaddir Hstat _. destruct Hwhy as [Hfew | [Hfault | (m & Hfault)]].
    + lia.
    + rewrite Hreaddir in Hfault. contradiction.
    + destruct (statAll_total env (FileHandler.setNow (FileHandler.later env w) w)
                  (map fst (FileHandler.backups w)) Hstat (incl_refl _)) as (stats & Hstats).
      rewrite Hstats in Hfault. discriminate Hfault.
  - (* the files [gone] are removed *)
    rewrite map_app in Hperm.
    assert (Hleft : length (filter (fun e => negb (existsb (String.eqb (fst e)) (map fst gone)))
                              (FileHandler.backups w)) = length stay).
    { rewrite (left_after_unlink _ _ _ (map fst stay) Hperm Hnd). apply length_map. }
    split; [intros e He; apply filter_In in He; apply He |].
    split; [rewrite Hleft; lia |].
    split.
    + intros [kname kfile] [dname dfile] Hkept Hin Hout.
      apply filter_In in Hkept as [Hkin Hkname]. cbn [fst snd] in *.
      (* the deleted file is one of [gone] *)
      assert (Hdgone : In (dname, FileHandler.mtime dfile) gone).
      { destruct (existsb (String.eqb dname) (map fst gone)) eqn:Hd'.
        - apply listed in Hd'. apply in_map_iff in Hd' as ([n t] & Hn & Hgone).
          cbn in Hn. subst n.
          destruct (Hback dname t (in_or_app _ _ _ (or_introl Hgone))) as (f & Hf & Ht).
          pose proof (file_of_name _ _ _ Hnd Hf) as H1.
          pose proof (file_of_name _ _ _ Hnd Hin) as H2.
          rewrite H1 in H2. injection H2 as ->. rewrite Ht. exact Hgone.
        - exfalso. apply Hout. apply filter_In. split; [exact Hin |].
          cbn [fst]. rewrite Hd'. reflexivity. }
      (* the kept file is one of [stay] *)
      assert (Hkstay : In (kname, FileHandler.mtime kfile) stay).
      { destruct (in_app_or _ _ _ (Hforth kname kfile Hkin)) as [Hgone | Hstay];
          [| exact Hstay].
        exfalso. apply negb_true_iff in Hkname.
        assert (Hl : existsb (String.eqb kname) (map fst gone) = true).
        { apply listed. apply (in_map fst _ _ Hgone). }
        rewrite Hl in Hkname. discriminate Hkname. }
      pose proof (sorted_app _ _ gone stay Hsorted _ _ Hdgone Hkstay) as Hle.
      cbn in Hle. lia.
    + intros _ _ Hunlink. rewrite Hleft, (Hexact Hunlink). lia.
Qed.

Lemma cleanup_keeps_the_newest_backups_witness :
  length (FileHandler.backups
            (FileHandler.cleanupOldBackups FileFixtures.desk FileFixtures.crowded)) = 10%nat
  /\ forall kept deleted,
       In kept (FileHandler.backups
                  (FileHandler.cleanupOldBackups FileFixtures.desk FileFixtures.crowded)) ->
       In deleted (FileHandler.backups FileFixtures.crowded) ->
       ~ In deleted (FileHandler.backups
                       (FileHandler.cleanupOldBackups FileFixtures.desk FileFixtures.crowded)) ->
       FileHandler.mtime (snd deleted) <= FileHandler.mtime (snd kept).
Proof.
  destruct (cleanup_keeps_the_newest_backups FileFixtures.desk FileFixtures.crowded)
    as (_ & _ & Holder & Hexact & _).
  - vm_compute. repeat constructor; cbn; intuition discriminate.
  - split; [| exact Holder].
    apply Hexact; intros; reflexivity.
Defined.

(** [restoreFromBackup] gives the newest backup.  When it gives a file,
    the file has no path and does not count as saved, and its content is
    that of a backup than which the directory holds no newer one.  It
    gives nothing only when the directory is empty or a call of the
    platform has failed.  It never makes the file the current one, and it
    changes nothing on the disk. *)
Theorem restore_gives_the_newest_backup (env : FileHandler.Env) (w : FileHandler.World) :
  match FileHandler.restoreFromBackup env w with
  | (Some f, w') =>
      FileHandler.path f = ""
      /\ FileHandler.saved f = false
      /\ (exists name file,
            FileHandler.lookup (FileHandler.backups w) name = Some file
            /\ FileHandler.text file = FileHandler.content f
            /\ forall name' file',
                 FileHandler.lookup (FileHandler.backups w) name' = Some file' ->
                 FileHandler.mtime file' <= FileHandler.mtime file)
      /\ FileHandler.currentFile w' = FileHandler.currentFile w
      /\ FileHandler.disk w' = FileHandler.disk w
      /\ FileHandler.backups w' = FileHandler.backups w
  | (None, w') =>
      (FileHandler.backups w = []
       \/ FileHandler.readdirFault env w <> None
       \/ (exists p w0, FileHandler.statFault env p w0 <> None)
       \/ (exists p w0, FileHandler.readFault env p w0 <> None))
      /\ FileHandler.currentFile w' = FileHandler.currentFile w
      /\ FileHandler.disk w' = FileHandler.disk w
      /\ FileHandler.backups w' = FileHandler.backups w
  end.
Proof.
  pose proof (restore_keeps env w) as (Hc & Hd & Hb & _ & _).
  pose proof (restore_effect env w) as Heffect. cbn zeta in Heffect.
  destruct (FileHandler.restoreFromBackup env w) as [r w']. cbn [fst snd] in *.
  destruct Heffect as [(-> & Hwhy) | (name & t & rest & file & stats & Hstat & Hsort & Hfile & ->)].
  - split; [| repeat split; assumption].
    destruct Hwhy as [Hempty | [Hreaddir | [(m & Hstat) | (name & Hread)]]].
    + left. exact Hempty.
    + right. left. exact Hreaddir.
    + right. right. left.
      destruct (statAll_fails env _ _ m Hstat (incl_refl _)) as (p & Hp).
      exists p. eexists. rewrite Hp. discriminate.
    + right. right. right. eexists. eexists. exact Hread.
  - cbn [FileHandler.path FileHandler.saved FileHandler.content].
    split; [reflexivity |]. split; [reflexivity |]. split; [| repeat split; assumption].
    exists name, file. split; [exact Hfile |]. split; [reflexivity |].
    apply (first_is_newest env (FileHandler.setNow (FileHandler.later env w) w)
             stats rest name t file Hstat Hsort Hfile).
Qed.

(** The backup just made is the one that is restored.  Take a directory
    whose backups are all older than the clock's reading.  If writing,
    listing, [stat] and reading do not fail, then, even if the clean-up
    fails to remove files, [restoreFromBackup] after [createBackup] gives
    the content that was backed up. *)
Theorem backup_is_what_restore_gives
    (env : FileHandler.Env) (content : string) (w : FileHandler.World) :
  NoDup (map fst (FileHandler.backups w)) ->
  (forall name file, In (name, file) (FileHandler.backups w) ->
                     FileHandler.mtime file < FileHandler.now w) ->
  (forall p w0, FileHandler.writeFault env p w0 = None) ->
  (forall w0, FileHandler.readdirFault env w0 = None) ->
  (forall p w0, FileHandler.statFault env p w0 = None) ->
  (forall p w0, FileHandler.readFault env p w0 = None) ->
  exists f,
    fst (FileHandler.restoreFromBackup env (FileHandler.createBackup env content w)) = Some f
    /\ FileHandler.content f = content
    /\ FileHandler.path f = ""
    /\ FileHandler.saved f = false.
Proof.
  intros Hnd Hold Hwrite Hreaddir Hstat Hread.
  unfold FileHandler.createBackup. rewrite Hwrite.
  set (name := FileHandler.backupName env (FileHandler.now w)).
  set (new := {| FileHandler.text := content; FileHandler.mtime := FileHandler.now w |}).
  set (w1 := FileHandler.setBackups (FileHandler.write (FileHandler.backups w) name new) w).
  assert (Hnd1 : NoDup (map fst (FileHandler.backups w1))) by (apply write_NoDup; exact Hnd).
  assert (Hnew1 : FileHandler.lookup (FileHandler.backups w1) name = Some new)
    by apply lookup_write.
  assert (Hin1 : forall n f, In (n, f) (FileHandler.backups w1) ->
                             (n, f) = (name, new) \/ FileHandler.mtime f < FileHandler.now w).
  { intros n f Hin. destruct (write_in _ _ _ _ Hin) as [-> | H];
      [left; reflexivity | right; apply (Hold n f H)]. }
  set (w2 := FileHandler.cleanupOldBackups env w1).
  assert (Hkept : In (name, new) (FileHandler.backups w2)).
  { apply cleanup_keeps_the_newest; [exact Hnd1 | apply listed_file; exact Hnew1 |].
    intros n f Hin Hother. destruct (Hin1 n f Hin) as [Heq | Hlt]; [contradiction | exact Hlt]. }
  assert (Hincl : incl (FileHandler.backups w2) (FileHandler.backups w1))
    by (apply cleanup_incl; exact Hnd1).
  pose proof (restore_effect env w2) as Heffect. cbn zeta in Heffect.
  destruct Heffect
    as [(_ & Hwhy) | (name0 & t & rest & file & stats & Hstats & Hsort & Hfile & ->)].
  - exfalso. destruct Hwhy as [Hempty | [Hfault | [(m & Hfail) | (p & Hfault)]]].
    + rewrite Hempty in Hkept. destruct Hkept.
    + apply Hfault. apply Hreaddir.
    + destruct (statAll_total env (FileHandler.setNow (FileHandler.later env w2) w2)
                  (map fst (FileHandler.backups w2)) Hstat (incl_refl _)) as (s & Hs).
      rewrite Hs in Hfail. discriminate Hfail.
    + apply Hfault. apply Hread.
  - eexists. split; [reflexivity |]. cbn. split; [| split; reflexivity].
    (* the file restored is as new as the one just written *)
    destruct (lookup_listed (FileHandler.backups w2) name (in_map fst _ _ Hkept)) as (g & Hg).
    assert (g = new) as ->.
    { pose proof (file_of_name _ _ _ Hnd1 (Hincl _ (listed_file _ _ _ Hg))) as H.
      rewrite Hnew1 in H. injection H as <-. reflexivity. }
    pose proof (first_is_newest env (FileHandler.setNow (FileHandler.later env w2) w2)
                  stats rest name0 t file Hstats Hsort Hfile name new Hg) as Hle.
    destruct (Hin1 name0 file (Hincl _ (listed_file _ _ _ Hfile))) as [[= _ ->] | Hlt].
    + reflexivity.
    + cbn in Hle. lia.
Qed.

Lemma backup_is_what_restore_gives_witness :
  exists f,
    fst (FileHandler.restoreFromBackup FileFixtures.desk
           (FileHandler.createBackup FileFixtures.desk "the latest words" FileFixtures.crowded))
    = Some f
    /\ FileHandler.content f = "the latest words"
    /\ FileHandler.path f = ""
    /\ FileHandler.saved f = false.
Proof.
  apply (backup_is_what_restore_gives FileFixtures.desk "the latest words"
           FileFixtures.crowded).
  - vm_compute. repeat constructor; cbn; intuition discriminate.
  - intros name file Hin. vm_compute in Hin.
    repeat (destruct Hin as [[= <- <-] | Hin]; [reflexivity |]). destruct Hin.
  - intros p w0. reflexivity.
  - intros w0. reflexivity.
  - intros p w0. reflexivity.
  - intros p w0. reflexivity.
Defined.

(* ================================================================== *)
(** ** Properties of the undo history *)
(* ================================================================== *)

Section HistoryFacts.
Import EditorContext.

Lemma at_app_last (l : list string) (c : string) : at_ (l ++ [c]) (length l) = Some c.
Proof.
  unfold at_, length. destruct (Z.ltb_spec (Z.of_nat (List.length l)) 0) as [H | _]; [lia |].
  rewrite Nat2Z.id, nth_error_app2, Nat.sub_diag by lia. reflexivity.
Qed.

Lemma at_app_front (l : list string) (c : string) (i : Z) :
  0 <= i < length l -> at_ (l ++ [c]) i = at_ l i.
Proof.
  unfold at_, length. intros Hi. destruct (Z.ltb_spec i 0) as [H | _]; [lia |].
  apply nth_error_app1. lia.
Qed.

Lemma at_slice0 (l : list string) (n i : Z) :
  0 <= i < n -> at_ (slice0 l n) i = at_ l i.
Proof.
  unfold at_, slice0. intros Hi. destruct (Z.ltb_spec i 0) as [H | _]; [lia |].
  rewrite nth_error_firstn. destruct (Nat.ltb_spec (Z.to_nat i) (Z.to_nat n)); [reflexivity | lia].
Qed.

Lemma length_slice0 (l : list string) (n : Z) :
  0 <= n <= length l -> length (slice0 l n) = n.
Proof.
  unfold length, slice0. intros Hn. rewrite length_firstn. lia.
Qed.

Lemma length_app_one (l : list string) (c : string) : length (l ++ [c]) = length l + 1.
Proof. unfold length. rewrite length_app. cbn. lia. Qed.

(** What [addToHistory] leaves: the entries up to the index, then the new
    one, on which the index stands. *)
Lemma addToHistory_effect (c : string) (s : State) :
  inside s ->
  length (history (addToHistory c s)) = historyIndex s + 2
  /\ historyIndex (addToHistory c s) = historyIndex s + 1
  /\ at_ (history (addToHistory c s)) (historyIndex s + 1) = Some c
  /\ forall i, 0 <= i <= historyIndex s ->
               at_ (history (addToHistory c s)) i = at_ (history s) i.
Proof.
  intros Hin. unfold inside in Hin. unfold addToHistory. cbn [history historyIndex].
  destruct (Z.ltb_spec (historyIndex s) (length (history s) - 1)) as [Hmid | Hend].
  - pose proof (length_slice0 (history s) (historyIndex s + 1) ltac:(lia)) as Hlen.
    split; [rewrite length_app_one, Hlen; lia |]. split; [reflexivity |].
    split; [rewrite <- Hlen at 2; apply at_app_last |].
    intros i Hi. rewrite at_app_front by (rewrite Hlen; lia). apply at_slice0. lia.
  - assert (Hlen : length (history s) = historyIndex s + 1) by lia.
    split; [rewrite length_app_one; lia |]. split; [reflexivity |].
    split; [rewrite <- Hlen; apply at_app_last |].
    intros i Hi. apply at_app_front. lia.
Qed.

Lemma act_inside (a : Action) (s : State) : inside s -> inside (act a s).
Proof.
  intros Hin. destruct a as [c | c | |]; cbn [act].
  - exact Hin.
  - destruct (addToHistory_effect c s Hin) as (Hlen & Hidx & _).
    unfold inside in *. rewrite Hlen, Hidx. lia.
  - unfold undo, inside in *. destruct (Z.ltb_spec 0 (historyIndex s)); cbn; lia.
  - unfold redo, inside in *.
    destruct (Z.ltb_spec (historyIndex s) (length (history s) - 1)); cbn; lia.
Qed.

Lemma acts_inside (l : list Action) (s : State) : inside s -> inside (acts l s).
Proof.
  revert s. induction l as [| a l IH]; intros s Hin; [exact Hin |].
  apply IH. apply act_inside. exact Hin.
Qed.

End HistoryFacts.

(** Undo and redo walk the history.  In every state that calls of the
    handlers lead to from the first render, the index points into the
    history.  Right after [addToHistory(c)], [undo] gives the entry the
    index stood on before, which is there, and [redo] after that gives [c]
    and puts the index back.  An entry added after the undo takes the
    place of [c]: then there is nothing to redo, and [undo] gives the same
    entry again. *)
Theorem undo_and_redo_walk_the_history (l : list EditorContext.Action) (c : string) :
  let s := EditorContext.acts l EditorContext.initial in
  let added := EditorContext.addToHistory c s in
  let undone := snd (EditorContext.undo added) in
  EditorContext.inside s
  /\ (exists previous,
        EditorContext.at_ (EditorContext.history s) (EditorContext.historyIndex s)
        = Some previous
        /\ fst (EditorContext.undo added) = Some previous
        /\ EditorContext.content undone = Some previous
        /\ forall c',
             fst (EditorContext.undo (EditorContext.addToHistory c' undone)) = Some previous
             /\ EditorContext.redo (EditorContext.addToHistory c' undone)
                = (Some previous, EditorContext.addToHistory c' undone))
  /\ EditorContext.historyIndex undone = EditorContext.historyIndex s
  /\ fst (EditorContext.redo undone) = Some c
  /\ EditorContext.historyIndex (snd (EditorContext.redo undone))
     = EditorContext.historyIndex added.
Proof.
  intros s added undone.
  assert (Hin : EditorContext.inside s).
  { apply acts_inside. unfold EditorContext.inside. cbn. lia. }
  destruct (addToHistory_effect c s Hin) as (Hlen & Hidx & Hnew & Hold).
  assert (Hundo : EditorContext.undo added
                  = (EditorContext.at_ (EditorContext.history s) (EditorContext.historyIndex s),
                     {| EditorContext.content :=
                          EditorContext.at_ (EditorContext.history s)
                            (EditorContext.historyIndex s);
                        EditorContext.history := EditorContext.history added;
                        EditorContext.historyIndex := EditorContext.historyIndex s |})).
  { unfold EditorContext.undo. fold added in Hidx, Hold. rewrite Hidx.
    unfold EditorContext.inside in Hin.
    destruct (Z.ltb_spec 0 (EditorContext.historyIndex s + 1)) as [_ | H]; [| lia].
    replace (EditorContext.historyIndex s + 1 - 1) with (EditorContext.historyIndex s) by lia.
    rewrite (Hold (EditorContext.historyIndex s)) by lia. reflexivity. }
  assert (Hprevious : exists previous,
             EditorContext.at_ (EditorContext.history s) (EditorContext.historyIndex s)
             = Some previous).
  { unfold EditorContext.inside, EditorContext.length in Hin. unfold EditorContext.at_.
    destruct (Z.ltb_spec (EditorContext.historyIndex s) 0) as [H | _]; [lia |].
    destruct (nth_error (EditorContext.history s) (Z.to_nat (EditorContext.historyIndex s)))
      as [previous |] eqn:Hnth; [exists previous; reflexivity |].
    apply nth_error_None in Hnth. lia. }
  destruct Hprevious as (previous & Hprevious).
  assert (Hundone : EditorContext.inside undone
                    /\ EditorContext.historyIndex undone = EditorContext.historyIndex s
                    /\ EditorContext.history undone = EditorContext.history added
                    /\ EditorContext.content undone = Some previous).
  { subst undone. rewrite Hundo. cbn [snd EditorContext.historyIndex EditorContext.history
                                         EditorContext.content].
    split; [| split; [reflexivity | split; [reflexivity | exact Hprevious]]].
    unfold EditorContext.inside in *. cbn [EditorContext.historyIndex EditorContext.history].
    fold added in Hlen. rewrite Hlen. lia. }
  destruct Hundone as (Hin' & Hidx' & Hhist' & Hcontent').
  split; [exact Hin |]. split.
  { exists previous. split; [exact Hprevious |].
    split; [rewrite Hundo; exact Hprevious |]. split; [exact Hcontent' |].
    intros c'. destruct (addToHistory_effect c' undone Hin') as (Hlen2 & Hidx2 & _ & Hold2).
    split.
    - unfold EditorContext.undo. rewrite Hidx2, Hidx'.
      unfold EditorContext.inside in Hin.
      destruct (Z.ltb_spec 0 (EditorContext.historyIndex s + 1)) as [_ | H]; [| lia].
      cbn [fst].
      replace (EditorContext.historyIndex s + 1 - 1) with (EditorContext.historyIndex s) by lia.
      rewrite Hold2 by lia. rewrite Hhist'. fold added in Hold. rewrite Hold by lia.
      exact Hprevious.
    - unfold EditorContext.redo. rewrite Hidx2, Hlen2.
      destruct (Z.ltb_spec (EditorContext.historyIndex undone + 1)
                  (EditorContext.historyIndex undone + 2 - 1)) as [H | _]; [lia |].
      f_equal. unfold EditorContext.addToHistory. cbn [EditorContext.content].
      exact Hcontent'. }
  split; [exact Hidx' |].
  assert (Hredo : EditorContext.redo undone
                  = (Some c,
                     {| EditorContext.content := Some c;
                        EditorContext.history := EditorContext.history undone;
                        EditorContext.historyIndex := EditorContext.historyIndex undone + 1 |})).
  { unfold EditorContext.redo. rewrite Hhist', Hidx'. fold added in Hlen, Hnew. rewrite Hlen.
    destruct (Z.ltb_spec (EditorContext.historyIndex s)
                (EditorContext.historyIndex s + 2 - 1)) as [_ | H]; [| lia].
    rewrite Hnew. reflexivity. }
  rewrite Hredo. split; [reflexivity |]. cbn [snd EditorContext.historyIndex].
  fold added in Hidx. rewrite Hidx, Hidx'. reflexivity.
Qed.

(* ================================================================== *)
(** ** Properties of the selection handler *)
(* ================================================================== *)

Section SelectionFacts.
Import SelectionHandler.
Variable test : option ascii -> bool.
Variable s : string.

(** The loop to the left stops at the start of the run of code units that
    pass the test, and it has rounds enough to get there. *)
Lemma back_run (fuel : nat) (start0 : Z) :
  0 <= start0 <= Z.of_nat fuel ->
  0 <= back test s fuel start0 <= start0
  /\ (forall k, back test s fuel start0 <= k < start0 -> test (at_ s k) = true)
  /\ (back test s fuel start0 = 0 \/ test (at_ s (back test s fuel start0 - 1)) = false).
Proof.
  revert start0. induction fuel as [| fuel IH]; intros start0 Hrange.
  - cbn [back]. assert (start0 = 0) as -> by lia.
    split; [lia |]. split; [intros k Hk; lia | left; reflexivity].
  - cbn [back]. destruct (Z.ltb_spec 0 start0) as [Hpos | Hzero]; cbn [andb].
    + destruct (test (at_ s (start0 - 1))) eqn:Htest.
      * destruct (IH (start0 - 1) ltac:(lia)) as (Hr & Hall & Hstop).
        split; [lia |]. split; [| exact Hstop].
        intros k Hk. destruct (Z.eq_dec k (start0 - 1)) as [-> | Hne]; [exact Htest |].
        apply Hall. lia.
      * split; [lia |]. split; [intros k Hk; lia | right; exact Htest].
    + split; [lia |]. split; [intros k Hk; lia | left; lia].
Qed.

(** So does the loop to the right. *)
Lemma forth_run (fuel : nat) (end0 : Z) :
  end0 <= len s -> len s - end0 <= Z.of_nat fuel ->
  end0 <= forth test s fuel end0 <= len s
  /\ (forall k, end0 <= k < forth test s fuel end0 -> test (at_ s k) = true)
  /\ (forth test s fuel end0 = len s \/ test (at_ s (forth test s fuel end0)) = false).
Proof.
  revert end0. induction fuel as [| fuel IH]; intros end0 Hle Hfuel.
  - cbn [forth]. assert (end0 = len s) as -> by lia.
    split; [lia |]. split; [intros k Hk; lia | left; reflexivity].
  - cbn [forth]. destruct (Z.ltb_spec end0 (len s)) as [Hin | Hout]; cbn [andb].
    + destruct (test (at_ s end0)) eqn:Htest.
      * destruct (IH (end0 + 1) ltac:(lia) ltac:(lia)) as (Hr & Hall & Hstop).
        split; [lia |]. split; [| exact Hstop].
        intros k Hk. destruct (Z.eq_dec k end0) as [-> | Hne]; [exact Htest |].
        apply Hall. lia.
      * split; [lia |]. split; [intros k Hk; lia | right; exact Htest].
    + split; [lia |]. split; [intros k Hk; lia | left; lia].
Qed.

(** A code unit of a substring is one of the text. *)
Lemma substring_unit (a b : Z) (i : nat) (c : ascii) :
  0 <= a <= b ->
  String.get i (substring s a b) = Some c ->
  a <= a + Z.of_nat i < b /\ at_ s (a + Z.of_nat i) = Some c.
Proof.
  intros Hab Hget. unfold substring in Hget.
  destruct (Nat.lt_ge_cases i (Z.to_nat (b - a))) as [Hlt | Hge].
  - rewrite String.substring_correct1 in Hget by exact Hlt.
    split; [lia |]. unfold at_.
    destruct (Z.ltb_spec (a + Z.of_nat i) 0) as [Hneg | _]; [lia |].
    replace (Z.to_nat (a + Z.of_nat i)) with (i + Z.to_nat a)%nat by lia. exact Hget.
  - rewrite String.substring_correct2 in Hget by exact Hge. discriminate Hget.
Qed.

End SelectionFacts.

(** [selectWord] and [selectLine], asked at a position inside the text,
    select the run of word characters, or of characters other than the
    line break, that lies around the position.  The selection becomes the
    current one; it starts at or before the position and ends at or after
    it, inside the text; its text is that part of the text; every code unit
    in it passes the test, and the run cannot be made longer: it starts at
    the start of the text or after a code unit that fails the test, and it
    ends at the end of the text or at a code unit that fails it.  A line
    that is selected has no line break in it. *)
Theorem selections_are_the_runs_around_the_position
    (s : string) (position : Z) (current : SelectionHandler.t) :
  0 <= position < SelectionHandler.len s ->
  (let (selection, after) := SelectionHandler.selectWord s position current in
   after = Some selection
   /\ 0 <= SelectionHandler.start selection <= position
   /\ position <= SelectionHandler.end_ selection <= SelectionHandler.len s
   /\ SelectionHandler.text selection
      = SelectionHandler.substring s (SelectionHandler.start selection)
          (SelectionHandler.end_ selection)
   /\ (forall k, SelectionHandler.start selection <= k < SelectionHandler.end_ selection ->
                 SelectionHandler.wordChar (SelectionHandler.at_ s k) = true)
   /\ (SelectionHandler.start selection = 0
       \/ SelectionHandler.wordChar
            (SelectionHandler.at_ s (SelectionHandler.start selection - 1)) = false)
   /\ (SelectionHandler.end_ selection = SelectionHandler.len s
       \/ SelectionHandler.wordChar
            (SelectionHandler.at_ s (SelectionHandler.end_ selection)) = false))
  /\
  (let (selection, after) := SelectionHandler.selectLine s position current in
   after = Some selection
   /\ 0 <= SelectionHandler.start selection <= position
   /\ position <= SelectionHandler.end_ selection <= SelectionHandler.len s
   /\ SelectionHandler.text selection
      = SelectionHandler.substring s (SelectionHandler.start selection)
          (SelectionHandler.end_ selection)
   /\ (forall i c, String.get i (SelectionHandler.text selection) = Some c ->
                   Js.code c <> 10)
   /\ (SelectionHandler.start selection = 0
       \/ SelectionHandler.at_ s (SelectionHandler.start selection - 1) = Some "010"%char)
   /\ (SelectionHandler.end_ selection = SelectionHandler.len s
       \/ SelectionHandler.at_ s (SelectionHandler.end_ selection) = Some "010"%char)).
Proof.
  intros Hposition.
  assert (Hguard : ((s =? "")%string || (position <? 0) || (SelectionHandler.len s <=? position))
                   = false).
  { destruct s as [| c rest]; [unfold SelectionHandler.len in Hposition; cbn in Hposition; lia |].
    cbn [String.eqb orb].
    destruct (Z.ltb_spec position 0); [lia |].
    destruct (Z.leb_spec (SelectionHandler.len (String c rest)) position); [lia |].
    reflexivity. }
  assert (Hbreak : forall c, SelectionHandler.notNewline c = false -> c = Some "010"%char).
  { intros [c |] Hc; [| discriminate Hc]. cbn in Hc. apply negb_false_iff in Hc.
    apply Z.eqb_eq in Hc. f_equal. unfold Js.code in Hc.
    rewrite <- (ascii_N_embedding c). replace (N_of_ascii c) with 10%N by lia. reflexivity. }
  split.
  - unfold SelectionHandler.selectWord. rewrite Hguard. cbn [SelectionHandler.start
      SelectionHandler.end_ SelectionHandler.text].
    destruct (back_run SelectionHandler.wordChar s (Z.to_nat position) position
                ltac:(lia)) as (Hstart & Hleft & Hfirst).
    destruct (forth_run SelectionHandler.wordChar s
                (Z.to_nat (SelectionHandler.len s - position)) position
                ltac:(lia) ltac:(lia)) as (Hend & Hright & Hlast).
    split; [reflexivity |]. split; [exact Hstart |]. split; [exact Hend |].
    split; [reflexivity |]. split; [| split; assumption].
    intros k Hk. destruct (Z.lt_ge_cases k position); [apply Hleft | apply Hright]; lia.
  - unfold SelectionHandler.selectLine. rewrite Hguard. cbn [SelectionHandler.start
      SelectionHandler.end_ SelectionHandler.text].
    destruct (back_run SelectionHandler.notNewline s (Z.to_nat position) position
                ltac:(lia)) as (Hstart & Hleft & Hfirst).
    destruct (forth_run SelectionHandler.notNewline s
                (Z.to_nat (SelectionHandler.len s - position)) position
                ltac:(lia) ltac:(lia)) as (Hend & Hright & Hlast).
    split; [reflexivity |]. split; [exact Hstart |]. split; [exact Hend |].
    split; [reflexivity |]. split.
    + intros i c Hget. apply substring_unit in Hget as [Hk Hc]; [| lia].
      assert (Htest : SelectionHandler.notNewline
                        (SelectionHandler.at_ s
                           (SelectionHandler.back SelectionHandler.notNewline s
                              (Z.to_nat position) position + Z.of_nat i)) = true).
      { destruct (Z.lt_ge_cases
                    (SelectionHandler.back SelectionHandler.notNewline s
                       (Z.to_nat position) position + Z.of_nat i) position);
          [apply Hleft | apply Hright]; lia. }
      rewrite Hc in Htest. cbn in Htest. apply negb_true_iff in Htest.
      apply Z.eqb_neq in Htest. exact Htest.
    + split.
      * destruct Hfirst as [H | H]; [left; exact H | right; apply Hbreak; exact H].
      * destruct Hlast as [H | H]; [left; exact H | right; apply Hbreak; exact H].
Qed.

Lemma selections_are_the_runs_around_the_position_witness :
  (0 <= SelectionHandler.start (fst (SelectionHandler.selectWord "one two, three" 5 None)) <= 5
   /\ 5 <= SelectionHandler.end_ (fst (SelectionHandler.selectWord "one two, three" 5 None))
        <= 14)
  /\ snd (SelectionHandler.selectLine "one two, three" 5 None)
     = Some (fst (SelectionHandler.selectLine "one two, three" 5 None)).
Proof.
  pose proof (selections_are_the_runs_around_the_position "one two, three" 5 None
                ltac:(unfold SelectionHandler.len; cbn; lia)) as [Hword Hline].
  destruct (SelectionHandler.selectWord "one two, three" 5 None) as [word after].
  destruct (SelectionHandler.selectLine "one two, three" 5 None) as [line after'].
  cbn [fst snd]. split; [split; apply Hword | apply Hline].
Defined.

(* ================================================================== *)
(** ** Properties of the window states *)
(* ================================================================== *)

Section WindowFacts.
Import WindowManager.

Lemma lookup_assign (states : States) (id : string) (v : WindowState.t) :
  id <> "__proto__" ->
  lookup (assign states id v) id = Some v.
Proof.
  intros Hid. unfold assign. apply String.eqb_neq in Hid. rewrite Hid.
  induction states as [| [k u] rest IH]; cbn.
  - rewrite String.eqb_refl. reflexivity.
  - destruct (String.eqb_spec k id) as [-> | Hne]; cbn.
    + rewrite String.eqb_refl. reflexivity.
    + destruct (String.eqb_spec k id) as [-> | _]; [contradiction | exact IH].
Qed.

Lemma lookup_assign_other (states : States) (id other : string) (v : WindowState.t) :
  other <> id -> lookup (assign states id v) other = lookup states other.
Proof.
  intros Hne. unfold assign. destruct (id =? "__proto__")%string; [reflexivity |].
  induction states as [| [k u] rest IH]; cbn.
  - destruct (String.eqb_spec id other) as [-> | _]; [contradiction | reflexivity].
  - destruct (String.eqb_spec k id) as [-> | Hk]; cbn.
    + destruct (String.eqb_spec id other) as [-> | _]; [contradiction | reflexivity].
    + destruct (String.eqb_spec k other); [reflexivity | exact IH].
Qed.

End WindowFacts.

(** A window is restored where it can be seen.  Whatever the store holds
    and whatever fails, a state that [restoreWindowState] gives with both
    coordinates puts the whole window inside one of the displays.  And a
    window that was saved comes back: after [saveWindowState], when the
    store does not fail and the displays are known, [restoreWindowState]
    gives the size and the flag of the window, with its position if the
    window lies inside one of the displays and with no position otherwise;
    the states of the other windows are as before.  This is so for every
    window id but [__proto__]: saving under that name stores nothing. *)
Theorem window_is_restored_inside_a_display
    (env : WindowManager.Env) (id : string) (states : WindowManager.States) :
  (forall x y,
     WindowManager.WindowState.x (WindowManager.restoreWindowState env id states) = Some x ->
     WindowManager.WindowState.y (WindowManager.restoreWindowState env id states) = Some y ->
     exists displays bounds,
       WindowManager.getAllDisplays env = Some displays
       /\ In bounds displays
       /\ WindowManager.Rectangle.x bounds <= x
       /\ WindowManager.Rectangle.y bounds <= y
       /\ x + WindowManager.WindowState.width (WindowManager.restoreWindowState env id states)
          <= WindowManager.Rectangle.x bounds + WindowManager.Rectangle.width bounds
       /\ y + WindowManager.WindowState.height (WindowManager.restoreWindowState env id states)
          <= WindowManager.Rectangle.y bounds + WindowManager.Rectangle.height bounds)
  /\ (forall window displays,
        id <> "__proto__" ->
        WindowManager.isDestroyed window = false ->
        WindowManager.getFault env = false ->
        WindowManager.setFault env = false ->
        WindowManager.getAllDisplays env = Some displays ->
        let bounds := WindowManager.getBounds window in
        let visible :=
          existsb (WindowManager.within
                     (WindowManager.Rectangle.x bounds) (WindowManager.Rectangle.y bounds)
                     (WindowManager.Rectangle.width bounds)
                     (WindowManager.Rectangle.height bounds)) displays in
        WindowManager.restoreWindowState env id
          (WindowManager.saveWindowState env (Some window) id states)
        = {| WindowManager.WindowState.x :=
               if visible then Some (WindowManager.Rectangle.x bounds) else None;
             WindowManager.WindowState.y :=
               if visible then Some (WindowManager.Rectangle.y bounds) else None;
             WindowManager.WindowState.width := WindowManager.Rectangle.width bounds;
             WindowManager.WindowState.height := WindowManager.Rectangle.height bounds;
             WindowManager.WindowState.isMaximized := WindowManager.isMaximized window |}
        /\ forall other,
             other <> id ->
             WindowManager.restoreWindowState env other
               (WindowManager.saveWindowState env (Some window) id states)
             = WindowManager.restoreWindowState env other states)
  /\ (forall window,
        WindowManager.saveWindowState env window "__proto__" states = states).
Proof.
  split; [| split].
  - intros x y. unfold WindowManager.restoreWindowState.
    destruct (WindowManager.getFault env); [discriminate |].
    destruct (WindowManager.lookup states id) as [saved |].
    + destruct (WindowManager.WindowState.x saved) as [sx |] eqn:Hx;
        destruct (WindowManager.WindowState.y saved) as [sy |] eqn:Hy;
        try (rewrite Hx; discriminate); try (rewrite Hy; discriminate).
      destruct (WindowManager.getAllDisplays env) as [displays |]; [| discriminate].
      destruct (existsb _ displays) eqn:Hvisible; [| discriminate].
      rewrite Hx, Hy. intros [= <-] [= <-].
      apply existsb_exists in Hvisible as (bounds & Hin & Hwithin).
      unfold WindowManager.within in Hwithin.
      repeat (apply andb_true_iff in Hwithin as [Hwithin ?]).
      exists displays, bounds. repeat split; try assumption; apply Z.leb_le; assumption.
    + cbn. discriminate.
  - intros window displays Hid Halive Hget Hset Hdisplays bounds visible.
    unfold WindowManager.saveWindowState. rewrite Halive, Hget, Hset. cbn [orb].
    split.
    + unfold WindowManager.restoreWindowState.
      rewrite Hget, (lookup_assign _ _ _ Hid), Hdisplays.
      cbn [WindowManager.WindowState.x WindowManager.WindowState.y
           WindowManager.WindowState.width WindowManager.WindowState.height
           WindowManager.WindowState.isMaximized].
      fold bounds. fold visible. destruct visible; reflexivity.
    + intros other Hother. unfold WindowManager.restoreWindowState.
      rewrite lookup_assign_other by exact Hother. reflexivity.
  - intros [window |]; [| reflexivity]. unfold WindowManager.saveWindowState.
    destruct (WindowManager.isDestroyed window); [reflexivity |].
    destruct (WindowManager.getFault env || WindowManager.setFault env); reflexivity.
Qed.

Lemma window_is_restored_inside_a_display_witness :
  WindowManager.restoreWindowState
    {| WindowManager.getFault := false; WindowManager.setFault := false;
       WindowManager.getAllDisplays :=
         Some [{| WindowManager.Rectangle.x := 0; WindowManager.Rectangle.y := 0;
                  WindowManager.Rectangle.width := 1920;
                  WindowManager.Rectangle.height := 1080 |}] |}
    "main"
    (WindowManager.saveWindowState
       {| WindowManager.getFault := false; WindowManager.setFault := false;
          WindowManager.getAllDisplays :=
            Some [{| WindowManager.Rectangle.x := 0; WindowManager.Rectangle.y := 0;
                     WindowManager.Rectangle.width := 1920;
                     WindowManager.Rectangle.height := 1080 |}] |}
       (Some {| WindowManager.isDestroyed := false;
                WindowManager.getBounds :=
                  {| WindowManager.Rectangle.x := 1000; WindowManager.Rectangle.y := 50;
                     WindowManager.Rectangle.width := 1200;
                     WindowManager.Rectangle.height := 800 |};
                WindowManager.isMaximized := false |})
       "main" [])
  = {| WindowManager.WindowState.x := None; WindowManager.WindowState.y := None;
       WindowManager.WindowState.width := 1200; WindowManager.WindowState.height := 800;
       WindowManager.WindowState.isMaximized := false |}.
Proof.
  exact (proj1 (proj1 (proj2 (window_is_restored_inside_a_display
                  {| WindowManager.getFault := false; WindowManager.setFault := false;
                     WindowManager.getAllDisplays :=
                       Some [{| WindowManager.Rectangle.x := 0;
                                WindowManager.Rectangle.y := 0;
                                WindowManager.Rectangle.width := 1920;
                                WindowManager.Rectangle.height := 1080 |}] |}
                  "main" []))
               {| WindowManager.isDestroyed := false;
                  WindowManager.getBounds :=
                    {| WindowManager.Rectangle.x := 1000; WindowManager.Rectangle.y := 50;
                       WindowManager.Rectangle.width := 1200;
                       WindowManager.Rectangle.height := 800 |};
                  WindowManager.isMaximized := false |}
               [{| WindowManager.Rectangle.x := 0; WindowManager.Rectangle.y := 0;
                   WindowManager.Rectangle.width := 1920;
                   WindowManager.Rectangle.height := 1080 |}]
               ltac:(discriminate) eq_refl eq_refl eq_refl eq_refl)).
Defined.
